(** * Code Duplication Analyzer: a shallow embedding of
      backend/src/services/duplication.service.ts

    JavaScript strings are modelled as lists of code units restricted to the
    Latin-1 range ([list ascii]).  JavaScript numbers that count lines are
    modelled as [Z], with the rounding of a double from [2^53] on written
    out ([toDouble]) where the code reads or adds them.  The percentage is
    computed in doubles ([roundDouble], a rational rounded to 53 bits);
    the similarity of two blocks and the comparison with the severity
    thresholds are kept on exact rationals [Q].
    Insertion-ordered [Map]s are association lists, [Set]s are lists tested
    for membership.  Thrown exceptions are an explicit [result].

    The last sections of the definitions embed what surrounds the analyzer:
    [ReviewService.reviewPullRequest], with the services it calls as a
    record of functions; the cookie options of routes/auth.route.ts; and the
    helpers of the [DuplicateBlocksList] component of the result page. *)

From Stdlib Require Import List Ascii ZArith QArith Qround Qpower Lia Lqa Bool
  Arith.
From Stdlib Require String.
Import String.StringSyntax.
From Stdlib Require Import Permutation Sorted DecimalString DecimalPos DecimalZ.
Import ListNotations.

Local Open Scope Z_scope.

(** ** Strings *)

Module Str.

Abbreviation str := (list ascii).

Definition lit (s : String.string) : str := String.list_ascii_of_string s.

Definition code (c : ascii) : Z := Z.of_nat (nat_of_ascii c).

Fixpoint eqb (a b : str) : bool :=
  match a, b with
  | [], [] => true
  | x :: a', y :: b' => Ascii.eqb x y && eqb a' b'
  | _, _ => false
  end.

(** [s.startsWith(p)] *)
Fixpoint startsWith (p s : str) : bool :=
  match p, s with
  | [], _ => true
  | x :: p', y :: s' => Ascii.eqb x y && startsWith p' s'
  | _ :: _, [] => false
  end.

(** [s.endsWith(p)], used for the patterns anchored with [$]. *)
Definition endsWith (p s : str) : bool := startsWith (rev p) (rev s).

(** [p] occurs somewhere in [s] (an unanchored literal pattern). *)
Fixpoint includes (p s : str) : bool :=
  startsWith p s ||
  match s with
  | [] => false
  | _ :: s' => includes p s'
  end.

(** [s.split(c)] for a one-character separator: never empty. *)
Fixpoint split (c : ascii) (s : str) : list str :=
  match s with
  | [] => [[]]
  | x :: r =>
      if Ascii.eqb x c then [] :: split c r
      else match split c r with
           | [] => [[x]]
           | t :: ts => (x :: t) :: ts
           end
  end.

(** [parts.join(sep)] *)
Fixpoint join (sep : str) (parts : list str) : str :=
  match parts with
  | [] => []
  | [p] => p
  | p :: ps => p ++ sep ++ join sep ps
  end.

(** Code-unit order, the order of the default [Array.prototype.sort]. *)
Fixpoint ltb (a b : str) : bool :=
  match a, b with
  | _, [] => false
  | [], _ :: _ => true
  | x :: a', y :: b' =>
      if (code x <? code y) then true
      else if (code y <? code x) then false
      else ltb a' b'
  end.

(** The line terminators among the Latin-1 code units ([.] and [$] with the
    [m] flag stop at them). *)
Definition isLineTerminator (c : ascii) : bool :=
  (code c =? 10) || (code c =? 13).

(** The class [\s] among the Latin-1 code units: TAB, LF, VT, FF, CR, SP and
    NBSP. *)
Definition isSpace (c : ascii) : bool :=
  let n := code c in
  ((9 <=? n) && (n <=? 13)) || (n =? 32) || (n =? 160).

Definition isDigit (c : ascii) : bool :=
  let n := code c in (48 <=? n) && (n <=? 57).

(** The class [\w]. *)
Definition isWord (c : ascii) : bool :=
  let n := code c in
  ((48 <=? n) && (n <=? 57)) || ((65 <=? n) && (n <=? 90)) ||
  ((97 <=? n) && (n <=? 122)) || (n =? 95).

(** [String.prototype.toLowerCase] on one Latin-1 code unit. *)
Definition lowerChar (c : ascii) : ascii :=
  let n := code c in
  if ((65 <=? n) && (n <=? 90)) ||
     ((192 <=? n) && (n <=? 222) && negb (n =? 215))
  then ascii_of_nat (Z.to_nat (n + 32)) else c.

Definition toLowerCase (s : str) : str := map lowerChar s.

Fixpoint trimStart (s : str) : str :=
  match s with
  | c :: r => if isSpace c then trimStart r else s
  | [] => []
  end.

Definition trim (s : str) : str := rev (trimStart (rev (trimStart s))).

(** Decimal rendering of an integral number, as template literals do. *)
Definition ofZ (z : Z) : str := lit (NilZero.string_of_int (Z.to_int z)).

End Str.

Import Str.

Coercion Str.lit : String.string >-> list.

Local Open Scope string_scope.
Local Open Scope list_scope.
Local Open Scope Z_scope.

(** ** Input and output records (types/review.ts) *)

(** The [patch?: string] field as the code may meet it at run time: absent
    (or any falsy value), a string, or a truthy value that is not a string. *)
Inductive patchField :=
| PatchAbsent
| PatchString (s : str)
| PatchOther.

Record PrFile := mkPrFile {
  filename : str;
  status : str;
  additions : Z;
  deletions : Z;
  changes : Z;
  patch : patchField
}.

Record LineRange := mkRange { start : Z; end_ : Z }.

Record FileRange := mkFileRange { fr_file : str; fr_lines : LineRange }.

Record DuplicateBlock := mkDup {
  file1 : str;
  file2 : str;
  lines1 : LineRange;
  lines2 : LineRange;
  code : str;
  similarity : Q;
  clusterSize : option Z;
  allFiles : option (list FileRange);
  patternHash : option str
}.

Inductive Severity := low | medium | high.

Record CodeDuplicationAnalysis := mkReport {
  percentage : Q;
  severity : Severity;
  duplicateBlocks : list DuplicateBlock;
  totalLines : Z;
  duplicatedLines : Z
}.

Record AddedLine := mkLine { lineNumber : Z; content : str }.

Record CodeBlock := mkBlock {
  file : str;
  startLine : Z;
  endLine : Z;
  bcode : str;
  normalizedCode : str;
  hash : str
}.

Definition MIN_BLOCK_SIZE : nat := 10.
Definition SIMILARITY_THRESHOLD : Q := 85 # 100.
Definition CLUSTER_SIMILARITY_THRESHOLD : Q := 9 # 10.

(** ** shouldSkipFile *)

Definition shouldSkipFile (name : str) : bool :=
  endsWith ".json" name ||
  endsWith ".md" name ||
  endsWith ".txt" name ||
  endsWith ".yaml" name ||
  endsWith ".yml" name ||
  endsWith ".lock" name ||
  endsWith "package-lock.json" name ||
  endsWith "yarn.lock" name ||
  endsWith ".min.js" name ||
  includes ".test." name ||
  includes ".spec." name ||
  includes "/__tests__/" name ||
  includes "/node_modules/" name ||
  includes "/dist/" name ||
  includes "/build/" name.

(** ** Numbers that count

    A JavaScript number that holds an integer is modelled as that integer.
    [toDouble z] is the double nearest to the integer [z], the one with the
    even significand in a tie: every integer up to [2^53] in absolute value
    is a double, and beyond [z] keeps its 53 leading bits.  It is applied
    where the code computes a number from digits or by an addition.
    (Numbers from [2^1024] on, which are [Infinity] in JavaScript, are not
    modelled: every statement on large numbers carries a bound.) *)
Definition toDouble (z : Z) : Z :=
  if Z.abs z <=? 2 ^ 53 then z
  else
    let q := 2 ^ (Z.log2 (Z.abs z) - 52) in
    let m := Z.abs z / q in
    let r := Z.abs z mod q in
    let m' := if 2 * r <? q then m
              else if q <? 2 * r then m + 1
              else if Z.even m then m else m + 1 in
    Z.sgn z * (m' * q).

(** ** Numbers that measure

    A double that is not an integer is modelled as the rational it is.
    [roundDouble x] is the double nearest to the rational [x], the one with
    the even significand in a tie: [x] is scaled by a power of two to
    between [2^52] and [2^53], rounded to an integer and scaled back.  The
    exponent is not bounded, so that results below [2^-1022] or from
    [2^1024] on are not those of JavaScript. *)

(** The integer nearest to [m], the even one in a tie. *)
Definition nearestEven (m : Q) : Z :=
  let f := Qfloor m in
  match (m - inject_Z f ?= 1 # 2)%Q with
  | Lt => f
  | Gt => f + 1
  | Eq => if Z.even f then f else f + 1
  end.

(** The exponent of the last of the 53 bits of a positive number. *)
Definition lastPlace (x : Q) : Z :=
  let e := Z.log2 (Qnum x) - Z.log2 (Zpos (Qden x)) in
  if Qle_bool (2 ^ e) x then e - 52 else e - 53.

Definition roundPositive (x : Q) : Q :=
  let s := lastPlace x in
  (inject_Z (nearestEven (x / 2 ^ s)) * 2 ^ s)%Q.

Definition roundDouble (x : Q) : Q :=
  let x' := Qred x in
  match Qnum x' with
  | Z0 => 0%Q
  | Zpos _ => Qred (roundPositive x')
  | Zneg _ => Qred (- roundPositive (- x'))
  end.

(** [a / b] and [a * b] on doubles. *)
Definition divDouble (a b : Q) : Q := roundDouble (a / b).

Definition mulDouble (a b : Q) : Q := roundDouble (a * b).

(** ** extractAddedLines *)

Fixpoint takeDigits (s : str) : str :=
  match s with
  | c :: r => if isDigit c then c :: takeDigits r else []
  | [] => []
  end.

(** [parseInt(ds, 10)] on a run of decimal digits. *)
Definition parseDigits (ds : str) : Z :=
  fold_left (fun acc c => 10 * acc + (Str.code c - 48)) ds 0.

(** [line.match(/\+(\d+)/)]: the leftmost [+] that a digit follows, with the
    longest run of digits after it. *)
Fixpoint matchPlusDigits (s : str) : option str :=
  match s with
  | [] => None
  | c :: r =>
      if Ascii.eqb c "+"%char then
        match takeDigits r with
        | [] => matchPlusDigits r
        | ds => Some ds
        end
      else matchPlusDigits r
  end.

(** One turn of the loop over [patchLines]: the cursor and the lines pushed
    so far (kept in order). *)
Definition addedStep (st : Z * list AddedLine) (line : str) : Z * list AddedLine :=
  let '(currentLine, lines) := st in
  if startsWith "@@" line then
    match matchPlusDigits line with
    | Some ds => (toDouble (parseDigits ds), lines)
    | None => (currentLine, lines)
    end
  else if startsWith "+" line && negb (startsWith "+++" line) then
    (toDouble (currentLine + 1), lines ++ [mkLine currentLine (tl line)])
  else if negb (startsWith "-" line) then
    (toDouble (currentLine + 1), lines)
  else (currentLine, lines).

Definition extractAddedLines (patch : str) : list AddedLine :=
  snd (fold_left addedStep (split "010"%char patch) (0, [])).

(** ** The MD5 digest of Node's [crypto] module *)

Module MD5.

Definition mask : Z := 4294967295.

Definition add32 (a b : Z) : Z := Z.land (a + b) mask.

Definition rotl (x c : Z) : Z :=
  Z.land (Z.lor (Z.shiftl x c) (Z.shiftr x (32 - c))) mask.

Definition not32 (x : Z) : Z := Z.lxor x mask.

Definition shifts : list Z :=
  [7; 12; 17; 22; 7; 12; 17; 22; 7; 12; 17; 22; 7; 12; 17; 22;
   5; 9; 14; 20; 5; 9; 14; 20; 5; 9; 14; 20; 5; 9; 14; 20;
   4; 11; 16; 23; 4; 11; 16; 23; 4; 11; 16; 23; 4; 11; 16; 23;
   6; 10; 15; 21; 6; 10; 15; 21; 6; 10; 15; 21; 6; 10; 15; 21].

Definition sines : list Z :=
  [3614090360; 3905402710; 606105819; 3250441966;
   4118548399; 1200080426; 2821735955; 4249261313;
   1770035416; 2336552879; 4294925233; 2304563134;
   1804603682; 4254626195; 2792965006; 1236535329;
   4129170786; 3225465664; 643717713; 3921069994;
   3593408605; 38016083; 3634488961; 3889429448;
   568446438; 3275163606; 4107603335; 1163531501;
   2850285829; 4243563512; 1735328473; 2368359562;
   4294588738; 2272392833; 1839030562; 4259657740;
   2763975236; 1272893353; 4139469664; 3200236656;
   681279174; 3936430074; 3572445317; 76029189;
   3654602809; 3873151461; 530742520; 3299628645;
   4096336452; 1126891415; 2878612391; 4237533241;
   1700485571; 2399980690; 4293915773; 2240044497;
   1873313359; 4264355552; 2734768916; 1309151649;
   4149444226; 3174756917; 718787259; 3951481745].

(** UTF-8 encoding of a Latin-1 code unit. *)
Definition utf8 (c : ascii) : list Z :=
  let n := Str.code c in
  if n <? 128 then [n]
  else [Z.lor 192 (Z.shiftr n 6); Z.lor 128 (Z.land n 63)].

Definition le64 (n : Z) : list Z :=
  map (fun i => Z.land (Z.shiftr n (8 * Z.of_nat i)) 255) (seq 0 8).

Definition pad (msg : list Z) : list Z :=
  let len := Z.of_nat (length msg) in
  let zeros := Z.to_nat ((55 - len) mod 64) in
  msg ++ [128] ++ repeat 0 zeros ++ le64 (8 * len).

Fixpoint words (n : nat) (bs : list Z) : list Z :=
  match n, bs with
  | S n', b0 :: b1 :: b2 :: b3 :: r =>
      (b0 + 256 * b1 + 65536 * b2 + 16777216 * b3) :: words n' r
  | _, _ => []
  end.

Definition state : Type := Z * Z * Z * Z.

Definition round (m : list Z) (st : state) (i : nat) : state :=
  let '(a, b, c, d) := st in
  let zi := Z.of_nat i in
  let '(f, g) :=
    if zi <? 16 then (Z.lor (Z.land b c) (Z.land (not32 b) d), zi)
    else if zi <? 32 then
      (Z.lor (Z.land d b) (Z.land (not32 d) c), (5 * zi + 1) mod 16)
    else if zi <? 48 then (Z.lxor b (Z.lxor c d), (3 * zi + 5) mod 16)
    else (Z.lxor c (Z.lor b (not32 d)), (7 * zi) mod 16) in
  let f' := add32 (add32 (add32 f a) (nth i sines 0)) (nth (Z.to_nat g) m 0) in
  (d, add32 b (rotl f' (nth i shifts 0)), b, c).

Definition chunk (st : state) (m : list Z) : state :=
  let '(a0, b0, c0, d0) := st in
  let '(a, b, c, d) := fold_left (round m) (seq 0 64) st in
  (add32 a0 a, add32 b0 b, add32 c0 c, add32 d0 d).

Fixpoint chunks (n : nat) (bs : list Z) (st : state) : state :=
  match n with
  | O => st
  | S n' => chunks n' (skipn 64 bs) (chunk st (words 16 bs))
  end.

Definition hexDigit (n : Z) : ascii :=
  if n <? 10 then ascii_of_nat (Z.to_nat (48 + n))
  else ascii_of_nat (Z.to_nat (87 + n)).

Definition hexWord (w : Z) : str :=
  flat_map (fun i =>
    let b := Z.land (Z.shiftr w (8 * Z.of_nat i)) 255 in
    [hexDigit (Z.shiftr b 4); hexDigit (Z.land b 15)]) (seq 0 4).

(** [crypto.createHash('md5').update(s).digest('hex')] *)
Definition digestHex (s : str) : str :=
  let bs := pad (flat_map utf8 s) in
  let '(a, b, c, d) :=
    chunks (length bs / 64) bs (1732584193, 4023233417, 2562383102, 271733878) in
  hexWord a ++ hexWord b ++ hexWord c ++ hexWord d.

End MD5.

Definition hashCode (code : str) : str := MD5.digestHex code.

(** ** Regular-expression passes *)

Definition matcher : Type := str -> option str.

(** [s.replace(re, repl)] for a global pattern that never matches the empty
    string.  [m s] is what is left of [s] after the match of the pattern that
    starts at the head of [s], when there is one; [skip] counts the code
    units of the current match that are still to be dropped. *)
Fixpoint replaceFrom (m : matcher) (repl : str) (skip : nat) (s : str) : str :=
  match s with
  | [] => []
  | c :: r =>
      match skip with
      | S k => replaceFrom m repl k r
      | O =>
          match m s with
          | Some rest =>
              repl ++ replaceFrom m repl (length r - length rest) r
          | None => c :: replaceFrom m repl 0 r
          end
      end
  end.

Definition replaceAll (m : matcher) (repl s : str) : str :=
  replaceFrom m repl 0 s.

(** [(s.match(re) || []).length] for a global pattern. *)
Fixpoint countFrom (m : matcher) (skip : nat) (s : str) : nat :=
  match s with
  | [] => O
  | _ :: r =>
      match skip with
      | S k => countFrom m k r
      | O =>
          match m s with
          | Some rest => S (countFrom m (length r - length rest) r)
          | None => countFrom m 0 r
          end
      end
  end.

Fixpoint dropWhile (p : ascii -> bool) (s : str) : str :=
  match s with
  | c :: r => if p c then dropWhile p r else s
  | [] => []
  end.

(** [/\/\/.*$/m] at the head. *)
Definition mLineComment : matcher := fun s =>
  match s with
  | c :: d :: r =>
      if Ascii.eqb c "/"%char && Ascii.eqb d "/"%char
      then Some (dropWhile (fun x => negb (isLineTerminator x)) r)
      else None
  | _ => None
  end.

(** What follows the first [*/]. *)
Fixpoint afterClose (s : str) : option str :=
  match s with
  | c :: r =>
      match r with
      | d :: r' =>
          if Ascii.eqb c "*"%char && Ascii.eqb d "/"%char then Some r'
          else afterClose r
      | [] => None
      end
  | [] => None
  end.

(** [/\/\*[\s\S]*?\*\//] at the head. *)
Definition mBlockComment : matcher := fun s =>
  match s with
  | c :: d :: r =>
      if Ascii.eqb c "/"%char && Ascii.eqb d "*"%char
      then afterClose r else None
  | _ => None
  end.

(** The body and closing quote of [/q([^q\\]|\\.)*q/]. *)
Fixpoint literalEnd (q : ascii) (s : str) : option str :=
  match s with
  | [] => None
  | c :: r =>
      if Ascii.eqb c q then Some r
      else if Ascii.eqb c "\"%char then
        match r with
        | d :: r' => if isLineTerminator d then None else literalEnd q r'
        | [] => None
        end
      else literalEnd q r
  end.

Definition mQuoted (q : ascii) : matcher := fun s =>
  match s with
  | c :: r => if Ascii.eqb c q then literalEnd q r else None
  | [] => None
  end.

(** [/\s+/] at the head. *)
Definition mSpaces : matcher := fun s =>
  match s with
  | c :: r => if isSpace c then Some (dropWhile isSpace r) else None
  | [] => None
  end.

Definition dquote : ascii := ascii_of_nat 34.

(** ** normalizeCode *)

Definition normalizeCode (code : str) : str :=
  toLowerCase
    (trim
      (replaceAll mSpaces " "
        (replaceAll (mQuoted "`"%char) "``"
          (replaceAll (mQuoted "'"%char) "''"
            (replaceAll (mQuoted dquote) [dquote; dquote]
              (replaceAll mBlockComment []
                (replaceAll mLineComment [] code))))))).

(** ** isTrivalBlock *)

(** [/^kw\s/] *)
Definition startsWithThenSpace (kw s : str) : bool :=
  startsWith kw s &&
  match skipn (length kw) s with
  | c :: _ => isSpace c
  | [] => false
  end.

(** [/^const\s+\w+\s*=\s*require/] *)
Definition isConstRequire (s : str) : bool :=
  startsWith "const" s &&
  match skipn 5 s with
  | c :: r =>
      isSpace c &&
      match dropWhile isSpace r with
      | w :: r1 =>
          isWord w &&
          match dropWhile isSpace (dropWhile isWord r1) with
          | e :: r2 =>
              Ascii.eqb e "="%char && startsWith "require" (dropWhile isSpace r2)
          | [] => false
          end
      | [] => false
      end
  | [] => false
  end.

(** [/^\s*c\s*$/] *)
Definition isLone (c : ascii) (s : str) : bool :=
  match dropWhile isSpace s with
  | x :: r => Ascii.eqb x c && forallb isSpace r
  | [] => false
  end.

(** A literal matched case-insensitively (flag [i]) at the head. *)
Fixpoint startsWithCI (p s : str) : bool :=
  match p, s with
  | [], _ => true
  | x :: p', y :: s' =>
      ((Ascii.eqb x y) || ((Str.code y <? 128) && Ascii.eqb x (lowerChar y)))
      && startsWithCI p' s'
  | _ :: _, [] => false
  end.

(** [/classname|class=/i] at the head. *)
Definition mClassName : matcher := fun s =>
  if startsWithCI "classname" s then Some (skipn 9 s)
  else if startsWithCI "class=" s then Some (skipn 6 s)
  else None.

Definition isTrivalBlock (normalizedCode : str) : bool :=
  if (length normalizedCode <? 30)%nat then true
  else
    let classNameRatio := countFrom mClassName 0 normalizedCode in
    if (2 <? classNameRatio)%nat && (length normalizedCode <? 100)%nat then true
    else
      startsWithThenSpace "import" normalizedCode ||
      startsWithThenSpace "export" normalizedCode ||
      isConstRequire normalizedCode ||
      isLone "}"%char normalizedCode ||
      isLone "{"%char normalizedCode ||
      isLone ")"%char normalizedCode ||
      isLone "("%char normalizedCode.

(** ** calculateSimilarity *)

Definition str_eq_dec : forall a b : str, {a = b} + {a <> b} :=
  list_eq_dec ascii_dec.

(** [s.split(/\s+/)]: never empty; a leading or trailing run of white space
    leaves an empty token. *)
Fixpoint splitSpaces (inSep : bool) (s : str) : list str :=
  match s with
  | [] => [[]]
  | c :: r =>
      if isSpace c then
        if inSep then splitSpaces true r else [] :: splitSpaces true r
      else
        match splitSpaces false r with
        | t :: ts => (c :: t) :: ts
        | [] => [[c]]
        end
  end.

Definition tokenSet (s : str) : list str := nodup str_eq_dec (splitSpaces false s).

Definition calculateSimilarity (code1 code2 : str) : Q :=
  let tokens1 := tokenSet code1 in
  let tokens2 := tokenSet code2 in
  let intersection :=
    filter (fun x => if in_dec str_eq_dec x tokens2 then true else false) tokens1 in
  let union := nodup str_eq_dec (tokens1 ++ tokens2) in
  if (0 <? length union)%nat
  then Z.of_nat (length intersection) # Pos.of_nat (length union)
  else 0%Q.

(** ** Errors *)

(** A step either returns or throws; what is thrown is never inspected. *)
Inductive result (A : Type) : Type :=
| Ok (a : A)
| Thrown.

Arguments Ok {A} a.
Arguments Thrown {A}.

Definition bind {A B : Type} (r : result A) (k : A -> result B) : result B :=
  match r with
  | Ok a => k a
  | Thrown => Thrown
  end.

Notation "x <- r ;; k" := (bind r (fun x => k))
  (at level 61, r at next level, right associativity).

(** ** extractCodeBlocks *)

(** The windows [lines.slice(i, i + n)] for [i] from [0] to
    [lines.length - n]. *)
Fixpoint windows {A : Type} (n : nat) (lines : list A) : list (list A) :=
  match lines with
  | [] => []
  | _ :: r =>
      if (n <=? length lines)%nat then firstn n lines :: windows n r else []
  end.

Definition lineZero : AddedLine := mkLine 0 [].

Definition blockOfWindow (name : str) (blockLines : list AddedLine)
  : list CodeBlock :=
  let code := join [ascii_of_nat 10] (map content blockLines) in
  let normalizedCode := normalizeCode code in
  if isTrivalBlock normalizedCode then []
  else [mkBlock name
          (lineNumber (hd lineZero blockLines))
          (lineNumber (last blockLines lineZero))
          code normalizedCode (hashCode normalizedCode)].

Definition blocksOfPatch (name patch : str) : list CodeBlock :=
  flat_map (blockOfWindow name) (windows MIN_BLOCK_SIZE (extractAddedLines patch)).

(** The body of the loop for one entry of [files]; a [null] entry makes
    [file.filename] throw, a truthy patch that is no string makes
    [patch.split] throw. *)
Definition blocksOfFile (entry : option PrFile) : result (list CodeBlock) :=
  match entry with
  | None => Thrown
  | Some f =>
      if shouldSkipFile (filename f) then Ok []
      else
        match patch f with
        | PatchAbsent => Ok []
        | PatchOther => Thrown
        | PatchString [] => Ok []
        | PatchString p => Ok (blocksOfPatch (filename f) p)
        end
  end.

Fixpoint extractCodeBlocks (files : list (option PrFile))
  : result (list CodeBlock) :=
  match files with
  | [] => Ok []
  | entry :: rest =>
      bs <- blocksOfFile entry ;;
      bs' <- extractCodeBlocks rest ;;
      Ok (bs ++ bs')
  end.

(** ** createDuplicateKey *)

Definition blockKey (b : CodeBlock) : str :=
  file b ++ ":" ++ ofZ (startLine b) ++ "-" ++ ofZ (endLine b).

(** [[a, b].sort()] with the default comparison. *)
Definition sortTwo (a b : str) : list str :=
  if Str.ltb b a then [b; a] else [a; b].

Definition createDuplicateKey (block1 block2 : CodeBlock) : str :=
  join "|" (sortTwo (blockKey block1) (blockKey block2)).

(** ** findDuplicates: the two detection passes *)

(** The index pairs [i < j] in the order of the nested loops. *)
Fixpoint pairsOf {A : Type} (l : list A) : list (A * A) :=
  match l with
  | [] => []
  | x :: r => map (pair x) r ++ pairsOf r
  end.

(** An insertion-ordered [Map] whose values are arrays: [bucketAdd] is
    [if (!m.has(k)) m.set(k, []); m.get(k).push(v)]. *)
Fixpoint bucketAdd {K A : Type} (eqb : K -> K -> bool) (k : K) (v : A)
  (m : list (K * list A)) : list (K * list A) :=
  match m with
  | [] => [(k, [v])]
  | (k', vs) :: m' =>
      if eqb k' k then (k', vs ++ [v]) :: m'
      else (k', vs) :: bucketAdd eqb k v m'
  end.

Definition bucketStep {A : Type} (key : A -> str) (m : list (str * list A)) (x : A)
  : list (str * list A) :=
  bucketAdd Str.eqb (key x) x m.

Definition groupBy {A : Type} (key : A -> str) (l : list A)
  : list (str * list A) :=
  fold_left (bucketStep key) l [].

Definition pairOf (b1 b2 : CodeBlock) (sim : Q) : DuplicateBlock :=
  mkDup (file b1) (file b2)
        (mkRange (startLine b1) (endLine b1))
        (mkRange (startLine b2) (endLine b2))
        (bcode b1) sim None None None.

Definition seenHas (seen : list str) (key : str) : bool :=
  existsb (Str.eqb key) seen.

(** The state of both passes: [duplicates] and [seen]. *)
Definition detState : Type := list DuplicateBlock * list str.

Definition pushUnseen (st : detState) (b1 b2 : CodeBlock) (sim : Q) : detState :=
  let '(duplicates, seen) := st in
  let key := createDuplicateKey b1 b2 in
  if seenHas seen key then st
  else (duplicates ++ [pairOf b1 b2 sim], key :: seen).

Definition exactStep (st : detState) (p : CodeBlock * CodeBlock) : detState :=
  let '(b1, b2) := p in
  if Str.eqb (file b1) (file b2) then st
  else pushUnseen st b1 b2 1.

Definition exactPass (blocks : list CodeBlock) (st : detState) : detState :=
  fold_left
    (fun st bucket => fold_left exactStep (pairsOf (snd bucket)) st)
    (groupBy hash blocks) st.

Definition fuzzyStep (st : detState) (p : CodeBlock * CodeBlock) : detState :=
  let '(b1, b2) := p in
  if Str.eqb (file b1) (file b2) then st
  else
    let similarity := calculateSimilarity (normalizedCode b1) (normalizedCode b2) in
    if Qle_bool SIMILARITY_THRESHOLD similarity && negb (Qle_bool 1 similarity)
    then pushUnseen st b1 b2 similarity
    else st.

Definition fuzzyPass (blocks : list CodeBlock) (st : detState) : detState :=
  fold_left fuzzyStep (pairsOf blocks) st.

Definition detectPairs (blocks : list CodeBlock) : list DuplicateBlock :=
  fst (fuzzyPass blocks (exactPass blocks ([], []))).

(** ** Array.prototype.sort with a comparison function *)

(** The sort is stable; [le a b] stands for [compare(a, b) <= 0]. *)
Fixpoint insertBy {A : Type} (le : A -> A -> bool) (x : A) (l : list A) : list A :=
  match l with
  | [] => [x]
  | y :: r => if le x y then x :: l else y :: insertBy le x r
  end.

Fixpoint sortBy {A : Type} (le : A -> A -> bool) (l : list A) : list A :=
  match l with
  | [] => []
  | x :: r => insertBy le x (sortBy le r)
  end.

(** ** mergeOverlappingDuplicates *)

Definition pairGroupKey (dup : DuplicateBlock) : str :=
  join "|" (sortTwo (file1 dup) (file2 dup)).

Definition overlaps (current next : LineRange) : bool :=
  start next <=? end_ current + 2.

Definition hull (current next : LineRange) : LineRange :=
  mkRange (Z.min (start current) (start next)) (Z.max (end_ current) (end_ next)).

(** [Math.max] on two ratios. *)
Definition qmax (a b : Q) : Q := if Qle_bool a b then b else a.

Definition mergeInto (current next : DuplicateBlock) : DuplicateBlock :=
  mkDup (file1 current) (file2 current)
        (hull (lines1 current) (lines1 next))
        (hull (lines2 current) (lines2 next))
        (code current)
        (qmax (similarity current) (similarity next))
        (clusterSize current) (allFiles current) (patternHash current).

Fixpoint coalesce (current : DuplicateBlock) (rest : list DuplicateBlock)
  : list DuplicateBlock :=
  match rest with
  | [] => [current]
  | next :: rest' =>
      if overlaps (lines1 current) (lines1 next)
         && overlaps (lines2 current) (lines2 next)
      then coalesce (mergeInto current next) rest'
      else current :: coalesce next rest'
  end.

Definition mergeGroup (groupDuplicates : list DuplicateBlock) : list DuplicateBlock :=
  match sortBy (fun a b => start (lines1 a) <=? start (lines1 b)) groupDuplicates with
  | [] => []
  | current :: rest => coalesce current rest
  end.

Definition mergeOverlappingDuplicates (duplicates : list DuplicateBlock)
  : list DuplicateBlock :=
  flat_map (fun g => mergeGroup (snd g)) (groupBy pairGroupKey duplicates).

(** ** clusterDuplicatesByPattern *)

(** [parent[i] = v] *)
Fixpoint setNth (i : nat) (v : nat) (parent : list nat) : list nat :=
  match parent, i with
  | [], _ => []
  | _ :: r, O => v :: r
  | x :: r, S i' => x :: setNth i' v r
  end.

(** [find] with path compression; [fuel] bounds the depth of the recursion
    (see [find_fuel_irrelevant]: the bound is never reached). *)
Fixpoint find (fuel : nat) (parent : list nat) (x : nat) : list nat * nat :=
  match fuel with
  | O => (parent, x)
  | S fuel' =>
      let px := nth x parent x in
      if (px =? x)%nat then (parent, px)
      else
        let '(parent', r) := find fuel' parent px in
        (setNth x r parent', r)
  end.

Definition union (fuel : nat) (parent : list nat) (x y : nat) : list nat :=
  let '(parent1, rootX) := find fuel parent x in
  let '(parent2, rootY) := find fuel parent1 y in
  if (rootX =? rootY)%nat then parent2 else setNth rootX rootY parent2.

Definition unionStep (fuel : nat) (parent : list nat)
  (p : (nat * DuplicateBlock) * (nat * DuplicateBlock)) : list nat :=
  let '((i, di), (j, dj)) := p in
  let similarity := calculateSimilarity (code di) (code dj) in
  if Qle_bool CLUSTER_SIMILARITY_THRESHOLD similarity
  then union fuel parent i j else parent.

Definition indexed {A : Type} (l : list A) : list (nat * A) :=
  combine (seq 0 (length l)) l.

Definition findFuel (n : nat) : nat := S (n * n).

Definition unionAllWith (fuel : nat) (duplicates : list DuplicateBlock) : list nat :=
  fold_left (unionStep fuel)
            (pairsOf (indexed duplicates))
            (seq 0 (length duplicates)).

(** [clusterMap]: the pairs grouped by their root, in index order. *)
Definition clusterStep (fuel : nat)
  (st : list nat * list (nat * list DuplicateBlock)) (p : nat * DuplicateBlock)
  : list nat * list (nat * list DuplicateBlock) :=
  let '(parent, clusterMap) := st in
  let '(parent', root) := find fuel parent (fst p) in
  (parent', bucketAdd Nat.eqb root (snd p) clusterMap).

Definition clustersWith (fuel : nat) (duplicates : list DuplicateBlock)
  : list (list DuplicateBlock) :=
  map snd
    (snd (fold_left (clusterStep fuel)
                    (indexed duplicates)
                    (unionAllWith fuel duplicates, []))).

Definition clustersOf (duplicates : list DuplicateBlock)
  : list (list DuplicateBlock) :=
  clustersWith (findFuel (length duplicates)) duplicates.

Definition fileLocationsOf (cluster : list DuplicateBlock)
  : list (str * list LineRange) :=
  fold_left
    (fun m inst =>
       bucketAdd Str.eqb (file2 inst) (lines2 inst)
         (bucketAdd Str.eqb (file1 inst) (lines1 inst) m))
    cluster [].

Fixpoint coalesceRanges (current : LineRange) (rest : list LineRange)
  : list LineRange :=
  match rest with
  | [] => [current]
  | next :: rest' =>
      if overlaps current next then coalesceRanges (hull current next) rest'
      else current :: coalesceRanges next rest'
  end.

Definition mergedRangesOf (ranges : list LineRange) : list LineRange :=
  match sortBy (fun a b => start a <=? start b) ranges with
  | [] => []
  | current :: rest => coalesceRanges current rest
  end.

Definition allFilesOf (fileLocations : list (str * list LineRange))
  : list FileRange :=
  flat_map (fun e => map (mkFileRange (fst e)) (mergedRangesOf (snd e)))
           fileLocations.

(** [cluster.reduce((best, current) => current.similarity > best.similarity
    ? current : best)] *)
Definition representativeOf (first : DuplicateBlock) (rest : list DuplicateBlock)
  : DuplicateBlock :=
  fold_left
    (fun best current =>
       if Qle_bool (similarity current) (similarity best) then best else current)
    rest first.

Definition clusterFinding (cluster : list DuplicateBlock) : list DuplicateBlock :=
  match cluster with
  | [] => []
  | [single] => [single]
  | first :: rest =>
      let fileLocations := fileLocationsOf cluster in
      let representative := representativeOf first rest in
      [mkDup (file1 representative) (file2 representative)
             (lines1 representative) (lines2 representative)
             (code representative) (similarity representative)
             (Some (Z.of_nat (length fileLocations)))
             (Some (allFilesOf fileLocations))
             (Some (hashCode (code representative)))]
  end.

Definition clusterDuplicatesByPattern (duplicates : list DuplicateBlock)
  : list DuplicateBlock :=
  flat_map clusterFinding (clustersOf duplicates).

(** ** findDuplicates *)

(** [a.clusterSize || 1] *)
Definition sizeOf (d : DuplicateBlock) : Z :=
  match clusterSize d with
  | Some 0 => 1
  | Some n => n
  | None => 1
  end.

(** The comparison function of the final sort, as [compare(a, b) <= 0]. *)
Definition rankLe (a b : DuplicateBlock) : bool :=
  if negb (sizeOf a =? sizeOf b) then sizeOf b - sizeOf a <=? 0
  else Qle_bool (similarity b) (similarity a).

Definition findDuplicates (blocks : list CodeBlock) : list DuplicateBlock :=
  let duplicates := detectPairs blocks in
  let merged := mergeOverlappingDuplicates duplicates in
  let clustered := clusterDuplicatesByPattern merged in
  sortBy rankLe clustered.

(** ** Aggregate metrics *)

Definition totalStep (acc : result Z) (entry : option PrFile) : result Z :=
  sum <- acc ;;
  match entry with
  | None => Thrown
  | Some f =>
      Ok (if shouldSkipFile (filename f) then sum
          else toDouble (sum + additions f))
  end.

Definition calculateTotalLines (files : list (option PrFile)) : result Z :=
  fold_left totalStep files (Ok 0).

(** The keys [`${file}:${i}`] for [i] from [start] to [end]. *)
Definition lineKeys (name : str) (r : LineRange) : list str :=
  map (fun k => name ++ ":" ++ ofZ (start r + Z.of_nat k))
      (seq 0 (Z.to_nat (end_ r - start r + 1))).

(** The size of [uniqueLines] when the two loops have ended for every
    finding; the loops themselves are [addLines] below, which do not end
    on a range that reaches [2^53]. *)
Definition calculateDuplicatedLines (duplicates : list DuplicateBlock) : Z :=
  let uniqueLines :=
    nodup str_eq_dec
      (flat_map (fun dup => lineKeys (file1 dup) (lines1 dup)
                            ++ lineKeys (file2 dup) (lines2 dup)) duplicates) in
  Z.of_nat (length uniqueLines).

Definition calculateSeverity (percentage : Q) : Severity :=
  if Qle_bool 30 percentage then high
  else if Qle_bool 15 percentage then medium
  else low.

(** [Math.round(x)]: the nearest integer, ties towards [+Infinity]. *)
Definition mathRound (x : Q) : Z := Qfloor (x + (1 # 2)).

(** ** analyzeDuplication *)

Definition emptyReport : CodeDuplicationAnalysis := mkReport 0 low [] 0 0.

(** The body of the [try] block.  [files] is [None] for a [null] argument,
    on which the first [for ... of] throws.

    [percentage] is the double the code computes and rounds to one
    decimal; the report holds the double nearest to that decimal, which is
    kept here as the decimal itself.  [ratio] is the number [percentage]
    stands for, and the severity is read from it: the double falls on the
    same side of [15] and of [30] for fewer than [2^50] lines
    ([calculateSeverity_double]). *)
Definition analyze (files : option (list (option PrFile)))
  : result CodeDuplicationAnalysis :=
  match files with
  | None => Thrown
  | Some files =>
      blocks <- extractCodeBlocks files ;;
      let duplicates := findDuplicates blocks in
      totalLines <- calculateTotalLines files ;;
      let duplicatedLines := calculateDuplicatedLines duplicates in
      let ratio :=
        if 0 <? totalLines
        then ((inject_Z duplicatedLines / inject_Z totalLines) * 100)%Q
        else 0%Q in
      let percentage :=
        if 0 <? totalLines
        then mulDouble (divDouble (inject_Z duplicatedLines)
                                  (inject_Z totalLines)) 100
        else 0%Q in
      let severity := calculateSeverity ratio in
      Ok (mkReport
            (Qred (inject_Z (mathRound (mulDouble percentage 10)) / 10))
            severity duplicates totalLines duplicatedLines)
  end.

Definition analyzeDuplication (files : option (list (option PrFile)))
  : CodeDuplicationAnalysis :=
  match analyze files with
  | Ok report => report
  | Thrown => emptyReport
  end.

(** ** Sample inputs *)

Definition nl : str := [ascii_of_nat 10].

Definition sampleBody : list str :=
  [ lit "function total(items) {";
    lit "  let sum = 0;";
    lit "  for (const item of items) {";
    lit "    sum += item.price * item.count;";
    lit "  }";
    lit "  if (sum > limit) {";
    lit "    report(sum);";
    lit "  }";
    lit "  return sum;";
    lit "}" ].

Definition addedPatch (header : str) (body : list str) : str :=
  join nl (header :: map (fun l => "+" ++ l) body).

Definition fileOf (name : str) (adds : Z) (p : str) : option PrFile :=
  Some (mkPrFile name "added" adds 0 adds (PatchString p)).

Definition twoCopies : list (option PrFile) :=
  [ fileOf "src/a.ts" 10 (addedPatch "@@ -0,0 +1,10 @@" sampleBody);
    fileOf "src/b.ts" 10 (addedPatch "@@ -0,0 +1,10 @@" sampleBody) ].


(** A patch whose added lines are separated by one context line each. *)
Definition gappedPatch (header : str) (body : list str) : str :=
  join nl (header :: map (fun l => "+" ++ l ++ nl ++ " // context") body).

Definition gappedCopies : list (option PrFile) :=
  [ fileOf "src/a.ts" 10 (gappedPatch "@@ -1,10 +1,20 @@" sampleBody);
    fileOf "src/b.ts" 10 (gappedPatch "@@ -1,10 +1,20 @@" sampleBody) ].


(** The same two files in a pull request of [4000] added lines: [22] of
    them are duplicated, [0.55] per cent. *)
Definition belowTie : list (option PrFile) :=
  [ fileOf "src/a.ts" 11 (addedPatch "@@ -0,0 +1,11 @@" (sampleBody ++ [lit "export default total;"]));
    fileOf "src/b.ts" 11 (addedPatch "@@ -0,0 +1,11 @@" (sampleBody ++ [lit "export default total;"]));
    Some (mkPrFile "src/big.ts" "added" 3978 0 3978 PatchAbsent) ].

(** ** Properties stated on inputs and reports *)

(** The entries on which the body of the [try] block throws. *)
Definition entryThrows (entry : option PrFile) : bool :=
  match entry with
  | None => true
  | Some f =>
      negb (shouldSkipFile (filename f)) &&
      match patch f with
      | PatchOther => true
      | _ => false
      end
  end.

Definition malformed (files : option (list (option PrFile))) : bool :=
  match files with
  | None => true
  | Some l => existsb entryThrows l
  end.

(** The ratio [100 * duplicatedLines / totalLines] of a report, before any
    rounding ([0] when there are no lines). *)
Definition ratioOf (r : CodeDuplicationAnalysis) : Q :=
  if 0 <? totalLines r
  then (100 * inject_Z (duplicatedLines r) / inject_Z (totalLines r))%Q
  else 0%Q.

(** [p] is a multiple of one tenth that is as near to [x] as any other:
    [x] rounded to one decimal, a tie going either way. *)
Definition isNearestTenth (x p : Q) : Prop :=
  (exists k : Z, p == inject_Z k / 10)%Q
  /\ (x - (1 # 20) <= p)%Q /\ (p <= x + (1 # 20))%Q.

(** The lock file of scenario S6: it repeats the shared block. *)
Definition lockFile : PrFile :=
  mkPrFile "package-lock.json" "modified" 1000 0 1000
           (PatchString (addedPatch "@@ -0,0 +1,10 @@" sampleBody)).

(** [a] may stand before [b] in the report: a larger cluster first, then a
    higher similarity ([clusterSize] counts as [1] when absent). *)
Definition ranksBefore (a b : DuplicateBlock) : Prop :=
  sizeOf b < sizeOf a \/ (sizeOf a = sizeOf b /\ (similarity b <= similarity a)%Q).

(** The similarities the two passes attach to a pair: [1] in the exact
    pass, a ratio in [[SIMILARITY_THRESHOLD, 1)] in the fuzzy pass. *)
Definition emittedSimilarity (sim : Q) : Prop :=
  sim = 1%Q \/ ((SIMILARITY_THRESHOLD <= sim)%Q /\ (sim < 1)%Q).

(** A property of findings that the merger and the clusterer keep: it
    survives [mergeInto], and it does not look at the cluster fields. *)
Record pipelineInvariant (P : DuplicateBlock -> Prop) : Prop := {
  inv_merge : forall current next, P current -> P next -> P (mergeInto current next);
  inv_cluster : forall d cs af ph,
    P d ->
    P (mkDup (file1 d) (file2 d) (lines1 d) (lines2 d) (code d) (similarity d)
             cs af ph)
}.

(** The bound of the report on similarities. *)
Definition similarityBound (d : DuplicateBlock) : Prop :=
  (SIMILARITY_THRESHOLD <= similarity d)%Q /\ (similarity d <= 1)%Q.

(** The dedup key of a finding, rebuilt from its two endpoints. *)
Definition endpointKey (name : str) (r : LineRange) : str :=
  name ++ ":" ++ ofZ (start r) ++ "-" ++ ofZ (end_ r).

Definition findingKey (d : DuplicateBlock) : str :=
  join "|" (sortTwo (endpointKey (file1 d) (lines1 d))
                    (endpointKey (file2 d) (lines2 d))).

(** The detector has recorded, with similarity [1], a pair under the dedup
    key [k]. *)
Definition recorded (duplicates : list DuplicateBlock) (k : str) : Prop :=
  exists d, In d duplicates /\ findingKey d = k /\ similarity d = 1%Q.

Definition seenRecorded (st : detState) : Prop :=
  forall k, In k (snd st) -> recorded (fst st) k.

(** One block of the sample body in the file [name]. *)
Definition sampleBlock (name : str) : CodeBlock :=
  hd (mkBlock [] 0 0 [] [] [])
     (blocksOfPatch name (addedPatch "@@ -0,0 +1,10 @@" sampleBody)).

(** A patch whose second hunk lies before its first one. *)
Definition descendingPatch : str :=
  join nl [ addedPatch "@@ -0,0 +100,5 @@" (firstn 5 sampleBody);
            addedPatch "@@ -0,0 +1,5 @@" (skipn 5 sampleBody) ].

Definition descendingHunks : list (option PrFile) :=
  [ fileOf "src/a.ts" 10 descendingPatch;
    fileOf "src/b.ts" 10 descendingPatch ].

(** A line range with [start <= end]. *)
Definition ordered (r : LineRange) : Prop := start r <= end_ r.

Definition wellFormedFinding (d : DuplicateBlock) : Prop :=
  file1 d <> file2 d /\ ordered (lines1 d) /\ ordered (lines2 d).

Fixpoint nondecreasing (l : list Z) : bool :=
  match l with
  | x :: r =>
      match r with
      | y :: _ => (x <=? y) && nondecreasing r
      | [] => true
      end
  | [] => true
  end.

(** The added lines of the patch of a file that is not skipped are
    numbered in ascending order, as they are when the hunks of the patch are
    listed in file order. *)
Definition patchAscending (entry : option PrFile) : bool :=
  match entry with
  | Some f =>
      shouldSkipFile (filename f) ||
      match patch f with
      | PatchString p => nondecreasing (map lineNumber (extractAddedLines p))
      | _ => true
      end
  | None => true
  end.

(** Two line ranges that share no line. *)
Definition disjointRanges (a b : LineRange) : Prop :=
  forall n, ~ ((start a <= n <= end_ a) /\ (start b <= n <= end_ b)).

(** The number of distinct files of an [allFiles] list. *)
Definition distinctFiles (af : list FileRange) : nat :=
  length (nodup str_eq_dec (map fr_file af)).

(** A clustered finding is consistent: [clusterSize] counts the distinct
    files of [allFiles], and two entries of one file share no line. *)
Definition clusterConsistent (d : DuplicateBlock) : Prop :=
  forall n af,
    clusterSize d = Some n -> allFiles d = Some af ->
    n = Z.of_nat (distinctFiles af)
    /\ ForallOrdPairs
         (fun a b => fr_file a = fr_file b ->
                     disjointRanges (fr_lines a) (fr_lines b)) af.

Definition unclustered (d : DuplicateBlock) : Prop :=
  clusterSize d = None /\ allFiles d = None.

(** The gap the range merger leaves between two ranges it keeps apart. *)
Definition gapped (a b : LineRange) : Prop := end_ a + 2 < start b.

(** Four files with the same block. *)
Definition fourCopies : list (option PrFile) :=
  map (fun name => fileOf name 10 (addedPatch "@@ -0,0 +1,10 @@" sampleBody))
      [lit "src/f1.ts"; lit "src/f2.ts"; lit "src/f3.ts"; lit "src/f4.ts"].

(** [x] reaches the root [r] of its tree in at most [k] steps along
    [parent]. *)
Inductive rootWithin (parent : list nat) : nat -> nat -> nat -> Prop :=
| rw_root x k : nth x parent x = x -> rootWithin parent x x k
| rw_step x r k :
    nth x parent x <> x ->
    rootWithin parent (nth x parent x) r k ->
    rootWithin parent x r (S k).

(** Every node of the forest is at most [d] steps from its root. *)
Definition depthBound (parent : list nat) (d : nat) : Prop :=
  forall x, exists r, rootWithin parent x r d.

(** ** A model of well-formed unified diffs

    Modelled from the glossary of the specification: a patch is a list of
    hunks; a hunk is a header [@@ -a,b +c,d @@] and a list of context lines
    (leading space), added lines (leading [+]) and removed lines (leading
    [-]).  The marker [\ No newline at end of file] is not part of the
    model. *)

Inductive diffLine :=
| CtxLine (text : str)
| AddLine (text : str)
| DelLine (text : str).

Record Hunk := mkHunk {
  oldStart : Z;
  oldCount : Z;
  newStart : Z;
  newCount : Z;
  heading : str;
  body : list diffLine
}.

Definition textOf (dl : diffLine) : str :=
  match dl with
  | CtxLine t | AddLine t | DelLine t => t
  end.

Definition renderLine (dl : diffLine) : str :=
  match dl with
  | CtxLine t => " " ++ t
  | AddLine t => "+" ++ t
  | DelLine t => "-" ++ t
  end.

Definition renderHeader (h : Hunk) : str :=
  "@@ -" ++ ofZ (oldStart h) ++ "," ++ ofZ (oldCount h)
  ++ " +" ++ ofZ (newStart h) ++ "," ++ ofZ (newCount h) ++ " @@" ++ heading h.

Definition renderHunk (h : Hunk) : list str :=
  renderHeader h :: map renderLine (body h).

Definition renderPatch (hs : list Hunk) : str :=
  join nl (flat_map renderHunk hs).

(** The added lines of a hunk body with their line numbers in the
    post-image, counting from [n]: context and added lines take one line of
    the post-image each, removed lines none. *)
Fixpoint postImage (n : Z) (ls : list diffLine) : list AddedLine :=
  match ls with
  | [] => []
  | CtxLine _ :: r => postImage (n + 1) r
  | AddLine t :: r => mkLine n t :: postImage (n + 1) r
  | DelLine _ :: r => postImage n r
  end.

Definition addedOf (hs : list Hunk) : list AddedLine :=
  flat_map (fun h => postImage (newStart h) (body h)) hs.

(** The parser takes an added line whose text begins with [++] for a file
    header and does not emit it. *)
Definition emittedLine (l : AddedLine) : bool :=
  negb (startsWith "++" (content l)).

Definition singleLine (t : str) : bool :=
  forallb (fun c => negb (Ascii.eqb c "010"%char)) t.

Definition hunkOk (h : Hunk) : bool :=
  (0 <=? oldStart h) && (0 <=? oldCount h) && (0 <=? newStart h)
  && (0 <=? newCount h) && singleLine (heading h)
  && forallb (fun dl => singleLine (textOf dl)) (body h).

(** A hunk that replaces the last line of a file. *)
Definition sampleHunk : Hunk :=
  mkHunk 7 3 7 4 " function total(items) {"
    [ CtxLine "  let sum = 0;"; DelLine "  return 0;";
      AddLine "  sum += 1;"; AddLine "  return sum;"; CtxLine "}" ].

(** The same change when neither version of the file ends with a newline. *)
Definition noNewlinePatch : str :=
  join nl [ lit "@@ -1,2 +1,2 @@"; lit " a"; lit "-b";
            lit "\ No newline at end of file"; lit "+c";
            lit "\ No newline at end of file" ].

(** A matcher that does not see the difference made by a map [f] on
    characters. *)
Definition commutesWith (f : ascii -> ascii) (m : matcher) : Prop :=
  forall s, m (map f s) = option_map (map f) (m s).

(** The passes of [normalizeCode], one by one. *)
Definition linePass (s : str) : str := replaceAll mLineComment [] s.

Definition blockPass (s : str) : str := replaceAll mBlockComment [] s.

Definition quotePass (q : ascii) (s : str) : str :=
  replaceAll (mQuoted q) [q; q] s.

Definition spacePass (s : str) : str := replaceAll mSpaces " " s.

(** [normalizeCode] before the final [toLowerCase]. *)
Definition stripped (code : str) : str :=
  trim
    (spacePass
      (quotePass "`"%char
        (quotePass "'"%char
          (quotePass dquote (blockPass (linePass code)))))).

(** The characters that open a comment or a string literal. *)
Definition isDelimiter (c : ascii) : bool :=
  Ascii.eqb c "/"%char || Ascii.eqb c dquote || Ascii.eqb c "'"%char
  || Ascii.eqb c "`"%char.

(** A text without comments and string literals. *)
Definition plain (s : str) : bool := forallb (fun c => negb (isDelimiter c)) s.

(** The contents of a string literal that holds no delimiter and no
    escape. *)
Definition inert (s : str) : bool :=
  forallb (fun c => negb (isDelimiter c || Ascii.eqb c "\"%char)) s.

Definition noSlash (s : str) : bool :=
  forallb (fun c => negb (Ascii.eqb c "/"%char)) s.

Definition noLineTerminator (s : str) : bool :=
  forallb (fun c => negb (isLineTerminator c)) s.

Definition isQuote (q : ascii) : bool :=
  Ascii.eqb q dquote || Ascii.eqb q "'"%char || Ascii.eqb q "`"%char.

Definition allSpaces (w : str) : bool := forallb isSpace w.

(** Two texts that differ in one run of white space, or in leading or
    trailing white space. *)
Inductive spaceEdit : str -> str -> Prop :=
| edit_run a w1 w2 b :
    w1 <> [] -> w2 <> [] -> allSpaces w1 = true -> allSpaces w2 = true ->
    spaceEdit (a ++ w1 ++ b) (a ++ w2 ++ b)
| edit_leading w s : allSpaces w = true -> spaceEdit (w ++ s) s
| edit_trailing w s : allSpaces w = true -> spaceEdit (s ++ w) s.

(** ** Block texts cut into code, string literals and comments *)

(** A block text as its reader sees it: stretches of code, string literals
    in one of the three quotes, comments that run to the end of the line
    and bracketed comments. *)
Inductive Segment : Type :=
| Code (text : str)
| Literal (quote : ascii) (contents : str)
| LineComment (contents : str)
| BlockComment (contents : str).

Definition renderSegment (seg : Segment) : str :=
  match seg with
  | Code t => t
  | Literal q c => q :: c ++ [q]
  | LineComment c => "//" ++ c
  | BlockComment c => "/*" ++ c ++ "*/"
  end.

Definition renderSegments (segs : list Segment) : str :=
  flat_map renderSegment segs.

(** What is left of a segment once comments are dropped and the contents
    of string literals are emptied. *)
Definition skeletonOf (seg : Segment) : str :=
  match seg with
  | Code t => t
  | Literal q _ => [q; q]
  | LineComment _ => []
  | BlockComment _ => []
  end.

Definition skeleton (segs : list Segment) : str := flat_map skeletonOf segs.

(** [s], read with the character [next] after it when there is one,
    nowhere holds [a] directly followed by [b]. *)
Fixpoint lacksPair (a b : ascii) (s : str) (next : option ascii) : bool :=
  match s with
  | [] => true
  | c :: r =>
      negb (Ascii.eqb c a
            && match r with
               | d :: _ => Ascii.eqb d b
               | [] => match next with
                       | Some d => Ascii.eqb d b
                       | None => false
                       end
               end)
      && lacksPair a b r next
  end.

Definition lacksChar (k : ascii) (s : str) : bool :=
  forallb (fun c => negb (Ascii.eqb c k)) s.

(** The contents of a literal in quote [q] as the pattern
    [q([^q\\]|\\.)*q] reads them: characters other than the quote and the
    backslash, and a backslash with the character it escapes. *)
Fixpoint literalBody (q : ascii) (c : str) : bool :=
  match c with
  | [] => true
  | x :: r =>
      if Ascii.eqb x "\"%char then
        match r with
        | d :: r' => negb (isLineTerminator d) && literalBody q r'
        | [] => false
        end
      else negb (Ascii.eqb x q) && literalBody q r
  end.

(** The contents hold no quote of a kind that is replaced before the
    literals in [q] are: the double quote comes first, then the single
    quote, then the backtick. *)
Definition earlierFree (q : ascii) (c : str) : bool :=
  (Ascii.eqb q dquote || lacksChar dquote c)
  && (Ascii.eqb q dquote || Ascii.eqb q "'"%char || lacksChar "'"%char c).

(** A segment that every pass reads as its writer did, [next] being the
    character that follows it.  Code holds no quote; outside line comments
    no [//] occurs, and outside comments no [/*]; a line comment runs to
    the end of its line, and a bracketed comment holds no [*/]. *)
Definition segmentFits (seg : Segment) (next : option ascii) : bool :=
  match seg with
  | Code t =>
      lacksChar dquote t && lacksChar "'"%char t && lacksChar "`"%char t
      && lacksPair "/" "/" t next && lacksPair "/" "*" t next
  | Literal q c =>
      isQuote q && literalBody q c && earlierFree q c
      && lacksPair "/" "/" c (Some q) && lacksPair "/" "*" c (Some q)
  | LineComment c =>
      noLineTerminator c
      && match next with
         | Some x => isLineTerminator x
         | None => true
         end
  | BlockComment c =>
      lacksPair "/" "/" c (Some "*"%char) && lacksPair "*" "/" c (Some "*"%char)
      && match next with
         | Some x => negb (Ascii.eqb x "/"%char)
         | None => true
         end
  end.

Fixpoint wellFormed (segs : list Segment) : bool :=
  match segs with
  | [] => true
  | seg :: rest =>
      segmentFits seg (hd_error (renderSegments rest)) && wellFormed rest
  end.

(** The passes on a list of segments. *)
Definition isLineComment (seg : Segment) : bool :=
  match seg with
  | LineComment _ => true
  | _ => false
  end.

Definition isBlockComment (seg : Segment) : bool :=
  match seg with
  | BlockComment _ => true
  | _ => false
  end.

Definition dropLineComments (segs : list Segment) : list Segment :=
  filter (fun seg => negb (isLineComment seg)) segs.

Definition dropBlockComments (segs : list Segment) : list Segment :=
  filter (fun seg => negb (isBlockComment seg)) segs.

Definition emptied (q : ascii) (seg : Segment) : Segment :=
  match seg with
  | Literal q' c => if Ascii.eqb q' q then Literal q' [] else seg
  | _ => seg
  end.

(** A segment on which the pass for the literals in [q] finds those
    literals and nothing else. *)
Definition quoteReady (q : ascii) (seg : Segment) : bool :=
  match seg with
  | Code t => lacksChar q t
  | Literal q' c => if Ascii.eqb q' q then literalBody q c else lacksChar q c
  | LineComment _ => false
  | BlockComment _ => false
  end.

(** Two texts that agree up to letter case and the extent of their white
    space. *)
Inductive sameLayout : str -> str -> Prop :=
| layout_case a b : toLowerCase a = toLowerCase b -> sameLayout a b
| layout_spaces a b : spaceEdit a b -> sameLayout a b
| layout_sym a b : sameLayout a b -> sameLayout b a
| layout_trans a b c : sameLayout a b -> sameLayout b c -> sameLayout a c.

(** The differences between two block texts that the normalizer is proved
    not to see: letter case anywhere; white space in a text without
    comments and literals; the contents of a string literal, of a line
    comment or of a block comment that follows such a text; and, between
    two texts cut into well-formed segments, everything but the letters
    and the layout of what is left when comments are dropped and literals
    emptied. *)
Inductive invisibleDifference : str -> str -> Prop :=
| diff_case s1 s2 :
    toLowerCase s1 = toLowerCase s2 -> invisibleDifference s1 s2
| diff_spaces s1 s2 :
    plain s1 = true -> plain s2 = true -> spaceEdit s1 s2 ->
    invisibleDifference s1 s2
| diff_literal q pre c1 c2 post :
    isQuote q = true -> plain pre = true ->
    inert c1 = true -> inert c2 = true ->
    invisibleDifference (pre ++ q :: c1 ++ q :: post)
                        (pre ++ q :: c2 ++ q :: post)
| diff_line_comment pre c1 c2 rest :
    plain pre = true ->
    noLineTerminator c1 = true -> noLineTerminator c2 = true ->
    invisibleDifference (pre ++ "//" ++ c1 ++ rest) (pre ++ "//" ++ c2 ++ rest)
| diff_block_comment pre c1 c2 post :
    plain pre = true -> noSlash c1 = true -> noSlash c2 = true ->
    startsWith "/" post = false ->
    invisibleDifference (pre ++ "/*" ++ c1 ++ "*/" ++ post)
                        (pre ++ "/*" ++ c2 ++ "*/" ++ post)
| diff_lexed segs1 segs2 :
    wellFormed segs1 = true -> wellFormed segs2 = true ->
    sameLayout (skeleton segs1) (skeleton segs2) ->
    invisibleDifference (renderSegments segs1) (renderSegments segs2)
| diff_sym s1 s2 : invisibleDifference s1 s2 -> invisibleDifference s2 s1
| diff_trans s1 s2 s3 :
    invisibleDifference s1 s2 -> invisibleDifference s2 s3 ->
    invisibleDifference s1 s3.

(** Two assignments that differ in the contents of a string literal. *)
Definition urlAssignment : str := "x = " ++ [dquote] ++ "a//b" ++ [dquote] ++ ";".

Definition textAssignment : str := "x = " ++ [dquote] ++ "ab" ++ [dquote] ++ ";".

(** Two calls that differ in their second string literal and in a
    comment. *)
Definition callWithB : list Segment :=
  [Code "f("; Literal dquote "a"; Code ", "; Literal dquote "b"; Code ")"].

Definition callWithC : list Segment :=
  [Code "f("; Literal dquote "a"; Code ", "; BlockComment " was b ";
   Literal dquote "c"; Code ")"; LineComment " changed"].

(** An assignment, spaced two ways around a literal. *)
Definition assignWide : list Segment :=
  [Code "x   =  "; Literal "'" "one"; Code " ;  "].

Definition assignTight : list Segment :=
  [Code "X = "; Literal "'" "two"; Code " ;"].

(** ** Further properties of the parser and of the block extractor *)

(** Only the first line of the patch may be a hunk header. *)
Definition singleHunk (patch : str) : bool :=
  forallb (fun l => negb (startsWith "@@" l)) (tl (Str.split "010"%char patch)).

(** The cursor is past every line pushed so far, and those are numbered in
    strictly ascending order. *)
Definition cursorAhead (st : Z * list AddedLine) : Prop :=
  StronglySorted Z.lt (map lineNumber (snd st))
  /\ Forall (fun l => lineNumber l < fst st) (snd st).

(** What the extractor records of a window of added lines. *)
Definition blockOfLines (name : str) (w : list AddedLine) (b : CodeBlock) : Prop :=
  file b = name
  /\ bcode b = join nl (map content w)
  /\ startLine b = lineNumber (hd lineZero w)
  /\ endLine b = lineNumber (last w lineZero)
  /\ normalizedCode b = normalizeCode (bcode b)
  /\ hash b = hashCode (normalizedCode b).

(** ** Further properties of the normalizer, of the similarity and of the keys *)

Definition isUpperAscii (c : ascii) : bool :=
  let n := Str.code c in (65 <=? n) && (n <=? 90).

(** Every white-space character is a plain space that another character
    follows, or that ends the string. *)
Fixpoint spacedOk (s : str) : bool :=
  match s with
  | [] => true
  | c :: r =>
      (if isSpace c
       then Ascii.eqb c " "%char
            && match r with
               | d :: _ => negb (isSpace d)
               | [] => true
               end
       else true)
      && spacedOk r
  end.

(** The two token sets hold the same tokens. *)
Definition sameTokens (code1 code2 : str) : Prop :=
  forall t, In t (tokenSet code1) <-> In t (tokenSet code2).

(** The detector's state is consistent: [seen] holds the keys of the pairs
    pushed so far, each once. *)
Definition seenExact (st : detState) : Prop :=
  map findingKey (fst st) = rev (snd st) /\ NoDup (snd st).

(** ** Further properties of the merger and of the clusterer *)

(** The range [outer] contains the range [inner]. *)
Definition covers (outer inner : LineRange) : Prop :=
  start outer <= start inner /\ end_ inner <= end_ outer.

(** The finding [o] accounts for the pair [d]: it contains both of its line
    ranges, with a similarity at least as high. *)
Definition absorbs (o d : DuplicateBlock) : Prop :=
  covers (lines1 o) (lines1 d) /\ covers (lines2 o) (lines2 d)
  /\ (similarity d <= similarity o)%Q.

(** An [allFiles] list locates the range [r] of the file [name]. *)
Definition located (name : str) (r : LineRange) (af : list FileRange) : Prop :=
  exists e, In e af /\ fr_file e = name /\ covers (fr_lines e) r.

(** ** The clusters of the union-find forest *)

(** [a] and [b] are in the same tree of the forest. *)
Definition sameRoot (parent : list nat) (a b : nat) : Prop :=
  exists r ka kb, rootWithin parent a r ka /\ rootWithin parent b r kb.

(** Every entry of [parent] is an index of [parent]. *)
Definition inRange (parent : list nat) : Prop :=
  Forall (fun v => (v < length parent)%nat) parent.

(** The pairs at positions [i] and [j] of the list given to the clusterer
    are linked when their code has a Jaccard similarity of at least
    [CLUSTER_SIMILARITY_THRESHOLD], or through a chain of such pairs. *)
Inductive linked (l : list DuplicateBlock) : nat -> nat -> Prop :=
| linked_similar i j di dj :
    nth_error l i = Some di -> nth_error l j = Some dj -> (i < j)%nat ->
    Qle_bool CLUSTER_SIMILARITY_THRESHOLD
             (calculateSimilarity (code di) (code dj)) = true ->
    linked l i j
| linked_sym i j : linked l i j -> linked l j i
| linked_trans i j k : linked l i j -> linked l j k -> linked l i k.

(** Three pairs: the first and the third share their code, the second has
    other code. *)
Definition threePairs : list DuplicateBlock :=
  [ mkDup "a.ts" "b.ts" (mkRange 1 10) (mkRange 1 10) "return left + right"
          1 None None None;
    mkDup "c.ts" "d.ts" (mkRange 1 10) (mkRange 1 10) "throw new Error"
          1 None None None;
    mkDup "e.ts" "f.ts" (mkRange 5 14) (mkRange 7 16) "return left + right"
          1 None None None ].

(** The cluster fields of a finding are absent together, or present
    together: then the cluster spans at least two files, [patternHash] is
    the digest of the code shown, and [allFiles] locates both ranges of the
    finding itself. *)
Definition clusterFields (f : DuplicateBlock) : Prop :=
  match clusterSize f with
  | None => allFiles f = None /\ patternHash f = None
  | Some n =>
      2 <= n
      /\ patternHash f = Some (hashCode (code f))
      /\ exists af, allFiles f = Some af
                    /\ located (file1 f) (lines1 f) af
                    /\ located (file2 f) (lines2 f) af
  end.

(** A pair as the detector and the merger leave it. *)
Definition barePair (d : DuplicateBlock) : Prop :=
  file1 d <> file2 d
  /\ clusterSize d = None /\ allFiles d = None /\ patternHash d = None.

(** ** The aggregate metrics, in closed form *)

(** What one entry of the file list adds to [totalLines]. *)
Definition countedAdditions (entry : option PrFile) : Z :=
  match entry with
  | Some f => if shouldSkipFile (filename f) then 0 else additions f
  | None => 0
  end.

(** The number of lines of a range ([0] when its end is before its start). *)
Definition rangeSize (r : LineRange) : Z := Z.max 0 (end_ r - start r + 1).

(** The lines of a range, as pairs of a file and a line number. *)
Definition linesOf (name : str) (r : LineRange) : list (str * Z) :=
  map (fun k => (name, start r + Z.of_nat k))
      (seq 0 (Z.to_nat (end_ r - start r + 1))).

Definition coveredLines (duplicates : list DuplicateBlock) : list (str * Z) :=
  flat_map (fun dup => linesOf (file1 dup) (lines1 dup)
                       ++ linesOf (file2 dup) (lines2 dup)) duplicates.

Definition fileLine_dec (a b : str * Z) : {a = b} + {a <> b}.
Proof. decide equality; [apply Z.eq_dec | apply str_eq_dec]. Defined.

(** The key [`${file}:${i}`] of a line. *)
Definition lineKey (p : str * Z) : str := fst p ++ ":" ++ ofZ (snd p).

(** Two entries for the same file, and the same two in the other order,
    between entries the analysis skips or counts. *)
Definition mixedFiles : list (option PrFile) :=
  [ Some (mkPrFile "src/a.ts" "added" 12 0 12 PatchAbsent);
    Some (mkPrFile "README.md" "modified" 40 2 42 PatchAbsent);
    Some (mkPrFile "src/b.ts" "modified" 7 1 8 PatchAbsent) ].

(** One file that holds the same block twice. *)
Definition oneFileTwice : list (option PrFile) :=
  [ fileOf "src/a.ts" 20
           (addedPatch "@@ -0,0 +1,20 @@" (sampleBody ++ sampleBody)) ].

(** ** ReviewService.reviewPullRequest *)

Record LlmReviewResponse := mkReview {
  summary : str;
  high_risk_issues : list str;
  medium_risk_issues : list str;
  low_risk_or_style_issues : list str;
  suggestions : list str;
  questions_for_author : list str
}.

(** [{ ...review, duplicationAnalysis }] *)
Record PrReviewResponse := mkResponse {
  review : LlmReviewResponse;
  duplicationAnalysis : CodeDuplicationAnalysis
}.

(** What the review service calls outside of this repository part: the URL
    parser, the GitHub client, the diff chunker and the LLM provider.  Each
    call returns or throws (a rejected promise). *)
Record Services := mkServices {
  PrRef : Type;
  PrMeta : Type;
  title : PrMeta -> str;
  parsePrUrl : str -> result PrRef;
  getPrMetadata : option str -> PrRef -> result PrMeta;
  getPrFiles : option str -> PrRef -> result (list (option PrFile));
  chunkDiff : list (option PrFile) -> result str;
  reviewDiff : str -> str -> result LlmReviewResponse
}.

Definition noFileChanges : LlmReviewResponse :=
  mkReview "This PR contains no file changes." [] [] [] [] [].

(** The [catch] block logs and rethrows, so a throwing step makes the whole
    call throw. *)
Definition reviewPullRequest (S : Services) (prUrl : str) (userToken : option str)
  : result PrReviewResponse :=
  ref <- parsePrUrl S prUrl ;;
  metadata <- getPrMetadata S userToken ref ;;
  files <- getPrFiles S userToken ref ;;
  match files with
  | [] => Ok (mkResponse noFileChanges (mkReport 0 low [] 0 0))
  | _ :: _ =>
      let duplicationAnalysis := analyzeDuplication (Some files) in
      diff <- chunkDiff S files ;;
      review <- reviewDiff S diff (title S metadata) ;;
      Ok (mkResponse review duplicationAnalysis)
  end.

(** Services that answer with fixed values. *)
Definition fixedServices (files : list (option PrFile)) : Services :=
  mkServices unit unit (fun _ => "Add helpers")
    (fun _ => Ok tt) (fun _ _ => Ok tt) (fun _ _ => Ok files)
    (fun _ => Ok ("diff" : str)) (fun _ _ => Ok (mkReview "Looks fine." [] [] [] [] [])).

(** ** The cookie of routes/auth.route.ts *)

Inductive SameSite := SameSiteNone | SameSiteLax.

Record CookieOptions := mkCookie {
  httpOnly : bool;
  secure : bool;
  sameSite : SameSite;
  maxAge : option Z;
  cookiePath : str
}.

(** The options of [res.cookie('token', ...)] in the GitHub callback. *)
Definition setCookieOptions (nodeEnv : str) : CookieOptions :=
  mkCookie true (Str.eqb nodeEnv "production")
           (if Str.eqb nodeEnv "production" then SameSiteNone else SameSiteLax)
           (Some (7 * 24 * 60 * 60 * 1000)) "/".

(** The options of [res.clearCookie('token', ...)] in the logout route. *)
Definition clearCookieOptions (nodeEnv : str) : CookieOptions :=
  mkCookie true (Str.eqb nodeEnv "production")
           (if Str.eqb nodeEnv "production" then SameSiteNone else SameSiteLax)
           None "/".

(** ** The list of findings on the result page (DuplicateBlocksList) *)

(** [path.split("/")], then the last part. *)
Definition formatFileName (path : str) : str :=
  last (Str.split "/"%char path) [].

Inductive BadgeVariant := destructive | secondary.

(** The badge of a finding: its variant and its text. *)
Definition getSimilarityBadge (similarity : Q) : BadgeVariant * str :=
  let percentage := mathRound (similarity * 100) in
  if percentage =? 100 then (destructive, "100% Match" : str)
  else if 90 <=? percentage then (destructive, ofZ percentage ++ "% Similar")
  else (secondary, ofZ percentage ++ "% Similar").

(** [block.clusterSize && block.clusterSize > 2] *)
Definition isCluster (block : DuplicateBlock) : bool :=
  match clusterSize block with
  | Some n => 2 <? n
  | None => false
  end.

(** [blocks.slice(0, 10)]: the findings that are rendered. *)
Definition shownBlocks (blocks : list DuplicateBlock) : list DuplicateBlock :=
  firstn 10 blocks.

(** Eleven pairs of files: the two files of a pair share a block of ten
    lines, and no two pairs share a token. *)
Definition pairBody (k : Z) : list str :=
  map (fun i => "  step" ++ ofZ k ++ "x" ++ ofZ i ++ "(input" ++ ofZ k ++ ");")
      [0; 1; 2; 3; 4; 5; 6; 7; 8; 9].

Definition elevenPairs : list (option PrFile) :=
  flat_map
    (fun k =>
       [ fileOf ("src/p" ++ ofZ k ++ "a.ts") 10
                (addedPatch "@@ -0,0 +1,10 @@" (pairBody k));
         fileOf ("src/p" ++ ofZ k ++ "b.ts") 10
                (addedPatch "@@ -0,0 +1,10 @@" (pairBody k)) ])
    [0; 1; 2; 3; 4; 5; 6; 7; 8; 9; 10].

(** ** Where the pairs of the detector come from *)

(** The pair [d] was made from two blocks of different files, which have
    the same hash (similarity [1]) or normalized code of a Jaccard
    similarity in [[SIMILARITY_THRESHOLD, 1)]. *)
Definition detectedFrom (blocks : list CodeBlock) (d : DuplicateBlock) : Prop :=
  exists b1 b2,
    In b1 blocks /\ In b2 blocks /\ file b1 <> file b2
    /\ d = pairOf b1 b2 (similarity d)
    /\ ((hash b1 = hash b2 /\ similarity d = 1%Q)
        \/ (similarity d
            = calculateSimilarity (normalizedCode b1) (normalizedCode b2)
            /\ (SIMILARITY_THRESHOLD <= similarity d)%Q
            /\ (similarity d < 1)%Q)).

(** The two blocks qualify as a duplicate. *)
Definition qualifies (b1 b2 : CodeBlock) : Prop :=
  file b1 <> file b2
  /\ (hash b1 = hash b2
      \/ ((SIMILARITY_THRESHOLD
           <= calculateSimilarity (normalizedCode b1) (normalizedCode b2))%Q
          /\ (calculateSimilarity (normalizedCode b1) (normalizedCode b2) < 1)%Q)).

(** A lower-case hexadecimal digit. *)
Definition isHexDigit (c : ascii) : bool :=
  let n := Str.code c in
  ((48 <=? n) && (n <=? 57)) || ((97 <=? n) && (n <=? 102)).

(** ** The counting loops of calculateDuplicatedLines, turn by turn *)

(** [uniqueLines.add(key)], the set kept in insertion order. *)
Definition setAdd (key : str) (uniqueLines : list str) : list str :=
  if in_dec str_eq_dec key uniqueLines then uniqueLines
  else uniqueLines ++ [key].

(** [for (let i = start; i <= end; i++) uniqueLines.add(`${file}:${i}`)],
    run for at most [fuel] turns: [None] when the loop has not ended within
    them. *)
Fixpoint addLines (fuel : nat) (name : str) (i stop : Z) (uniqueLines : list str)
  : option (list str) :=
  match fuel with
  | O => None
  | S fuel' =>
      if i <=? stop
      then addLines fuel' name (toDouble (i + 1)) stop
                    (setAdd (name ++ ":" ++ ofZ i) uniqueLines)
      else Some uniqueLines
  end.

Fixpoint countLines (fuel : nat) (duplicates : list DuplicateBlock)
  (uniqueLines : list str) : option (list str) :=
  match duplicates with
  | [] => Some uniqueLines
  | dup :: rest =>
      match addLines fuel (file1 dup) (start (lines1 dup)) (end_ (lines1 dup))
                     uniqueLines with
      | None => None
      | Some lines1Added =>
          match addLines fuel (file2 dup) (start (lines2 dup))
                         (end_ (lines2 dup)) lines1Added with
          | None => None
          | Some lines2Added => countLines fuel rest lines2Added
          end
      end
  end.

(** [calculateDuplicatedLines] with every loop run for at most [fuel]
    turns. *)
Definition calculateDuplicatedLinesWithin (fuel : nat)
  (duplicates : list DuplicateBlock) : option Z :=
  option_map (fun uniqueLines => Z.of_nat (length uniqueLines))
             (countLines fuel duplicates []).

(** The body of the [try] block with its loops run for at most [fuel]
    turns: [None] when it has neither returned nor thrown within them. *)
Definition analyzeWithin (fuel : nat) (files : option (list (option PrFile)))
  : option (result CodeDuplicationAnalysis) :=
  match files with
  | None => Some Thrown
  | Some files =>
      match extractCodeBlocks files with
      | Thrown => Some Thrown
      | Ok blocks =>
          let duplicates := findDuplicates blocks in
          match calculateTotalLines files with
          | Thrown => Some Thrown
          | Ok totalLines =>
              match calculateDuplicatedLinesWithin fuel duplicates with
              | None => None
              | Some duplicatedLines =>
                  let ratio :=
                    if 0 <? totalLines
                    then ((inject_Z duplicatedLines / inject_Z totalLines)
                          * 100)%Q
                    else 0%Q in
                  let percentage :=
                    if 0 <? totalLines
                    then mulDouble (divDouble (inject_Z duplicatedLines)
                                              (inject_Z totalLines)) 100
                    else 0%Q in
                  let severity := calculateSeverity ratio in
                  Some (Ok (mkReport
                              (Qred (inject_Z (mathRound (mulDouble percentage 10))
                                     / 10))
                              severity duplicates totalLines duplicatedLines))
              end
          end
      end
  end.

Definition analyzeDuplicationWithin (fuel : nat)
  (files : option (list (option PrFile))) : option CodeDuplicationAnalysis :=
  match analyzeWithin fuel files with
  | None => None
  | Some (Ok report) => Some report
  | Some Thrown => Some emptyReport
  end.

(** The range lies within the integers that a double counts one by one. *)
Definition exactRange (r : LineRange) : bool :=
  (- (2 ^ 53) <=? start r) && (end_ r <? 2 ^ 53).

Definition rangesExact (duplicates : list DuplicateBlock) : bool :=
  forallb (fun d => exactRange (lines1 d) && exactRange (lines2 d)) duplicates.

(** Two files that hold the sample block in the lines
    [2^53 - 9 .. 2^53]. *)
Definition farCopies : list (option PrFile) :=
  [ fileOf "src/a.ts" 10 (addedPatch "@@ -0,0 +9007199254740983,10 @@" sampleBody);
    fileOf "src/b.ts" 10 (addedPatch "@@ -0,0 +9007199254740983,10 @@" sampleBody) ].

(** ** Bounds within which the line counter and the sums are exact *)

(** The states of the parser after each line of the patch. *)
Fixpoint parserStates (lines : list str) (st : Z * list AddedLine)
  : list (Z * list AddedLine) :=
  match lines with
  | [] => []
  | line :: rest =>
      let st' := addedStep st line in st' :: parserStates rest st'
  end.

(** The line counter stays below [2^53] while the patch is read. *)
Definition counterExact (patch : str) : bool :=
  forallb (fun st => Z.abs (fst st) <? 2 ^ 53)
          (parserStates (Str.split "010"%char patch) (0, [])).

(** The hunk lies in the lines that a double counts one by one. *)
Definition hunkExact (h : Hunk) : bool :=
  newStart h + Z.of_nat (length (body h)) <=? 2 ^ 53.

(** A hunk of two added lines that starts at line [2^53 + 1]. *)
Definition farHunk : Hunk :=
  mkHunk 0 0 9007199254740993 2 [] [AddLine "a"; AddLine "b"].

(** Three files, the first with [2^53] added lines. *)
Definition hugeFirst : list (option PrFile) :=
  [ Some (mkPrFile "src/a.ts" "added" 9007199254740992 0 9007199254740992
                   PatchAbsent);
    Some (mkPrFile "src/b.ts" "added" 1 0 1 PatchAbsent);
    Some (mkPrFile "src/c.ts" "added" 1 0 1 PatchAbsent) ].

(** * Sanity checks against known values *)

Example md5_empty : hashCode "" = lit "d41d8cd98f00b204e9800998ecf8427e".
Proof. vm_compute. reflexivity. Qed.

Example md5_abc : hashCode "abc" = lit "900150983cd24fb0d6963f7d28e17f72".
Proof. vm_compute. reflexivity. Qed.

Example md5_two_chunks :
  hashCode (repeat "a"%char 70) = lit "0f5c6c4e740bfcc08c3c26ccb2673d46".
Proof. vm_compute. reflexivity. Qed.

Example md5_latin1 :
  hashCode [ascii_of_nat 233] = lit "66ddcd97cfdeabb2f6fb8a999b4bc76f".
Proof. vm_compute. reflexivity. Qed.

Example normalize_doc_example :
  normalizeCode ("const errorMessage =
  err instanceof Error ? err.message : " ++ [dquote] ++ "An error occurred" ++ [dquote] ++ "; // x")
  = "const errormessage = err instanceof error ? err.message : " ++ [dquote; dquote] ++ ";".
Proof. vm_compute. reflexivity. Qed.

Example jaccard_doc_example :
  calculateSimilarity "const error = message" "const errorMsg = message" = (3 # 5).
Proof. vm_compute. reflexivity. Qed.

(** The scenarios of the specification. *)

Example empty_input : analyzeDuplication (Some []) = emptyReport.
Proof. vm_compute. reflexivity. Qed.

Example null_input : analyzeDuplication None = emptyReport.
Proof. reflexivity. Qed.

Example exact_duplicate_across_two_files :
  let r := analyzeDuplication (Some twoCopies) in
  map (fun d => (file1 d, file2 d, lines1 d, lines2 d, similarity d, clusterSize d))
      (duplicateBlocks r)
  = [(lit "src/a.ts", lit "src/b.ts", mkRange 1 10, mkRange 1 10, 1%Q, None)]
  /\ totalLines r = 20 /\ duplicatedLines r = 20.
Proof. vm_compute. repeat split. Qed.

Example four_file_cluster :
  map (fun d => (clusterSize d, option_map (map fr_file) (allFiles d),
                 patternHash d))
      (duplicateBlocks (analyzeDuplication (Some fourCopies)))
  = [(Some 4,
      Some [lit "src/f1.ts"; lit "src/f2.ts"; lit "src/f3.ts"; lit "src/f4.ts"],
      Some (hashCode (join nl sampleBody)))].
Proof. vm_compute. reflexivity. Qed.

Example patch_parser_sample :
  extractAddedLines "@@ -1,2 +3,4 @@ foo
 ctx
+abc
-del
+++x
+d" = [mkLine 4 (lit "abc"); mkLine 6 (lit "d")].
Proof. vm_compute. reflexivity. Qed.

(** * Numbers that count *)

Section Doubles.

Lemma toDouble_exact (z : Z) : Z.abs z <= 2 ^ 53 -> toDouble z = z.
Proof.
  intros H. unfold toDouble. apply Z.leb_le in H. now rewrite H.
Qed.

(** Beyond [2^53] a number stays beyond it when it is rounded. *)
Lemma toDouble_large (z : Z) : 2 ^ 53 < Z.abs z -> 2 ^ 53 <= Z.abs (toDouble z).
Proof.
  intros H. unfold toDouble.
  destruct (Z.abs z <=? 2 ^ 53) eqn:E; [apply Z.leb_le in E; lia|]. clear E.
  set (a := Z.abs z) in *. set (L := Z.log2 a).
  assert (0 < a) as Ha by lia.
  assert (53 <= L) as HL.
  { unfold L. rewrite <- (Z.log2_pow2 53) by lia. apply Z.log2_le_mono. lia. }
  destruct (Z.log2_spec a Ha) as [Hlo _]. fold L in Hlo.
  set (q := 2 ^ (L - 52)).
  assert (2 <= q) as Hq.
  { unfold q. change 2 with (2 ^ 1) at 1. apply Z.pow_le_mono_r; lia. }
  assert (2 ^ L = 2 ^ 52 * q) as EL.
  { unfold q. rewrite <- Z.pow_add_r by lia. f_equal. lia. }
  assert (2 ^ 52 <= a / q) as Hm.
  { apply Z.div_le_lower_bound; lia. }
  set (m := a / q) in *.
  set (m' := if 2 * (a mod q) <? q then m
             else if q <? 2 * (a mod q) then m + 1
             else if Z.even m then m else m + 1).
  assert (m <= m') as Hm'.
  { unfold m'. destruct (_ <? _); [lia|]. destruct (_ <? _); [lia|].
    destruct (Z.even m); lia. }
  rewrite Z.abs_mul.
  assert (Z.abs (Z.sgn z) = 1) as -> by (destruct z; simpl in *; lia).
  rewrite Z.mul_1_l, Z.abs_eq by nia. nia.
Qed.

Lemma toDouble_below (z : Z) : Z.abs (toDouble z) < 2 ^ 53 -> toDouble z = z.
Proof.
  intros H. apply toDouble_exact.
  destruct (Z.le_gt_cases (Z.abs z) (2 ^ 53)) as [L|G]; [exact L|].
  pose proof (toDouble_large z G). lia.
Qed.

(** At [2^53] the increment is lost. *)
Example increment_lost : toDouble (2 ^ 53 + 1) = 2 ^ 53.
Proof. reflexivity. Qed.

End Doubles.

(** * The counting loops *)

Section CountingLoops.

Lemma setAdd_spec (key : str) (u : list str) :
  NoDup u ->
  NoDup (setAdd key u) /\ forall k, In k (setAdd key u) <-> k = key \/ In k u.
Proof.
  intros Hu. unfold setAdd. destruct (in_dec str_eq_dec key u) as [Hin|Hout].
  - split; [exact Hu|]. intros k. split; [now right|]. intros [->|H]; assumption.
  - split.
    + apply NoDup_app; [exact Hu | repeat constructor; auto |].
      intros x Hx [<-|[]]. contradiction.
    + intros k. rewrite in_app_iff. simpl. intuition.
Qed.

(** The keys of [n] consecutive lines from [i] on. *)
Lemma lineKeys_from (name : str) (i : Z) (n : nat) :
  map (fun k => name ++ ":" ++ ofZ (i + Z.of_nat k)) (seq 0 (S n))
  = (name ++ ":" ++ ofZ i)
      :: map (fun k => name ++ ":" ++ ofZ (i + 1 + Z.of_nat k)) (seq 0 n).
Proof.
  cbn [seq map]. rewrite Z.add_0_r. f_equal.
  rewrite <- seq_shift, map_map. apply map_ext. intros k.
  do 3 f_equal. lia.
Qed.

(** Below [2^53] a loop ends, with the keys of its range added. *)
Lemma addLines_ends (name : str) (stop : Z) (n : nat) :
  stop < 2 ^ 53 ->
  forall i u fuel,
    - (2 ^ 53) <= i -> Z.to_nat (stop - i + 1) = n -> (n < fuel)%nat ->
    addLines fuel name i stop u
    = Some (fold_left (fun acc key => setAdd key acc)
                      (lineKeys name (mkRange i stop)) u).
Proof.
  intros Hstop. unfold lineKeys. cbn [start end_].
  induction n as [|n IH]; intros i u fuel Hi Hn Hf;
    (destruct fuel as [|fuel]; [lia|]); cbn [addLines]; rewrite Hn.
  - assert ((i <=? stop) = false) as -> by (apply Z.leb_gt; lia). reflexivity.
  - assert ((i <=? stop) = true) as -> by (apply Z.leb_le; lia).
    rewrite toDouble_exact by lia.
    rewrite (IH (i + 1) _ fuel) by lia.
    rewrite lineKeys_from. cbn [fold_left].
    replace (Z.to_nat (stop - (i + 1) + 1)) with n by lia. reflexivity.
Qed.

(** At [2^53] a loop is caught: it has not ended after any number of
    turns. *)
Lemma addLines_caught (name : str) (stop : Z) (fuel : nat) :
  2 ^ 53 <= stop ->
  forall i u, - (2 ^ 53) <= i <= 2 ^ 53 -> addLines fuel name i stop u = None.
Proof.
  intros Hstop. induction fuel as [|fuel IH]; intros i u Hi; [reflexivity|].
  cbn [addLines]. assert ((i <=? stop) = true) as -> by (apply Z.leb_le; lia).
  destruct (Z.eq_dec i (2 ^ 53)) as [->|Hne].
  - rewrite increment_lost. apply IH. lia.
  - rewrite toDouble_exact by lia. apply IH. lia.
Qed.

Lemma fold_setAdd (keys u : list str) :
  NoDup u ->
  NoDup (fold_left (fun acc key => setAdd key acc) keys u)
  /\ forall k, In k (fold_left (fun acc key => setAdd key acc) keys u)
               <-> In k keys \/ In k u.
Proof.
  revert u. induction keys as [|key keys IH]; intros u Hu; cbn [fold_left].
  - split; [exact Hu|]. intros k. simpl. tauto.
  - destruct (setAdd_spec key u Hu) as [Hn Hi].
    destruct (IH _ Hn) as [Hn' Hi']. split; [exact Hn'|].
    intros k. rewrite Hi', Hi. simpl. intuition.
Qed.

Lemma fold_setAdd_app (a b u : list str) :
  fold_left (fun acc key => setAdd key acc) (a ++ b) u
  = fold_left (fun acc key => setAdd key acc) b
              (fold_left (fun acc key => setAdd key acc) a u).
Proof. apply fold_left_app. Qed.

(** With ranges below [2^53] all the loops end, and [uniqueLines] holds
    the keys of all ranges. *)
Lemma countLines_ends (duplicates : list DuplicateBlock) :
  rangesExact duplicates = true ->
  exists fuel0,
    forall fuel u, (fuel0 <= fuel)%nat ->
      countLines fuel duplicates u
      = Some (fold_left (fun acc key => setAdd key acc)
                (flat_map (fun dup => lineKeys (file1 dup) (lines1 dup)
                                      ++ lineKeys (file2 dup) (lines2 dup))
                          duplicates) u).
Proof.
  unfold rangesExact.
  induction duplicates as [|d ds IH]; cbn [forallb]; intros H.
  - exists O. reflexivity.
  - apply andb_true_iff in H as [Hd Hds]. destruct (IH Hds) as (f0 & Hf0).
    apply andb_true_iff in Hd as [H1 H2]. unfold exactRange in H1, H2.
    apply andb_true_iff in H1 as [S1 E1], H2 as [S2 E2].
    apply Z.leb_le in S1, S2. apply Z.ltb_lt in E1, E2.
    set (n1 := Z.to_nat (end_ (lines1 d) - start (lines1 d) + 1)).
    set (n2 := Z.to_nat (end_ (lines2 d) - start (lines2 d) + 1)).
    exists (S (n1 + n2 + f0)). intros fuel u Hf. cbn [countLines flat_map].
    rewrite (addLines_ends (file1 d) _ n1 E1) by (trivial; lia).
    rewrite (addLines_ends (file2 d) _ n2 E2) by (trivial; lia).
    rewrite Hf0 by lia. rewrite !fold_setAdd_app.
    now destruct (lines1 d), (lines2 d).
Qed.

Lemma setAdd_size (keys : list str) :
  length (fold_left (fun acc key => setAdd key acc) keys [])
  = length (nodup str_eq_dec keys).
Proof.
  destruct (fold_setAdd keys [] ltac:(constructor)) as [Hn Hi].
  apply Permutation_length, NoDup_Permutation;
    [exact Hn | apply NoDup_nodup |].
  intros k. rewrite Hi, nodup_In. simpl. tauto.
Qed.

Lemma calculateDuplicatedLinesWithin_ends (duplicates : list DuplicateBlock) :
  rangesExact duplicates = true ->
  exists fuel,
    calculateDuplicatedLinesWithin fuel duplicates
    = Some (calculateDuplicatedLines duplicates).
Proof.
  intros H. destruct (countLines_ends duplicates H) as (fuel & Hf).
  exists fuel. unfold calculateDuplicatedLinesWithin, calculateDuplicatedLines.
  rewrite Hf by lia. cbn [option_map]. now rewrite setAdd_size.
Qed.

End CountingLoops.

(** ** Rounding to a double *)

Section Rounding.

Local Open Scope Q_scope.

Lemma nearestEven_cases (m : Q) :
  nearestEven m = Qfloor m \/ nearestEven m = (Qfloor m + 1)%Z.
Proof.
  unfold nearestEven. destruct (m - inject_Z (Qfloor m) ?= 1 # 2);
    [destruct (Z.even (Qfloor m))|..]; auto.
Qed.

(** The nearest integer is at most one half away. *)
Lemma nearestEven_near (m : Q) :
  m - (1 # 2) <= inject_Z (nearestEven m) <= m + (1 # 2).
Proof.
  pose proof (Qfloor_le m) as Hlo. pose proof (Qlt_floor m) as Hhi.
  rewrite inject_Z_plus in Hhi. change (inject_Z 1) with 1 in Hhi.
  unfold nearestEven.
  destruct (m - inject_Z (Qfloor m) ?= 1 # 2) eqn:E.
  - apply Qeq_alt in E.
    destruct (Z.even (Qfloor m)); [|rewrite inject_Z_plus; change (inject_Z 1) with 1];
      lra.
  - apply Qlt_alt in E. lra.
  - apply Qgt_alt in E. rewrite inject_Z_plus. change (inject_Z 1) with 1. lra.
Qed.

(** No integer lies between a number and the integer nearest to it. *)
Lemma nearestEven_le (m : Q) (z : Z) :
  m <= inject_Z z -> (nearestEven m <= z)%Z.
Proof.
  intros H. pose proof (Qfloor_le m) as Hlo.
  assert (Qfloor m <= z)%Z as Hz.
  { rewrite Zle_Qle. lra. }
  destruct (Z.eq_dec (Qfloor m) z) as [E|E].
  - subst z. assert (m == inject_Z (Qfloor m)) as Em by now apply Qle_antisym.
    unfold nearestEven.
    assert ((m - inject_Z (Qfloor m) ?= 1 # 2) = Lt) as ->.
    { apply Qlt_alt. rewrite <- Em. ring_simplify (m - m). reflexivity. }
    lia.
  - destruct (nearestEven_cases m) as [-> | ->]; lia.
Qed.

Lemma nearestEven_ge (m : Q) (z : Z) :
  inject_Z z <= m -> (z <= nearestEven m)%Z.
Proof.
  intros H. assert (z <= Qfloor m)%Z as Hz.
  { rewrite <- (Qfloor_Z z). now apply Qfloor_resp_le. }
  destruct (nearestEven_cases m) as [-> | ->]; lia.
Qed.

Lemma pow2_pos (s : Z) : 0 < 2 ^ s.
Proof. now apply Qpower_0_lt. Qed.

Lemma pow2_plus (a b : Z) : 2 ^ (a + b) == 2 ^ a * 2 ^ b.
Proof. now apply Qpower_plus. Qed.

Lemma pow2_inject (n : Z) : (0 <= n)%Z -> inject_Z (2 ^ n) == 2 ^ n.
Proof. intros H. now rewrite Zpower_Qpower. Qed.

Lemma pow2_le (a b : Z) : (a <= b)%Z -> 2 ^ a <= 2 ^ b.
Proof. intros H. apply Qpower_le_compat_l; [exact H | discriminate]. Qed.

(** The numerator and the denominator of a positive number, between
    powers of two. *)
Lemma log2_bounds (x : Q) :
  0 < x ->
  let e := (Z.log2 (Qnum x) - Z.log2 (Zpos (Qden x)))%Z in
  2 ^ (e - 1) <= x /\ x < 2 ^ (e + 1).
Proof.
  intros Hx e. destruct x as [n d].
  assert (0 < n)%Z as Hn.
  { unfold Qlt in Hx. simpl in Hx. lia. }
  cbn [Qnum Qden] in e.
  pose proof (Z.log2_spec n Hn) as [Ln Un].
  pose proof (Z.log2_spec (Zpos d) eq_refl) as [Ld Ud].
  pose proof (Z.log2_nonneg n) as Pn. pose proof (Z.log2_nonneg (Zpos d)) as Pd.
  set (ln := Z.log2 n) in *. set (ld := Z.log2 (Zpos d)) in *.
  assert (n # d == inject_Z n / inject_Z (Zpos d)) as Ex by apply Qmake_Qdiv.
  assert (0 < inject_Z (Zpos d)) as Hd by reflexivity.
  assert (2 ^ ln <= inject_Z n) as Qn.
  { rewrite <- pow2_inject by exact Pn. now rewrite <- Zle_Qle. }
  assert (inject_Z n < 2 ^ (ln + 1)) as Qn'.
  { rewrite <- pow2_inject by lia. rewrite <- Zlt_Qlt.
    now replace (ln + 1)%Z with (Z.succ ln) by lia. }
  assert (2 ^ ld <= inject_Z (Zpos d)) as Qd.
  { rewrite <- pow2_inject by exact Pd. now rewrite <- Zle_Qle. }
  assert (inject_Z (Zpos d) < 2 ^ (ld + 1)) as Qd'.
  { rewrite <- pow2_inject by lia. rewrite <- Zlt_Qlt.
    now replace (ld + 1)%Z with (Z.succ ld) by lia. }
  rewrite Ex. split.
  - apply Qle_shift_div_l; [exact Hd|].
    apply Qle_trans with (2 ^ (e - 1) * 2 ^ (ld + 1)).
    + apply Qmult_le_l; [apply pow2_pos | now apply Qlt_le_weak].
    + rewrite <- pow2_plus. replace (e - 1 + (ld + 1))%Z with ln by (unfold e; lia).
      exact Qn.
  - apply Qlt_shift_div_r; [exact Hd|].
    apply Qlt_le_trans with (2 ^ (ln + 1)); [exact Qn'|].
    replace (ln + 1)%Z with (e + 1 + ld)%Z by (unfold e; lia).
    rewrite pow2_plus. apply Qmult_le_l; [apply pow2_pos | exact Qd].
Qed.

(** The last place of a positive number leaves it 53 bits. *)
Lemma lastPlace_spec (x : Q) :
  0 < x ->
  2 ^ 52 * 2 ^ lastPlace x <= x /\ x < 2 ^ 53 * 2 ^ lastPlace x.
Proof.
  intros Hx. destruct (log2_bounds x Hx) as [Lo Hi]. cbv zeta in Lo, Hi.
  unfold lastPlace.
  set (e := (Z.log2 (Qnum x) - Z.log2 (Zpos (Qden x)))%Z) in *.
  destruct (Qle_bool (2 ^ e) x) eqn:E.
  - apply Qle_bool_iff in E. rewrite <- !pow2_plus.
    replace (52 + (e - 52))%Z with e by lia.
    replace (53 + (e - 52))%Z with (e + 1)%Z by lia. now split.
  - assert (x < 2 ^ e) as E'.
    { apply Qnot_le_lt. intros H. apply Qle_bool_iff in H. congruence. }
    rewrite <- !pow2_plus.
    replace (52 + (e - 53))%Z with (e - 1)%Z by lia.
    replace (53 + (e - 53))%Z with e by lia. now split.
Qed.

Lemma roundPositive_scaled (x : Q) :
  let s := lastPlace x in
  x / 2 ^ s * 2 ^ s == x.
Proof.
  intros s. field. intros H. pose proof (pow2_pos s) as P. rewrite H in P.
  discriminate.
Qed.

(** Rounding a positive number moves it by at most half a unit of its
    last place, which is at most the [2^53]th part of it. *)
Lemma roundPositive_error (x : Q) :
  0 < x ->
  x - x * (1 # 2 ^ 53) <= roundPositive x <= x + x * (1 # 2 ^ 53).
Proof.
  intros Hx. destruct (lastPlace_spec x Hx) as [Lo _].
  pose proof (roundPositive_scaled x) as Es. cbv zeta in Es.
  unfold roundPositive. cbv zeta.
  set (s := lastPlace x) in *. pose proof (pow2_pos s) as P.
  set (p := 2 ^ s) in *. set (m := x / p) in *.
  destruct (nearestEven_near m) as [N1 N2].
  set (k := inject_Z (nearestEven m)) in *.
  change (2 ^ 52) with (4503599627370496 # 1) in Lo.
  change (1 # 2 ^ 53) with (1 # 9007199254740992).
  assert ((m - (1 # 2)) * p <= k * p) as M1
    by (apply Qmult_le_compat_r; [exact N1 | now apply Qlt_le_weak]).
  assert (k * p <= (m + (1 # 2)) * p) as M2
    by (apply Qmult_le_compat_r; [exact N2 | now apply Qlt_le_weak]).
  split; lra.
Qed.


Lemma roundDouble_compat (x y : Q) : x == y -> roundDouble x = roundDouble y.
Proof. intros H. unfold roundDouble. now rewrite (Qred_complete x y H). Qed.

Lemma Qnum_pos (x : Q) : 0 < x -> exists p, Qnum x = Zpos p.
Proof.
  destruct x as [[|p|p] d]; intros H; try discriminate H. now exists p.
Qed.

Lemma roundDouble_pos (x : Q) :
  0 < x -> roundDouble x == roundPositive (Qred x).
Proof.
  intros H. unfold roundDouble. cbv zeta.
  destruct (Qnum_pos (Qred x)) as [p ->]; [now rewrite Qred_correct|].
  apply Qred_correct.
Qed.

Lemma roundDouble_zero (x : Q) : x == 0 -> roundDouble x = 0.
Proof. intros H. now rewrite (roundDouble_compat x 0 H). Qed.

(** A double operation is exact to the [2^53]th part of its result. *)
Lemma roundDouble_error (x : Q) :
  0 <= x ->
  x - x * (1 # 2 ^ 53) <= roundDouble x <= x + x * (1 # 2 ^ 53).
Proof.
  intros H. destruct (Qle_lt_or_eq 0 x H) as [Hp|Hz].
  - rewrite roundDouble_pos by exact Hp.
    assert (0 < Qred x) as Hr by now rewrite Qred_correct.
    destruct (roundPositive_error (Qred x) Hr) as [E1 E2].
    pose proof (Qred_correct x) as Ex.
    change (1 # 2 ^ 53) with (1 # 9007199254740992) in *. split; lra.
  - rewrite (roundDouble_zero x) by now symmetry.
    rewrite <- Hz. split; discriminate.
Qed.

Lemma roundDouble_nonneg (x : Q) : 0 <= x -> 0 <= roundDouble x.
Proof.
  intros H. destruct (roundDouble_error x H) as [Lo _].
  change (1 # 2 ^ 53) with (1 # 9007199254740992) in Lo. lra.
Qed.

(** Rounding does not step over an integer that a double holds. *)
Lemma roundPositive_le (x : Q) (c : Z) :
  0 < x -> (c <= 2 ^ 53)%Z -> x <= inject_Z c -> roundPositive x <= inject_Z c.
Proof.
  intros Hx Hc Hxc. destruct (lastPlace_spec x Hx) as [Lo _].
  pose proof (roundPositive_scaled x) as Es. cbv zeta in Es.
  unfold roundPositive. cbv zeta.
  set (s := lastPlace x) in *. pose proof (pow2_pos s) as P.
  destruct (Z.le_gt_cases s 0) as [Hs|Hs].
  - (* the integer is a multiple of the last place *)
    assert (inject_Z c == inject_Z (c * 2 ^ (- s)) * 2 ^ s) as Ec.
    { rewrite inject_Z_mult, pow2_inject by lia.
      rewrite <- Qmult_assoc, <- pow2_plus.
      replace (- s + s)%Z with 0%Z by lia. change (2 ^ 0) with 1. ring. }
    rewrite Ec. apply Qmult_le_compat_r; [|now apply Qlt_le_weak].
    rewrite <- Zle_Qle. apply nearestEven_le.
    apply Qle_shift_div_r; [exact P|]. now rewrite <- Ec.
  - (* the number is [2^53] itself *)
    assert (2 ^ 1 <= 2 ^ s) as P1 by (apply pow2_le; lia).
    change (2 ^ 1) with 2 in P1. change (2 ^ 52) with (4503599627370496 # 1) in Lo.
    assert (inject_Z c <= 9007199254740992 # 1) as Hc'.
    { change (9007199254740992 # 1) with (inject_Z (2 ^ 53)). now rewrite <- Zle_Qle. }
    assert (2 ^ s == 2) as E2 by nra.
    assert (x == 9007199254740992 # 1) as Ex by nra.
    assert (inject_Z c == 9007199254740992 # 1) as Ecx by lra.
    assert (x / 2 ^ s == inject_Z (2 ^ 52)) as Em.
    { rewrite E2, Ex. reflexivity. }
    assert (nearestEven (x / 2 ^ s) <= 2 ^ 52)%Z as Hk.
    { apply nearestEven_le. rewrite Em. apply Qle_refl. }
    rewrite Zle_Qle in Hk. change (inject_Z (2 ^ 52)) with (4503599627370496 # 1) in Hk.
    set (k := inject_Z (nearestEven (x / 2 ^ s))) in *.
    rewrite E2, Ecx. lra.
Qed.

Lemma roundDouble_le (x : Q) (c : Z) :
  0 <= x -> (c <= 2 ^ 53)%Z -> x <= inject_Z c -> roundDouble x <= inject_Z c.
Proof.
  intros H Hc Hxc. destruct (Qle_lt_or_eq 0 x H) as [Hp|Hz].
  - rewrite roundDouble_pos by exact Hp.
    apply roundPositive_le; rewrite ?Qred_correct; assumption.
  - rewrite (roundDouble_zero x) by now symmetry. now rewrite Hz.
Qed.


(** Closed powers of two and closed integers, written out. *)
Ltac numerals :=
  repeat match goal with
         | |- context [Qpower 2 ?e] =>
             progress (let v := eval vm_compute in (Qpower 2 e) in
                       change (Qpower 2 e) with v)
         | H : context [Qpower 2 ?e] |- _ =>
             progress (let v := eval vm_compute in (Qpower 2 e) in
                       change (Qpower 2 e) with v in H)
         | |- context [inject_Z ?c] =>
             progress (let v := eval vm_compute in (inject_Z c) in
                       change (inject_Z c) with v)
         | H : context [inject_Z ?c] |- _ =>
             progress (let v := eval vm_compute in (inject_Z c) in
                       change (inject_Z c) with v in H)
         end.

(** Rounding does not step over a double. *)
Lemma roundPositive_under (x : Q) (K S : Z) :
  0 < x -> (K <= 2 ^ 53)%Z -> x <= inject_Z K * 2 ^ S ->
  roundPositive x <= inject_Z K * 2 ^ S.
Proof.
  intros Hx HK Hxc. destruct (lastPlace_spec x Hx) as [Lo _].
  pose proof (roundPositive_scaled x) as Es. cbv zeta in Es.
  unfold roundPositive. cbv zeta.
  set (s := lastPlace x) in *. pose proof (pow2_pos s) as P.
  pose proof (pow2_pos S) as PS.
  destruct (Z.le_gt_cases s S) as [Hs|Hs].
  - assert (inject_Z K * 2 ^ S == inject_Z (K * 2 ^ (S - s)) * 2 ^ s) as Ec.
    { rewrite inject_Z_mult, pow2_inject by lia.
      rewrite <- Qmult_assoc, <- pow2_plus.
      now replace (S - s + s)%Z with S by lia. }
    rewrite Ec. apply Qmult_le_compat_r; [|now apply Qlt_le_weak].
    rewrite <- Zle_Qle. apply nearestEven_le.
    apply Qle_shift_div_r; [exact P|]. now rewrite <- Ec.
  - assert (2 ^ (S + 1) <= 2 ^ s) as P1 by (apply pow2_le; lia).
    rewrite pow2_plus in P1. change (2 ^ 1) with 2 in P1.
    change (2 ^ 52) with (4503599627370496 # 1) in Lo.
    assert (inject_Z K <= 9007199254740992 # 1) as HK'.
    { change (9007199254740992 # 1) with (inject_Z (2 ^ 53)). now rewrite <- Zle_Qle. }
    assert (inject_Z K * 2 ^ S <= (9007199254740992 # 1) * 2 ^ S) as HKS
      by (apply Qmult_le_compat_r; [exact HK' | now apply Qlt_le_weak]).
    assert (x / 2 ^ s <= inject_Z (2 ^ 52)) as Em.
    { apply Qle_shift_div_r; [exact P|].
      change (inject_Z (2 ^ 52)) with (4503599627370496 # 1). lra. }
    apply nearestEven_le in Em. rewrite Zle_Qle in Em.
    change (inject_Z (2 ^ 52)) with (4503599627370496 # 1) in Em.
    set (k := inject_Z (nearestEven (x / 2 ^ s))) in *.
    assert (k * 2 ^ s <= (4503599627370496 # 1) * 2 ^ s) as Hk
      by (apply Qmult_le_compat_r; [exact Em | now apply Qlt_le_weak]).
    lra.
Qed.

Lemma roundPositive_over (x : Q) (K S : Z) :
  0 < x -> (K <= 2 ^ 53)%Z -> inject_Z K * 2 ^ S <= x ->
  inject_Z K * 2 ^ S <= roundPositive x.
Proof.
  intros Hx HK Hxc. destruct (lastPlace_spec x Hx) as [Lo _].
  pose proof (roundPositive_scaled x) as Es. cbv zeta in Es.
  unfold roundPositive. cbv zeta.
  set (s := lastPlace x) in *. pose proof (pow2_pos s) as P.
  pose proof (pow2_pos S) as PS.
  destruct (Z.le_gt_cases s S) as [Hs|Hs].
  - assert (inject_Z K * 2 ^ S == inject_Z (K * 2 ^ (S - s)) * 2 ^ s) as Ec.
    { rewrite inject_Z_mult, pow2_inject by lia.
      rewrite <- Qmult_assoc, <- pow2_plus.
      now replace (S - s + s)%Z with S by lia. }
    rewrite Ec. apply Qmult_le_compat_r; [|now apply Qlt_le_weak].
    rewrite <- Zle_Qle. apply nearestEven_ge.
    apply Qle_shift_div_l; [exact P|]. now rewrite <- Ec.
  - assert (2 ^ (S + 1) <= 2 ^ s) as P1 by (apply pow2_le; lia).
    rewrite pow2_plus in P1. change (2 ^ 1) with 2 in P1.
    change (2 ^ 52) with (4503599627370496 # 1) in Lo.
    assert (inject_Z K <= 9007199254740992 # 1) as HK'.
    { change (9007199254740992 # 1) with (inject_Z (2 ^ 53)). now rewrite <- Zle_Qle. }
    assert (inject_Z K * 2 ^ S <= (9007199254740992 # 1) * 2 ^ S) as HKS
      by (apply Qmult_le_compat_r; [exact HK' | now apply Qlt_le_weak]).
    assert (inject_Z (2 ^ 52) <= x / 2 ^ s) as Em.
    { apply Qle_shift_div_l; [exact P|].
      change (inject_Z (2 ^ 52)) with (4503599627370496 # 1). lra. }
    apply nearestEven_ge in Em. rewrite Zle_Qle in Em.
    change (inject_Z (2 ^ 52)) with (4503599627370496 # 1) in Em.
    set (k := inject_Z (nearestEven (x / 2 ^ s))) in *.
    assert ((4503599627370496 # 1) * 2 ^ s <= k * 2 ^ s) as Hk
      by (apply Qmult_le_compat_r; [exact Em | now apply Qlt_le_weak]).
    lra.
Qed.

Lemma roundDouble_under (x : Q) (K S : Z) :
  0 < x -> (K <= 2 ^ 53)%Z -> x <= inject_Z K * 2 ^ S ->
  roundDouble x <= inject_Z K * 2 ^ S.
Proof.
  intros Hx HK Hxc. rewrite roundDouble_pos by exact Hx.
  apply roundPositive_under; rewrite ?Qred_correct; assumption.
Qed.

Lemma roundDouble_over (x : Q) (K S : Z) :
  0 < x -> (K <= 2 ^ 53)%Z -> inject_Z K * 2 ^ S <= x ->
  inject_Z K * 2 ^ S <= roundDouble x.
Proof.
  intros Hx HK Hxc. rewrite roundDouble_pos by exact Hx.
  apply roundPositive_over; rewrite ?Qred_correct; assumption.
Qed.

Lemma pow2_lt_inv (a b : Z) : 2 ^ a < 2 ^ b -> (a < b)%Z.
Proof. intros H. apply (Qpower_lt_compat_l_inv 2); [exact H | reflexivity]. Qed.

(** The last place is decided by the powers of two around the number. *)
Lemma lastPlace_unique (x : Q) (s : Z) :
  2 ^ 52 * 2 ^ s <= x -> x < 2 ^ 53 * 2 ^ s -> lastPlace x = s.
Proof.
  intros Lo Hi.
  assert (0 < x) as Hx.
  { eapply Qlt_le_trans; [|exact Lo].
    apply Qmult_lt_0_compat; [reflexivity | apply pow2_pos]. }
  destruct (lastPlace_spec x Hx) as [Lo' Hi'].
  set (s' := lastPlace x) in *.
  assert (2 ^ (52 + s) < 2 ^ (53 + s')) as A.
  { rewrite !pow2_plus. eapply Qle_lt_trans; [exact Lo | exact Hi']. }
  assert (2 ^ (52 + s') < 2 ^ (53 + s)) as B.
  { rewrite !pow2_plus. eapply Qle_lt_trans; [exact Lo' | exact Hi]. }
  apply pow2_lt_inv in A, B. lia.
Qed.

(** A number more than half a unit of its last place above the double
    before [n * 2^s] is rounded to [n * 2^s] or above. *)
Lemma roundPositive_reaches (x : Q) (s n : Z) :
  2 ^ 52 * 2 ^ s <= x -> x < 2 ^ 53 * 2 ^ s ->
  (inject_Z n - (1 # 2)) * 2 ^ s < x ->
  inject_Z n * 2 ^ s <= roundPositive x.
Proof.
  intros Lo Hi Hn. unfold roundPositive. cbv zeta.
  rewrite (lastPlace_unique x s Lo Hi). pose proof (pow2_pos s) as P.
  apply Qmult_le_compat_r; [|now apply Qlt_le_weak].
  rewrite <- Zle_Qle.
  assert (inject_Z n - (1 # 2) < x / 2 ^ s) as Hm
    by (apply Qlt_shift_div_l; [exact P | exact Hn]).
  destruct (nearestEven_near (x / 2 ^ s)) as [N1 _].
  assert (n < nearestEven (x / 2 ^ s) + 1)%Z; [|lia].
  rewrite Zlt_Qlt, inject_Z_plus. change (inject_Z 1) with 1. lra.
Qed.

(** The double percentage reaches a threshold [15 * 2^j] when the exact
    percentage does. *)
Lemma threshold_reached (j : Z) (x : Q) :
  (j = 0 \/ j = 1)%Z ->
  inject_Z (15 * 2 ^ j) <= x * 100 ->
  inject_Z (15 * 2 ^ j) <= mulDouble (roundDouble x) 100.
Proof.
  intros Hj Hx. unfold mulDouble.
  assert (inject_Z 5404319552844595 * 2 ^ (j - 55) <= x) as Hc.
  { destruct Hj as [-> | ->]; numerals; lra. }
  assert (0 < x) as Hpos.
  { eapply Qlt_le_trans; [|exact Hc].
    apply Qmult_lt_0_compat; [reflexivity | apply pow2_pos]. }
  pose proof (roundDouble_over x 5404319552844595 (j - 55) Hpos
                ltac:(discriminate) Hc) as H1.
  set (y := roundDouble x) in *.
  assert (0 < y * 100) as Hz.
  { assert (0 < inject_Z 5404319552844595 * 2 ^ (j - 55))
      by (apply Qmult_lt_0_compat; [reflexivity | apply pow2_pos]).
    lra. }
  rewrite roundDouble_pos by exact Hz.
  pose proof (Qred_correct (y * 100)) as Er. set (z := Qred (y * 100)) in *.
  clearbody z. clearbody y.
  destruct (Qlt_le_dec z (inject_Z (2 ^ (j + 4)))) as [Hlt|Hge].
  - assert (inject_Z (15 * 2 ^ 49) * 2 ^ (j - 49) <= roundPositive z) as R.
    { apply roundPositive_reaches.
      - destruct Hj as [-> | ->]; numerals; lra.
      - destruct Hj as [-> | ->]; numerals; lra.
      - destruct Hj as [-> | ->]; numerals; lra. }
    eapply Qle_trans; [|exact R].
    destruct Hj as [-> | ->]; numerals; lra.
  - assert (inject_Z (2 ^ (j + 4)) * 2 ^ 0 <= roundPositive z) as R.
    { apply roundPositive_over.
      - lra.
      - destruct Hj as [-> | ->]; discriminate.
      - change (2 ^ 0) with 1. lra. }
    eapply Qle_trans; [|exact R].
    destruct Hj as [-> | ->]; numerals; lra.
Qed.

(** The double percentage stays below a threshold [15 * 2^j] when the
    exact percentage of fewer than [2^50] lines does. *)
Lemma threshold_missed (j d t : Z) :
  (j = 0 \/ j = 1)%Z -> (0 <= d)%Z -> (0 < t < 2 ^ 50)%Z ->
  inject_Z d / inject_Z t * 100 < inject_Z (15 * 2 ^ j) ->
  mulDouble (divDouble (inject_Z d) (inject_Z t)) 100 < inject_Z (15 * 2 ^ j).
Proof.
  intros Hj Hd [Ht Ht'] Hx. unfold mulDouble, divDouble.
  set (D := inject_Z d) in *. set (T := inject_Z t) in *.
  assert (0 <= D) as HD by (unfold D; now rewrite <- (Zle_Qle 0)).
  assert (0 < T) as HT by (unfold T; now rewrite <- (Zlt_Qlt 0)).
  assert (T <= 1125899906842623 # 1) as HT'.
  { unfold T. change (1125899906842623 # 1) with (inject_Z (2 ^ 50 - 1)).
    rewrite <- Zle_Qle. lia. }
  set (x := D / T) in *.
  assert (x * T == D) as Ex.
  { unfold x. field. intros E. rewrite E in HT. discriminate. }
  assert (0 <= x) as Hx0.
  { unfold x. apply Qle_shift_div_l; [exact HT|]. lra. }
  (* in whole numbers *)
  assert (20 * d + 2 ^ j <= 3 * 2 ^ j * t)%Z as Hz.
  { assert (100 * d < 15 * 2 ^ j * t)%Z as A; [|destruct Hj as [-> | ->]; lia].
    rewrite Zlt_Qlt, !inject_Z_mult. fold D T.
    assert (x * 100 * T < inject_Z (15 * 2 ^ j) * T) as M
      by (apply Qmult_lt_compat_r; assumption).
    rewrite inject_Z_mult in M.
    setoid_replace (x * 100 * T) with (100 * (x * T)) in M by ring.
    rewrite Ex in M. exact M. }
  rewrite Zle_Qle, inject_Z_plus, !inject_Z_mult in Hz. fold D T in Hz.
  change (inject_Z 20) with 20 in Hz. change (inject_Z 3) with 3 in Hz.
  assert (x <= inject_Z 5404319552844594 * 2 ^ (j - 55)) as Hc.
  { apply (Qmult_lt_0_le_reg_r _ _ T HT). rewrite Ex.
    clear Hx. clearbody x D T. destruct Hj as [-> | ->]; numerals; lra. }
  destruct (Qle_lt_or_eq 0 x Hx0) as [Hp|Hzero].
  - pose proof (roundDouble_under x 5404319552844594 (j - 55) Hp
                  ltac:(discriminate) Hc) as H1.
    pose proof (roundDouble_nonneg x Hx0) as N1.
    set (y := roundDouble x) in *.
    destruct (Qle_lt_or_eq 0 (y * 100) ltac:(lra)) as [Hyp|Hyz].
    + assert (y * 100 <= inject_Z (15 * 2 ^ 49 - 1) * 2 ^ (j - 49)) as Hb.
      { destruct Hj as [-> | ->]; numerals; lra. }
      pose proof (roundDouble_under (y * 100) (15 * 2 ^ 49 - 1) (j - 49) Hyp
                    ltac:(discriminate) Hb) as H2.
      eapply Qle_lt_trans; [exact H2|].
      destruct Hj as [-> | ->]; numerals; reflexivity.
    + rewrite (roundDouble_zero (y * 100)) by now symmetry.
      destruct Hj as [-> | ->]; reflexivity.
  - rewrite (roundDouble_zero x) by now symmetry.
    rewrite (roundDouble_zero (0 * 100)) by reflexivity.
    destruct Hj as [-> | ->]; reflexivity.
Qed.

(** The double the code compares with [15] and [30] and the exact ratio
    fall on the same side of both, for fewer than [2^50] lines. *)
Lemma calculateSeverity_double (d t : Z) :
  (0 <= d)%Z -> (0 < t < 2 ^ 50)%Z ->
  calculateSeverity (mulDouble (divDouble (inject_Z d) (inject_Z t)) 100)
  = calculateSeverity (inject_Z d / inject_Z t * 100).
Proof.
  intros Hd Ht.
  assert (forall j, (j = 0 \/ j = 1)%Z ->
            Qle_bool (inject_Z (15 * 2 ^ j))
              (mulDouble (divDouble (inject_Z d) (inject_Z t)) 100)
            = Qle_bool (inject_Z (15 * 2 ^ j))
                (inject_Z d / inject_Z t * 100)) as H.
  { intros j Hj. apply eq_true_iff_eq. rewrite !Qle_bool_iff. split.
    - intros H. apply Qnot_lt_le. intros Hlt.
      apply (threshold_missed j d t Hj Hd Ht) in Hlt.
      exact (Qlt_not_le _ _ Hlt H).
    - intros H. unfold divDouble. now apply threshold_reached. }
  unfold calculateSeverity.
  change 30 with (inject_Z (15 * 2 ^ 1)). change 15 with (inject_Z (15 * 2 ^ 0)).
  now rewrite (H 1%Z), (H 0%Z) by auto.
Qed.

(** The doubles nearest to one tenth, to three tenths and to one third;
    on integers the rounding is that of [toDouble]. *)
Example roundDouble_samples :
  roundDouble (1 # 10) = 3602879701896397 # 36028797018963968
  /\ roundDouble (3 # 10) = 5404319552844595 # 18014398509481984
  /\ roundDouble (1 # 3) = 6004799503160661 # 18014398509481984
  /\ roundDouble (inject_Z (2 ^ 53 + 1)) = inject_Z (toDouble (2 ^ 53 + 1))
  /\ roundDouble (inject_Z (2 ^ 53 + 3)) = inject_Z (toDouble (2 ^ 53 + 3))
  /\ roundDouble (inject_Z (2 ^ 60 + 385)) = inject_Z (toDouble (2 ^ 60 + 385)).
Proof. vm_compute. repeat split; reflexivity. Qed.

End Rounding.


(** * The orchestration routine *)

Section Analyze.

Lemma extractCodeBlocks_ok (l : list (option PrFile)) :
  existsb entryThrows l = false -> exists bs, extractCodeBlocks l = Ok bs.
Proof.
  induction l as [|entry rest IH]; simpl; intros H.
  - now exists [].
  - apply orb_false_elim in H as [He Hr].
    destruct (IH Hr) as [bs' ->].
    destruct entry as [f|]; [|discriminate]. simpl in He |- *.
    destruct (shouldSkipFile (filename f)); simpl in *.
    + now eexists.
    + destruct (patch f) as [|[|c p]|]; try discriminate; simpl; now eexists.
Qed.

Lemma extractCodeBlocks_throws (l : list (option PrFile)) :
  existsb entryThrows l = true -> extractCodeBlocks l = Thrown.
Proof.
  induction l as [|entry rest IH]; simpl; intros H; [discriminate|].
  apply orb_true_iff in H as [He|Hr].
  - destruct entry as [f|]; [|reflexivity]. simpl in He |- *.
    destruct (shouldSkipFile (filename f)); [discriminate|].
    destruct (patch f); try discriminate. reflexivity.
  - rewrite (IH Hr). destruct (blocksOfFile entry); reflexivity.
Qed.

Lemma totalStep_thrown (l : list (option PrFile)) :
  fold_left totalStep l Thrown = Thrown.
Proof. induction l; simpl; auto. Qed.

Lemma calculateTotalLines_ok (l : list (option PrFile)) :
  existsb entryThrows l = false -> exists n, calculateTotalLines l = Ok n.
Proof.
  unfold calculateTotalLines. generalize 0 as acc.
  induction l as [|entry rest IH]; simpl; intros acc H.
  - now exists acc.
  - apply orb_false_elim in H as [He Hr].
    destruct entry as [f|]; [|discriminate]. apply IH, Hr.
Qed.

(** C1 (analyzeDuplication returns), as far as the code guarantees it:
    on every argument for which no finding has a line range that reaches
    [2^53], the routine returns after finitely many turns of its loops, and
    never throws.  Either a step of the [try] block throws -- exactly when
    the list is [null], has a [null] entry, or has a file that is not
    skipped and whose patch is a truthy non-string -- and the report is the
    empty report; or no step throws and the report is the one the block
    computed. *)
Theorem analyzeDuplication_returns (files : option (list (option PrFile))) :
  rangesExact (duplicateBlocks (analyzeDuplication files)) = true ->
  exists fuel,
    analyzeDuplicationWithin fuel files = Some (analyzeDuplication files)
    /\ ((malformed files = true /\ analyzeWithin fuel files = Some Thrown
         /\ analyzeDuplication files = emptyReport)
        \/ (malformed files = false
            /\ analyzeWithin fuel files = Some (Ok (analyzeDuplication files)))).
Proof.
  intros Hr. destruct (malformed files) eqn:Hm.
  - exists O.
    assert (analyzeWithin 0 files = Some Thrown /\ analyze files = Thrown)
      as [E1 E2].
    { destruct files as [l|]; [|now split]. simpl in Hm.
      unfold analyzeWithin, analyze.
      now rewrite (extractCodeBlocks_throws l Hm). }
    assert (analyzeDuplication files = emptyReport) as E3
      by (unfold analyzeDuplication; now rewrite E2).
    split; [|left; auto]. unfold analyzeDuplicationWithin. now rewrite E1, E3.
  - destruct files as [l|]; [|discriminate]. simpl in Hm.
    destruct (extractCodeBlocks_ok l Hm) as [bs Hb].
    destruct (calculateTotalLines_ok l Hm) as [n Hn].
    unfold analyzeDuplication, analyze in Hr |- *. rewrite Hb, Hn in Hr |- *.
    cbn [bind duplicateBlocks] in Hr |- *.
    destruct (calculateDuplicatedLinesWithin_ends _ Hr) as (fuel & Hf).
    exists fuel.
    assert (analyzeWithin fuel (Some l)
            = Some (Ok (mkReport
                          (Qred (inject_Z
                                   (mathRound
                                      (mulDouble
                                         (if 0 <? n
                                          then mulDouble
                                                 (divDouble
                                                    (inject_Z
                                                       (calculateDuplicatedLines
                                                          (findDuplicates bs)))
                                                    (inject_Z n)) 100
                                          else 0%Q) 10)) / 10))
                          (calculateSeverity
                             (if 0 <? n
                              then (inject_Z (calculateDuplicatedLines
                                                (findDuplicates bs))
                                    / inject_Z n * 100)%Q
                              else 0%Q))
                          (findDuplicates bs) n
                          (calculateDuplicatedLines (findDuplicates bs)))))
      as E.
    { unfold analyzeWithin. now rewrite Hb, Hn, Hf. }
    split; [|right; split; [reflexivity | exact E]].
    unfold analyzeDuplicationWithin. now rewrite E.
Qed.

Lemma analyzeDuplication_returns_witness :
  rangesExact (duplicateBlocks (analyzeDuplication (Some twoCopies))) = true
  /\ exists fuel,
       analyzeDuplicationWithin fuel (Some twoCopies)
       = Some (analyzeDuplication (Some twoCopies)).
Proof.
  assert (rangesExact (duplicateBlocks (analyzeDuplication (Some twoCopies)))
          = true) as H by (vm_compute; reflexivity).
  split; [exact H|].
  destruct (analyzeDuplication_returns (Some twoCopies) H) as (fuel & E & _).
  now exists fuel.
Defined.

(** C1 does not hold in full generality: when two files share a block in
    the lines [2^53 - 9 .. 2^53], the loop that counts the duplicated lines
    reaches [2^53], where [i++] leaves [i] as it is, and the routine has not
    returned after any number of turns. *)
Lemma analysis_never_ends :
  ~ exists fuel, analyzeDuplicationWithin fuel (Some farCopies) <> None.
Proof.
  intros (fuel & H). apply H. clear H.
  unfold analyzeDuplicationWithin, analyzeWithin.
  set (blocks := extractCodeBlocks farCopies). vm_compute in blocks.
  subst blocks. cbv beta iota zeta.
  set (duplicates := findDuplicates _). vm_compute in duplicates.
  subst duplicates.
  set (total := calculateTotalLines farCopies). vm_compute in total.
  subst total. cbv beta iota.
  unfold calculateDuplicatedLinesWithin. cbn [countLines file1 lines1 start end_].
  rewrite addLines_caught by (try split; vm_compute; discriminate).
  reflexivity.
Qed.

(** The two ways in which the routine returns. *)
Lemma analyzeDuplication_cases (files : option (list (option PrFile))) :
  analyzeDuplication files = emptyReport
  \/ exists r, analyze files = Ok r /\ analyzeDuplication files = r.
Proof.
  unfold analyzeDuplication. destruct (analyze files) as [r|].
  - right. now exists r.
  - now left.
Qed.

Lemma mathRound_bounds (x : Q) :
  (x - (1 # 2) < inject_Z (mathRound x))%Q /\ (inject_Z (mathRound x) <= x + (1 # 2))%Q.
Proof.
  unfold mathRound. split.
  - pose proof (Qlt_floor (x + (1 # 2))) as H.
    rewrite inject_Z_plus in H.
    apply Qplus_lt_l with (z := 1%Q).
    eapply Qle_lt_trans; [|exact H].
    apply Qle_lteq. right. ring.
  - apply Qfloor_le.
Qed.

Section Tenths.

Local Open Scope Q_scope.

(** The three operations of the percentage lose less than four parts in
    [2^53]. *)
Lemma percentage_error (x : Q) :
  0 <= x ->
  let y := mulDouble (mulDouble (roundDouble x) 100) 10 in
  1000 * x - 4000 * x * (1 # 2 ^ 53) <= y <= 1000 * x + 4000 * x * (1 # 2 ^ 53).
Proof.
  intros Hx. cbv zeta. unfold mulDouble.
  pose proof (roundDouble_nonneg x Hx) as N1.
  destruct (roundDouble_error x Hx) as [L1 U1].
  set (y1 := roundDouble x) in *.
  assert (0 <= y1 * 100) as H2 by lra.
  pose proof (roundDouble_nonneg _ H2) as N2.
  destruct (roundDouble_error _ H2) as [L2 U2].
  set (y2 := roundDouble (y1 * 100)) in *.
  assert (0 <= y2 * 10) as H3 by lra.
  destruct (roundDouble_error _ H3) as [L3 U3].
  set (y3 := roundDouble (y2 * 10)) in *.
  change (1 # 2 ^ 53) with (1 # 9007199254740992) in *.
  split; lra.
Qed.

(** The tenth the code reports is one nearest to the exact ratio. *)
Lemma tenths_near (d t : Z) :
  (0 <= d < 2 ^ 40)%Z -> (0 < t)%Z ->
  let y := mulDouble (mulDouble (divDouble (inject_Z d) (inject_Z t)) 100) 10 in
  let p := inject_Z (mathRound y) / 10 in
  100 * inject_Z d / inject_Z t - (1 # 20) <= p
  /\ p <= 100 * inject_Z d / inject_Z t + (1 # 20).
Proof.
  intros [Hd Hd'] Ht. cbv zeta. unfold divDouble.
  set (D := inject_Z d). set (T := inject_Z t).
  assert (0 <= D) as HD by (unfold D; now rewrite <- (Zle_Qle 0)).
  assert (D <= 1099511627775 # 1) as HD'.
  { unfold D. change (1099511627775 # 1) with (inject_Z (2 ^ 40 - 1)).
    rewrite <- Zle_Qle. lia. }
  assert (0 < T) as HT by (unfold T; now rewrite <- (Zlt_Qlt 0)).
  set (x := D / T).
  assert (x * T == D) as Ex.
  { unfold x. field. intros E. rewrite E in HT. discriminate. }
  assert (0 <= x) as Hx.
  { unfold x. apply Qle_shift_div_l; [exact HT|]. lra. }
  destruct (percentage_error x Hx) as [Lo Hi]. cbv zeta in Lo, Hi.
  set (y := mulDouble (mulDouble (roundDouble x) 100) 10) in *.
  destruct (mathRound_bounds y) as [Rl Rh].
  set (k := mathRound y) in *. set (K := inject_Z k) in *.
  change (1 # 2 ^ 53) with (1 # 9007199254740992) in *.
  (* in whole numbers *)
  assert (2 * (k * t) <= t + 2000 * d /\ 2000 * d <= 2 * (k * t) + t)%Z
    as [Zh Zl].
  { assert (2 * (k * t) < t + 2000 * d + 1 /\ 2000 * d < 2 * (k * t) + t + 1)%Z
      as [A B]; [|lia].
    rewrite !Zlt_Qlt.
    rewrite !inject_Z_plus, !inject_Z_mult.
    fold K T D. change (inject_Z 2) with 2. change (inject_Z 2000) with 2000.
    change (inject_Z 1) with 1.
    assert ((K - 1000 * x - 4000 * x * (1 # 9007199254740992) - (1 # 2)) * T <= 0 * T)
      as M1 by (apply Qmult_le_compat_r; lra).
    assert (0 * T < (K - 1000 * x + 4000 * x * (1 # 9007199254740992) + (1 # 2)) * T)
      as M2 by (apply Qmult_lt_compat_r; lra).
    setoid_replace ((K - 1000 * x - 4000 * x * (1 # 9007199254740992) - (1 # 2)) * T)
      with (K * T - 1000 * (x * T) - 4000 * (x * T) * (1 # 9007199254740992)
            - (1 # 2) * T) in M1 by ring.
    setoid_replace ((K - 1000 * x + 4000 * x * (1 # 9007199254740992) + (1 # 2)) * T)
      with (K * T - 1000 * (x * T) + 4000 * (x * T) * (1 # 9007199254740992)
            + (1 # 2) * T) in M2 by ring.
    rewrite Ex in M1, M2. set (KT := K * T) in *. split; lra. }
  rewrite Zle_Qle in Zh, Zl.
  rewrite !inject_Z_plus, !inject_Z_mult in Zh, Zl.
  fold K T D in Zh, Zl. change (inject_Z 2) with 2 in *.
  change (inject_Z 2000) with 2000 in *.
  assert (100 * D / T == 100 * x) as Er by (unfold x; field; lra).
  rewrite Er. split.
  - apply Qle_shift_div_l; [reflexivity|].
    apply (Qmult_lt_0_le_reg_r _ _ T HT).
    setoid_replace ((100 * x - (1 # 20)) * 10 * T)
      with (1000 * (x * T) - (1 # 2) * T) by ring.
    rewrite Ex. set (KT := K * T) in *. lra.
  - apply Qle_shift_div_r; [reflexivity|].
    apply (Qmult_lt_0_le_reg_r _ _ T HT).
    setoid_replace ((100 * x + (1 # 20)) * 10 * T)
      with (1000 * (x * T) + (1 # 2) * T) by ring.
    rewrite Ex. set (KT := K * T) in *. lra.
Qed.

(** With no more duplicated lines than lines the code reports at most
    [100]. *)
Lemma tenths_le_100 (d t : Z) :
  (0 <= d <= t)%Z -> (0 < t)%Z ->
  let y := mulDouble (mulDouble (divDouble (inject_Z d) (inject_Z t)) 100) 10 in
  inject_Z (mathRound y) / 10 <= 100.
Proof.
  intros [Hd Hdt] Ht. cbv zeta. unfold divDouble, mulDouble.
  set (D := inject_Z d). set (T := inject_Z t).
  assert (0 <= D) as HD by (unfold D; now rewrite <- (Zle_Qle 0)).
  assert (D <= T) as HDT by (unfold D, T; now rewrite <- Zle_Qle).
  assert (0 < T) as HT by (unfold T; now rewrite <- (Zlt_Qlt 0)).
  assert (0 <= D / T) as Hx by (apply Qle_shift_div_l; [exact HT | lra]).
  assert (D / T <= inject_Z 1) as Hx1.
  { apply Qle_shift_div_r; [exact HT|]. change (inject_Z 1) with 1. lra. }
  pose proof (roundDouble_nonneg _ Hx) as N1.
  pose proof (roundDouble_le _ 1 Hx ltac:(discriminate) Hx1) as B1.
  set (y1 := roundDouble (D / T)) in *. change (inject_Z 1) with 1 in B1.
  assert (0 <= y1 * 100) as H2 by lra.
  assert (y1 * 100 <= inject_Z 100) as H2' by (change (inject_Z 100) with 100; lra).
  pose proof (roundDouble_nonneg _ H2) as N2.
  pose proof (roundDouble_le _ 100 H2 ltac:(discriminate) H2') as B2.
  set (y2 := roundDouble (y1 * 100)) in *. change (inject_Z 100) with 100 in B2.
  assert (0 <= y2 * 10) as H3 by lra.
  assert (y2 * 10 <= inject_Z 1000) as H3' by (change (inject_Z 1000) with 1000; lra).
  pose proof (roundDouble_le _ 1000 H3 ltac:(discriminate) H3') as B3.
  set (y3 := roundDouble (y2 * 10)) in *. change (inject_Z 1000) with 1000 in B3.
  apply Qle_shift_div_r; [reflexivity|].
  change (100 * 10) with (inject_Z 1000). rewrite <- Zle_Qle.
  unfold mathRound. change 1000%Z with (Qfloor (1000 + (1 # 2))).
  apply Qfloor_resp_le. lra.
Qed.

Lemma tenths_nonneg (d t : Z) :
  (0 <= d)%Z -> (0 < t)%Z ->
  let y := mulDouble (mulDouble (divDouble (inject_Z d) (inject_Z t)) 100) 10 in
  0 <= inject_Z (mathRound y) / 10.
Proof.
  intros Hd Ht. cbv zeta. unfold divDouble, mulDouble.
  set (D := inject_Z d). set (T := inject_Z t).
  assert (0 <= D) as HD by (unfold D; now rewrite <- (Zle_Qle 0)).
  assert (0 < T) as HT by (unfold T; now rewrite <- (Zlt_Qlt 0)).
  assert (0 <= D / T) as Hx by (apply Qle_shift_div_l; [exact HT | lra]).
  pose proof (roundDouble_nonneg _ Hx) as N1.
  set (y1 := roundDouble (D / T)) in *.
  assert (0 <= y1 * 100) as H2 by lra.
  pose proof (roundDouble_nonneg _ H2) as N2.
  set (y2 := roundDouble (y1 * 100)) in *.
  assert (0 <= y2 * 10) as H3 by lra.
  pose proof (roundDouble_nonneg _ H3) as N3.
  set (y3 := roundDouble (y2 * 10)) in *.
  apply Qle_shift_div_l; [reflexivity|].
  change (0 * 10) with (inject_Z 0). rewrite <- Zle_Qle.
  unfold mathRound. change 0%Z with (Qfloor 0) at 1.
  apply Qfloor_resp_le. lra.
Qed.


End Tenths.

Local Opaque Qred.

(** The unrounded percentage the routine computes. *)
Lemma report_shape (files : option (list (option PrFile))) :
  let r := analyzeDuplication files in
  let ratio :=
    if 0 <? totalLines r
    then (inject_Z (duplicatedLines r) / inject_Z (totalLines r) * 100)%Q
    else 0%Q in
  let p :=
    if 0 <? totalLines r
    then mulDouble (divDouble (inject_Z (duplicatedLines r))
                              (inject_Z (totalLines r))) 100
    else 0%Q in
  (percentage r == inject_Z (mathRound (mulDouble p 10)) / 10)%Q
  /\ severity r = calculateSeverity ratio
  /\ duplicatedLines r = calculateDuplicatedLines (duplicateBlocks r).
Proof.
  destruct (analyzeDuplication_cases files) as [->|(r & Hr & ->)].
  - simpl. repeat split; reflexivity.
  - destruct files as [l|]; [|discriminate]. unfold analyze in Hr.
    destruct (extractCodeBlocks l) as [bs|]; [|discriminate]. cbn [bind] in Hr.
    destruct (calculateTotalLines l) as [n|]; [|discriminate]. cbn [bind] in Hr.
    injection Hr as <-.
    lazy beta iota zeta
      delta [percentage severity duplicatedLines totalLines duplicateBlocks].
    split; [rewrite Qred_correct; reflexivity|]. split; reflexivity.
Qed.

Local Transparent Qred.





Lemma ratioOf_nonneg (files : option (list (option PrFile))) :
  (0 <= ratioOf (analyzeDuplication files))%Q.
Proof.
  destruct (report_shape files) as (_ & _ & Hd). cbv zeta in Hd.
  unfold ratioOf. destruct (0 <? totalLines _) eqn:Ht; [|apply Qle_refl].
  apply Z.ltb_lt in Ht.
  apply Qle_shift_div_l.
  - now rewrite <- (Zlt_Qlt 0).
  - setoid_replace (0 * inject_Z (totalLines (analyzeDuplication files)))%Q
      with 0%Q by ring.
    apply Qmult_le_0_compat; [discriminate|].
    rewrite <- (Zle_Qle 0). rewrite Hd. unfold calculateDuplicatedLines. lia.
Qed.

(** C2 (percentage), as far as the code guarantees it:
    the reported percentage is never negative; it is
    [100 * duplicatedLines / totalLines] rounded to one decimal when
    [totalLines > 0] and [0] otherwise -- a multiple of one tenth at most
    [0.05] away from the ratio, where a ratio halfway between two tenths may
    go either way, since the code rounds a double that can lie just below
    the tie; and it is at most [100] whenever
    [duplicatedLines <= totalLines].  The rounding is stated for fewer than
    [2^40] duplicated lines: up to there the three double operations lose
    too little to reach another tenth. *)
Theorem percentage_rounded_ratio (files : option (list (option PrFile))) :
  let r := analyzeDuplication files in
  (0 <= percentage r)%Q
  /\ (duplicatedLines r < 2 ^ 40 -> isNearestTenth (ratioOf r) (percentage r))
  /\ (totalLines r <= 0 -> (percentage r == 0)%Q)
  /\ (duplicatedLines r <= totalLines r -> (percentage r <= 100)%Q).
Proof.
  intros r. destruct (report_shape files) as (Hp & _ & Hd). fold r in Hp, Hd.
  cbv zeta in Hp.
  assert (0 <= duplicatedLines r) as Hn
    by (rewrite Hd; unfold calculateDuplicatedLines; lia).
  unfold ratioOf. destruct (0 <? totalLines r) eqn:Ht.
  - apply Z.ltb_lt in Ht. split; [|split; [|split]].
    + rewrite Hp. now apply tenths_nonneg.
    + intros Hb.
      destruct (tenths_near (duplicatedLines r) (totalLines r)) as [Lo Hi];
        [lia | exact Ht|]. cbv zeta in Lo, Hi.
      split; [|split].
      * eexists. exact Hp.
      * now rewrite Hp.
      * now rewrite Hp.
    + intros Hle. lia.
    + intros Hle. rewrite Hp. apply tenths_le_100; [lia | exact Ht].
  - assert (percentage r == 0)%Q as Hz by (rewrite Hp; reflexivity).
    split; [|split; [|split]].
    + rewrite Hz. apply Qle_refl.
    + intros _. split; [|split].
      * exists 0. rewrite Hz. reflexivity.
      * rewrite Hz. discriminate.
      * rewrite Hz. discriminate.
    + intros _. exact Hz.
    + intros _. rewrite Hz. discriminate.
Qed.

Lemma percentage_rounded_ratio_witness :
  let r := analyzeDuplication (Some twoCopies) in
  (duplicatedLines r < 2 ^ 40 /\ isNearestTenth (ratioOf r) (percentage r))
  /\ (duplicatedLines r <= totalLines r /\ (percentage r <= 100)%Q).
Proof.
  split; split.
  - vm_compute. reflexivity.
  - apply (percentage_rounded_ratio (Some twoCopies)). vm_compute. reflexivity.
  - vm_compute. discriminate.
  - apply (percentage_rounded_ratio (Some twoCopies)). vm_compute. discriminate.
Defined.

(** A ratio halfway between two tenths: the double the code rounds is
    [5.499999999999999], and the report says [0.5]. *)
Example percentage_below_tie :
  let r := analyzeDuplication (Some belowTie) in
  duplicatedLines r = 22 /\ totalLines r = 4000
  /\ (ratioOf r == 11 # 20)%Q /\ (percentage r == 1 # 2)%Q
  /\ (mulDouble (mulDouble (divDouble 22 4000) 100) 10
      == 6192449487634431 # 1125899906842624)%Q.
Proof. vm_compute. repeat split; reflexivity. Qed.

(** C2 does not hold in full generality:
    two files whose ten shared added lines are each
    followed by a context line report a percentage above [100]. *)
Lemma percentage_above_100 :
  ~ (percentage (analyzeDuplication (Some gappedCopies)) <= 100)%Q.
Proof.
  intros H. apply Qle_bool_iff in H. vm_compute in H. discriminate.
Qed.



Lemma extractCodeBlocks_skip (pre post : list (option PrFile)) (f : PrFile) :
  shouldSkipFile (filename f) = true ->
  extractCodeBlocks (pre ++ Some f :: post) = extractCodeBlocks (pre ++ post).
Proof.
  intros Hs. induction pre as [|e pre IH]; simpl.
  - rewrite Hs. simpl. destruct (extractCodeBlocks post); reflexivity.
  - now rewrite IH.
Qed.

Lemma calculateTotalLines_skip (pre post : list (option PrFile)) (f : PrFile) :
  shouldSkipFile (filename f) = true ->
  calculateTotalLines (pre ++ Some f :: post) = calculateTotalLines (pre ++ post).
Proof.
  intros Hs.
  assert (forall acc, totalStep acc (Some f) = acc) as E.
  { intros [n|]; unfold totalStep; simpl; [now rewrite Hs | reflexivity]. }
  unfold calculateTotalLines. rewrite !fold_left_app.
  change (fold_left totalStep (Some f :: post) ?a)
    with (fold_left totalStep post (totalStep a (Some f))).
  now rewrite E.
Qed.

(** C7 (idempotence of the skip filter): removing from the list a file whose
    name matches [shouldSkipFile] leaves the whole report unchanged. *)
Theorem skipped_file_irrelevant (pre post : list (option PrFile)) (f : PrFile) :
  shouldSkipFile (filename f) = true ->
  analyzeDuplication (Some (pre ++ Some f :: post))
  = analyzeDuplication (Some (pre ++ post)).
Proof.
  intros Hs. unfold analyzeDuplication, analyze.
  now rewrite extractCodeBlocks_skip, calculateTotalLines_skip.
Qed.

End Analyze.

Lemma skipped_file_irrelevant_witness :
  shouldSkipFile (filename lockFile) = true
  /\ analyzeDuplication (Some (twoCopies ++ Some lockFile :: []))
     = analyzeDuplication (Some (twoCopies ++ [])).
Proof.
  split.
  - reflexivity.
  - apply (skipped_file_irrelevant twoCopies [] lockFile). reflexivity.
Defined.

(** * Sorting with a comparison function *)

Section SortBy.

Context {A : Type} (le : A -> A -> bool).

Lemma insertBy_perm (x : A) (l : list A) : Permutation (insertBy le x l) (x :: l).
Proof.
  induction l as [|y r IH]; simpl; [reflexivity|].
  destruct (le x y); [reflexivity|].
  rewrite IH. apply perm_swap.
Qed.

Lemma sortBy_perm (l : list A) : Permutation (sortBy le l) l.
Proof.
  induction l as [|x r IH]; simpl; [reflexivity|].
  rewrite insertBy_perm. now constructor.
Qed.

Lemma sortBy_In (l : list A) (x : A) : In x (sortBy le l) <-> In x l.
Proof.
  split; apply Permutation_in; [|symmetry]; apply sortBy_perm.
Qed.

Lemma sortBy_Forall (P : A -> Prop) (l : list A) :
  Forall P l -> Forall P (sortBy le l).
Proof.
  intros H. eapply Permutation_Forall; [symmetry; apply sortBy_perm | exact H].
Qed.

Hypothesis le_total : forall a b, le a b = false -> le b a = true.
Hypothesis le_trans : forall a b c, le a b = true -> le b c = true -> le a c = true.

Lemma insertBy_sorted (x : A) (l : list A) :
  StronglySorted (fun a b => le a b = true) l ->
  StronglySorted (fun a b => le a b = true) (insertBy le x l).
Proof.
  induction 1 as [|y r Hs IH Hy]; simpl.
  - repeat constructor.
  - destruct (le x y) eqn:E.
    + constructor; [now constructor|].
      constructor; [exact E|].
      eapply Forall_impl; [|exact Hy]. intros z Hz. eapply le_trans; eauto.
    + constructor; [exact IH|].
      eapply Permutation_Forall; [symmetry; apply insertBy_perm|].
      constructor; [now apply le_total | exact Hy].
Qed.

Lemma sortBy_sorted (l : list A) :
  StronglySorted (fun a b => le a b = true) (sortBy le l).
Proof.
  induction l as [|x r IH]; simpl; [constructor|].
  now apply insertBy_sorted.
Qed.

End SortBy.

(** * The final order of the report *)

Section Ranking.

Lemma rankLe_spec (a b : DuplicateBlock) : rankLe a b = true <-> ranksBefore a b.
Proof.
  unfold rankLe, ranksBefore.
  destruct (sizeOf a =? sizeOf b) eqn:E; simpl.
  - apply Z.eqb_eq in E. rewrite Qle_bool_iff. split.
    + intros H. right. now split.
    + intros [H|[_ H]]; [lia | exact H].
  - apply Z.eqb_neq in E. rewrite Z.leb_le. split.
    + intros H. left. lia.
    + intros [H|[H _]]; [lia | contradiction].
Qed.

Lemma rankLe_total (a b : DuplicateBlock) : rankLe a b = false -> rankLe b a = true.
Proof.
  intros H. apply rankLe_spec.
  assert (~ ranksBefore a b) as N by (rewrite <- rankLe_spec; congruence).
  unfold ranksBefore in *.
  destruct (Z.lt_trichotomy (sizeOf a) (sizeOf b)) as [L|[E|G]].
  - now left.
  - right. split; [now symmetry|].
    apply Qlt_le_weak, Qnot_le_lt. intros Hq. apply N. right. now split.
  - exfalso. apply N. now left.
Qed.

Lemma rankLe_trans (a b c : DuplicateBlock) :
  rankLe a b = true -> rankLe b c = true -> rankLe a c = true.
Proof.
  rewrite !rankLe_spec. unfold ranksBefore.
  intros [H1|[E1 Q1]] [H2|[E2 Q2]].
  - left. lia.
  - left. lia.
  - left. lia.
  - right. split; [lia|]. eapply Qle_trans; eauto.
Qed.

Lemma findDuplicates_sorted (blocks : list CodeBlock) :
  StronglySorted ranksBefore (findDuplicates blocks).
Proof.
  unfold findDuplicates.
  pose proof (sortBy_sorted rankLe rankLe_total rankLe_trans
                (clusterDuplicatesByPattern
                   (mergeOverlappingDuplicates (detectPairs blocks)))) as H.
  induction H as [|x l Hs IH Hx]; constructor; trivial.
  eapply Forall_impl; [|exact Hx]. intros y. apply rankLe_spec.
Qed.

(** The findings of any report are those of [findDuplicates] on some list
    of blocks. *)
Lemma report_blocks (files : option (list (option PrFile))) :
  duplicateBlocks (analyzeDuplication files) = []
  \/ exists l blocks,
       files = Some l /\ extractCodeBlocks l = Ok blocks
       /\ duplicateBlocks (analyzeDuplication files) = findDuplicates blocks.
Proof.
  destruct (analyzeDuplication_cases files) as [->|(r & Hr & ->)].
  - now left.
  - right. destruct files as [l|]; [|discriminate]. unfold analyze in Hr.
    destruct (extractCodeBlocks l) as [bs|] eqn:Hb; [|discriminate]. simpl in Hr.
    destruct (calculateTotalLines l) as [n|]; [|discriminate]. simpl in Hr.
    injection Hr as <-. exists l, bs. split; [reflexivity|]. split; [exact Hb | reflexivity].
Qed.

(** C10 (order of the report): in [duplicateBlocks] a finding stands before
    another only if its [clusterSize] (1 when absent) is larger, or equal
    with a similarity at least as high. *)
Theorem report_sorted (files : option (list (option PrFile))) :
  StronglySorted ranksBefore (duplicateBlocks (analyzeDuplication files)).
Proof.
  destruct (report_blocks files) as [->|(l & bs & _ & _ & ->)].
  - constructor.
  - apply findDuplicates_sorted.
Qed.

End Ranking.

(** * Strings and insertion-ordered maps *)

Section Maps.

Lemma Str_eqb_eq (a b : str) : Str.eqb a b = true <-> a = b.
Proof.
  revert b. induction a as [|x a IH]; intros [|y b]; simpl;
    try (split; [discriminate|discriminate]); [tauto|].
  rewrite andb_true_iff, Ascii.eqb_eq, IH.
  split; [intros [-> ->]; reflexivity | intros [= -> ->]; now split].
Qed.

Lemma Str_eqb_neq (a b : str) : Str.eqb a b = false <-> a <> b.
Proof.
  rewrite <- Str_eqb_eq. destruct (Str.eqb a b); split; congruence.
Qed.

Lemma Str_eqb_refl (a : str) : Str.eqb a a = true.
Proof. now apply Str_eqb_eq. Qed.

Context {K A : Type} (eqb : K -> K -> bool).

Lemma bucketAdd_In (k : K) (v : A) (m : list (K * list A)) (g : K * list A) (x : A) :
  In g (bucketAdd eqb k v m) -> In x (snd g) ->
  x = v \/ exists g', In g' m /\ In x (snd g').
Proof.
  induction m as [|[k' vs] m IH]; simpl.
  - intros [<-|[]] [<-|[]]. now left.
  - destruct (eqb k' k).
    + intros [<-|Hg] Hx; simpl in *.
      * apply in_app_or in Hx as [Hx|[<-|[]]]; [|now left].
        right. exists (k', vs). auto.
      * right. exists g. auto.
    + intros [<-|Hg] Hx.
      * right. exists (k', vs). auto.
      * destruct (IH Hg Hx) as [->|(g' & Hg' & Hx')]; [now left|].
        right. exists g'. auto.
Qed.

Lemma bucketAdd_nonempty (k : K) (v : A) (m : list (K * list A)) :
  Forall (fun g => snd g <> []) m ->
  Forall (fun g => snd g <> []) (bucketAdd eqb k v m).
Proof.
  induction 1 as [|[k' vs] m Hg Hm IH]; simpl.
  - repeat constructor. discriminate.
  - destruct (eqb k' k); constructor; trivial.
    simpl in *. intros E. now apply app_eq_nil in E as [_ E].
Qed.

Lemma bucketAdd_member (k : K) (v : A) (m : list (K * list A)) :
  exists g, In g (bucketAdd eqb k v m) /\ In v (snd g).
Proof.
  induction m as [|[k' vs'] m IH]; simpl.
  - exists (k, [v]). split; now left.
  - destruct IH as (g & H1 & H2). destruct (eqb k' k).
    + exists (k', vs' ++ [v]). split; [now left|].
      apply in_or_app. right. now left.
    + exists g. split; [now right | exact H2].
Qed.

(** A bucket only ever grows at its end. *)
Lemma bucketAdd_grows (k : K) (v : A) (m : list (K * list A))
  (k0 : K) (vs : list A) :
  In (k0, vs) m ->
  exists ws, In (k0, vs ++ ws) (bucketAdd eqb k v m).
Proof.
  induction m as [|[k' vs'] m IH]; simpl; [tauto|].
  intros [[= -> ->]|Hin].
  - destruct (eqb k0 k).
    + exists [v]. now left.
    + exists []. rewrite app_nil_r. now left.
  - destruct (eqb k' k).
    + exists []. rewrite app_nil_r. now right.
    + destruct (IH Hin) as [ws H]. exists ws. now right.
Qed.

End Maps.

Section Grouping.

Context {A : Type} (key : A -> str).

Lemma groupBy_fold_In (l : list A) (m : list (str * list A)) (g : str * list A) (x : A) :
  In g (fold_left (bucketStep key) l m) ->
  In x (snd g) -> In x l \/ exists g', In g' m /\ In x (snd g').
Proof.
  revert m. induction l as [|y l IH]; simpl; intros m Hg Hx.
  - right. now exists g.
  - destruct (IH _ Hg Hx) as [H|(g' & Hg' & Hx')]; [auto|].
    destruct (bucketAdd_In _ _ _ _ _ _ Hg' Hx') as [->|H]; auto.
Qed.

Lemma groupBy_In (l : list A) (g : str * list A) (x : A) :
  In g (groupBy key l) -> In x (snd g) -> In x l.
Proof.
  intros Hg Hx. destruct (groupBy_fold_In l [] g x Hg Hx) as [H|(g' & [] & _)].
  exact H.
Qed.

End Grouping.

Lemma pairsOf_In {A : Type} (l : list A) (x y : A) :
  In (x, y) (pairsOf l) -> In x l /\ In y l.
Proof.
  induction l as [|z l IH]; simpl; [tauto|].
  intros H. apply in_app_or in H as [H|H].
  - apply in_map_iff in H as (w & [= <- <-] & Hw). auto.
  - destruct (IH H). auto.
Qed.

(** * Invariants carried through the pipeline *)

Section Pipeline.

Variable P : DuplicateBlock -> Prop.

Section Detection.

Variable blocks : list CodeBlock.

Hypothesis P_emitted : forall b1 b2 sim,
  In b1 blocks -> In b2 blocks -> file b1 <> file b2 ->
  emittedSimilarity sim -> P (pairOf b1 b2 sim).

Lemma pushUnseen_Forall (st : detState) (b1 b2 : CodeBlock) (sim : Q) :
  Forall P (fst st) -> P (pairOf b1 b2 sim) ->
  Forall P (fst (pushUnseen st b1 b2 sim)).
Proof.
  destruct st as [ds seen]. unfold pushUnseen. intros H Hp.
  destruct (seenHas seen _); simpl; [exact H|].
  apply Forall_app. split; [exact H | now constructor].
Qed.

Lemma exactStep_Forall (st : detState) (p : CodeBlock * CodeBlock) :
  In (fst p) blocks -> In (snd p) blocks ->
  Forall P (fst st) -> Forall P (fst (exactStep st p)).
Proof.
  destruct p as [b1 b2]. simpl. intros H1 H2 H. unfold exactStep.
  destruct (Str.eqb (file b1) (file b2)) eqn:E; [exact H|].
  apply pushUnseen_Forall; [exact H|].
  apply P_emitted; trivial; [now apply Str_eqb_neq | now left].
Qed.

Lemma fuzzyStep_Forall (st : detState) (p : CodeBlock * CodeBlock) :
  In (fst p) blocks -> In (snd p) blocks ->
  Forall P (fst st) -> Forall P (fst (fuzzyStep st p)).
Proof.
  destruct p as [b1 b2]. simpl. intros H1 H2 H. unfold fuzzyStep.
  destruct (Str.eqb (file b1) (file b2)) eqn:E; [exact H|].
  destruct (Qle_bool SIMILARITY_THRESHOLD _ && negb (Qle_bool 1 _)) eqn:T;
    [|exact H].
  apply andb_true_iff in T as [T1 T2]. apply negb_true_iff in T2.
  apply pushUnseen_Forall; [exact H|].
  apply P_emitted; trivial; [now apply Str_eqb_neq|].
  right. split; [now apply Qle_bool_iff|].
  apply Qnot_le_lt. intros Hle. apply Qle_bool_iff in Hle. congruence.
Qed.

Lemma fold_step_Forall (step : detState -> CodeBlock * CodeBlock -> detState)
  (ps : list (CodeBlock * CodeBlock)) (st : detState) :
  (forall st p, In (fst p) blocks -> In (snd p) blocks ->
                Forall P (fst st) -> Forall P (fst (step st p))) ->
  Forall (fun p => In (fst p) blocks /\ In (snd p) blocks) ps ->
  Forall P (fst st) -> Forall P (fst (fold_left step ps st)).
Proof.
  intros Hstep Hps. revert st.
  induction Hps as [|p ps [H1 H2] _ IH]; simpl; intros st H; [exact H|].
  apply IH. now apply Hstep.
Qed.

Lemma pairsOf_within (l : list CodeBlock) :
  incl l blocks ->
  Forall (fun p => In (fst p) blocks /\ In (snd p) blocks) (pairsOf l).
Proof.
  intros Hl. apply Forall_forall. intros [x y] Hp.
  apply pairsOf_In in Hp as [Hx Hy]. split; now apply Hl.
Qed.

Lemma exactPass_Forall (st : detState) :
  Forall P (fst st) -> Forall P (fst (exactPass blocks st)).
Proof.
  unfold exactPass.
  assert (Forall (fun g => incl (snd g) blocks) (groupBy hash blocks)) as Hg.
  { apply Forall_forall. intros g Hg x Hx. eapply groupBy_In; eauto. }
  revert st. induction Hg as [|g gs Hin _ IH]; simpl; intros st H; [exact H|].
  apply IH. apply fold_step_Forall; trivial.
  - apply exactStep_Forall.
  - now apply pairsOf_within.
Qed.

Lemma detectPairs_Forall : Forall P (detectPairs blocks).
Proof.
  unfold detectPairs, fuzzyPass. apply fold_step_Forall.
  - apply fuzzyStep_Forall.
  - apply pairsOf_within, incl_refl.
  - apply exactPass_Forall. constructor.
Qed.

End Detection.

Section Merging.

Hypothesis P_merge : forall current next,
  P current -> P next -> P (mergeInto current next).

Lemma coalesce_Forall (current : DuplicateBlock) (rest : list DuplicateBlock) :
  P current -> Forall P rest -> Forall P (coalesce current rest).
Proof.
  intros Hc Hr. revert current Hc.
  induction Hr as [|next rest Hn _ IH]; simpl; intros current Hc.
  - now constructor.
  - destruct (overlaps _ _ && overlaps _ _).
    + apply IH. now apply P_merge.
    + constructor; [exact Hc | now apply IH].
Qed.

Lemma mergeGroup_Forall (g : list DuplicateBlock) :
  Forall P g -> Forall P (mergeGroup g).
Proof.
  intros H. unfold mergeGroup.
  pose proof (sortBy_Forall (fun a b => start (lines1 a) <=? start (lines1 b)) P g H)
    as Hs.
  destruct (sortBy _ g) as [|c r]; [constructor|].
  inversion Hs; subst. now apply coalesce_Forall.
Qed.

Lemma mergeOverlappingDuplicates_Forall (l : list DuplicateBlock) :
  Forall P l -> Forall P (mergeOverlappingDuplicates l).
Proof.
  intros H. unfold mergeOverlappingDuplicates.
  apply Forall_flat_map, Forall_forall. intros g Hg.
  apply mergeGroup_Forall, Forall_forall. intros x Hx.
  eapply Forall_forall; [exact H|]. eapply groupBy_In; eauto.
Qed.

End Merging.

Lemma representativeOf_In (first : DuplicateBlock) (rest : list DuplicateBlock) :
  In (representativeOf first rest) (first :: rest).
Proof.
  unfold representativeOf. revert first.
  induction rest as [|x rest IH]; simpl; intros first; [now left|].
  destruct (Qle_bool (similarity x) (similarity first)).
  - destruct (IH first) as [H|H]; auto.
  - destruct (IH x) as [H|H]; auto.
Qed.

Section Clustering.

Hypothesis P_cluster : forall d cs af ph,
  P d ->
  P (mkDup (file1 d) (file2 d) (lines1 d) (lines2 d) (code d) (similarity d)
           cs af ph).

Lemma clusterFinding_Forall (cluster : list DuplicateBlock) :
  Forall P cluster -> Forall P (clusterFinding cluster).
Proof.
  intros H. destruct cluster as [|first [|second rest]]; simpl; trivial.
  constructor; [|constructor].
  apply P_cluster.
  eapply Forall_forall; [exact H|].
  apply (representativeOf_In first (second :: rest)).
Qed.

Lemma clusterStep_within (fuel : nat) (l : list DuplicateBlock)
  (ps : list (nat * DuplicateBlock))
  (st : list nat * list (nat * list DuplicateBlock)) :
  Forall (fun p => In (snd p) l) ps ->
  Forall (fun g => incl (snd g) l) (snd st) ->
  Forall (fun g => incl (snd g) l) (snd (fold_left (clusterStep fuel) ps st)).
Proof.
  intros Hps. revert st.
  induction Hps as [|p ps Hp _ IH]; simpl; intros st H; [exact H|].
  apply IH. destruct st as [parent m]. unfold clusterStep.
  destruct (find fuel parent (fst p)) as [parent' root]. simpl in *.
  apply Forall_forall. intros g Hg x Hx.
  destruct (bucketAdd_In _ _ _ _ _ _ Hg Hx) as [->|(g' & Hg' & Hx')]; [exact Hp|].
  eapply Forall_forall in H; [|exact Hg']. now apply H.
Qed.

Lemma clustersOf_within (l : list DuplicateBlock) :
  Forall (fun c => incl c l) (clustersOf l).
Proof.
  unfold clustersOf, clustersWith. apply Forall_map.
  apply clusterStep_within; [|constructor].
  apply Forall_forall. intros [i x] Hp. simpl.
  unfold indexed in Hp. now apply in_combine_r in Hp.
Qed.

Lemma clusterDuplicatesByPattern_Forall (l : list DuplicateBlock) :
  Forall P l -> Forall P (clusterDuplicatesByPattern l).
Proof.
  intros H. unfold clusterDuplicatesByPattern.
  apply Forall_flat_map.
  eapply Forall_impl; [|apply clustersOf_within].
  intros c Hc. apply clusterFinding_Forall, Forall_forall.
  intros x Hx. eapply Forall_forall; [exact H | now apply Hc].
Qed.

End Clustering.

Lemma findDuplicates_Forall (blocks : list CodeBlock) :
  pipelineInvariant P ->
  (forall b1 b2 sim,
     In b1 blocks -> In b2 blocks -> file b1 <> file b2 ->
     emittedSimilarity sim -> P (pairOf b1 b2 sim)) ->
  Forall P (findDuplicates blocks).
Proof.
  intros [Hm Hc] He. unfold findDuplicates.
  apply sortBy_Forall, clusterDuplicatesByPattern_Forall; [exact Hc|].
  apply mergeOverlappingDuplicates_Forall; [exact Hm|].
  apply detectPairs_Forall, He.
Qed.

End Pipeline.

(** * Hash buckets keep every pair of equal keys *)

Section Buckets.

Context {A : Type} (key : A -> str).

Local Abbreviation add := (bucketStep key).

Lemma pairsOf_snoc_old (vs : list A) (v : A) (p : A * A) :
  In p (pairsOf vs) -> In p (pairsOf (vs ++ [v])).
Proof.
  induction vs as [|x vs IH]; simpl; [tauto|].
  intros H. apply in_app_or in H as [H|H]; apply in_or_app.
  - left. rewrite map_app. apply in_or_app. now left.
  - right. now apply IH.
Qed.

Lemma pairsOf_snoc_new (vs : list A) (v x : A) :
  In x vs -> In (x, v) (pairsOf (vs ++ [v])).
Proof.
  induction vs as [|y vs IH]; simpl; [tauto|].
  intros [->|H]; apply in_or_app.
  - left. rewrite map_app. apply in_or_app. right. now left.
  - right. now apply IH.
Qed.

Lemma bucketAdd_keys (k : str) (v : A) (m : list (str * list A)) :
  map fst (bucketAdd Str.eqb k v m)
  = if in_dec str_eq_dec k (map fst m) then map fst m else map fst m ++ [k].
Proof.
  induction m as [|[k' vs] m IH]; simpl; [reflexivity|].
  destruct (Str.eqb k' k) eqn:E.
  - apply Str_eqb_eq in E as ->. simpl.
    destruct (str_eq_dec k k); [|congruence].
    destruct (in_dec str_eq_dec k (map fst m)); reflexivity.
  - apply Str_eqb_neq in E. simpl. rewrite IH.
    destruct (str_eq_dec k' k); [congruence|].
    destruct (in_dec str_eq_dec k (map fst m)); reflexivity.
Qed.

Lemma bucketAdd_NoDup (k : str) (v : A) (m : list (str * list A)) :
  NoDup (map fst m) -> NoDup (map fst (bucketAdd Str.eqb k v m)).
Proof.
  intros H. rewrite bucketAdd_keys.
  destruct (in_dec str_eq_dec k (map fst m)) as [Hin|Hout]; [exact H|].
  apply NoDup_app; [exact H | repeat constructor; auto |].
  intros x Hx [<-|[]]. contradiction.
Qed.

(** Adding to a map with distinct keys extends the bucket of the key. *)
Lemma bucketAdd_extends (k : str) (v : A) (m : list (str * list A)) (vs : list A) :
  NoDup (map fst m) -> In (k, vs) m ->
  In (k, vs ++ [v]) (bucketAdd Str.eqb k v m).
Proof.
  induction m as [|[k' vs'] m IH]; simpl; [tauto|].
  intros Hnd Hin. inversion Hnd as [|? ? Hk Hnd']; subst.
  destruct (Str.eqb k' k) eqn:E.
  - apply Str_eqb_eq in E as ->.
    destruct Hin as [[= ->]|Hin]; [now left|].
    exfalso. apply Hk. now apply (in_map fst) in Hin.
  - apply Str_eqb_neq in E.
    destruct Hin as [[= -> _]|Hin]; [congruence|].
    right. now apply IH.
Qed.

Lemma bucketAdd_has (k : str) (v : A) (m : list (str * list A)) :
  exists vs, In (k, vs) (bucketAdd Str.eqb k v m) /\ In v vs.
Proof.
  induction m as [|[k' vs'] m IH]; simpl.
  - exists [v]. split; now left.
  - destruct IH as (vs & H1 & H2). destruct (Str.eqb k' k) eqn:E.
    + apply Str_eqb_eq in E as ->. exists (vs' ++ [v]).
      split; [now left | apply in_or_app; right; now left].
    + exists vs. split; [now right | exact H2].
Qed.

Lemma fold_add_NoDup (l : list A) (m : list (str * list A)) :
  NoDup (map fst m) -> NoDup (map fst (fold_left add l m)).
Proof.
  revert m. induction l as [|x l IH]; simpl; intros m H; [exact H|].
  apply IH. now apply bucketAdd_NoDup.
Qed.

Lemma fold_add_grows (l : list A) (m : list (str * list A))
  (k0 : str) (vs : list A) :
  In (k0, vs) m -> exists ws, In (k0, vs ++ ws) (fold_left add l m).
Proof.
  revert m vs. induction l as [|x l IH]; simpl; intros m vs H.
  - exists []. now rewrite app_nil_r.
  - destruct (bucketAdd_grows Str.eqb (key x) x m k0 vs H) as [ws Hws].
    destruct (IH _ _ Hws) as [ws' Hws'].
    exists (ws ++ ws'). now rewrite app_assoc.
Qed.

Lemma pairsOf_app_old (vs ws : list A) (p : A * A) :
  In p (pairsOf vs) -> In p (pairsOf (vs ++ ws)).
Proof.
  induction vs as [|x vs IH]; simpl; [tauto|].
  intros H. apply in_app_or in H as [H|H]; apply in_or_app.
  - left. rewrite map_app. apply in_or_app. now left.
  - right. now apply IH.
Qed.

(** Two elements with the same key, in their order of occurrence, are a
    pair of one bucket. *)
Lemma groupBy_pairs (l1 l2 l3 : list A) (x y : A) :
  key x = key y ->
  exists g, In g (groupBy key (l1 ++ x :: l2 ++ y :: l3))
            /\ In (x, y) (pairsOf (snd g)).
Proof.
  intros Hk. unfold groupBy.
  rewrite fold_left_app. simpl. rewrite fold_left_app. simpl.
  set (m1 := fold_left add l1 []).
  assert (NoDup (map fst m1)) as N1 by (apply fold_add_NoDup; constructor).
  destruct (bucketAdd_has (key x) x m1) as (vs & Hvs & Hx).
  fold (add m1 x) in Hvs |- *.
  assert (NoDup (map fst (add m1 x))) as N2 by now apply bucketAdd_NoDup.
  destruct (fold_add_grows l2 _ _ _ Hvs) as (ws & Hws).
  set (m3 := fold_left add l2 (add m1 x)) in *.
  assert (NoDup (map fst m3)) as N3 by now apply fold_add_NoDup.
  rewrite Hk in Hws.
  pose proof (bucketAdd_extends (key y) y m3 _ N3 Hws) as Hy.
  fold (add m3 y) in Hy |- *.
  destruct (fold_add_grows l3 _ _ _ Hy) as (ws' & Hws').
  eexists. split; [exact Hws'|]. simpl.
  apply pairsOf_app_old, pairsOf_snoc_new, in_or_app. now left.
Qed.

End Buckets.

(** * Exact matches are recorded with similarity 1 *)

Section ExactMatches.

Lemma findingKey_pairOf (b1 b2 : CodeBlock) (sim : Q) :
  findingKey (pairOf b1 b2 sim) = createDuplicateKey b1 b2.
Proof. reflexivity. Qed.

Lemma recorded_app (ds more : list DuplicateBlock) (k : str) :
  recorded ds k -> recorded (ds ++ more) k.
Proof.
  intros (d & Hd & Hk & Hs). exists d. split; [|now split].
  apply in_or_app. now left.
Qed.

Lemma seenHas_In (seen : list str) (k : str) :
  seenHas seen k = true <-> In k seen.
Proof.
  unfold seenHas. rewrite existsb_exists. split.
  - intros (k' & Hin & E). apply Str_eqb_eq in E. now subst.
  - intros H. exists k. split; [exact H | apply Str_eqb_refl].
Qed.

Lemma pushUnseen_grows (st : detState) (b1 b2 : CodeBlock) (sim : Q) :
  exists more, fst (pushUnseen st b1 b2 sim) = fst st ++ more.
Proof.
  destruct st as [ds seen]. unfold pushUnseen.
  destruct (seenHas seen _); simpl.
  - exists []. now rewrite app_nil_r.
  - now eexists.
Qed.

Lemma pushUnseen_exact (st : detState) (b1 b2 : CodeBlock) :
  seenRecorded st ->
  seenRecorded (pushUnseen st b1 b2 1)
  /\ recorded (fst (pushUnseen st b1 b2 1)) (createDuplicateKey b1 b2).
Proof.
  destruct st as [ds seen]. unfold pushUnseen, seenRecorded. simpl. intros Inv.
  destruct (seenHas seen _) eqn:E; simpl.
  - split; [exact Inv|]. apply Inv. now apply seenHas_In.
  - assert (recorded (ds ++ [pairOf b1 b2 1]) (createDuplicateKey b1 b2)) as R.
    { exists (pairOf b1 b2 1). split; [|split; reflexivity].
      apply in_or_app. right. now left. }
    split; [|exact R].
    intros k [<-|Hk]; [exact R|]. apply recorded_app. now apply Inv.
Qed.

Lemma exactStep_grows (st : detState) (p : CodeBlock * CodeBlock) :
  exists more, fst (exactStep st p) = fst st ++ more.
Proof.
  destruct p as [b1 b2]. unfold exactStep.
  destruct (Str.eqb _ _); [|apply pushUnseen_grows].
  exists []. now rewrite app_nil_r.
Qed.

Lemma exactStep_seenRecorded (st : detState) (p : CodeBlock * CodeBlock) :
  seenRecorded st -> seenRecorded (exactStep st p).
Proof.
  destruct p as [b1 b2]. unfold exactStep. intros H.
  destruct (Str.eqb _ _); [exact H|]. now apply pushUnseen_exact.
Qed.

Lemma exactSteps_spec (ps : list (CodeBlock * CodeBlock)) (st : detState) :
  seenRecorded st ->
  let st' := fold_left exactStep ps st in
  seenRecorded st'
  /\ (exists more, fst st' = fst st ++ more)
  /\ forall b1 b2, In (b1, b2) ps -> file b1 <> file b2 ->
                   recorded (fst st') (createDuplicateKey b1 b2).
Proof.
  revert st. induction ps as [|p ps IH]; simpl; intros st Inv.
  - split; [exact Inv|]. split; [|intros ? ? []].
    exists []. now rewrite app_nil_r.
  - destruct (IH (exactStep st p) (exactStep_seenRecorded st p Inv))
      as (Inv' & (more & Hm) & Hrec).
    destruct (exactStep_grows st p) as (more0 & Hm0).
    split; [exact Inv'|]. split.
    + exists (more0 ++ more). now rewrite Hm, Hm0, app_assoc.
    + intros b1 b2 [->|Hin] Hf; [|now apply Hrec].
      rewrite Hm. apply recorded_app.
      unfold exactStep. apply Str_eqb_neq in Hf. rewrite Hf.
      now apply pushUnseen_exact.
Qed.

Lemma exactBuckets_spec (gs : list (str * list CodeBlock)) (st : detState) :
  seenRecorded st ->
  let st' := fold_left
               (fun st bucket => fold_left exactStep (pairsOf (snd bucket)) st)
               gs st in
  seenRecorded st'
  /\ (exists more, fst st' = fst st ++ more)
  /\ forall g b1 b2, In g gs -> In (b1, b2) (pairsOf (snd g)) ->
                     file b1 <> file b2 ->
                     recorded (fst st') (createDuplicateKey b1 b2).
Proof.
  revert st. induction gs as [|g gs IH]; simpl; intros st Inv.
  - split; [exact Inv|]. split; [|intros ? ? ? []].
    exists []. now rewrite app_nil_r.
  - destruct (exactSteps_spec (pairsOf (snd g)) st Inv) as (Inv1 & (m1 & Hm1) & R1).
    destruct (IH _ Inv1) as (Inv2 & (m2 & Hm2) & R2).
    split; [exact Inv2|]. split.
    + exists (m1 ++ m2). now rewrite Hm2, Hm1, app_assoc.
    + intros g' b1 b2 [<-|Hin] Hp Hf; [|now apply (R2 g')].
      rewrite Hm2. apply recorded_app. now apply R1.
Qed.

Lemma fuzzyStep_grows (st : detState) (p : CodeBlock * CodeBlock) :
  exists more, fst (fuzzyStep st p) = fst st ++ more.
Proof.
  destruct p as [b1 b2]. unfold fuzzyStep.
  destruct (Str.eqb _ _); [exists []; now rewrite app_nil_r|].
  destruct (_ && _); [apply pushUnseen_grows|].
  exists []. now rewrite app_nil_r.
Qed.

Lemma fuzzySteps_grow (ps : list (CodeBlock * CodeBlock)) (st : detState) :
  exists more, fst (fold_left fuzzyStep ps st) = fst st ++ more.
Proof.
  revert st. induction ps as [|p ps IH]; simpl; intros st.
  - exists []. now rewrite app_nil_r.
  - destruct (IH (fuzzyStep st p)) as (m & Hm).
    destruct (fuzzyStep_grows st p) as (m0 & Hm0).
    exists (m0 ++ m). now rewrite Hm, Hm0, app_assoc.
Qed.

(** Every exact match -- two blocks of different files with the same
    fingerprint -- is in the detector's output under its dedup key, with
    similarity [1]. *)
Lemma exact_match_recorded (l1 l2 l3 : list CodeBlock) (b1 b2 : CodeBlock) :
  hash b1 = hash b2 -> file b1 <> file b2 ->
  recorded (detectPairs (l1 ++ b1 :: l2 ++ b2 :: l3)) (createDuplicateKey b1 b2).
Proof.
  intros Hh Hf. set (blocks := l1 ++ b1 :: l2 ++ b2 :: l3).
  destruct (groupBy_pairs hash l1 l2 l3 b1 b2 Hh) as (g & Hg & Hp).
  fold blocks in Hg.
  assert (seenRecorded ([], [])) as Inv0 by (intros k []).
  destruct (exactBuckets_spec (groupBy hash blocks) ([], []) Inv0) as (_ & _ & R).
  unfold detectPairs, fuzzyPass.
  destruct (fuzzySteps_grow (pairsOf blocks) (exactPass blocks ([], []))) as (m & ->).
  apply recorded_app. now apply (R g).
Qed.

Lemma exactPass_similarity (blocks : list CodeBlock) :
  Forall (fun d => similarity d = 1%Q) (fst (exactPass blocks ([], []))).
Proof.
  assert (seenRecorded ([], [])) as Inv0 by (intros k []).
  unfold exactPass.
  pose (Q1 := fun d : DuplicateBlock => similarity d = 1%Q).
  assert (forall ps st, Forall Q1 (fst st) ->
                        Forall Q1 (fst (fold_left exactStep ps st))) as Hsteps.
  { induction ps as [|[b1 b2] ps IH]; simpl; intros st H; [exact H|].
    apply IH. unfold exactStep. destruct (Str.eqb _ _); [exact H|].
    destruct st as [ds seen]. unfold pushUnseen.
    destruct (seenHas seen _); simpl; [exact H|].
    apply Forall_app. split; [exact H | now repeat constructor]. }
  generalize (groupBy hash blocks) as gs.
  assert (Forall Q1 (fst (([], []) : detState))) as H0 by constructor.
  revert H0. generalize (([], []) : detState) as st.
  intros st H0 gs. revert st H0.
  induction gs as [|g gs IH]; simpl; intros st H; [exact H|].
  apply IH, Hsteps, H.
Qed.

End ExactMatches.

(** * Similarity bounds *)

Section Similarity.

Lemma qmax_bound (a b : Q) :
  (SIMILARITY_THRESHOLD <= a)%Q /\ (a <= 1)%Q ->
  (SIMILARITY_THRESHOLD <= b)%Q /\ (b <= 1)%Q ->
  (SIMILARITY_THRESHOLD <= qmax a b)%Q /\ (qmax a b <= 1)%Q.
Proof. intros Ha Hb. unfold qmax. now destruct (Qle_bool a b). Qed.

Lemma similarityBound_invariant : pipelineInvariant similarityBound.
Proof.
  split.
  - intros c n Hc Hn. unfold similarityBound in *. simpl. now apply qmax_bound.
  - intros d cs af ph H. exact H.
Qed.

Lemma emitted_similarityBound (sim : Q) (b1 b2 : CodeBlock) :
  emittedSimilarity sim -> similarityBound (pairOf b1 b2 sim).
Proof.
  unfold similarityBound. simpl. intros [->|[H1 H2]].
  - split; [discriminate | apply Qle_refl].
  - split; [exact H1 | now apply Qlt_le_weak].
Qed.

Lemma qmax_ge_l (a b : Q) : (a <= qmax a b)%Q.
Proof.
  unfold qmax. destruct (Qle_bool a b) eqn:E; [|apply Qle_refl].
  now apply Qle_bool_iff.
Qed.

Lemma qmax_ge_r (a b : Q) : (b <= qmax a b)%Q.
Proof.
  unfold qmax. destruct (Qle_bool a b) eqn:E; [apply Qle_refl|].
  apply Qlt_le_weak, Qnot_le_lt. intros H. apply Qle_bool_iff in H. congruence.
Qed.

(** The merger never loses a similarity: every input pair is dominated by
    an output pair. *)
Lemma coalesce_dominates (rest : list DuplicateBlock) (current x : DuplicateBlock) :
  In x (current :: rest) ->
  exists o, In o (coalesce current rest) /\ (similarity x <= similarity o)%Q.
Proof.
  revert current x. induction rest as [|next rest IH]; simpl; intros current x Hx.
  - destruct Hx as [->|[]]. exists x. split; [now left | apply Qle_refl].
  - destruct (overlaps _ _ && overlaps _ _).
    + assert (similarity x <= similarity (mergeInto current next)
              \/ In x rest)%Q as [Hle|Hin].
      { destruct Hx as [->|[->|Hin]]; [left|left|now right]; simpl.
        - apply qmax_ge_l.
        - apply qmax_ge_r. }
      * destruct (IH (mergeInto current next) _ (or_introl eq_refl))
          as (o & Ho & Hs).
        exists o. split; [exact Ho|]. eapply Qle_trans; eauto.
      * apply IH. now right.
    + destruct Hx as [->|Hx].
      * exists x. split; [now left | apply Qle_refl].
      * destruct (IH next x Hx) as (o & Ho & Hs). exists o. split; [now right|].
        exact Hs.
Qed.

Lemma groupBy_complete {A : Type} (key : A -> str) (l : list A) (x : A) :
  In x l -> exists g, In g (groupBy key l) /\ In x (snd g).
Proof.
  intros Hx. apply in_split in Hx as (l1 & l2 & ->).
  unfold groupBy. rewrite fold_left_app. simpl.
  destruct (bucketAdd_member Str.eqb (key x) x (fold_left (bucketStep key) l1 []))
    as ([k vs] & Hg & Hv).
  destruct (fold_add_grows key l2 _ _ _ Hg) as (ws & Hws).
  eexists. split; [exact Hws|]. simpl. apply in_or_app. now left.
Qed.

Lemma mergeOverlappingDuplicates_dominates (l : list DuplicateBlock) (x : DuplicateBlock) :
  In x l ->
  exists o, In o (mergeOverlappingDuplicates l)
            /\ (similarity x <= similarity o)%Q.
Proof.
  intros Hx. destruct (groupBy_complete pairGroupKey l x Hx) as (g & Hg & Hxg).
  assert (exists o, In o (mergeGroup (snd g)) /\ (similarity x <= similarity o)%Q)
    as (o & Ho & Hs).
  { unfold mergeGroup.
    pose proof (proj2 (sortBy_In (fun a b => start (lines1 a) <=? start (lines1 b))
                                 (snd g) x) Hxg) as Hin.
    destruct (sortBy _ (snd g)) as [|c r]; [destruct Hin|].
    now apply coalesce_dominates. }
  exists o. split; [|exact Hs].
  unfold mergeOverlappingDuplicates. apply in_flat_map. now exists g.
Qed.

Lemma representativeOf_max (rest : list DuplicateBlock) (first x : DuplicateBlock) :
  In x (first :: rest) ->
  (similarity x <= similarity (representativeOf first rest))%Q.
Proof.
  unfold representativeOf. revert first x.
  induction rest as [|y rest IH]; simpl; intros first x Hx.
  - destruct Hx as [->|[]]. apply Qle_refl.
  - destruct (Qle_bool (similarity y) (similarity first)) eqn:E.
    + apply Qle_bool_iff in E. destruct Hx as [->|[->|Hx]].
      * apply IH. now left.
      * eapply Qle_trans; [exact E|]. apply IH. now left.
      * apply IH. now right.
    + assert (similarity first <= similarity y)%Q as Hlt.
      { apply Qlt_le_weak, Qnot_le_lt. intros H. apply Qle_bool_iff in H.
        congruence. }
      destruct Hx as [->|[->|Hx]].
      * eapply Qle_trans; [exact Hlt|]. apply IH. now left.
      * apply IH. now left.
      * apply IH. now right.
Qed.

Lemma clusterFinding_dominates (cluster : list DuplicateBlock) (x : DuplicateBlock) :
  In x cluster ->
  exists o, In o (clusterFinding cluster) /\ (similarity x <= similarity o)%Q.
Proof.
  destruct cluster as [|first [|second rest]]; simpl.
  - intros [].
  - intros [->|[]]. exists x. split; [now left | apply Qle_refl].
  - intros Hx. eexists. split; [now left|]. simpl.
    now apply (representativeOf_max (second :: rest) first x).
Qed.

Lemma clusterStep_grows (fuel : nat) (ps : list (nat * DuplicateBlock))
  (st : list nat * list (nat * list DuplicateBlock)) (k : nat)
  (vs : list DuplicateBlock) :
  In (k, vs) (snd st) ->
  exists ws, In (k, vs ++ ws) (snd (fold_left (clusterStep fuel) ps st)).
Proof.
  revert st vs. induction ps as [|p ps IH]; simpl; intros st vs H.
  - exists []. now rewrite app_nil_r.
  - destruct st as [parent m]. unfold clusterStep at 2.
    destruct (find fuel parent (fst p)) as [parent' root]. simpl in H.
    destruct (bucketAdd_grows Nat.eqb root (snd p) m k vs H) as (ws & Hws).
    destruct (IH (parent', bucketAdd Nat.eqb root (snd p) m) _ Hws) as (ws' & H').
    exists (ws ++ ws'). now rewrite app_assoc.
Qed.

Lemma clusterStep_complete (fuel : nat) (ps : list (nat * DuplicateBlock))
  (st : list nat * list (nat * list DuplicateBlock)) (p : nat * DuplicateBlock) :
  In p ps ->
  exists g, In g (snd (fold_left (clusterStep fuel) ps st)) /\ In (snd p) (snd g).
Proof.
  intros Hp. apply in_split in Hp as (l1 & l2 & ->).
  rewrite fold_left_app. simpl.
  destruct (fold_left (clusterStep fuel) l1 st) as [parent m].
  unfold clusterStep at 2.
  destruct (find fuel parent (fst p)) as [parent' root].
  destruct (bucketAdd_member Nat.eqb root (snd p) m) as ([k vs] & Hg & Hv).
  destruct (clusterStep_grows fuel l2 (parent', bucketAdd Nat.eqb root (snd p) m)
              k vs Hg) as (ws & Hws).
  eexists. split; [exact Hws|]. simpl. apply in_or_app. now left.
Qed.

Lemma indexed_In {A : Type} (l : list A) (x : A) :
  In x l -> exists i, In (i, x) (indexed l).
Proof.
  unfold indexed. generalize 0%nat as s.
  induction l as [|y l IH]; simpl; intros s; [tauto|].
  intros [->|H].
  - exists s. now left.
  - destruct (IH (S s) H) as (i & Hi). exists i. now right.
Qed.

Lemma clustersOf_complete (l : list DuplicateBlock) (x : DuplicateBlock) :
  In x l -> exists c, In c (clustersOf l) /\ In x c.
Proof.
  intros Hx. destruct (indexed_In l x Hx) as (i & Hi).
  destruct (clusterStep_complete (findFuel (length l)) (indexed l)
              (unionAllWith (findFuel (length l)) l, []) (i, x) Hi)
    as (g & Hg & Hxg).
  exists (snd g). split; [|exact Hxg].
  unfold clustersOf, clustersWith. now apply in_map.
Qed.

Lemma clusterDuplicatesByPattern_dominates (l : list DuplicateBlock) (x : DuplicateBlock) :
  In x l ->
  exists o, In o (clusterDuplicatesByPattern l)
            /\ (similarity x <= similarity o)%Q.
Proof.
  intros Hx. destruct (clustersOf_complete l x Hx) as (c & Hc & Hxc).
  destruct (clusterFinding_dominates c x Hxc) as (o & Ho & Hs).
  exists o. split; [|exact Hs].
  unfold clusterDuplicatesByPattern. apply in_flat_map. now exists c.
Qed.

Lemma findDuplicates_dominates (blocks : list CodeBlock) (d : DuplicateBlock) :
  In d (detectPairs blocks) ->
  exists f, In f (findDuplicates blocks) /\ (similarity d <= similarity f)%Q.
Proof.
  intros Hd.
  destruct (mergeOverlappingDuplicates_dominates _ d Hd) as (m & Hm & H1).
  destruct (clusterDuplicatesByPattern_dominates _ m Hm) as (f & Hf & H2).
  exists f. split; [|eapply Qle_trans; eauto].
  unfold findDuplicates. now apply sortBy_In.
Qed.

Lemma findDuplicates_bound (blocks : list CodeBlock) :
  Forall similarityBound (findDuplicates blocks).
Proof.
  apply findDuplicates_Forall; [apply similarityBound_invariant|].
  intros b1 b2 sim _ _ _. apply emitted_similarityBound.
Qed.

(** C8 (Jaccard bounds): every finding of a report has its similarity in
    [[SIMILARITY_THRESHOLD, 1]]; an exact match (two blocks of different
    files with equal fingerprints) is recorded by the detector under its
    dedup key with similarity exactly [1], and the final list then holds a
    finding whose similarity is [1]; the overlap merger and the clusterer
    each preserve the bound. *)
Theorem similarity_bounds :
  (forall files,
     Forall similarityBound (duplicateBlocks (analyzeDuplication files)))
  /\ (forall l1 l2 l3 b1 b2,
        hash b1 = hash b2 -> file b1 <> file b2 ->
        let blocks := l1 ++ b1 :: l2 ++ b2 :: l3 in
        recorded (detectPairs blocks) (createDuplicateKey b1 b2)
        /\ exists f, In f (findDuplicates blocks) /\ (similarity f == 1)%Q)
  /\ (forall l, Forall similarityBound l ->
                Forall similarityBound (mergeOverlappingDuplicates l))
  /\ (forall l, Forall similarityBound l ->
                Forall similarityBound (clusterDuplicatesByPattern l)).
Proof.
  split; [|split; [|split]].
  - intros files. destruct (report_blocks files) as [->|(l & bs & _ & _ & ->)].
    + constructor.
    + apply findDuplicates_bound.
  - intros l1 l2 l3 b1 b2 Hh Hf blocks.
    pose proof (exact_match_recorded l1 l2 l3 b1 b2 Hh Hf) as R.
    split; [exact R|]. destruct R as (d & Hd & _ & Hs).
    destruct (findDuplicates_dominates blocks d Hd) as (f & Hin & Hle).
    exists f. split; [exact Hin|].
    pose proof (findDuplicates_bound blocks) as B.
    apply (proj1 (Forall_forall _ _) B) in Hin as [_ Hup].
    rewrite Hs in Hle. now apply Qle_antisym.
  - apply mergeOverlappingDuplicates_Forall, (inv_merge _ similarityBound_invariant).
  - apply clusterDuplicatesByPattern_Forall, (inv_cluster _ similarityBound_invariant).
Qed.

Lemma similarity_bounds_witness :
  let b1 := sampleBlock "src/a.ts" in
  let b2 := sampleBlock "src/b.ts" in
  hash b1 = hash b2 /\ file b1 <> file b2
  /\ recorded (detectPairs ([] ++ b1 :: [] ++ b2 :: [])) (createDuplicateKey b1 b2).
Proof.
  intros b1 b2.
  assert (hash b1 = hash b2) as Hh by (vm_compute; reflexivity).
  assert (file b1 <> file b2) as Hf by (vm_compute; discriminate).
  split; [exact Hh|]. split; [exact Hf|].
  exact (proj1 (proj1 (proj2 similarity_bounds) [] [] [] b1 b2 Hh Hf)).
Defined.

End Similarity.

(** * Shape of the findings *)

Section Findings.

Lemma distinctFiles_invariant :
  pipelineInvariant (fun d => file1 d <> file2 d).
Proof. split; intros; assumption. Qed.

Lemma hull_ordered (a b : LineRange) : ordered a -> ordered (hull a b).
Proof. unfold ordered, hull. simpl. lia. Qed.

Lemma wellFormedFinding_invariant : pipelineInvariant wellFormedFinding.
Proof.
  split.
  - intros c n (Hf & H1 & H2) _. repeat split; simpl; trivial;
      now apply hull_ordered.
  - intros d cs af ph H. exact H.
Qed.

Lemma nondecreasing_sorted (l : list Z) :
  nondecreasing l = true -> StronglySorted Z.le l.
Proof.
  intros H. apply Sorted_StronglySorted; [intros x y z; apply Z.le_trans|].
  induction l as [|x l IH]; [constructor|].
  destruct l as [|y r]; [repeat constructor|].
  cbn [nondecreasing] in H. apply andb_true_iff in H as [H1 H2].
  constructor; [now apply IH | constructor; now apply Z.leb_le].
Qed.

Lemma sorted_suffix_firstn (n : nat) (l : list Z) :
  StronglySorted Z.le l -> StronglySorted Z.le (firstn n l).
Proof.
  intros H. revert n. induction H as [|x l Hs IH Hx]; intros [|n]; simpl;
    try constructor.
  - apply IH.
  - apply Forall_forall. intros y Hy.
    eapply Forall_forall; [exact Hx|].
    rewrite <- (firstn_skipn n l). apply in_or_app. now left.
Qed.

Lemma sorted_hd_last (l : list AddedLine) (d : AddedLine) :
  StronglySorted Z.le (map lineNumber l) ->
  lineNumber (hd d l) <= lineNumber (last l d).
Proof.
  destruct l as [|x l]; [simpl; lia|].
  intros H. inversion H as [|? ? _ Hx]; subst. cbn [hd].
  destruct (exists_last (l := x :: l)) as (l' & y & E); [discriminate|].
  rewrite E, last_last.
  destruct l' as [|x' l'']; injection E as -> E'; [lia|].
  eapply Forall_forall; [exact Hx|].
  rewrite E', map_app. apply in_or_app. right. now left.
Qed.

Lemma windows_sorted (n : nat) (l : list AddedLine) :
  StronglySorted Z.le (map lineNumber l) ->
  Forall (fun w => StronglySorted Z.le (map lineNumber w)) (windows n l).
Proof.
  induction l as [|x l IH]; intros H; [constructor|].
  cbn [windows]. destruct (n <=? length (x :: l))%nat; [|constructor].
  constructor.
  - rewrite <- firstn_map. now apply sorted_suffix_firstn.
  - apply IH. now inversion H.
Qed.

Lemma blocksOfPatch_ordered (name p : str) :
  nondecreasing (map lineNumber (extractAddedLines p)) = true ->
  Forall (fun b => startLine b <= endLine b) (blocksOfPatch name p).
Proof.
  intros H. unfold blocksOfPatch. apply Forall_flat_map.
  eapply Forall_impl; [|apply windows_sorted, nondecreasing_sorted, H].
  intros w Hw. unfold blockOfWindow.
  destruct (isTrivalBlock _); constructor; [|constructor].
  simpl. now apply sorted_hd_last.
Qed.

Lemma extractCodeBlocks_ordered (l : list (option PrFile)) (blocks : list CodeBlock) :
  forallb patchAscending l = true -> extractCodeBlocks l = Ok blocks ->
  Forall (fun b => startLine b <= endLine b) blocks.
Proof.
  revert blocks. induction l as [|entry l IH]; simpl; intros blocks Ha Hb.
  - injection Hb as <-. constructor.
  - apply andb_true_iff in Ha as [He Hl].
    destruct (blocksOfFile entry) as [bs|] eqn:Eb; [|discriminate]. simpl in Hb.
    destruct (extractCodeBlocks l) as [bs'|]; [|discriminate]. simpl in Hb.
    injection Hb as <-. apply Forall_app. split; [|now apply IH].
    destruct entry as [f|]; [|discriminate]. simpl in Eb, He.
    destruct (shouldSkipFile (filename f)); [injection Eb as <-; constructor|].
    simpl in He.
    destruct (patch f) as [|[|c p]|]; try discriminate;
      injection Eb as <-; try constructor.
    now apply blocksOfPatch_ordered.
Qed.

(** C4 (shape of the findings), as far as the code guarantees it:
    in every report each finding has
    [file1 <> file2]; and when the added lines of every patch are numbered
    in ascending order, each finding has [start <= end] in both of its line
    ranges. *)
Theorem findings_well_formed :
  (forall files,
     Forall (fun d => file1 d <> file2 d)
            (duplicateBlocks (analyzeDuplication files)))
  /\ (forall l,
        forallb patchAscending l = true ->
        Forall wellFormedFinding (duplicateBlocks (analyzeDuplication (Some l)))).
Proof.
  split.
  - intros files. destruct (report_blocks files) as [->|(l & bs & _ & _ & ->)].
    + constructor.
    + apply findDuplicates_Forall; [apply distinctFiles_invariant|].
      intros b1 b2 sim _ _ Hf _. exact Hf.
  - intros l Ha.
    destruct (report_blocks (Some l)) as [->|(l' & bs & [= <-] & Hb & ->)].
    + constructor.
    + pose proof (extractCodeBlocks_ordered l bs Ha Hb) as Ho.
      apply findDuplicates_Forall; [apply wellFormedFinding_invariant|].
      intros b1 b2 sim H1 H2 Hf _. repeat split; trivial; unfold ordered; simpl.
      * eapply Forall_forall in Ho; [exact Ho | exact H1].
      * eapply Forall_forall in Ho; [exact Ho | exact H2].
Qed.

Lemma findings_well_formed_witness :
  forallb patchAscending gappedCopies = true
  /\ Forall wellFormedFinding
            (duplicateBlocks (analyzeDuplication (Some gappedCopies))).
Proof.
  split.
  - vm_compute. reflexivity.
  - apply (proj2 findings_well_formed gappedCopies). vm_compute. reflexivity.
Defined.

(** C4 does not hold in full generality:
    a patch whose hunks are listed out of order
    yields a finding with [start > end]. *)
Lemma finding_with_inverted_range :
  ~ Forall (fun d => file1 d <> file2 d
                     /\ start (lines1 d) <= end_ (lines1 d)
                     /\ start (lines2 d) <= end_ (lines2 d))
           (duplicateBlocks (analyzeDuplication (Some descendingHunks))).
Proof.
  assert (exists d, In d (duplicateBlocks (analyzeDuplication (Some descendingHunks)))
                    /\ (end_ (lines1 d) <? start (lines1 d)) = true) as (d & Hd & Hlt).
  { eexists. split; [vm_compute; left; reflexivity | reflexivity]. }
  intros H. eapply Forall_forall in H; [|exact Hd].
  apply Z.ltb_lt in Hlt. lia.
Qed.

End Findings.

(** * Clustered findings *)

Section Clusters.

Lemma coalesceRanges_nonempty (current : LineRange) (rest : list LineRange) :
  coalesceRanges current rest <> [].
Proof.
  revert current. induction rest as [|next rest IH]; simpl; intros current.
  - discriminate.
  - destruct (overlaps current next); [apply IH | discriminate].
Qed.

Lemma mergedRangesOf_nonempty (ranges : list LineRange) :
  ranges <> [] -> mergedRangesOf ranges <> [].
Proof.
  intros H. unfold mergedRangesOf.
  pose proof (sortBy_perm (fun a b => start a <=? start b) ranges) as Hp.
  destruct (sortBy _ ranges) as [|c r].
  - apply Permutation_nil in Hp. congruence.
  - apply coalesceRanges_nonempty.
Qed.

(** Ranges that the merger keeps apart are more than two lines apart, in
    the order of the list. *)
Lemma coalesceRanges_gapped (rest : list LineRange) (current : LineRange) :
  StronglySorted (fun a b => (start a <=? start b) = true) (current :: rest) ->
  ForallOrdPairs gapped (coalesceRanges current rest)
  /\ Forall (fun o => start current <= start o) (coalesceRanges current rest).
Proof.
  revert current. induction rest as [|next rest IH]; simpl; intros current Hs.
  - split; repeat constructor. lia.
  - inversion Hs as [|? ? Hrest Hcur]; subst.
    inversion Hcur as [|? ? Hcn Hcr]; subst. apply Z.leb_le in Hcn.
    inversion Hrest as [|? ? Hrest' Hnr]; subst.
    destruct (overlaps current next) eqn:Eo.
    + assert (start (hull current next) = start current) as Eh
        by (unfold hull; simpl; lia).
      rewrite <- Eh. apply IH. constructor; [exact Hrest'|].
      eapply Forall_impl; [|exact Hcr]. intros r Hr. now rewrite Eh.
    + unfold overlaps in Eo. apply Z.leb_gt in Eo.
      destruct (IH next Hrest) as (Hg & Hn).
      split.
      * constructor; [|exact Hg].
        eapply Forall_impl; [|exact Hn]. intros o Ho. unfold gapped. simpl in Ho. lia.
      * constructor; [lia|].
        eapply Forall_impl; [|exact Hn]. intros o Ho. simpl in Ho. lia.
Qed.

Lemma mergedRangesOf_gapped (ranges : list LineRange) :
  ForallOrdPairs gapped (mergedRangesOf ranges).
Proof.
  unfold mergedRangesOf.
  assert (StronglySorted (fun a b => (start a <=? start b) = true)
            (sortBy (fun a b => start a <=? start b) ranges)) as Hs.
  { apply sortBy_sorted.
    - intros a b H. apply Z.leb_gt in H. apply Z.leb_le. lia.
    - intros a b c H1 H2. apply Z.leb_le in H1, H2. apply Z.leb_le. lia. }
  destruct (sortBy _ ranges) as [|c r]; [constructor|].
  now apply coalesceRanges_gapped.
Qed.

Lemma gapped_disjoint (a b : LineRange) : gapped a b -> disjointRanges a b.
Proof. unfold gapped, disjointRanges. intros H n. lia. Qed.

Lemma ForallOrdPairs_app {A : Type} (R : A -> A -> Prop) (l1 l2 : list A) :
  ForallOrdPairs R l1 -> ForallOrdPairs R l2 ->
  (forall a b, In a l1 -> In b l2 -> R a b) ->
  ForallOrdPairs R (l1 ++ l2).
Proof.
  intros H1 H2 H12. induction H1 as [|x l1 Hx H1 IH]; simpl; [exact H2|].
  constructor.
  - apply Forall_app. split; [exact Hx|].
    apply Forall_forall. intros b Hb. apply H12; [now left | exact Hb].
  - apply IH. intros a b Ha Hb. apply H12; [now right | exact Hb].
Qed.

Lemma ForallOrdPairs_map {A B : Type} (f : A -> B) (R : B -> B -> Prop) (l : list A) :
  ForallOrdPairs (fun a b => R (f a) (f b)) l -> ForallOrdPairs R (map f l).
Proof.
  induction 1 as [|x l Hx _ IH]; simpl; constructor; [|exact IH].
  apply Forall_map. exact Hx.
Qed.

Lemma ForallOrdPairs_impl {A : Type} (R S : A -> A -> Prop) (l : list A) :
  (forall a b, R a b -> S a b) -> ForallOrdPairs R l -> ForallOrdPairs S l.
Proof.
  intros HRS. induction 1 as [|x l Hx _ IH]; constructor; [|exact IH].
  eapply Forall_impl; [|exact Hx]. intros b. apply HRS.
Qed.

Lemma allFilesOf_files (fl : list (str * list LineRange)) (e : FileRange) :
  In e (allFilesOf fl) -> In (fr_file e) (map fst fl).
Proof.
  unfold allFilesOf. intros H. apply in_flat_map in H as (g & Hg & He).
  apply in_map_iff in He as (r & <- & _). simpl. now apply in_map.
Qed.

Lemma allFilesOf_disjoint (fl : list (str * list LineRange)) :
  NoDup (map fst fl) ->
  ForallOrdPairs
    (fun a b => fr_file a = fr_file b -> disjointRanges (fr_lines a) (fr_lines b))
    (allFilesOf fl).
Proof.
  induction fl as [|[k rs] fl IH]; simpl; intros Hnd; [constructor|].
  inversion Hnd as [|? ? Hk Hnd']; subst.
  apply ForallOrdPairs_app.
  - apply ForallOrdPairs_map. simpl.
    eapply ForallOrdPairs_impl; [|apply mergedRangesOf_gapped].
    intros a b Hg _. now apply gapped_disjoint.
  - now apply IH.
  - intros a b Ha Hb E. exfalso. apply Hk.
    apply in_map_iff in Ha as (r & <- & _). simpl in E. rewrite E.
    now apply allFilesOf_files.
Qed.

Lemma nodup_repeat_app (k : str) (n : nat) (rest : list str) :
  ~ In k rest ->
  nodup str_eq_dec (repeat k (S n) ++ rest) = k :: nodup str_eq_dec rest.
Proof.
  intros Hk. induction n as [|n IH].
  - simpl. destruct (in_dec str_eq_dec k rest); [contradiction | reflexivity].
  - change (repeat k (S (S n)) ++ rest) with (k :: (repeat k (S n) ++ rest)).
    cbn [nodup]. destruct (in_dec str_eq_dec k (repeat k (S n) ++ rest)) as [_|N].
    + exact IH.
    + exfalso. apply N. simpl. now left.
Qed.

Lemma allFilesOf_distinct (fl : list (str * list LineRange)) :
  NoDup (map fst fl) -> Forall (fun g => snd g <> []) fl ->
  distinctFiles (allFilesOf fl) = length fl.
Proof.
  unfold distinctFiles.
  induction fl as [|[k rs] fl IH]; simpl; intros Hnd Hne; [reflexivity|].
  inversion Hnd as [|? ? Hk Hnd']; subst. inversion Hne as [|? ? Hrs Hne']; subst.
  rewrite map_app, map_map. simpl.
  pose proof (mergedRangesOf_nonempty rs Hrs) as Hm.
  replace (map (fun _ : LineRange => k) (mergedRangesOf rs))
    with (repeat k (length (mergedRangesOf rs))).
  2:{ clear. induction (mergedRangesOf rs); simpl; congruence. }
  destruct (mergedRangesOf rs) as [|r0 mr]; [congruence|]. cbn [length].
  rewrite nodup_repeat_app.
  - simpl. now rewrite IH.
  - intros Hin. apply Hk. apply in_map_iff in Hin as (e & <- & He).
    now apply allFilesOf_files.
Qed.

Lemma fileLocationsOf_keys (cluster : list DuplicateBlock) :
  NoDup (map fst (fileLocationsOf cluster))
  /\ Forall (fun g => snd g <> []) (fileLocationsOf cluster).
Proof.
  unfold fileLocationsOf.
  assert (NoDup (map fst ([] : list (str * list LineRange)))
          /\ Forall (fun g => snd g <> []) ([] : list (str * list LineRange)))
    as H0 by (split; constructor).
  revert H0. generalize ([] : list (str * list LineRange)) as m.
  induction cluster as [|inst cluster IH]; simpl; intros m [Hnd Hne].
  - now split.
  - apply IH. split.
    + now apply bucketAdd_NoDup, bucketAdd_NoDup.
    + now apply bucketAdd_nonempty, bucketAdd_nonempty.
Qed.

Lemma clusterFinding_consistent (cluster : list DuplicateBlock) :
  Forall unclustered cluster -> Forall clusterConsistent (clusterFinding cluster).
Proof.
  intros H. destruct cluster as [|first [|second rest]]; simpl.
  - constructor.
  - constructor; [|constructor]. inversion H as [|? ? [Hc _] _]; subst.
    intros n af Hn. congruence.
  - constructor; [|constructor]. intros n af [= <-] [= <-].
    destruct (fileLocationsOf_keys (first :: second :: rest)) as [Hnd Hne].
    split.
    + now rewrite allFilesOf_distinct.
    + now apply allFilesOf_disjoint.
Qed.

Lemma unclustered_merge (current next : DuplicateBlock) :
  unclustered current -> unclustered next -> unclustered (mergeInto current next).
Proof. intros H _. exact H. Qed.

Lemma detectPairs_unclustered (blocks : list CodeBlock) :
  Forall unclustered (mergeOverlappingDuplicates (detectPairs blocks)).
Proof.
  apply mergeOverlappingDuplicates_Forall; [apply unclustered_merge|].
  apply detectPairs_Forall. intros b1 b2 sim _ _ _ _. now split.
Qed.

Lemma clusterDuplicatesByPattern_consistent (l : list DuplicateBlock) :
  Forall unclustered l -> Forall clusterConsistent (clusterDuplicatesByPattern l).
Proof.
  intros H. unfold clusterDuplicatesByPattern. apply Forall_flat_map.
  eapply Forall_impl; [|apply clustersOf_within].
  intros c Hc. apply clusterFinding_consistent, Forall_forall.
  intros x Hx. eapply Forall_forall; [exact H | now apply Hc].
Qed.

(** C9 (cluster monotonicity): in every report, a finding that carries
    [clusterSize] and [allFiles] has [clusterSize] equal to the number of
    distinct files in [allFiles], and two [allFiles] entries of the same
    file never share a line. *)
Theorem clusters_consistent (files : option (list (option PrFile))) :
  Forall clusterConsistent (duplicateBlocks (analyzeDuplication files)).
Proof.
  destruct (report_blocks files) as [->|(l & bs & _ & _ & ->)].
  - constructor.
  - unfold findDuplicates.
    apply sortBy_Forall, clusterDuplicatesByPattern_consistent,
      detectPairs_unclustered.
Qed.

End Clusters.

(** * The union-find forest: the recursion of [find] always ends *)

Section UnionFind.

Lemma length_setNth (i v : nat) (p : list nat) : length (setNth i v p) = length p.
Proof.
  revert i. induction p as [|x p IH]; intros [|i]; simpl; auto.
Qed.

Lemma nth_setNth_at (i v d : nat) (p : list nat) :
  (i < length p)%nat -> nth i (setNth i v p) d = v.
Proof.
  revert i. induction p as [|x p IH]; intros [|i] H; simpl in *; try lia.
  apply IH. lia.
Qed.

Lemma nth_setNth_same (i v : nat) (p : list nat) :
  (i < length p)%nat -> nth i (setNth i v p) i = v.
Proof. apply nth_setNth_at. Qed.

Lemma nth_setNth_other (i v x : nat) (p : list nat) (d : nat) :
  x <> i -> nth x (setNth i v p) d = nth x p d.
Proof.
  revert i x. induction p as [|y p IH]; intros [|i] [|x] H; simpl; auto; try lia.
Qed.

Lemma nonroot_in_range (p : list nat) (x : nat) :
  nth x p x <> x -> (x < length p)%nat.
Proof.
  intros H. destruct (Nat.lt_ge_cases x (length p)) as [L|G]; [exact L|].
  now rewrite nth_overflow in H.
Qed.

Lemma rootWithin_is_root (p : list nat) (x r k : nat) :
  rootWithin p x r k -> nth r p r = r.
Proof. induction 1; auto. Qed.

Lemma rootWithin_unique (p : list nat) (x r k r' k' : nat) :
  rootWithin p x r k -> rootWithin p x r' k' -> r = r'.
Proof.
  intros H. revert r' k'. induction H as [x k Hx|x r k Hx _ IH]; intros r' k' H'.
  - inversion H'; subst; [reflexivity | contradiction].
  - inversion H'; subst; [contradiction | eauto].
Qed.

Lemma rootWithin_weaken (p : list nat) (x r k k' : nat) :
  rootWithin p x r k -> (k <= k')%nat -> rootWithin p x r k'.
Proof.
  intros H. revert k'. induction H as [x k Hx|x r k Hx _ IH]; intros k' Hk.
  - now constructor.
  - destruct k' as [|k']; [lia|]. constructor; [exact Hx|]. apply IH. lia.
Qed.

(** Path compression keeps every root and every depth bound. *)
Lemma rootWithin_compress (p : list nat) (x r k0 : nat) :
  rootWithin p x r k0 -> x <> r ->
  forall y r' k, rootWithin p y r' k -> rootWithin (setNth x r p) y r' k.
Proof.
  intros Hx Hne y r' k H.
  assert (nth x p x <> x) as Hnr.
  { intros E. apply Hne. inversion Hx; subst; [reflexivity | contradiction]. }
  pose proof (rootWithin_is_root _ _ _ _ Hx) as Hr.
  induction H as [y k Hy|y r' k Hy H IH].
  - constructor. rewrite nth_setNth_other; [exact Hy|]. congruence.
  - destruct (Nat.eq_dec y x) as [->|Hyx].
    + assert (r' = r) as ->.
      { eapply rootWithin_unique; [|exact Hx]. econstructor; eauto. }
      constructor.
      * rewrite nth_setNth_same; [auto | now apply nonroot_in_range].
      * rewrite nth_setNth_same by now apply nonroot_in_range.
        constructor. rewrite nth_setNth_other; auto.
    + constructor; rewrite nth_setNth_other by exact Hyx; assumption.
Qed.

(** With more fuel than the depth of [x], [find] returns the root of [x]
    and a forest with the same roots and depth bounds. *)
Lemma find_spec (p : list nat) (x r k : nat) :
  rootWithin p x r k ->
  forall fuel, (k < fuel)%nat ->
  exists p', find fuel p x = (p', r)
             /\ length p' = length p
             /\ forall y r' j, rootWithin p y r' j -> rootWithin p' y r' j.
Proof.
  induction 1 as [x k Hx|x r k Hx H IH]; intros [|fuel] Hf; try lia.
  - exists p. simpl. rewrite Hx, Nat.eqb_refl. auto.
  - destruct (IH fuel ltac:(lia)) as (p1 & E & Hl & Hp).
    exists (setNth x r p1). cbn [find].
    apply Nat.eqb_neq in Hx as Hx'. rewrite Hx', E.
    split; [reflexivity|]. split; [now rewrite length_setNth|].
    intros y r' j Hy. apply Hp in Hy.
    assert (rootWithin p x r (S k)) as Hxr by (econstructor; eauto).
    eapply rootWithin_compress; [apply Hp, Hxr | | exact Hy].
    intros ->. apply Hx. eapply rootWithin_is_root, Hxr.
Qed.

(** Beyond the depth of [x] the fuel does not matter. *)
Lemma find_fuel_irrelevant (p : list nat) (x r k : nat) :
  rootWithin p x r k ->
  forall fuel, (k < fuel)%nat -> find fuel p x = find (S k) p x.
Proof.
  induction 1 as [x k Hx|x r k Hx H IH]; intros [|fuel] Hf; try lia.
  - simpl. now rewrite Hx, Nat.eqb_refl.
  - cbn [find]. apply Nat.eqb_neq in Hx as Hx'. rewrite Hx'.
    now rewrite (IH fuel) by lia.
Qed.

(** Hanging one root under another adds at most one step. *)
Lemma rootWithin_link (p : list nat) (rx ry : nat) :
  nth rx p rx = rx -> nth ry p ry = ry -> rx <> ry ->
  forall y r k, rootWithin p y r k ->
  exists r', rootWithin (setNth rx ry p) y r' (S k).
Proof.
  intros Hrx Hry Hne y r k H. induction H as [y k Hy|y r k Hy H (r' & IH)].
  - destruct (Nat.eq_dec (nth y (setNth rx ry p) y) y) as [E|N].
    + exists y. now constructor.
    + exists ry. assert (y = rx) as ->.
      { destruct (Nat.eq_dec y rx) as [|Hyx]; [assumption|].
        exfalso. apply N. now rewrite nth_setNth_other. }
      assert (nth rx (setNth rx ry p) rx = ry) as E.
      { destruct (Nat.lt_ge_cases rx (length p)) as [L|G].
        - now apply nth_setNth_same.
        - exfalso. apply N. apply nth_overflow. now rewrite length_setNth. }
      constructor; [congruence|]. rewrite E. constructor.
      rewrite nth_setNth_other; auto.
  - exists r'. assert (y <> rx) as Hyx by congruence.
    constructor; rewrite nth_setNth_other by exact Hyx; assumption.
Qed.

Lemma find_depthBound (fuel d : nat) (p : list nat) (x : nat) :
  depthBound p d -> (d < fuel)%nat ->
  find fuel p x = find (S d) p x
  /\ depthBound (fst (find fuel p x)) d
  /\ nth (snd (find fuel p x)) (fst (find fuel p x)) (snd (find fuel p x))
     = snd (find fuel p x)
  /\ forall r, nth r p r = r ->
               nth r (fst (find fuel p x)) r = r.
Proof.
  intros Hd Hf. destruct (Hd x) as (r & Hx).
  destruct (find_spec p x r d Hx fuel Hf) as (p1 & E & _ & Hp).
  split; [now apply (find_fuel_irrelevant p x r d)|].
  rewrite E. simpl. split; [|split].
  - intros z. destruct (Hd z) as (rz & Hz). exists rz. now apply Hp.
  - apply (rootWithin_is_root p1 r r 0), Hp. constructor.
    eapply rootWithin_is_root, Hx.
  - intros r0 Hr0. apply (rootWithin_is_root p1 r0 r0 0), Hp. now constructor.
Qed.

Lemma union_depthBound (fuel d : nat) (p : list nat) (x y : nat) :
  depthBound p d -> (d < fuel)%nat ->
  depthBound (union fuel p x y) (S d)
  /\ forall fuel', (d < fuel')%nat -> union fuel' p x y = union fuel p x y.
Proof.
  intros Hd Hf.
  assert (forall fuel0, (d < fuel0)%nat -> union fuel0 p x y = union (S d) p x y)
    as Hirr.
  { intros fuel0 Hf0. unfold union.
    destruct (find_depthBound fuel0 d p x Hd Hf0) as (E1 & Hd1 & _).
    rewrite E1 in Hd1 |- *. destruct (find (S d) p x) as [p1 rx]. simpl in Hd1.
    destruct (find_depthBound fuel0 d p1 y Hd1 Hf0) as (E2 & _).
    now rewrite E2. }
  split; [|intros fuel' Hf'; now rewrite (Hirr fuel), (Hirr fuel')].
  rewrite (Hirr fuel Hf). unfold union.
  destruct (find_depthBound (S d) d p x Hd ltac:(lia)) as (_ & Hd1 & Hrx & _).
  destruct (find (S d) p x) as [p1 rx]. simpl in Hd1, Hrx.
  destruct (find_depthBound (S d) d p1 y Hd1 ltac:(lia)) as (_ & Hd2 & Hry & Hk).
  specialize (Hk rx Hrx).
  destruct (find (S d) p1 y) as [p2 ry]. simpl in Hd2, Hry, Hk.
  destruct (rx =? ry)%nat eqn:Er.
  - intros z. destruct (Hd2 z) as (rz & Hz). exists rz.
    eapply rootWithin_weaken; [exact Hz | lia].
  - apply Nat.eqb_neq in Er. intros z. destruct (Hd2 z) as (rz & Hz).
    eapply rootWithin_link; eauto.
Qed.

Lemma unionSteps_depthBound (fuel : nat)
  (ps : list ((nat * DuplicateBlock) * (nat * DuplicateBlock)))
  (p : list nat) (d : nat) :
  depthBound p d -> (d + length ps < fuel)%nat ->
  depthBound (fold_left (unionStep fuel) ps p) (d + length ps)
  /\ forall fuel', (d + length ps < fuel')%nat ->
       fold_left (unionStep fuel') ps p = fold_left (unionStep fuel) ps p.
Proof.
  revert p d. induction ps as [|[[i di] [j dj]] ps IH];
    cbn [fold_left length]; intros p d Hd Hf.
  - rewrite Nat.add_0_r. auto.
  - assert (depthBound (unionStep fuel p (i, di, (j, dj))) (S d)
            /\ forall fuel', (d < fuel')%nat ->
                 unionStep fuel' p (i, di, (j, dj))
                 = unionStep fuel p (i, di, (j, dj))) as [Hd' Hirr].
    { unfold unionStep. destruct (Qle_bool _ _).
      - apply union_depthBound; [exact Hd | lia].
      - split; [|reflexivity]. intros z. destruct (Hd z) as (rz & Hz).
        exists rz. eapply rootWithin_weaken; [exact Hz | lia]. }
    destruct (IH _ (S d) Hd' ltac:(lia)) as [Hb Hi].
    replace (d + S (length ps))%nat with (S d + length ps)%nat by lia.
    split; [exact Hb|]. intros fuel' Hf'.
    rewrite Hirr by lia. apply Hi. lia.
Qed.

Lemma depthBound_initial (n : nat) : depthBound (seq 0 n) 0.
Proof.
  intros x. exists x. constructor.
  destruct (Nat.lt_ge_cases x n) as [L|G].
  - now rewrite seq_nth.
  - apply nth_overflow. now rewrite length_seq.
Qed.

Lemma length_pairsOf {A : Type} (l : list A) :
  (length (pairsOf l) <= length l * length l)%nat.
Proof.
  induction l as [|x l IH]; simpl; [lia|].
  rewrite length_app, length_map. nia.
Qed.

Lemma length_indexed {A : Type} (l : list A) : length (indexed l) = length l.
Proof. unfold indexed. rewrite length_combine, length_seq. lia. Qed.

Lemma clusterSteps_fuel (fuel fuel' d : nat) (ps : list (nat * DuplicateBlock))
  (st : list nat * list (nat * list DuplicateBlock)) :
  depthBound (fst st) d -> (d < fuel)%nat -> (d < fuel')%nat ->
  fold_left (clusterStep fuel') ps st = fold_left (clusterStep fuel) ps st.
Proof.
  revert st. induction ps as [|[i x] ps IH]; simpl; intros [p m] Hd Hf Hf';
    [reflexivity|].
  simpl in Hd. destruct (Hd i) as (r & Hr).
  destruct (find_spec p i r d Hr fuel Hf) as (p1 & E & _ & Hp).
  assert (find fuel' p i = find fuel p i) as Ef.
  { rewrite (find_fuel_irrelevant p i r d Hr fuel Hf).
    now rewrite (find_fuel_irrelevant p i r d Hr fuel' Hf'). }
  unfold clusterStep at 2 4. simpl. rewrite Ef, E.
  apply IH; trivial. simpl. intros z. destruct (Hd z) as (rz & Hz).
  exists rz. now apply Hp.
Qed.

(** The recursion of [find] never runs out of fuel: any larger bound gives
    the same clusters. *)
Lemma clustersOf_fuel_irrelevant (duplicates : list DuplicateBlock) (fuel : nat) :
  (findFuel (length duplicates) <= fuel)%nat ->
  clustersWith fuel duplicates = clustersOf duplicates.
Proof.
  intros Hf. unfold clustersOf, clustersWith, unionAllWith.
  set (n := length duplicates) in *.
  set (ps := pairsOf (indexed duplicates)).
  assert (length ps < findFuel n)%nat as Hps.
  { unfold ps, findFuel. pose proof (length_pairsOf (indexed duplicates)) as H.
    rewrite length_indexed in H. fold n in H. lia. }
  destruct (unionSteps_depthBound (findFuel n) ps (seq 0 n) 0
              (depthBound_initial n) Hps) as [Hd Hirr].
  rewrite (Hirr fuel) by (simpl; lia).
  f_equal. f_equal.
  apply (clusterSteps_fuel (findFuel n) fuel (0 + length ps)); simpl; trivial; lia.
Qed.

End UnionFind.

(** * The patch parser on well-formed diffs *)

Section Decimal.

Local Abbreviation digitStep := (fun acc c => 10 * acc + (Str.code c - 48)).

Local Abbreviation uchars := (fun d => lit (NilEmpty.string_of_uint d)).

Lemma parse_uint_acc (d : Decimal.uint) (acc : positive) :
  fold_left digitStep (uchars d) (Z.pos acc) = Z.pos (Pos.of_uint_acc d acc).
Proof.
  revert acc. induction d; intros acc; cbn [NilEmpty.string_of_uint Pos.of_uint_acc];
    [reflexivity|..]; unfold lit; cbn [String.list_ascii_of_string fold_left];
    fold (lit (NilEmpty.string_of_uint d)); rewrite <- IHd; f_equal;
    try match goal with
        | |- context [Str.code ?c] =>
            let v := eval vm_compute in (Str.code c) in
            change (Str.code c) with v
        end; lia.
Qed.

Lemma parse_uint (d : Decimal.uint) :
  fold_left digitStep (uchars d) 0 = Z.of_N (Pos.of_uint d).
Proof.
  induction d; cbn [NilEmpty.string_of_uint Pos.of_uint];
    [reflexivity|..]; unfold lit; cbn [String.list_ascii_of_string fold_left];
    fold (lit (NilEmpty.string_of_uint d));
    first [ exact IHd | apply (parse_uint_acc d) ].
Qed.

Lemma uchars_digits (d : Decimal.uint) : forallb isDigit (uchars d) = true.
Proof.
  induction d; cbn [NilEmpty.string_of_uint]; [reflexivity|..];
    unfold lit; cbn [String.list_ascii_of_string forallb];
    fold (lit (NilEmpty.string_of_uint d)); rewrite IHd; reflexivity.
Qed.

Lemma uchars_nonempty (d : Decimal.uint) : d <> Decimal.Nil -> uchars d <> [].
Proof. destruct d; intros H; [congruence|..]; discriminate. Qed.

(** The decimal rendering of a natural number: a non-empty run of digits
    that [parseInt] reads back. *)
Lemma ofZ_spec (z : Z) :
  0 <= z ->
  ofZ z <> [] /\ forallb isDigit (ofZ z) = true /\ parseDigits (ofZ z) = z.
Proof.
  intros Hz. unfold ofZ, parseDigits. destruct z as [|p|p]; [| |lia].
  - repeat split. discriminate.
  - cbn [Z.to_int NilZero.string_of_int].
    pose proof (Unsigned.to_uint_nonnil p) as Hn.
    assert (NilZero.string_of_uint (Pos.to_uint p)
            = NilEmpty.string_of_uint (Pos.to_uint p)) as ->.
    { unfold NilZero.string_of_uint. now destruct (Pos.to_uint p). }
    split; [now apply uchars_nonempty|]. split; [apply uchars_digits|].
    rewrite parse_uint, Unsigned.of_to. reflexivity.
Qed.

Lemma takeDigits_app (ds rest : str) :
  forallb isDigit ds = true -> takeDigits (ds ++ rest) = ds ++ takeDigits rest.
Proof.
  induction ds as [|c ds IH]; simpl; [reflexivity|].
  intros H. apply andb_true_iff in H as [Hc Hd]. now rewrite Hc, IH.
Qed.

Lemma matchPlusDigits_skip (pre s : str) :
  forallb (fun c => negb (Ascii.eqb c "+"%char)) pre = true ->
  matchPlusDigits (pre ++ s) = matchPlusDigits s.
Proof.
  induction pre as [|c pre IH]; simpl; [reflexivity|].
  intros H. apply andb_true_iff in H as [Hc Hp].
  apply negb_true_iff in Hc. now rewrite Hc, IH.
Qed.

Lemma digits_no_plus (ds : str) :
  forallb isDigit ds = true ->
  forallb (fun c => negb (Ascii.eqb c "+"%char)) ds = true.
Proof.
  induction ds as [|c ds IH]; simpl; [reflexivity|].
  intros H. apply andb_true_iff in H as [Hc Hd]. rewrite IH by exact Hd.
  rewrite andb_true_r. apply negb_true_iff, Ascii.eqb_neq. intros ->.
  discriminate.
Qed.

End Decimal.

Section Parser.

Lemma split_line (c : ascii) (l rest : str) :
  forallb (fun x => negb (Ascii.eqb x c)) l = true ->
  Str.split c (l ++ c :: rest) = l :: Str.split c rest.
Proof.
  induction l as [|x l IH]; simpl.
  - now rewrite Ascii.eqb_refl.
  - intros H. apply andb_true_iff in H as [Hx Hl]. apply negb_true_iff in Hx.
    now rewrite Hx, IH.
Qed.

Lemma split_last (c : ascii) (l : str) :
  forallb (fun x => negb (Ascii.eqb x c)) l = true -> Str.split c l = [l].
Proof.
  induction l as [|x l IH]; simpl; [reflexivity|].
  intros H. apply andb_true_iff in H as [Hx Hl]. apply negb_true_iff in Hx.
  now rewrite Hx, IH.
Qed.

Lemma split_join (ls : list str) :
  ls <> [] -> forallb singleLine ls = true ->
  Str.split "010"%char (join nl ls) = ls.
Proof.
  induction ls as [|l ls IH]; [congruence|]. intros _ H.
  cbn [forallb] in H. apply andb_true_iff in H as [Hl Hls].
  destruct ls as [|l' ls'].
  - simpl. now apply split_last.
  - change (join nl (l :: l' :: ls')) with (l ++ nl ++ join nl (l' :: ls')).
    unfold nl at 1. simpl app at 2.
    rewrite split_line by exact Hl. f_equal. apply IH; [discriminate|exact Hls].
Qed.

Lemma header_step (h : Hunk) (st : Z * list AddedLine) :
  hunkOk h = true -> hunkExact h = true ->
  addedStep st (renderHeader h) = (newStart h, snd st).
Proof.
  unfold hunkOk, hunkExact. rewrite !andb_true_iff, !Z.leb_le.
  intros (((((Ha & Hb) & Hc) & Hd) & _) & _) Hx.
  destruct (ofZ_spec _ Ha) as (_ & Da & _).
  destruct (ofZ_spec _ Hb) as (_ & Db & _).
  destruct (ofZ_spec _ Hc) as (Nc & Dc & Pc).
  destruct st as [cur acc]. unfold addedStep, renderHeader.
  change (startsWith "@@" ("@@ -" ++ ?x)) with true. cbv iota.
  replace (matchPlusDigits _) with (Some (ofZ (newStart h)));
    [rewrite Pc, toDouble_exact by lia; reflexivity|].
  symmetry.
  change ("@@ -" ++ ?x) with ("@"%char :: "@"%char :: " "%char :: "-"%char :: x).
  cbn [matchPlusDigits Ascii.eqb Bool.eqb].
  rewrite matchPlusDigits_skip by now apply digits_no_plus.
  change ("," ++ ?x) with (","%char :: x). cbn [matchPlusDigits Ascii.eqb Bool.eqb].
  rewrite matchPlusDigits_skip by now apply digits_no_plus.
  change (" +" ++ ?x) with (" "%char :: "+"%char :: x).
  cbn [matchPlusDigits Ascii.eqb Bool.eqb].
  rewrite takeDigits_app by exact Dc.
  change ("," ++ ?x) with (","%char :: x). cbn [takeDigits].
  change (isDigit ","%char) with false. cbv iota. rewrite app_nil_r.
  destruct (ofZ (newStart h)); [congruence | reflexivity].
Qed.

Lemma body_steps (ls : list diffLine) (n : Z) (acc : list AddedLine) :
  0 <= n -> n + Z.of_nat (length ls) <= 2 ^ 53 ->
  exists n',
    fold_left addedStep (map renderLine ls) (n, acc)
    = (n', acc ++ filter emittedLine (postImage n ls)).
Proof.
  revert n acc. induction ls as [|dl ls IH]; intros n acc Hn Hb;
    cbn [map fold_left].
  - exists n. simpl. now rewrite app_nil_r.
  - cbn [length] in Hb.
    assert (toDouble (n + 1) = n + 1) as Hd by (apply toDouble_exact; lia).
    destruct dl as [t|t|t]; cbn [postImage renderLine].
    + change (addedStep (n, acc) (" " ++ t)) with (toDouble (n + 1), acc).
      rewrite Hd. apply IH; lia.
    + assert (addedStep (n, acc) ("+" ++ t)
              = (n + 1, acc ++ filter emittedLine [mkLine n t])) as ->.
      { unfold addedStep. rewrite Hd.
        change (startsWith "@@" ("+" ++ t)) with false.
        change (startsWith "+" ("+" ++ t)) with true.
        change (startsWith "+++" ("+" ++ t)) with (startsWith "++" t).
        change (startsWith "-" ("+" ++ t)) with false.
        cbn [filter]. unfold emittedLine. cbn [content andb negb].
        destruct (startsWith "++" t); cbn [negb]; [now rewrite app_nil_r|].
        reflexivity. }
      destruct (IH (n + 1) (acc ++ filter emittedLine [mkLine n t])
                  ltac:(lia) ltac:(lia)) as (n' & ->).
      exists n'. f_equal. rewrite <- app_assoc. f_equal.
      symmetry. apply (filter_app emittedLine [mkLine n t]).
    + change (addedStep (n, acc) ("-" ++ t)) with (n, acc). apply IH; lia.
Qed.

Lemma hunks_steps (hs : list Hunk) (st : Z * list AddedLine) :
  forallb hunkOk hs = true -> forallb hunkExact hs = true ->
  snd (fold_left addedStep (flat_map renderHunk hs) st)
  = snd st ++ filter emittedLine (addedOf hs).
Proof.
  revert st. induction hs as [|h hs IH]; intros st H Hx; simpl.
  - now rewrite app_nil_r.
  - apply andb_true_iff in H as [Hh Hs]. apply andb_true_iff in Hx as [Hxh Hxs].
    rewrite header_step by assumption. rewrite fold_left_app.
    assert (0 <= newStart h /\ newStart h + Z.of_nat (length (body h)) <= 2 ^ 53)
      as [H0 Hb].
    { unfold hunkOk in Hh. unfold hunkExact in Hxh.
      rewrite !andb_true_iff, !Z.leb_le in Hh. apply Z.leb_le in Hxh. tauto. }
    destruct (body_steps (body h) (newStart h) (snd st) H0 Hb) as (n' & ->).
    rewrite IH by assumption. cbn [snd]. unfold addedOf at 2. cbn [flat_map].
    now rewrite filter_app, app_assoc.
Qed.

Lemma renderHunk_single (h : Hunk) :
  hunkOk h = true -> forallb singleLine (renderHunk h) = true.
Proof.
  unfold hunkOk. rewrite !andb_true_iff, !Z.leb_le.
  intros (((((Ha & Hb) & Hc) & Hd) & Hh) & Hbody).
  assert (forall ds, forallb isDigit ds = true -> singleLine ds = true) as Hdig.
  { induction ds as [|c ds IH]; simpl; [reflexivity|].
    intros H. apply andb_true_iff in H as [Hc' Hd']. rewrite (IH Hd').
    rewrite andb_true_r. apply negb_true_iff, Ascii.eqb_neq. intros ->.
    discriminate. }
  cbn [renderHunk forallb]. apply andb_true_iff. split.
  - assert (forall a b, singleLine (a ++ b) = singleLine a && singleLine b) as Happ
      by (intros; apply forallb_app).
    pose proof (Hdig _ (proj1 (proj2 (ofZ_spec _ Ha)))) as Sa.
    pose proof (Hdig _ (proj1 (proj2 (ofZ_spec _ Hb)))) as Sb.
    pose proof (Hdig _ (proj1 (proj2 (ofZ_spec _ Hc)))) as Sc.
    pose proof (Hdig _ (proj1 (proj2 (ofZ_spec _ Hd)))) as Sd.
    unfold renderHeader. rewrite !Happ, Sa, Sb, Sc, Sd, Hh. reflexivity.
  - clear - Hbody. induction (body h) as [|dl ls IH]; [reflexivity|].
    cbn [map forallb] in *. apply andb_true_iff in Hbody as [H1 H2].
    rewrite (IH H2), andb_true_r. destruct dl; exact H1.
Qed.

Lemma extractAddedLines_rendered (hs : list Hunk) :
  forallb hunkOk hs = true -> forallb hunkExact hs = true ->
  extractAddedLines (renderPatch hs) = filter emittedLine (addedOf hs).
Proof.
  intros H Hx. unfold extractAddedLines, renderPatch.
  destruct hs as [|h hs]; [reflexivity|].
  rewrite split_join.
  - now rewrite hunks_steps.
  - discriminate.
  - rewrite forallb_forall. intros l Hl. apply in_flat_map in Hl as (h' & Hh' & Hl).
    pose proof (proj1 (forallb_forall _ _) H h' Hh') as Hok.
    apply (proj1 (forallb_forall _ _) (renderHunk_single h' Hok)), Hl.
Qed.

Lemma postImage_from (ls : list diffLine) (n : Z) :
  Forall (fun l => n <= lineNumber l) (postImage n ls).
Proof.
  revert n. induction ls as [|[t|t|t] ls IH]; intros n; simpl.
  - constructor.
  - eapply Forall_impl; [|apply IH]. simpl. intros; lia.
  - constructor; [simpl; lia|].
    eapply Forall_impl; [|apply IH]. simpl. intros; lia.
  - apply IH.
Qed.

(** Every emitted line is a patch line that starts with [+] and not with
    [+++], without its [+]. *)
Lemma extractAddedLines_content (patch : str) :
  Forall (fun l => In ("+"%char :: content l) (Str.split "010"%char patch)
                   /\ startsWith "+++" ("+"%char :: content l) = false)
         (extractAddedLines patch).
Proof.
  unfold extractAddedLines.
  assert (forall lines st,
            Forall (fun l => In ("+"%char :: content l) lines
                             /\ startsWith "+++" ("+"%char :: content l) = false)
                   (snd st) ->
            forall rest, incl rest lines ->
            Forall (fun l => In ("+"%char :: content l) lines
                             /\ startsWith "+++" ("+"%char :: content l) = false)
                   (snd (fold_left addedStep rest st))) as Hfold.
  { intros lines st Hst rest. revert st Hst.
    induction rest as [|line rest IH]; intros st Hst Hin; [exact Hst|].
    cbn [fold_left]. apply IH; [|intros x Hx; apply Hin; now right].
    destruct st as [cur acc]. unfold addedStep.
    destruct (startsWith "@@" line); [destruct (matchPlusDigits line); exact Hst|].
    destruct (startsWith "+" line && negb (startsWith "+++" line)) eqn:E.
    - apply andb_true_iff in E as [E E3]. apply negb_true_iff in E3. cbn [snd].
      apply Forall_app. split; [exact Hst|]. constructor; [|constructor].
      cbn [content]. destruct line as [|c line]; [discriminate|].
      unfold lit in E. cbn [String.list_ascii_of_string startsWith] in E.
      apply andb_true_iff in E as [E _].
      apply Ascii.eqb_eq in E. subst c. cbn [tl]. split; [|exact E3].
      apply Hin. now left.
    - destruct (negb (startsWith "-" line)); exact Hst. }
  apply Hfold; [constructor | apply incl_refl].
Qed.

(** C5 (patch parser), as far as the code guarantees it:
    every emitted line is a line of the patch that starts with [+] and not
    with [+++], with the [+] stripped; and on a patch made of well-formed
    hunks (header [@@ -a,b +c,d @@], context, added and removed lines) that
    lie in the lines a double counts one by one (up to [2^53]) the parser
    emits exactly the added lines whose text does not begin with [++], each
    with its line number in the post-image -- so all line numbers are at
    least [1] when every hunk starts at line [1] or later. *)
Theorem extractAddedLines_post_image :
  (forall patch,
     Forall (fun l => In ("+"%char :: content l) (Str.split "010"%char patch)
                      /\ startsWith "+++" ("+"%char :: content l) = false)
            (extractAddedLines patch))
  /\ (forall hs,
        forallb hunkOk hs = true -> forallb hunkExact hs = true ->
        extractAddedLines (renderPatch hs) = filter emittedLine (addedOf hs)
        /\ (forallb (fun h => 1 <=? newStart h) hs = true ->
            Forall (fun l => 1 <= lineNumber l)
                   (extractAddedLines (renderPatch hs)))).
Proof.
  split; [apply extractAddedLines_content|].
  intros hs H Hx. rewrite (extractAddedLines_rendered hs H Hx).
  split; [reflexivity|].
  intros Hs. apply Forall_forall. intros l Hl.
  apply filter_In in Hl as [Hl _]. unfold addedOf in Hl.
  apply in_flat_map in Hl as (h & Hh & Hl).
  pose proof (proj1 (forallb_forall _ _) Hs h Hh) as Hn. apply Z.leb_le in Hn.
  pose proof (proj1 (Forall_forall _ _) (postImage_from (body h) (newStart h)) l Hl).
  simpl in *. lia.
Qed.

Lemma extractAddedLines_post_image_witness :
  forallb hunkOk [sampleHunk] = true
  /\ forallb hunkExact [sampleHunk] = true
  /\ extractAddedLines (renderPatch [sampleHunk])
     = filter emittedLine (addedOf [sampleHunk]).
Proof.
  split; [reflexivity|]. split; [reflexivity|].
  apply (proj2 extractAddedLines_post_image [sampleHunk]); reflexivity.
Defined.

(** Beyond [2^53] the counter is no longer exact: of two added lines from
    line [2^53 + 1] on, both are numbered [2^53]. *)
Example counter_inexact_beyond_2_53 :
  hunkOk farHunk = true
  /\ extractAddedLines (renderPatch [farHunk])
     = [mkLine (2 ^ 53) "a"; mkLine (2 ^ 53) "b"].
Proof. split; vm_compute; reflexivity. Qed.

(** C5 does not hold in full generality:
    a patch without a hunk header numbers its first
    added line [0]. *)
Lemma added_line_numbered_zero :
  ~ Forall (fun l => 1 <= lineNumber l) (extractAddedLines "+a").
Proof.
  intros H. vm_compute in H. inversion H as [|? ? H1 _]. subst.
  apply H1. reflexivity.
Qed.

(** The marker [\ No newline at end of file] advances the cursor: the line
    [c], second line of the new file, is numbered [3]. *)
Example marker_advances_cursor :
  extractAddedLines noNewlinePatch = [mkLine 3 "c"].
Proof. vm_compute. reflexivity. Qed.

End Parser.

(** * The normalizer *)

Section ReplaceAll.

Variables (m : matcher) (repl : str).

Lemma replaceFrom_skip (a b : str) :
  replaceFrom m repl (length a) (a ++ b) = replaceFrom m repl 0 b.
Proof. induction a as [|c a IH]; simpl; [now destruct b | exact IH]. Qed.

Lemma replaceFrom_nil (k : nat) : replaceFrom m repl k [] = [].
Proof. reflexivity. Qed.

(** A match at the head is replaced, and the scan resumes after it. *)
Lemma replaceAll_match (c : ascii) (a rest : str) :
  m (c :: a ++ rest) = Some rest ->
  replaceAll m repl (c :: a ++ rest) = repl ++ replaceAll m repl rest.
Proof.
  intros H. unfold replaceAll. cbn [replaceFrom]. rewrite H.
  rewrite length_app, Nat.add_sub. now rewrite replaceFrom_skip.
Qed.

Lemma replaceAll_nomatch (c : ascii) (r : str) :
  m (c :: r) = None -> replaceAll m repl (c :: r) = c :: replaceAll m repl r.
Proof. intros H. unfold replaceAll. cbn [replaceFrom]. now rewrite H. Qed.

(** No match starts inside a prefix none of whose characters can open
    one. *)
Lemma replaceAll_prefix (opens : ascii -> bool) (a b : str) :
  (forall c r, opens c = false -> m (c :: r) = None) ->
  forallb (fun c => negb (opens c)) a = true ->
  replaceAll m repl (a ++ b) = a ++ replaceAll m repl b.
Proof.
  intros Hm. induction a as [|c a IH]; simpl; intros H; [reflexivity|].
  apply andb_true_iff in H as [Hc Ha]. apply negb_true_iff in Hc.
  rewrite replaceAll_nomatch by now apply Hm. now rewrite IH.
Qed.

End ReplaceAll.

Section LetterCase.

(** A map on characters that fixes, and does not create, the characters the
    passes look at. *)
Variable f : ascii -> ascii.

Hypothesis f_lt : forall c, isLineTerminator (f c) = isLineTerminator c.
Hypothesis f_space : forall c, isSpace (f c) = isSpace c.
Hypothesis f_eqb : forall c k,
  In k ["/"%char; "*"%char; "\"%char; dquote; "'"%char; "`"%char] ->
  Ascii.eqb (f c) k = Ascii.eqb c k.

Local Abbreviation commutes := (commutesWith f).

Lemma replaceFrom_map (m : matcher) (repl : str) (k : nat) (s : str) :
  commutes m -> map f repl = repl ->
  replaceFrom m repl k (map f s) = map f (replaceFrom m repl k s).
Proof.
  intros Hm Hr. revert k. induction s as [|c s IH]; intros k; [reflexivity|].
  cbn [map replaceFrom]. destruct k as [|k]; [|apply IH].
  change (f c :: map f s) with (map f (c :: s)). rewrite Hm.
  destruct (m (c :: s)) as [rest|]; cbn [option_map].
  - rewrite map_app, Hr, !length_map. now rewrite IH.
  - cbn [map]. now rewrite IH.
Qed.

Lemma dropWhile_map (p : ascii -> bool) (s : str) :
  (forall c, p (f c) = p c) ->
  dropWhile p (map f s) = map f (dropWhile p s).
Proof.
  intros Hp. induction s as [|c s IH]; [reflexivity|].
  cbn [map dropWhile]. rewrite Hp. now destruct (p c).
Qed.

Ltac special := simpl; tauto.

Lemma mLineComment_commutes : commutes mLineComment.
Proof.
  intros [|c [|d r]]; try reflexivity. cbn [map mLineComment].
  rewrite !f_eqb by special.
  destruct (Ascii.eqb c "/" && Ascii.eqb d "/"); [|reflexivity].
  cbn [option_map]. f_equal. apply dropWhile_map. intros x. now rewrite f_lt.
Qed.

Lemma afterClose_map (s : str) :
  afterClose (map f s) = option_map (map f) (afterClose s).
Proof.
  induction s as [|c s IH]; [reflexivity|].
  destruct s as [|d r]; [reflexivity|].
  change (map f (c :: d :: r)) with (f c :: f d :: map f r).
  change (afterClose (f c :: f d :: map f r))
    with (if Ascii.eqb (f c) "*" && Ascii.eqb (f d) "/" then Some (map f r)
          else afterClose (map f (d :: r))).
  change (afterClose (c :: d :: r))
    with (if Ascii.eqb c "*" && Ascii.eqb d "/" then Some r
          else afterClose (d :: r)).
  rewrite !f_eqb by special.
  destruct (Ascii.eqb c "*" && Ascii.eqb d "/"); [reflexivity | exact IH].
Qed.

Lemma mBlockComment_commutes : commutes mBlockComment.
Proof.
  intros [|c [|d r]]; try reflexivity. cbn [map mBlockComment].
  rewrite !f_eqb by special.
  destruct (Ascii.eqb c "/" && Ascii.eqb d "*"); [|reflexivity].
  apply afterClose_map.
Qed.

Lemma literalEnd_map (q : ascii) (s : str) :
  In q [dquote; "'"%char; "`"%char] ->
  literalEnd q (map f s) = option_map (map f) (literalEnd q s).
Proof.
  intros Hq.
  assert (forall c, Ascii.eqb (f c) q = Ascii.eqb c q) as Eq.
  { intros c. apply f_eqb. simpl in *. tauto. }
  assert (forall n s, (length s <= n)%nat ->
            literalEnd q (map f s) = option_map (map f) (literalEnd q s)) as H.
  { induction n as [|n IH]; intros [|c r] Hl; try reflexivity;
      [simpl in Hl; lia|].
    cbn [map literalEnd]. rewrite Eq. destruct (Ascii.eqb c q); [reflexivity|].
    rewrite f_eqb by special. simpl in Hl.
    destruct (Ascii.eqb c "\").
    - destruct r as [|d r']; [reflexivity|]. cbn [map]. rewrite f_lt.
      destruct (isLineTerminator d); [reflexivity|]. apply IH. simpl in Hl. lia.
    - apply IH. lia. }
  now apply (H (length s)).
Qed.

Lemma mQuoted_commutes (q : ascii) :
  In q [dquote; "'"%char; "`"%char] -> commutes (mQuoted q).
Proof.
  intros Hq [|c r]; [reflexivity|]. cbn [map mQuoted].
  rewrite f_eqb by (simpl in *; tauto).
  destruct (Ascii.eqb c q); [|reflexivity]. now apply literalEnd_map.
Qed.

Lemma mSpaces_commutes : commutes mSpaces.
Proof.
  intros [|c r]; [reflexivity|]. cbn [map mSpaces]. rewrite f_space.
  destruct (isSpace c); [|reflexivity].
  cbn [option_map]. f_equal. now apply dropWhile_map.
Qed.

Lemma trimStart_map (s : str) : trimStart (map f s) = map f (trimStart s).
Proof.
  induction s as [|c s IH]; [reflexivity|].
  cbn [map trimStart]. rewrite f_space. now destruct (isSpace c).
Qed.

Lemma trim_map (s : str) : trim (map f s) = map f (trim s).
Proof.
  unfold trim. now rewrite trimStart_map, <- map_rev, trimStart_map, map_rev.
Qed.

End LetterCase.

Section CaseInvariance.

Lemma lowerChar_lt (c : ascii) :
  isLineTerminator (lowerChar c) = isLineTerminator c.
Proof. destruct c as [[] [] [] [] [] [] [] []]; reflexivity. Qed.

Lemma lowerChar_space (c : ascii) : isSpace (lowerChar c) = isSpace c.
Proof. destruct c as [[] [] [] [] [] [] [] []]; reflexivity. Qed.

Lemma lowerChar_eqb (c k : ascii) :
  In k ["/"%char; "*"%char; "\"%char; dquote; "'"%char; "`"%char] ->
  Ascii.eqb (lowerChar c) k = Ascii.eqb c k.
Proof.
  intros Hk. simpl in Hk.
  repeat (destruct Hk as [<-|Hk];
          [destruct c as [[] [] [] [] [] [] [] []]; reflexivity|]).
  destruct Hk.
Qed.

Lemma normalizeCode_stripped (s : str) : normalizeCode s = toLowerCase (stripped s).
Proof. reflexivity. Qed.

Lemma stripped_lower (s : str) :
  stripped (toLowerCase s) = toLowerCase (stripped s).
Proof.
  unfold stripped, spacePass, quotePass, blockPass, linePass, toLowerCase,
    replaceAll.
  pose proof lowerChar_lt as Hl. pose proof lowerChar_space as Hs.
  pose proof lowerChar_eqb as He.
  rewrite (replaceFrom_map lowerChar mLineComment [] 0 s)
    by (try apply mLineComment_commutes; auto).
  rewrite (replaceFrom_map lowerChar mBlockComment [])
    by (try apply mBlockComment_commutes; auto).
  rewrite (replaceFrom_map lowerChar (mQuoted dquote))
    by (try apply mQuoted_commutes; simpl; auto).
  rewrite (replaceFrom_map lowerChar (mQuoted "'"%char))
    by (try apply mQuoted_commutes; simpl; auto).
  rewrite (replaceFrom_map lowerChar (mQuoted "`"%char))
    by (try apply mQuoted_commutes; simpl; auto).
  rewrite (replaceFrom_map lowerChar mSpaces)
    by (try apply mSpaces_commutes; auto).
  now apply trim_map.
Qed.

(** Texts that agree up to letter case have the same normal form. *)
Lemma normalizeCode_case (s1 s2 : str) :
  toLowerCase s1 = toLowerCase s2 -> normalizeCode s1 = normalizeCode s2.
Proof.
  intros H. rewrite !normalizeCode_stripped, <- !stripped_lower. now rewrite H.
Qed.

End CaseInvariance.

Section Contents.


Lemma forallb_impl {A : Type} (p q : A -> bool) (l : list A) :
  (forall x, p x = true -> q x = true) ->
  forallb p l = true -> forallb q l = true.
Proof.
  intros Hpq. rewrite !forallb_forall. intros H x Hx. apply Hpq, H, Hx.
Qed.

Lemma linePass_prefix (a b : str) :
  noSlash a = true -> linePass (a ++ b) = a ++ linePass b.
Proof.
  apply (replaceAll_prefix mLineComment [] (fun c => Ascii.eqb c "/")).
  intros c [|d r] H; simpl; [reflexivity | now rewrite H].
Qed.

Lemma blockPass_prefix (a b : str) :
  noSlash a = true -> blockPass (a ++ b) = a ++ blockPass b.
Proof.
  apply (replaceAll_prefix mBlockComment [] (fun c => Ascii.eqb c "/")).
  intros c [|d r] H; simpl; [reflexivity | now rewrite H].
Qed.

Lemma quotePass_prefix (q : ascii) (a b : str) :
  forallb (fun c => negb (Ascii.eqb c q)) a = true ->
  quotePass q (a ++ b) = a ++ quotePass q b.
Proof.
  apply (replaceAll_prefix (mQuoted q) [q; q] (fun c => Ascii.eqb c q)).
  intros c r H. simpl. now rewrite H.
Qed.

Lemma literalEnd_inert (q : ascii) (c rest : str) :
  forallb (fun x => negb (Ascii.eqb x q || Ascii.eqb x "\"%char)) c = true ->
  literalEnd q (c ++ q :: rest) = Some rest.
Proof.
  induction c as [|x c IH]; simpl; intros H.
  - now rewrite Ascii.eqb_refl.
  - apply andb_true_iff in H as [Hx Hc]. apply negb_true_iff in Hx.
    apply orb_false_elim in Hx as [H1 H2]. rewrite H1, H2. now apply IH.
Qed.

Lemma quotePass_literal (q : ascii) (pre c rest : str) :
  forallb (fun x => negb (Ascii.eqb x q)) pre = true ->
  forallb (fun x => negb (Ascii.eqb x q || Ascii.eqb x "\"%char)) c = true ->
  quotePass q (pre ++ q :: c ++ q :: rest) = pre ++ [q; q] ++ quotePass q rest.
Proof.
  intros Hp Hc. rewrite quotePass_prefix by exact Hp. f_equal.
  replace (q :: c ++ q :: rest) with (q :: (c ++ [q]) ++ rest)
    by now rewrite <- app_assoc.
  apply (replaceAll_match (mQuoted q) [q; q] q (c ++ [q]) rest).
  simpl. rewrite Ascii.eqb_refl, <- app_assoc. now apply literalEnd_inert.
Qed.

Lemma plain_noSlash (s : str) : plain s = true -> noSlash s = true.
Proof.
  apply forallb_impl. intros c H. apply negb_true_iff in H.
  unfold isDelimiter in H. apply negb_true_iff.
  now destruct (Ascii.eqb c "/").
Qed.

Lemma plain_noQuote (q : ascii) (s : str) :
  isQuote q = true -> plain s = true ->
  forallb (fun c => negb (Ascii.eqb c q)) s = true.
Proof.
  intros Hq. apply forallb_impl. intros c H. apply negb_true_iff in H.
  apply negb_true_iff. destruct (Ascii.eqb c q) eqn:E; [|reflexivity].
  apply Ascii.eqb_eq in E. subst c. unfold isDelimiter, isQuote in *.
  destruct (Ascii.eqb q "/"), (Ascii.eqb q dquote), (Ascii.eqb q "'"),
    (Ascii.eqb q "`"); simpl in *; congruence.
Qed.

Lemma inert_plain (s : str) : inert s = true -> plain s = true.
Proof.
  apply forallb_impl. intros c H. apply negb_true_iff in H.
  apply negb_true_iff. now apply orb_false_elim in H as [H _].
Qed.

Lemma inert_literal (q : ascii) (s : str) :
  isQuote q = true -> inert s = true ->
  forallb (fun x => negb (Ascii.eqb x q || Ascii.eqb x "\"%char)) s = true.
Proof.
  intros Hq Hs. pose proof (plain_noQuote q s Hq (inert_plain s Hs)) as Hn.
  unfold inert in Hs. rewrite forallb_forall in *. intros x Hx.
  specialize (Hs x Hx). specialize (Hn x Hx).
  apply negb_true_iff in Hs, Hn. apply orb_false_elim in Hs as [_ Hb].
  apply negb_true_iff. now rewrite Hn, Hb.
Qed.

Lemma plain_app (a b : str) : plain (a ++ b) = plain a && plain b.
Proof. apply forallb_app. Qed.

Lemma app_quoted (q : ascii) (pre c X : str) :
  (pre ++ q :: c ++ [q]) ++ X = pre ++ q :: c ++ q :: X.
Proof. rewrite <- app_assoc. simpl. now rewrite <- app_assoc. Qed.

(** The passes up to the one for the quote [q] replace a literal with inert
    contents that follows a plain prefix by the empty literal. *)
Lemma literal_elided (q : ascii) (pre c post : str) :
  isQuote q = true -> plain pre = true -> inert c = true ->
  exists rest,
    (forall c', inert c' = true ->
       stripped (pre ++ q :: c' ++ q :: post) = rest)
    /\ stripped (pre ++ q :: c ++ q :: post) = rest.
Proof.
  intros Hq Hp Hc.
  assert (forall c', inert c' = true ->
            noSlash (pre ++ q :: c' ++ [q]) = true) as Hplain.
  { intros c' Hc'. unfold noSlash. rewrite forallb_app. cbn [forallb].
    rewrite forallb_app. cbn [forallb].
    fold (noSlash pre). fold (noSlash c').
    rewrite (plain_noSlash pre Hp), (plain_noSlash c' (inert_plain c' Hc')).
    destruct (Ascii.eqb q "/") eqn:E; [|reflexivity].
    apply Ascii.eqb_eq in E. subst q. discriminate. }
  assert (forall c', inert c' = true ->
            blockPass (linePass (pre ++ q :: c' ++ q :: post))
            = pre ++ q :: c' ++ q :: blockPass (linePass post)) as Hcomments.
  { intros c' Hc'.
    rewrite <- app_quoted.
    rewrite linePass_prefix, blockPass_prefix by now apply Hplain.
    apply app_quoted. }
  assert (forall q' c' X, isQuote q' = true -> q' <> q -> inert c' = true ->
            quotePass q' (pre ++ q :: c' ++ q :: X)
            = pre ++ q :: c' ++ q :: quotePass q' X) as Hother.
  { intros q' c' X Hq' Hne Hc'.
    rewrite <- app_quoted.
    rewrite quotePass_prefix; [apply app_quoted|].
    pose proof (plain_noQuote q' pre Hq' Hp) as N1.
    pose proof (plain_noQuote q' c' Hq' (inert_plain c' Hc')) as N2.
    assert (negb (Ascii.eqb q q') = true) as Nq
      by (apply negb_true_iff, Ascii.eqb_neq; congruence).
    rewrite forallb_forall in *. intros x Hx.
    apply in_app_or in Hx as [Hx|[<-|Hx]]; [now apply N1 | exact Nq |].
    apply in_app_or in Hx as [Hx|[<-|[]]]; [now apply N2 | exact Nq]. }
  assert (forall c' X, inert c' = true ->
            quotePass q (pre ++ q :: c' ++ q :: X)
            = pre ++ [q; q] ++ quotePass q X) as Hown.
  { intros c' X Hc'. apply quotePass_literal.
    - now apply plain_noQuote.
    - now apply inert_literal. }
  assert (isQuote dquote = true /\ isQuote "'"%char = true
          /\ isQuote "`"%char = true) as (Qd & Qs & Qb) by (repeat split).
  unfold isQuote in Hq. apply orb_true_iff in Hq as [Hq|Hq];
    [apply orb_true_iff in Hq as [Hq|Hq]|]; apply Ascii.eqb_eq in Hq; subst q.
  - eexists. split; [intros c' Hc'|]; unfold stripped;
      rewrite Hcomments, Hown by assumption; reflexivity.
  - eexists. split; [intros c' Hc'|]; unfold stripped;
      rewrite Hcomments, (Hother dquote), Hown by (trivial; discriminate);
      reflexivity.
  - eexists. split; [intros c' Hc'|]; unfold stripped;
      rewrite Hcomments, (Hother dquote), (Hother "'"%char), Hown
        by (trivial; discriminate);
      reflexivity.
Qed.

(** The contents of a string literal do not show in the normal form. *)
Lemma normalizeCode_literal (q : ascii) (pre c1 c2 post : str) :
  isQuote q = true -> plain pre = true -> inert c1 = true -> inert c2 = true ->
  normalizeCode (pre ++ q :: c1 ++ q :: post)
  = normalizeCode (pre ++ q :: c2 ++ q :: post).
Proof.
  intros Hq Hp H1 H2. rewrite !normalizeCode_stripped.
  destruct (literal_elided q pre c1 post Hq Hp H1) as (rest & Hall & E1).
  now rewrite E1, (Hall c2 H2).
Qed.

End Contents.

Section Comments.

Lemma dropWhile_split (p : ascii -> bool) (s : str) :
  exists a, s = a ++ dropWhile p s.
Proof.
  induction s as [|c s (a & IH)]; [now exists []|].
  simpl. destruct (p c); [|now exists []].
  exists (c :: a). simpl. now f_equal.
Qed.

Lemma dropWhile_all (p : ascii -> bool) (a b : str) :
  forallb p a = true -> dropWhile p (a ++ b) = dropWhile p b.
Proof.
  induction a as [|c a IH]; simpl; [reflexivity|].
  intros H. apply andb_true_iff in H as [Hc Ha]. now rewrite Hc, IH.
Qed.

(** A line comment after a plain prefix disappears whatever it holds. *)
Lemma linePass_comment (pre c rest : str) :
  plain pre = true -> noLineTerminator c = true ->
  linePass (pre ++ "//" ++ c ++ rest)
  = pre ++ linePass (dropWhile (fun x => negb (isLineTerminator x)) rest).
Proof.
  intros Hp Hc. rewrite linePass_prefix by now apply plain_noSlash. f_equal.
  set (notLT := fun x => negb (isLineTerminator x)).
  destruct (dropWhile_split notLT rest) as (a & Ha).
  change ("//" ++ c ++ rest) with ("/"%char :: "/"%char :: c ++ rest).
  rewrite Ha at 1.
  replace ("/"%char :: "/"%char :: c ++ a ++ dropWhile notLT rest)
    with ("/"%char :: ("/"%char :: c ++ a) ++ dropWhile notLT rest)
    by (simpl; now rewrite <- app_assoc).
  unfold linePass.
  rewrite (replaceAll_match mLineComment [] "/" ("/"%char :: c ++ a)); [reflexivity|].
  simpl. f_equal. rewrite <- app_assoc, <- Ha. now apply dropWhile_all.
Qed.

Lemma normalizeCode_line_comment (pre c1 c2 rest : str) :
  plain pre = true ->
  noLineTerminator c1 = true -> noLineTerminator c2 = true ->
  normalizeCode (pre ++ "//" ++ c1 ++ rest)
  = normalizeCode (pre ++ "//" ++ c2 ++ rest).
Proof.
  intros Hp H1 H2. rewrite !normalizeCode_stripped. unfold stripped.
  now rewrite !linePass_comment.
Qed.

Lemma afterClose_noSlash (c rest : str) :
  noSlash c = true -> afterClose (c ++ "*"%char :: "/"%char :: rest) = Some rest.
Proof.
  induction c as [|x c IH]; intros H; [reflexivity|].
  cbn [noSlash forallb] in H. apply andb_true_iff in H as [Hx Hc].
  specialize (IH Hc). destruct c as [|y c'].
  - simpl in *. apply negb_true_iff in Hx.
    destruct (Ascii.eqb x "*"); simpl; reflexivity.
  - cbn [app afterClose] in *.
    cbn [noSlash forallb] in Hc. apply andb_true_iff in Hc as [Hy _].
    apply negb_true_iff in Hy. rewrite Hy, andb_false_r. exact IH.
Qed.

Lemma linePass_block (pre c post : str) :
  plain pre = true -> noSlash c = true -> startsWith "/" post = false ->
  linePass (pre ++ "/*" ++ c ++ "*/" ++ post)
  = pre ++ "/*" ++ c ++ "*/" ++ linePass post.
Proof.
  intros Hp Hc Hs. rewrite linePass_prefix by now apply plain_noSlash. f_equal.
  change ("/*" ++ c ++ "*/" ++ ?x) with ("/"%char :: "*"%char :: c ++ "*"%char :: "/"%char :: x).
  unfold linePass. rewrite replaceAll_nomatch by reflexivity. f_equal.
  replace ("*"%char :: c ++ "*"%char :: "/"%char :: post)
    with (("*"%char :: c ++ ["*"%char]) ++ "/"%char :: post)
    by (simpl; now rewrite <- app_assoc).
  fold (linePass (("*"%char :: c ++ ["*"%char]) ++ "/"%char :: post)).
  rewrite linePass_prefix.
  - simpl. rewrite <- app_assoc. simpl. do 3 f_equal.
    unfold linePass. rewrite replaceAll_nomatch; [reflexivity|].
    destruct post as [|d r]; [reflexivity|].
    unfold lit in Hs. cbn [String.list_ascii_of_string startsWith] in Hs.
    rewrite andb_true_r in Hs. rewrite Ascii.eqb_sym in Hs.
    simpl. unfold mLineComment. now rewrite Hs.
  - unfold noSlash in *. cbn [forallb]. rewrite forallb_app, Hc. reflexivity.
Qed.

Lemma blockPass_comment (pre c rest : str) :
  plain pre = true -> noSlash c = true ->
  blockPass (pre ++ "/*" ++ c ++ "*/" ++ rest) = pre ++ blockPass rest.
Proof.
  intros Hp Hc. rewrite blockPass_prefix by now apply plain_noSlash. f_equal.
  change ("/*" ++ c ++ "*/" ++ rest)
    with ("/"%char :: "*"%char :: c ++ "*"%char :: "/"%char :: rest).
  replace ("/"%char :: "*"%char :: c ++ "*"%char :: "/"%char :: rest)
    with ("/"%char :: ("*"%char :: c ++ ["*"%char; "/"%char]) ++ rest)
    by (simpl; now rewrite <- app_assoc).
  unfold blockPass.
  rewrite (replaceAll_match mBlockComment [] "/"
             ("*"%char :: c ++ ["*"%char; "/"%char])); [reflexivity|].
  simpl. rewrite <- app_assoc. now apply afterClose_noSlash.
Qed.

Lemma normalizeCode_block_comment (pre c1 c2 post : str) :
  plain pre = true -> noSlash c1 = true -> noSlash c2 = true ->
  startsWith "/" post = false ->
  normalizeCode (pre ++ "/*" ++ c1 ++ "*/" ++ post)
  = normalizeCode (pre ++ "/*" ++ c2 ++ "*/" ++ post).
Proof.
  intros Hp H1 H2 Hs. rewrite !normalizeCode_stripped. unfold stripped.
  now rewrite !linePass_block, !blockPass_comment.
Qed.

End Comments.

Section WhiteSpace.

Lemma spacePass_nil : spacePass [] = [].
Proof. reflexivity. Qed.

Lemma spacePass_space (c : ascii) (r : str) :
  isSpace c = true ->
  spacePass (c :: r) = " "%char :: spacePass (dropWhile isSpace r).
Proof.
  intros Hc. destruct (dropWhile_split isSpace r) as (a & Ha).
  unfold spacePass. rewrite Ha at 1.
  rewrite (replaceAll_match mSpaces " " c a); [reflexivity|].
  simpl. rewrite Hc, <- Ha. reflexivity.
Qed.

Lemma spacePass_char (c : ascii) (r : str) :
  isSpace c = false -> spacePass (c :: r) = c :: spacePass r.
Proof.
  intros Hc. unfold spacePass. apply replaceAll_nomatch. simpl. now rewrite Hc.
Qed.

Lemma spacePass_run (w b : str) :
  w <> [] -> allSpaces w = true ->
  spacePass (w ++ b) = " "%char :: spacePass (dropWhile isSpace b).
Proof.
  destruct w as [|c w]; [congruence|]. intros _ H.
  cbn [allSpaces forallb] in H. apply andb_true_iff in H as [Hc Hw].
  simpl app. rewrite spacePass_space by exact Hc. now rewrite dropWhile_all.
Qed.

Lemma dropWhile_app_cases (p : ascii -> bool) (a b : str) :
  dropWhile p (a ++ b)
  = if forallb p a then dropWhile p b else dropWhile p a ++ b.
Proof.
  induction a as [|c a IH]; simpl; [reflexivity|].
  destruct (p c); simpl; [exact IH | reflexivity].
Qed.

Lemma dropWhile_none (p : ascii -> bool) (a : str) :
  forallb p a = true -> dropWhile p a = [].
Proof.
  intros H. rewrite <- (app_nil_r a). now rewrite dropWhile_all.
Qed.

Lemma length_dropWhile (p : ascii -> bool) (s : str) :
  (length (dropWhile p s) <= length s)%nat.
Proof.
  induction s as [|c s IH]; simpl; [lia|]. destruct (p c); simpl; lia.
Qed.

(** Replacing a run of white space by another one. *)
Lemma spacePass_edit_run (a w1 w2 b : str) :
  w1 <> [] -> w2 <> [] -> allSpaces w1 = true -> allSpaces w2 = true ->
  spacePass (a ++ w1 ++ b) = spacePass (a ++ w2 ++ b).
Proof.
  intros N1 N2 H1 H2.
  assert (forall n a, (length a <= n)%nat ->
            spacePass (a ++ w1 ++ b) = spacePass (a ++ w2 ++ b)) as H.
  { induction n as [|n IH]; intros [|c a'] Hl; simpl in Hl; try lia;
      try (simpl app; now rewrite !spacePass_run).
    simpl app. destruct (isSpace c) eqn:Ec.
    - rewrite !spacePass_space by exact Ec. f_equal.
      rewrite (dropWhile_app_cases isSpace a' (w1 ++ b)),
        (dropWhile_app_cases isSpace a' (w2 ++ b)).
      destruct (forallb isSpace a').
      + now rewrite !dropWhile_all.
      + apply IH. pose proof (length_dropWhile isSpace a'). lia.
    - rewrite !spacePass_char by exact Ec. f_equal. apply IH. lia. }
  now apply (H (length a)).
Qed.

Lemma trimStart_dropWhile (s : str) : trimStart s = dropWhile isSpace s.
Proof.
  induction s as [|c s IH]; [reflexivity|]. simpl. now destruct (isSpace c).
Qed.

Lemma trim_leading (x y : str) : trimStart x = trimStart y -> trim x = trim y.
Proof. intros H. unfold trim. now rewrite H. Qed.

Lemma trimStart_spacePass (s : str) :
  trimStart (spacePass s) = trimStart (spacePass (dropWhile isSpace s)).
Proof.
  destruct s as [|c r]; [reflexivity|]. simpl dropWhile.
  destruct (isSpace c) eqn:Ec; [|reflexivity].
  rewrite spacePass_space by exact Ec. reflexivity.
Qed.

Lemma spacePass_edit_leading (w s : str) :
  allSpaces w = true -> trim (spacePass (w ++ s)) = trim (spacePass s).
Proof.
  intros Hw. apply trim_leading.
  rewrite (trimStart_spacePass (w ++ s)), (trimStart_spacePass s).
  now rewrite dropWhile_all.
Qed.

Lemma spacePass_only_spaces (w : str) :
  w <> [] -> allSpaces w = true -> spacePass w = [" "%char].
Proof.
  intros Hn Hw. rewrite <- (app_nil_r w). now rewrite spacePass_run.
Qed.

(** White space at the end leaves at most one more space. *)
Lemma spacePass_trailing (w s : str) :
  allSpaces w = true ->
  exists t, allSpaces t = true /\ spacePass (s ++ w) = spacePass s ++ t.
Proof.
  intros Hw.
  assert (forall n s, (length s <= n)%nat ->
            exists t, allSpaces t = true
                      /\ spacePass (s ++ w) = spacePass s ++ t) as H.
  { induction n as [|n IH]; intros [|c s'] Hl; simpl in Hl; try lia.
    - destruct w as [|x w']; [now exists []|].
      exists [" "%char]. split; [reflexivity|].
      rewrite app_nil_l. now apply spacePass_only_spaces.
    - destruct w as [|x w']; [now exists []|].
      exists [" "%char]. split; [reflexivity|].
      rewrite app_nil_l. now apply spacePass_only_spaces.
    - simpl app. destruct (isSpace c) eqn:Ec.
      + rewrite !spacePass_space by exact Ec.
        rewrite dropWhile_app_cases. destruct (forallb isSpace s') eqn:Es.
        * exists []. split; [reflexivity|].
          rewrite (dropWhile_none isSpace w Hw), (dropWhile_none isSpace s' Es).
          now rewrite app_nil_r.
        * destruct (IH (dropWhile isSpace s')) as (t & Ht & E).
          { pose proof (length_dropWhile isSpace s'). lia. }
          exists t. split; [exact Ht|]. now rewrite E.
      + rewrite !spacePass_char by exact Ec.
        destruct (IH s') as (t & Ht & E); [lia|].
        exists t. split; [exact Ht|]. now rewrite E. }
  now apply (H (length s)).
Qed.

Lemma allSpaces_rev (t : str) : allSpaces t = true -> allSpaces (rev t) = true.
Proof.
  unfold allSpaces. rewrite !forallb_forall. intros H x Hx.
  apply H. now apply in_rev.
Qed.

Lemma trim_trailing (x t : str) : allSpaces t = true -> trim (x ++ t) = trim x.
Proof.
  intros Ht. unfold trim. rewrite !trimStart_dropWhile.
  rewrite dropWhile_app_cases. destruct (forallb isSpace x) eqn:Ex.
  - now rewrite (dropWhile_none isSpace t Ht), (dropWhile_none isSpace x Ex).
  - rewrite rev_app_distr.
    now rewrite dropWhile_all by now apply allSpaces_rev.
Qed.

Lemma spacePass_edit_trailing (w s : str) :
  allSpaces w = true -> trim (spacePass (s ++ w)) = trim (spacePass s).
Proof.
  intros Hw. destruct (spacePass_trailing w s Hw) as (t & Ht & ->).
  now apply trim_trailing.
Qed.

Lemma linePass_plain (s : str) : noSlash s = true -> linePass s = s.
Proof.
  intros H. rewrite <- (app_nil_r s) at 1.
  rewrite linePass_prefix by exact H. now rewrite app_nil_r.
Qed.

Lemma blockPass_plain (s : str) : noSlash s = true -> blockPass s = s.
Proof.
  intros H. rewrite <- (app_nil_r s) at 1.
  rewrite blockPass_prefix by exact H. now rewrite app_nil_r.
Qed.

Lemma quotePass_plain (q : ascii) (s : str) :
  isQuote q = true -> plain s = true -> quotePass q s = s.
Proof.
  intros Hq H. rewrite <- (app_nil_r s) at 1.
  rewrite quotePass_prefix by now apply plain_noQuote. now rewrite app_nil_r.
Qed.

(** On a text without comments and literals only white space is touched. *)
Lemma stripped_plain (s : str) : plain s = true -> stripped s = trim (spacePass s).
Proof.
  intros H. unfold stripped.
  rewrite linePass_plain, blockPass_plain by now apply plain_noSlash.
  rewrite (quotePass_plain dquote s) by (first [assumption | reflexivity]).
  rewrite (quotePass_plain "'"%char s) by (first [assumption | reflexivity]).
  now rewrite (quotePass_plain "`"%char s) by (first [assumption | reflexivity]).
Qed.

Lemma normalizeCode_spaces (s1 s2 : str) :
  plain s1 = true -> plain s2 = true -> spaceEdit s1 s2 ->
  normalizeCode s1 = normalizeCode s2.
Proof.
  intros H1 H2 He. rewrite !normalizeCode_stripped, !stripped_plain by assumption.
  f_equal. destruct He.
  - f_equal. now apply spacePass_edit_run.
  - now apply spacePass_edit_leading.
  - now apply spacePass_edit_trailing.
Qed.

(** *** Texts cut into segments *)

Lemma lacksPair_head (a b c : ascii) (r X : str) :
  lacksPair a b (c :: r) (hd_error X) = true ->
  Ascii.eqb c a
  && match r ++ X with
     | d :: _ => Ascii.eqb d b
     | [] => false
     end = false.
Proof.
  cbn [lacksPair]. intros H. apply andb_true_iff in H as [H _].
  apply negb_true_iff in H. destruct r as [|d r]; [destruct X|]; exact H.
Qed.

Lemma lacksPair_tail (a b c : ascii) (r : str) (n : option ascii) :
  lacksPair a b (c :: r) n = true -> lacksPair a b r n = true.
Proof. cbn [lacksPair]. intros H. now apply andb_true_iff in H as [_ H]. Qed.

(** A text that holds no [//] is copied by the first pass. *)
Lemma linePass_copy (a X : str) :
  lacksPair "/" "/" a (hd_error X) = true -> linePass (a ++ X) = a ++ linePass X.
Proof.
  induction a as [|c r IH]; intros H; [reflexivity|].
  pose proof (lacksPair_head _ _ _ _ _ H) as Hh.
  apply lacksPair_tail in H. cbn [app]. unfold linePass.
  rewrite replaceAll_nomatch.
  - f_equal. now apply IH.
  - unfold mLineComment. destruct (r ++ X) as [|d y]; [reflexivity|].
    now rewrite Hh.
Qed.

(** A text that holds no [/*] is copied by the second pass. *)
Lemma blockPass_copy (a X : str) :
  lacksPair "/" "*" a (hd_error X) = true ->
  blockPass (a ++ X) = a ++ blockPass X.
Proof.
  induction a as [|c r IH]; intros H; [reflexivity|].
  pose proof (lacksPair_head _ _ _ _ _ H) as Hh.
  apply lacksPair_tail in H. cbn [app]. unfold blockPass.
  rewrite replaceAll_nomatch.
  - f_equal. now apply IH.
  - unfold mBlockComment. destruct (r ++ X) as [|d y]; [reflexivity|].
    now rewrite Hh.
Qed.

Lemma mLineComment_other (c : ascii) (r : str) :
  Ascii.eqb c "/" = false -> mLineComment (c :: r) = None.
Proof. intros H. destruct r; simpl; [reflexivity | now rewrite H]. Qed.

Lemma mBlockComment_other (c : ascii) (r : str) :
  Ascii.eqb c "/" = false -> mBlockComment (c :: r) = None.
Proof. intros H. destruct r; simpl; [reflexivity | now rewrite H]. Qed.

Lemma isQuote_cases (q : ascii) :
  isQuote q = true -> q = dquote \/ q = "'"%char \/ q = "`"%char.
Proof.
  unfold isQuote. intros H.
  apply orb_true_iff in H as [H|H]; [apply orb_true_iff in H as [H|H]|];
    apply Ascii.eqb_eq in H; auto.
Qed.

Lemma isQuote_slash (q : ascii) : isQuote q = true -> Ascii.eqb q "/" = false.
Proof. intros H. now destruct (isQuote_cases q H) as [->|[->| ->]]. Qed.

Lemma isQuote_backslash (q : ascii) :
  isQuote q = true -> Ascii.eqb "\" q = false.
Proof. intros H. now destruct (isQuote_cases q H) as [->|[->| ->]]. Qed.

Lemma linePass_quoted (q : ascii) (c X : str) :
  isQuote q = true -> lacksPair "/" "/" c (Some q) = true ->
  linePass (q :: c ++ q :: X) = q :: c ++ q :: linePass X.
Proof.
  intros Hq Hc. pose proof (isQuote_slash q Hq) as Hs. unfold linePass.
  rewrite replaceAll_nomatch by now apply mLineComment_other.
  f_equal. fold (linePass (c ++ q :: X)). rewrite linePass_copy by exact Hc.
  f_equal. unfold linePass.
  now rewrite replaceAll_nomatch by now apply mLineComment_other.
Qed.

Lemma blockPass_quoted (q : ascii) (c X : str) :
  isQuote q = true -> lacksPair "/" "*" c (Some q) = true ->
  blockPass (q :: c ++ q :: X) = q :: c ++ q :: blockPass X.
Proof.
  intros Hq Hc. pose proof (isQuote_slash q Hq) as Hs. unfold blockPass.
  rewrite replaceAll_nomatch by now apply mBlockComment_other.
  f_equal. fold (blockPass (c ++ q :: X)). rewrite blockPass_copy by exact Hc.
  f_equal. unfold blockPass.
  now rewrite replaceAll_nomatch by now apply mBlockComment_other.
Qed.

(** The first pass copies a bracketed comment that holds no [//] and is
    not followed by [/]. *)
Lemma linePass_bracketed (c X : str) :
  lacksPair "/" "/" c (Some "*"%char) = true ->
  match hd_error X with
  | Some x => negb (Ascii.eqb x "/")
  | None => true
  end = true ->
  linePass ("/"%char :: "*"%char :: c ++ "*"%char :: "/"%char :: X)
  = "/"%char :: "*"%char :: c ++ "*"%char :: "/"%char :: linePass X.
Proof.
  intros Hc Hx. unfold linePass.
  rewrite replaceAll_nomatch by reflexivity. f_equal.
  rewrite replaceAll_nomatch by now apply mLineComment_other. f_equal.
  fold (linePass (c ++ "*"%char :: "/"%char :: X)).
  rewrite linePass_copy by exact Hc. f_equal. unfold linePass.
  rewrite replaceAll_nomatch by now apply mLineComment_other. f_equal.
  rewrite replaceAll_nomatch; [reflexivity|].
  destruct X as [|x X']; [reflexivity|]. cbn [hd_error] in Hx.
  apply negb_true_iff in Hx. unfold mLineComment. now rewrite Hx.
Qed.

Lemma afterClose_lacks (c X : str) :
  lacksPair "*" "/" c (Some "*"%char) = true ->
  afterClose (c ++ "*"%char :: "/"%char :: X) = Some X.
Proof.
  induction c as [|x c IH]; intros H; [reflexivity|].
  pose proof (lacksPair_tail _ _ _ _ _ H) as Ht. specialize (IH Ht).
  cbn [lacksPair] in H. apply andb_true_iff in H as [H _].
  apply negb_true_iff in H. destruct c as [|y c'].
  - cbn [app afterClose]. cbn [app] in IH.
    replace (Ascii.eqb x "*" && Ascii.eqb "*" "/") with false
      by now rewrite andb_false_r.
    exact IH.
  - cbn [app afterClose]. cbn [app] in IH. rewrite H. exact IH.
Qed.

(** The second pass removes a bracketed comment that holds no [*/]. *)
Lemma blockPass_bracketed (c X : str) :
  lacksPair "*" "/" c (Some "*"%char) = true ->
  blockPass ("/"%char :: "*"%char :: c ++ "*"%char :: "/"%char :: X)
  = blockPass X.
Proof.
  intros Hc.
  replace ("/"%char :: "*"%char :: c ++ "*"%char :: "/"%char :: X)
    with ("/"%char :: ("*"%char :: c ++ ["*"%char; "/"%char]) ++ X)
    by (simpl; now rewrite <- app_assoc).
  unfold blockPass.
  rewrite (replaceAll_match mBlockComment [] "/"
             ("*"%char :: c ++ ["*"%char; "/"%char])); [reflexivity|].
  simpl. rewrite <- app_assoc. now apply afterClose_lacks.
Qed.

Lemma render_cons (seg : Segment) (rest : list Segment) :
  renderSegments (seg :: rest) = renderSegment seg ++ renderSegments rest.
Proof. reflexivity. Qed.

Lemma render_quoted (q : ascii) (c X : str) :
  renderSegment (Literal q c) ++ X = q :: c ++ q :: X.
Proof. cbn [renderSegment app]. now rewrite <- app_assoc. Qed.

Lemma render_bracketed (c X : str) :
  renderSegment (BlockComment c) ++ X
  = "/"%char :: "*"%char :: c ++ "*"%char :: "/"%char :: X.
Proof.
  cbn [renderSegment].
  change (lit "/*") with ["/"%char; "*"%char].
  change (lit "*/") with ["*"%char; "/"%char].
  cbn [app]. now rewrite <- app_assoc.
Qed.

Lemma wellFormed_cons (seg : Segment) (rest : list Segment) :
  wellFormed (seg :: rest) = true ->
  segmentFits seg (hd_error (renderSegments rest)) = true
  /\ wellFormed rest = true.
Proof. cbn [wellFormed]. intros H. now apply andb_true_iff in H. Qed.

(** The first pass removes the line comments of a well-formed text and
    nothing else. *)
Lemma linePass_segments (segs : list Segment) :
  wellFormed segs = true ->
  linePass (renderSegments segs) = renderSegments (dropLineComments segs).
Proof.
  induction segs as [|seg rest IH]; intros H; [reflexivity|].
  apply wellFormed_cons in H as [Hs Hr]. specialize (IH Hr).
  rewrite render_cons. destruct seg as [t|q c|c|c]; cbn [segmentFits] in Hs.
  - apply andb_true_iff in Hs as [Hs _]. apply andb_true_iff in Hs as [_ Hs].
    cbn [dropLineComments filter isLineComment negb].
    fold (dropLineComments rest). rewrite render_cons.
    cbn [renderSegment]. rewrite linePass_copy by exact Hs. now rewrite IH.
  - apply andb_true_iff in Hs as [Hs _]. apply andb_true_iff in Hs as [Hs Hl].
    apply andb_true_iff in Hs as [Hs _]. apply andb_true_iff in Hs as [Hq _].
    cbn [dropLineComments filter isLineComment negb].
    fold (dropLineComments rest). rewrite render_cons, !render_quoted.
    rewrite linePass_quoted by assumption. now rewrite IH.
  - apply andb_true_iff in Hs as [Hc Hn].
    cbn [dropLineComments filter isLineComment negb].
    fold (dropLineComments rest). rewrite <- IH.
    cbn [renderSegment]. rewrite <- app_assoc.
    etransitivity;
      [exact (linePass_comment [] c (renderSegments rest) eq_refl Hc)|].
    cbn [app]. f_equal.
    destruct (renderSegments rest) as [|x X]; [reflexivity|].
    cbn [hd_error] in Hn. cbn [dropWhile]. now rewrite Hn.
  - apply andb_true_iff in Hs as [Hs Hn]. apply andb_true_iff in Hs as [Hl _].
    cbn [dropLineComments filter isLineComment negb].
    fold (dropLineComments rest). rewrite render_cons, !render_bracketed.
    rewrite linePass_bracketed by assumption. now rewrite IH.
Qed.

Lemma hd_dropLineComments (rest : list Segment) :
  hd_error (renderSegments rest) <> Some "/"%char ->
  hd_error (renderSegments (dropLineComments rest))
  = hd_error (renderSegments rest).
Proof.
  induction rest as [|seg rest IH]; intros H; [reflexivity|].
  destruct seg as [[|x t]|q c|c|c].
  - exact (IH H).
  - reflexivity.
  - reflexivity.
  - exfalso. apply H. reflexivity.
  - reflexivity.
Qed.

(** The character after a text that does not end in [a] does not
    matter. *)
Lemma lacksPair_next (a b b' : ascii) (s : str) (n n' : option ascii) :
  lacksPair a b' s (Some b') = true -> lacksPair a b s n = true ->
  lacksPair a b s n' = true.
Proof.
  induction s as [|c r IH]; intros H1 H2; [reflexivity|].
  pose proof (lacksPair_tail _ _ _ _ _ H1) as T1.
  pose proof (lacksPair_tail _ _ _ _ _ H2) as T2.
  cbn [lacksPair] in *. rewrite (IH T1 T2), andb_true_r.
  apply andb_true_iff in H1 as [H1 _]. apply andb_true_iff in H2 as [H2 _].
  destruct r as [|d r']; [|exact H2].
  rewrite Ascii.eqb_refl, andb_true_r in H1. apply negb_true_iff in H1.
  now rewrite H1.
Qed.

Lemma lacksPair_after_line_pass (t : str) (rest : list Segment) :
  lacksPair "/" "/" t (hd_error (renderSegments rest)) = true ->
  lacksPair "/" "*" t (hd_error (renderSegments rest)) = true ->
  lacksPair "/" "*" t (hd_error (renderSegments (dropLineComments rest))) = true.
Proof.
  intros H1 H2.
  destruct (hd_error (renderSegments rest)) as [x|] eqn:E.
  - destruct (Ascii.eqb_spec x "/") as [->|Hx].
    + now apply (lacksPair_next "/" "*" "/" t (Some "/"%char)).
    + rewrite hd_dropLineComments; rewrite E; [exact H2 | congruence].
  - rewrite hd_dropLineComments; rewrite E; [exact H2 | discriminate].
Qed.

(** The second pass removes the bracketed comments of what the first
    pass leaves, and nothing else. *)
Lemma blockPass_segments (segs : list Segment) :
  wellFormed segs = true ->
  blockPass (renderSegments (dropLineComments segs))
  = renderSegments (dropBlockComments (dropLineComments segs)).
Proof.
  induction segs as [|seg rest IH]; intros H; [reflexivity|].
  apply wellFormed_cons in H as [Hs Hr]. specialize (IH Hr).
  destruct seg as [t|q c|c|c]; cbn [segmentFits] in Hs;
    cbn [dropLineComments dropBlockComments filter isLineComment
         isBlockComment negb];
    fold (dropLineComments rest);
    fold (dropBlockComments (dropLineComments rest)).
  - apply andb_true_iff in Hs as [Hs H2]. apply andb_true_iff in Hs as [_ H1].
    rewrite !render_cons. cbn [renderSegment].
    rewrite blockPass_copy by now apply lacksPair_after_line_pass.
    now rewrite IH.
  - apply andb_true_iff in Hs as [Hs H2]. apply andb_true_iff in Hs as [Hs _].
    apply andb_true_iff in Hs as [Hs _]. apply andb_true_iff in Hs as [Hq _].
    rewrite !render_cons, !render_quoted.
    rewrite blockPass_quoted by assumption. now rewrite IH.
  - exact IH.
  - apply andb_true_iff in Hs as [Hs _]. apply andb_true_iff in Hs as [_ Hc].
    rewrite render_cons, render_bracketed.
    rewrite blockPass_bracketed by exact Hc. exact IH.
Qed.

(** The pattern for a literal in [q] ends at the quote that closes it. *)
Lemma literalEnd_body (q : ascii) (c X : str) :
  isQuote q = true -> literalBody q c = true ->
  literalEnd q (c ++ q :: X) = Some X.
Proof.
  intros Hq. pose proof (isQuote_backslash q Hq) as Hb.
  assert (forall n c, (length c <= n)%nat -> literalBody q c = true ->
            literalEnd q (c ++ q :: X) = Some X) as H.
  { induction n as [|n IH]; intros [|x r] Hl Hc; simpl in Hl; try lia;
      try (simpl; now rewrite Ascii.eqb_refl).
    cbn [literalBody] in Hc. cbn [app literalEnd].
    destruct (Ascii.eqb_spec x "\") as [->|Hx].
    - rewrite Hb. destruct r as [|d r']; [discriminate|].
      apply andb_true_iff in Hc as [Hd Hc]. apply negb_true_iff in Hd.
      cbn [app]. rewrite Hd. apply IH; [simpl in Hl; lia | exact Hc].
    - apply andb_true_iff in Hc as [Hd Hc]. apply negb_true_iff in Hd.
      rewrite Hd. apply IH; [lia | exact Hc]. }
  now apply (H (length c)).
Qed.

(** The pass for the literals in [q] empties them and copies
    everything else. *)
Lemma quotePass_segments (q : ascii) (segs : list Segment) :
  isQuote q = true -> forallb (quoteReady q) segs = true ->
  quotePass q (renderSegments segs) = renderSegments (map (emptied q) segs).
Proof.
  intros Hq. induction segs as [|seg rest IH]; intros H; [reflexivity|].
  cbn [forallb] in H. apply andb_true_iff in H as [Hs Hr]. specialize (IH Hr).
  cbn [map]. rewrite !render_cons.
  destruct seg as [t|q' c|c|c]; cbn [quoteReady] in Hs; try discriminate.
  - cbn [emptied renderSegment]. rewrite quotePass_prefix by exact Hs.
    now rewrite IH.
  - cbn [emptied]. destruct (Ascii.eqb_spec q' q) as [->|Hne].
    + rewrite !render_quoted. cbn [app].
      replace (q :: c ++ q :: renderSegments rest)
        with (q :: (c ++ [q]) ++ renderSegments rest)
        by now rewrite <- app_assoc.
      unfold quotePass.
      rewrite (replaceAll_match (mQuoted q) [q; q] q (c ++ [q])).
      * cbn [app]. do 2 f_equal. exact IH.
      * cbn [mQuoted]. rewrite Ascii.eqb_refl, <- app_assoc.
        now apply literalEnd_body.
    + rewrite !render_quoted.
      apply Ascii.eqb_neq in Hne.
      change (q' :: c ++ q' :: renderSegments rest)
        with ([q'] ++ c ++ [q'] ++ renderSegments rest).
      rewrite quotePass_prefix by (cbn [forallb]; now rewrite Hne).
      rewrite quotePass_prefix by exact Hs.
      rewrite quotePass_prefix by (cbn [forallb]; now rewrite Hne).
      now rewrite IH.
Qed.

(** What the three passes for literals need of a segment of code or a
    literal. *)
Lemma segmentFits_ready (seg : Segment) (n : option ascii) :
  segmentFits seg n = true ->
  isLineComment seg = false -> isBlockComment seg = false ->
  quoteReady dquote seg = true
  /\ quoteReady "'" (emptied dquote seg) = true
  /\ quoteReady "`" (emptied "'" (emptied dquote seg)) = true
  /\ renderSegment (emptied "`" (emptied "'" (emptied dquote seg)))
     = skeletonOf seg.
Proof.
  intros H Hl Hb. destruct seg as [t|q c|c|c]; try discriminate;
    cbn [segmentFits] in H.
  - apply andb_true_iff in H as [H _]. apply andb_true_iff in H as [H _].
    apply andb_true_iff in H as [H H3]. apply andb_true_iff in H as [H1 H2].
    cbn [emptied quoteReady renderSegment skeletonOf]. auto.
  - apply andb_true_iff in H as [H _]. apply andb_true_iff in H as [H _].
    apply andb_true_iff in H as [H He]. apply andb_true_iff in H as [Hq Hy].
    unfold earlierFree in He. apply andb_true_iff in He as [E1 E2].
    destruct (isQuote_cases q Hq) as [->|[->| ->]].
    + cbn. auto.
    + cbn in E1. cbn. auto.
    + cbn in E1, E2. cbn. auto.
Qed.

Lemma quotes_ready (segs : list Segment) :
  wellFormed segs = true ->
  let kept := dropBlockComments (dropLineComments segs) in
  forallb (quoteReady dquote) kept = true
  /\ forallb (quoteReady "'") (map (emptied dquote) kept) = true
  /\ forallb (quoteReady "`")
       (map (emptied "'") (map (emptied dquote) kept)) = true
  /\ renderSegments
       (map (emptied "`") (map (emptied "'") (map (emptied dquote) kept)))
     = skeleton segs.
Proof.
  induction segs as [|seg rest IH]; intros H; [cbn; auto|].
  apply wellFormed_cons in H as [Hs Hr].
  destruct (IH Hr) as (I1 & I2 & I3 & I4).
  unfold dropBlockComments, dropLineComments in *. cbn [filter].
  destruct (isLineComment seg) eqn:El.
  { destruct seg; try discriminate. cbn [negb]. repeat split; assumption. }
  cbn [negb filter]. destruct (isBlockComment seg) eqn:Eb.
  { destruct seg; try discriminate. cbn [negb]. repeat split; assumption. }
  cbn [negb map forallb].
  destruct (segmentFits_ready seg _ Hs El Eb) as (R1 & R2 & R3 & R4).
  rewrite R1, R2, R3, I1, I2, I3. repeat split.
  rewrite render_cons, R4, I4. reflexivity.
Qed.

(** On a well-formed text the passes leave its skeleton to the white
    space pass. *)
Lemma stripped_lexed (segs : list Segment) :
  wellFormed segs = true ->
  stripped (renderSegments segs) = trim (spacePass (skeleton segs)).
Proof.
  intros H. destruct (quotes_ready segs H) as (R1 & R2 & R3 & R4).
  unfold stripped. rewrite linePass_segments, blockPass_segments by exact H.
  rewrite (quotePass_segments dquote) by (reflexivity || exact R1).
  rewrite (quotePass_segments "'") by (reflexivity || exact R2).
  rewrite (quotePass_segments "`") by (reflexivity || exact R3).
  now rewrite R4.
Qed.

Lemma spacePass_lower (s : str) :
  spacePass (toLowerCase s) = toLowerCase (spacePass s).
Proof.
  unfold spacePass, toLowerCase, replaceAll.
  apply (replaceFrom_map lowerChar mSpaces); [|reflexivity].
  apply mSpaces_commutes. exact lowerChar_space.
Qed.

(** Texts of the same layout have the same normal form once free of
    comments and literals. *)
Lemma sameLayout_normal (a b : str) :
  sameLayout a b ->
  toLowerCase (trim (spacePass a)) = toLowerCase (trim (spacePass b)).
Proof.
  induction 1 as [a b E|a b E|a b _ IH|a b c _ IH1 _ IH2].
  - pose proof (spacePass_lower a) as Ea. pose proof (spacePass_lower b) as Eb.
    unfold toLowerCase in *.
    rewrite <- !(trim_map lowerChar lowerChar_space).
    now rewrite <- Ea, <- Eb, E.
  - f_equal. destruct E.
    + f_equal. now apply spacePass_edit_run.
    + now apply spacePass_edit_leading.
    + now apply spacePass_edit_trailing.
  - now symmetry.
  - congruence.
Qed.

(** Two well-formed texts whose skeletons have the same layout have the
    same normal form. *)
Lemma normalizeCode_lexed (segs1 segs2 : list Segment) :
  wellFormed segs1 = true -> wellFormed segs2 = true ->
  sameLayout (skeleton segs1) (skeleton segs2) ->
  normalizeCode (renderSegments segs1) = normalizeCode (renderSegments segs2).
Proof.
  intros H1 H2 Hs. rewrite !normalizeCode_stripped, !stripped_lexed by assumption.
  now apply sameLayout_normal.
Qed.

(** C6 (normalization invariance), as far as the code guarantees it:
    two block texts have the same
    normal form, hence the same fingerprint, when they differ only in
    letter case; or, being free of comments and literals, in a run of white
    space or in leading or trailing white space; or in the contents (free
    of delimiters and escapes) of a string literal, the contents of a line
    comment, or the contents (free of [/]) of a block comment, that follows
    a text free of comments and literals; or when both are well-formed
    sequences of code, string literals and comments and, comments dropped
    and literals emptied, they differ only in letter case, in runs of white
    space and in leading or trailing white space; or by a chain of such
    differences. *)
Theorem normalization_invariance (s1 s2 : str) :
  invisibleDifference s1 s2 ->
  normalizeCode s1 = normalizeCode s2
  /\ hashCode (normalizeCode s1) = hashCode (normalizeCode s2).
Proof.
  intros H. assert (normalizeCode s1 = normalizeCode s2) as E.
  { induction H.
    - now apply normalizeCode_case.
    - now apply normalizeCode_spaces.
    - now apply normalizeCode_literal.
    - now apply normalizeCode_line_comment.
    - now apply normalizeCode_block_comment.
    - now apply normalizeCode_lexed.
    - now symmetry.
    - congruence. }
  split; [exact E | now rewrite E].
Qed.

Lemma normalization_invariance_witness :
  invisibleDifference (renderSegments callWithB) (renderSegments callWithC)
  /\ hashCode (normalizeCode (renderSegments callWithB))
     = hashCode (normalizeCode (renderSegments callWithC)).
Proof.
  assert (invisibleDifference (renderSegments callWithB)
            (renderSegments callWithC)) as H.
  { apply diff_lexed; [reflexivity | reflexivity |].
    apply layout_case. reflexivity. }
  split; [exact H|]. exact (proj2 (normalization_invariance _ _ H)).
Defined.

(** C6 does not hold in full generality:
    two texts that differ only in the contents of a
    string literal have different normal forms and fingerprints when the
    literal holds [//], which the first pass takes for a comment. *)
Lemma literal_contents_change_fingerprint :
  ~ (normalizeCode urlAssignment = normalizeCode textAssignment
     /\ hashCode (normalizeCode urlAssignment)
        = hashCode (normalizeCode textAssignment)).
Proof.
  intros [_ H]. vm_compute in H. discriminate.
Qed.

(** The text of the two calls. *)
Example calls_rendered :
  renderSegments callWithB = "f(" ++ [dquote] ++ "a" ++ [dquote] ++ ", "
                             ++ [dquote] ++ "b" ++ [dquote] ++ ")"
  /\ renderSegments callWithC
     = "f(" ++ [dquote] ++ "a" ++ [dquote] ++ ", /* was b */"
       ++ [dquote] ++ "c" ++ [dquote] ++ ")// changed".
Proof. split; reflexivity. Qed.

(** White space next to a literal may change its extent, not come or
    go. *)
Example respaced_near_literal :
  renderSegments assignWide = "x   =  'one' ;  "
  /\ renderSegments assignTight = "X = 'two' ;"
  /\ invisibleDifference (renderSegments assignWide)
       (renderSegments assignTight)
  /\ normalizeCode "x ='one';" <> normalizeCode "x = 'one';".
Proof.
  split; [reflexivity|]. split; [reflexivity|]. split.
  - apply diff_lexed; [reflexivity | reflexivity |].
    apply (layout_trans _ "x =  '' ;  ").
    { apply layout_spaces.
      exact (edit_run "x" "   " " " "=  '' ;  " ltac:(discriminate)
               ltac:(discriminate) eq_refl eq_refl). }
    apply (layout_trans _ "x = '' ;  ").
    { apply layout_spaces.
      exact (edit_run "x =" "  " " " "'' ;  " ltac:(discriminate)
               ltac:(discriminate) eq_refl eq_refl). }
    apply (layout_trans _ "x = '' ;").
    { apply layout_spaces. exact (edit_trailing "  " "x = '' ;" eq_refl). }
    apply layout_case. reflexivity.
  - vm_compute. discriminate.
Qed.

End WhiteSpace.

(** * Further properties of the parser and of the block extractor *)

Section ParserOrder.

Lemma sorted_snoc (l : list Z) (x : Z) :
  StronglySorted Z.lt l -> Forall (fun y => y < x) l ->
  StronglySorted Z.lt (l ++ [x]).
Proof.
  induction 1 as [|y l Hs IH Hy]; intros Hx; simpl.
  - repeat constructor.
  - inversion Hx; subst. constructor; [now apply IH|].
    apply Forall_app. split; [exact Hy | now repeat constructor].
Qed.

Lemma addedStep_ahead (st : Z * list AddedLine) (line : str) :
  startsWith "@@" line = false ->
  Z.abs (fst (addedStep st line)) < 2 ^ 53 ->
  cursorAhead st -> cursorAhead (addedStep st line).
Proof.
  destruct st as [cur acc]. unfold cursorAhead, addedStep. intros -> Hx [Hs Hc].
  cbn [fst snd] in *.
  assert (Forall (fun l => lineNumber l < cur + 1) acc) as Hc'.
  { eapply Forall_impl; [|exact Hc]. simpl. intros; lia. }
  destruct (startsWith "+" line && negb (startsWith "+++" line)); cbn [fst snd] in *.
  - rewrite (toDouble_below _ Hx). split.
    + rewrite map_app. apply sorted_snoc; [exact Hs|].
      apply Forall_map. exact Hc.
    + apply Forall_app. split; [exact Hc'|]. repeat constructor. simpl. lia.
  - destruct (negb (startsWith "-" line)); cbn [fst snd] in *; auto.
    rewrite (toDouble_below _ Hx). auto.
Qed.

Lemma addedStep_first (line : str) :
  Z.abs (fst (addedStep (0, []) line)) < 2 ^ 53 ->
  cursorAhead (addedStep (0, []) line).
Proof.
  intros Hx. destruct (startsWith "@@" line) eqn:E.
  - unfold addedStep. rewrite E.
    destruct (matchPlusDigits line); split; constructor.
  - apply addedStep_ahead; [exact E | exact Hx |]. split; constructor.
Qed.

Lemma addedSteps_ahead (lines : list str) (st : Z * list AddedLine) :
  forallb (fun l => negb (startsWith "@@" l)) lines = true ->
  forallb (fun st' => Z.abs (fst st') <? 2 ^ 53) (parserStates lines st) = true ->
  cursorAhead st -> cursorAhead (fold_left addedStep lines st).
Proof.
  revert st. induction lines as [|l lines IH]; cbn [fold_left parserStates forallb];
    intros st H Hx Hst; [exact Hst|].
  apply andb_true_iff in H as [Hl Hr]. apply negb_true_iff in Hl.
  apply andb_true_iff in Hx as [Hx1 Hx2]. apply Z.ltb_lt in Hx1.
  apply IH; [exact Hr | exact Hx2 |]. now apply addedStep_ahead.
Qed.

(** X1: in a patch whose only hunk header, if any, is its first line, and
    whose line counter stays below [2^53], the added lines come out
    numbered in strictly ascending order. *)
Theorem single_hunk_ascending (patch : str) :
  singleHunk patch = true -> counterExact patch = true ->
  StronglySorted Z.lt (map lineNumber (extractAddedLines patch)).
Proof.
  unfold singleHunk, counterExact, extractAddedLines. intros H Hx.
  destruct (Str.split "010"%char patch) as [|l0 rest]; [constructor|].
  cbn [tl] in H. cbn [fold_left parserStates forallb] in Hx |- *.
  apply andb_true_iff in Hx as [Hx1 Hx2]. apply Z.ltb_lt in Hx1.
  apply (addedSteps_ahead rest _ H Hx2 (addedStep_first l0 Hx1)).
Qed.

Lemma single_hunk_ascending_witness :
  singleHunk (renderPatch [sampleHunk]) = true
  /\ counterExact (renderPatch [sampleHunk]) = true
  /\ StronglySorted Z.lt
       (map lineNumber (extractAddedLines (renderPatch [sampleHunk]))).
Proof.
  split; [reflexivity|]. split; [reflexivity|].
  apply (single_hunk_ascending (renderPatch [sampleHunk])); reflexivity.
Defined.

End ParserOrder.

Section Windows.

Lemma windows_spec {A : Type} (n : nat) (l : list A) (w : list A) :
  In w (windows n l) ->
  length w = n /\ exists pre post, l = pre ++ w ++ post.
Proof.
  induction l as [|x l IH]; [intros []|].
  cbn [windows]. destruct (n <=? length (x :: l))%nat eqn:E; [|intros []].
  apply Nat.leb_le in E. intros [<-|Hin].
  - split; [rewrite length_firstn; lia|].
    exists [], (skipn n (x :: l)). simpl app. now rewrite firstn_skipn.
  - destruct (IH Hin) as (Hl & pre & post & ->).
    split; [exact Hl|]. now exists (x :: pre), post.
Qed.

Lemma length_windows {A : Type} (n : nat) (l : list A) :
  (1 <= n)%nat -> length (windows n l) = (length l + 1 - n)%nat.
Proof.
  intros Hn. induction l as [|x l IH]; [cbn [windows length]; lia|].
  cbn [windows]. destruct (n <=? length (x :: l))%nat eqn:E.
  - apply Nat.leb_le in E. simpl length in *. rewrite IH. lia.
  - apply Nat.leb_gt in E. simpl length in *. lia.
Qed.

(** X2: the extractor yields at most one block per window of ten added
    lines -- none for a patch with fewer than ten -- and every block is
    made of ten consecutive added lines of its file: their text joined by
    newlines, the line numbers of the first and the last, the normal form
    of the text (never trivial, at least 30 characters long) and its
    digest. *)
Theorem blocksOfPatch_spec (name patch : str) :
  (length (blocksOfPatch name patch)
   <= length (extractAddedLines patch) + 1 - MIN_BLOCK_SIZE)%nat
  /\ Forall
       (fun b =>
          (exists w pre post,
              extractAddedLines patch = pre ++ w ++ post
              /\ length w = MIN_BLOCK_SIZE /\ blockOfLines name w b)
          /\ isTrivalBlock (normalizedCode b) = false
          /\ (30 <= length (normalizedCode b))%nat)
       (blocksOfPatch name patch).
Proof.
  unfold blocksOfPatch. split.
  - rewrite <- (length_windows MIN_BLOCK_SIZE) by (unfold MIN_BLOCK_SIZE; lia).
    induction (windows MIN_BLOCK_SIZE (extractAddedLines patch)) as [|w ws IH];
      [simpl; lia|].
    cbn [flat_map]. rewrite length_app. unfold blockOfWindow at 1.
    destruct (isTrivalBlock _); simpl in *; lia.
  - apply Forall_flat_map, Forall_forall. intros w Hw.
    destruct (windows_spec _ _ _ Hw) as (Hl & pre & post & E).
    unfold blockOfWindow. destruct (isTrivalBlock _) eqn:T; constructor;
      [|constructor].
    cbn [normalizedCode]. split; [|split; [exact T|]].
    + exists w, pre, post. repeat split; assumption.
    + unfold isTrivalBlock in T.
      destruct (length _ <? 30)%nat eqn:L; [discriminate|].
      apply Nat.ltb_ge in L. exact L.
Qed.

End Windows.

(** * The shape of normalized code *)

Section NormalShape.

Lemma dropWhile_spaces_split (s : str) :
  exists a, allSpaces a = true /\ s = a ++ dropWhile isSpace s.
Proof.
  induction s as [|c s (a & Ha & IH)]; [now exists []|].
  simpl. destruct (isSpace c) eqn:E; [|now exists []].
  exists (c :: a). simpl. rewrite E, Ha. split; [reflexivity | now f_equal].
Qed.

Lemma dropWhile_head (s : str) (c : ascii) (r : str) :
  dropWhile isSpace s = c :: r -> isSpace c = false.
Proof.
  induction s as [|x s IH]; simpl; [discriminate|].
  destruct (isSpace x) eqn:E; [exact IH|]. now intros [= <- _].
Qed.

(** [trim] cuts white space off both ends, and nothing else. *)
Lemma trim_spec (s : str) :
  (exists a b, allSpaces a = true /\ allSpaces b = true /\ s = a ++ trim s ++ b)
  /\ (forall c r, trim s = c :: r -> isSpace c = false)
  /\ (forall r c, trim s = r ++ [c] -> isSpace c = false).
Proof.
  unfold trim. rewrite !trimStart_dropWhile.
  destruct (dropWhile_spaces_split s) as (a & Ha & Es).
  set (u := dropWhile isSpace s) in *.
  destruct (dropWhile_spaces_split (rev u)) as (b & Hb & Eu).
  set (v := dropWhile isSpace (rev u)) in *.
  assert (u = rev v ++ rev b) as Eu'.
  { rewrite <- rev_app_distr, <- Eu. now rewrite rev_involutive. }
  split; [|split].
  - exists a, (rev b). split; [exact Ha|]. split; [now apply allSpaces_rev|].
    now rewrite <- Eu'.
  - intros c r E. rewrite E in Eu'. simpl in Eu'.
    apply (dropWhile_head s c (r ++ rev b)). exact Eu'.
  - intros r c E. apply (f_equal (@rev ascii)) in E.
    rewrite rev_involutive, rev_app_distr in E. simpl in E.
    apply (dropWhile_head (rev u) c (rev r)). exact E.
Qed.

Lemma spacePass_head (s : str) (c : ascii) (r : str) :
  dropWhile isSpace s = c :: r ->
  exists r', spacePass (dropWhile isSpace s) = c :: r'.
Proof.
  intros E. rewrite E. pose proof (dropWhile_head s c r E) as Hc.
  rewrite spacePass_char by exact Hc. now eexists.
Qed.

Lemma spacePass_spacedOk (s : str) : spacedOk (spacePass s) = true.
Proof.
  assert (forall n s, (length s <= n)%nat -> spacedOk (spacePass s) = true) as H.
  { induction n as [|n IH]; intros [|c r] Hl; simpl in Hl; try lia;
      try reflexivity.
    destruct (isSpace c) eqn:Ec.
    - rewrite spacePass_space by exact Ec.
      cbn [spacedOk]. change (isSpace " ") with true. cbv iota.
      rewrite Ascii.eqb_refl.
      rewrite IH by (pose proof (length_dropWhile isSpace r); lia).
      destruct (dropWhile isSpace r) as [|d r'] eqn:Ed; [reflexivity|].
      rewrite spacePass_char by (eapply dropWhile_head; eauto).
      now rewrite (dropWhile_head r d r' Ed).
    - rewrite spacePass_char by exact Ec. cbn [spacedOk]. rewrite Ec.
      apply IH. lia. }
  now apply (H (length s)).
Qed.

Lemma spacedOk_at (a : str) (c : ascii) (b : str) :
  spacedOk (a ++ c :: b) = true -> isSpace c = true ->
  c = " "%char /\ forall d b', b = d :: b' -> isSpace d = false.
Proof.
  induction a as [|x a IH]; simpl; intros H Hc.
  - rewrite Hc in H. apply andb_true_iff in H as [H _].
    apply andb_true_iff in H as [H1 H2]. apply Ascii.eqb_eq in H1.
    split; [exact H1|]. intros d b' ->. now apply negb_true_iff in H2.
  - apply andb_true_iff in H as [_ H]. now apply IH.
Qed.

Lemma lowerChar_not_upper (c : ascii) : isUpperAscii (lowerChar c) = false.
Proof. destruct c as [[] [] [] [] [] [] [] []]; reflexivity. Qed.

Lemma normalized_shape (code : str) :
  let s := normalizeCode code in
  Forall (fun c => isUpperAscii c = false) s
  /\ forall a c b,
       s = a ++ c :: b -> isSpace c = true ->
       c = " "%char /\ a <> [] /\ b <> []
       /\ forall d b', b = d :: b' -> isSpace d = false.
Proof.
  intros s. subst s. rewrite normalizeCode_stripped. unfold toLowerCase. split.
  - apply Forall_map, Forall_forall. intros c _. apply lowerChar_not_upper.
  - intros a c b E Hc.
    apply map_eq_app in E as (a' & cb' & Et & Ea & E).
    apply map_eq_cons in E as (c' & b' & -> & Ec & Eb). subst a c b.
    rewrite lowerChar_space in Hc. unfold stripped in Et.
    set (x := spacePass _) in Et.
    destruct (trim_spec x) as ((u & v & Hu & Hv & Ex) & Hhd & Hlast).
    rewrite Et in Ex, Hhd, Hlast.
    assert (spacedOk (((u ++ a') ++ c' :: b' ++ v)) = true) as Hok.
    { replace ((u ++ a') ++ c' :: b' ++ v) with x; [apply spacePass_spacedOk|].
      rewrite Ex, <- !app_assoc. reflexivity. }
    destruct (spacedOk_at _ _ _ Hok Hc) as (-> & Hnext).
    split; [reflexivity|]. split; [|split].
    + intros E. destruct a'; [|discriminate].
      specialize (Hhd " "%char b' eq_refl). discriminate.
    + intros E. destruct b' as [|d b'']; [|discriminate].
      specialize (Hlast a' " "%char eq_refl). discriminate.
    + intros d b0 E. destruct b' as [|d' b'']; [discriminate|].
      injection E as <- <-. rewrite lowerChar_space.
      now apply (Hnext d' (b'' ++ v)).
Qed.

(** X3: in normalized code no upper-case ASCII letter is left, and every
    white-space character is a plain space that stands between two other
    characters, the next of which is no white space. *)
Theorem normalizeCode_shape (code : str) :
  let s := normalizeCode code in
  Forall (fun c => isUpperAscii c = false) s
  /\ forall a c b,
       s = a ++ c :: b -> isSpace c = true ->
       c = " "%char /\ a <> [] /\ b <> []
       /\ forall d b', b = d :: b' -> isSpace d = false.
Proof. exact (normalized_shape code). Qed.

(** X4: on normalized code the four patterns of [isTrivalBlock] for a lone
    bracket never decide: a block is trivial exactly when it is shorter
    than 30 characters, or is heavy in class names, or begins with an
    import, an export or a [require]. *)
Theorem isTrivalBlock_normalized (code : str) :
  let s := normalizeCode code in
  isTrivalBlock s
  = (length s <? 30)%nat
    || ((2 <? countFrom mClassName 0 s)%nat && (length s <? 100)%nat)
    || startsWithThenSpace "import" s
    || startsWithThenSpace "export" s
    || isConstRequire s.
Proof.
  intros s. unfold isTrivalBlock.
  destruct (length s <? 30)%nat eqn:L; [reflexivity|].
  destruct ((2 <? countFrom mClassName 0 s)%nat && (length s <? 100)%nat);
    [reflexivity|].
  cbn [orb].
  assert (forall ch, isLone ch s = false) as Hl.
  { intros ch. destruct (isLone ch s) eqn:E; [|reflexivity]. exfalso.
    apply Nat.ltb_ge in L. unfold isLone in E.
    destruct (normalized_shape code) as (_ & Hshape). fold s in Hshape.
    destruct s as [|c r]; [discriminate|].
    destruct (isSpace c) eqn:Ec.
    - destruct (Hshape [] c r eq_refl Ec) as (_ & N & _). now apply N.
    - cbn [dropWhile] in E. rewrite Ec in E.
      apply andb_true_iff in E as [_ E].
      destruct (exists_last (l := c :: r)) as (r' & z & Ez); [discriminate|].
      destruct r' as [|c' r'']; [rewrite Ez in L; simpl in L; lia|].
      injection Ez as <- Er.
      assert (isSpace z = true) as Hz.
      { rewrite forallb_forall in E. apply E. rewrite Er.
        apply in_or_app. right. now left. }
      destruct (Hshape (c :: r'') z [] ltac:(now rewrite Er) Hz) as (_ & _ & N & _).
      now apply N. }
  now rewrite !Hl, !orb_false_r.
Qed.

End NormalShape.

(** * Jaccard similarity *)

Section Jaccard.

Lemma splitSpaces_nonempty (inSep : bool) (s : str) : splitSpaces inSep s <> [].
Proof.
  revert inSep. induction s as [|c s IH]; intros inSep; simpl; [discriminate|].
  destruct (isSpace c).
  - destruct inSep; [apply IH | discriminate].
  - specialize (IH false). destruct (splitSpaces false s); [congruence|discriminate].
Qed.

Lemma tokenSet_nonempty (s : str) : tokenSet s <> [].
Proof.
  unfold tokenSet. pose proof (splitSpaces_nonempty false s) as H.
  destruct (splitSpaces false s) as [|t ts]; [congruence|].
  intros E. assert (In t (nodup str_eq_dec (t :: ts))) as Hin
    by (apply nodup_In; now left).
  rewrite E in Hin. destruct Hin.
Qed.

Lemma tokenSet_NoDup (s : str) : NoDup (tokenSet s).
Proof. apply NoDup_nodup. Qed.

(** The two counts of [calculateSimilarity]. *)
Lemma calculateSimilarity_counts (code1 code2 : str) :
  exists i u : nat,
    (0 < u)%nat /\ (i <= u)%nat
    /\ calculateSimilarity code1 code2 = (Z.of_nat i # Pos.of_nat u)
    /\ i = length (filter (fun x => if in_dec str_eq_dec x (tokenSet code2)
                                    then true else false) (tokenSet code1))
    /\ u = length (nodup str_eq_dec (tokenSet code1 ++ tokenSet code2)).
Proof.
  unfold calculateSimilarity.
  set (A := tokenSet code1). set (B := tokenSet code2).
  set (I := filter _ A). set (U := nodup str_eq_dec (A ++ B)).
  assert (0 < length U)%nat as Hu.
  { pose proof (tokenSet_nonempty code1) as HA. fold A in HA.
    destruct A as [|t A']; [congruence|].
    assert (In t U) as Hin by (apply nodup_In; now left).
    destruct U; [destruct Hin | simpl; lia]. }
  exists (length I), (length U). split; [exact Hu|]. split.
  - apply NoDup_incl_length.
    + apply NoDup_filter, tokenSet_NoDup.
    + intros x Hx. apply filter_In in Hx as [Hx _].
      apply nodup_In, in_or_app. now left.
  - apply Nat.ltb_lt in Hu. rewrite Hu. repeat split.
Qed.

Lemma Zpos_of_nat (u : nat) : (0 < u)%nat -> Z.pos (Pos.of_nat u) = Z.of_nat u.
Proof.
  intros H. destruct u as [|u]; [lia|].
  rewrite <- Pos.of_nat_succ. now rewrite Zpos_P_of_succ_nat, Nat2Z.inj_succ.
Qed.

(** X5: the similarity of two texts is a ratio between 0 and 1, and it does
    not depend on the order of the two texts. *)
Theorem calculateSimilarity_range_sym (code1 code2 : str) :
  (0 <= calculateSimilarity code1 code2)%Q
  /\ (calculateSimilarity code1 code2 <= 1)%Q
  /\ (calculateSimilarity code1 code2 == calculateSimilarity code2 code1)%Q.
Proof.
  destruct (calculateSimilarity_counts code1 code2)
    as (i & u & Hu & Hiu & -> & Ei & Eu).
  destruct (calculateSimilarity_counts code2 code1)
    as (i' & u' & Hu' & _ & -> & Ei' & Eu').
  split; [|split].
  - unfold Qle. simpl. lia.
  - unfold Qle. simpl. rewrite Zpos_of_nat by exact Hu. lia.
  - assert (i = i') as <-.
    { rewrite Ei, Ei'. apply Permutation_length, NoDup_Permutation.
      - apply NoDup_filter, tokenSet_NoDup.
      - apply NoDup_filter, tokenSet_NoDup.
      - intros x. rewrite !filter_In.
        destruct (in_dec str_eq_dec x (tokenSet code2)),
                 (in_dec str_eq_dec x (tokenSet code1)); intuition congruence. }
    assert (u = u') as <-.
    { rewrite Eu, Eu'. apply Permutation_length, NoDup_Permutation.
      - apply NoDup_nodup.
      - apply NoDup_nodup.
      - intros x. rewrite !nodup_In, !in_app_iff. tauto. }
    reflexivity.
Qed.

(** X6: the similarity is 1 exactly when the two texts have the same set
    of tokens, whatever their order and number. *)
Theorem calculateSimilarity_one (code1 code2 : str) :
  (calculateSimilarity code1 code2 == 1)%Q <-> sameTokens code1 code2.
Proof.
  destruct (calculateSimilarity_counts code1 code2)
    as (i & u & Hu & Hiu & -> & Ei & Eu).
  set (A := tokenSet code1) in *. set (B := tokenSet code2) in *.
  set (I := filter _ A) in *. set (U := nodup str_eq_dec (A ++ B)) in *.
  assert (NoDup I) as NI by apply NoDup_filter, tokenSet_NoDup.
  assert (NoDup U) as NU by apply NoDup_nodup.
  assert (incl I U) as HIU.
  { intros x Hx. apply filter_In in Hx as [Hx _].
    apply nodup_In, in_or_app. now left. }
  assert ((Z.of_nat i # Pos.of_nat u == 1)%Q <-> i = u) as ->.
  { unfold Qeq. simpl. rewrite Zpos_of_nat by exact Hu. lia. }
  unfold sameTokens. fold A B. split.
  - intros E. assert (incl U I) as HUI.
    { apply NoDup_length_incl; trivial. rewrite <- Ei, <- Eu. lia. }
    assert (forall x, In x U -> In x A /\ In x B) as Hboth.
    { intros x Hx. apply HUI, filter_In in Hx as [HA HB].
      split; [exact HA|]. now destruct (in_dec str_eq_dec x B). }
    intros t. split; intros Ht.
    + apply (Hboth t). apply nodup_In, in_or_app. now left.
    + apply (Hboth t). apply nodup_In, in_or_app. now right.
  - intros Hsame. rewrite Ei, Eu.
    apply Permutation_length, NoDup_Permutation; trivial.
    intros x. unfold I, U. rewrite filter_In, nodup_In, in_app_iff.
    specialize (Hsame x). destruct (in_dec str_eq_dec x B); intuition congruence.
Qed.

End Jaccard.

(** * Dedup keys *)

Section Keys.

Lemma code_inj (x y : ascii) : Str.code x = Str.code y -> x = y.
Proof.
  unfold Str.code. intros H. apply Nat2Z.inj in H.
  rewrite <- (ascii_nat_embedding x), <- (ascii_nat_embedding y). now rewrite H.
Qed.

Lemma ltb_asym (a b : str) : Str.ltb a b = true -> Str.ltb b a = false.
Proof.
  revert b. induction a as [|x a IH]; intros [|y b]; simpl; try congruence.
  destruct (Str.code x <? Str.code y) eqn:E1.
  - intros _. apply Z.ltb_lt in E1.
    destruct (Str.code y <? Str.code x) eqn:E2; [apply Z.ltb_lt in E2; lia|].
    reflexivity.
  - destruct (Str.code y <? Str.code x) eqn:E2; [discriminate|]. apply IH.
Qed.

Lemma ltb_total (a b : str) :
  Str.ltb a b = false -> Str.ltb b a = false -> a = b.
Proof.
  revert b. induction a as [|x a IH]; intros [|y b]; simpl; try congruence.
  destruct (Str.code x <? Str.code y) eqn:E1; [discriminate|].
  destruct (Str.code y <? Str.code x) eqn:E2; [discriminate|].
  intros H1 H2. apply Z.ltb_ge in E1, E2.
  assert (x = y) as -> by (apply code_inj; lia).
  f_equal. now apply IH.
Qed.

Lemma sortTwo_sym (a b : str) : sortTwo a b = sortTwo b a.
Proof.
  unfold sortTwo. destruct (Str.ltb b a) eqn:E1.
  - now rewrite (ltb_asym b a E1).
  - destruct (Str.ltb a b) eqn:E2; [reflexivity|].
    now rewrite (ltb_total a b E2 E1).
Qed.

Lemma pushUnseen_seenExact (st : detState) (b1 b2 : CodeBlock) (sim : Q) :
  seenExact st -> seenExact (pushUnseen st b1 b2 sim).
Proof.
  destruct st as [ds seen]. unfold seenExact, pushUnseen. simpl. intros [E N].
  destruct (seenHas seen _) eqn:H; simpl; [now split|].
  split.
  - now rewrite map_app, E.
  - constructor; [|exact N]. intros Hin. apply seenHas_In in Hin. congruence.
Qed.

Lemma steps_seenExact (step : detState -> CodeBlock * CodeBlock -> detState)
  (ps : list (CodeBlock * CodeBlock)) (st : detState) :
  (forall st p, seenExact st -> seenExact (step st p)) ->
  seenExact st -> seenExact (fold_left step ps st).
Proof.
  intros Hstep. revert st. induction ps as [|p ps IH]; simpl; intros st H; auto.
Qed.

(** X7: the dedup key does not depend on the order of the two blocks, and
    the detector never emits two pairs with the same key. *)
Theorem dedup_keys (blocks : list CodeBlock) :
  (forall b1 b2, createDuplicateKey b1 b2 = createDuplicateKey b2 b1)
  /\ NoDup (map findingKey (detectPairs blocks)).
Proof.
  split.
  - intros b1 b2. unfold createDuplicateKey. now rewrite sortTwo_sym.
  - assert (seenExact (fuzzyPass blocks (exactPass blocks ([], [])))) as [E N].
    { unfold fuzzyPass. apply steps_seenExact.
      - intros st [b1 b2] H. unfold fuzzyStep.
        destruct (Str.eqb _ _); [exact H|].
        destruct (_ && _); [now apply pushUnseen_seenExact | exact H].
      - unfold exactPass.
        assert (seenExact ([], [])) as H0 by (split; constructor).
        revert H0. generalize (([], []) : detState) as st.
        induction (groupBy hash blocks) as [|g gs IH]; simpl; intros st H;
          [exact H|].
        apply IH. apply steps_seenExact; [|exact H].
        intros st' [b1 b2] H'. unfold exactStep.
        destruct (Str.eqb _ _); [exact H'|]. now apply pushUnseen_seenExact. }
    unfold detectPairs. rewrite E. now apply NoDup_rev.
Qed.

End Keys.

(** * What the merger keeps *)

Section MergerCoverage.

Lemma covers_refl (r : LineRange) : covers r r.
Proof. unfold covers. lia. Qed.

Lemma covers_trans (a b c : LineRange) : covers a b -> covers b c -> covers a c.
Proof. unfold covers. lia. Qed.

Lemma hull_covers_l (a b : LineRange) : covers (hull a b) a.
Proof. unfold covers, hull. simpl. lia. Qed.

Lemma hull_covers_r (a b : LineRange) : covers (hull a b) b.
Proof. unfold covers, hull. simpl. lia. Qed.

Lemma absorbs_refl (d : DuplicateBlock) : absorbs d d.
Proof. repeat split; try lia; apply Qle_refl. Qed.

Lemma absorbs_trans (a b c : DuplicateBlock) :
  absorbs a b -> absorbs b c -> absorbs a c.
Proof.
  intros (H1 & H2 & H3) (K1 & K2 & K3). repeat split;
    try (eapply covers_trans; eauto); eapply Qle_trans; eauto.
Qed.

Lemma coalesce_absorbs (rest : list DuplicateBlock) (current x : DuplicateBlock) :
  In x (current :: rest) ->
  exists o, In o (coalesce current rest) /\ absorbs o x.
Proof.
  revert current x. induction rest as [|next rest IH]; simpl; intros current x Hx.
  - destruct Hx as [->|[]]. exists x. split; [now left | apply absorbs_refl].
  - destruct (overlaps _ _ && overlaps _ _).
    + assert (absorbs (mergeInto current next) x \/ In x rest) as [Ha|Hin].
      { destruct Hx as [->|[->|Hin]]; [left|left|now right];
          repeat split; simpl; try apply hull_covers_l; try apply hull_covers_r;
          try apply qmax_ge_l; apply qmax_ge_r. }
      * destruct (IH (mergeInto current next) _ (or_introl eq_refl))
          as (o & Ho & Hs).
        exists o. split; [exact Ho|]. eapply absorbs_trans; eauto.
      * apply IH. now right.
    + destruct Hx as [->|Hx].
      * exists x. split; [now left | apply absorbs_refl].
      * destruct (IH next x Hx) as (o & Ho & Hs). exists o. split; [now right|].
        exact Hs.
Qed.

Lemma coalesce_origin (rest : list DuplicateBlock) (current o : DuplicateBlock)
  (P : str -> str -> str -> Prop) :
  Forall (fun d => P (file1 d) (file2 d) (code d)) (current :: rest) ->
  In o (coalesce current rest) -> P (file1 o) (file2 o) (code o).
Proof.
  revert current. induction rest as [|next rest IH]; simpl; intros current H Ho.
  - destruct Ho as [<-|[]]. now inversion H.
  - inversion H as [|? ? Hc Hr]; subst. inversion Hr as [|? ? Hn Hr']; subst.
    destruct (overlaps _ _ && overlaps _ _).
    + apply (IH (mergeInto current next)); [|exact Ho]. now constructor.
    + destruct Ho as [<-|Ho]; [exact Hc|]. apply (IH next); [exact Hr | exact Ho].
Qed.

Lemma length_coalesce (rest : list DuplicateBlock) (current : DuplicateBlock) :
  (1 <= length (coalesce current rest) <= S (length rest))%nat.
Proof.
  revert current. induction rest as [|next rest IH]; simpl; intros current; [lia|].
  destruct (overlaps _ _ && overlaps _ _).
  - specialize (IH (mergeInto current next)). lia.
  - specialize (IH next). simpl. lia.
Qed.

Lemma length_mergeGroup (g : list DuplicateBlock) :
  (length (mergeGroup g) <= length g)%nat /\ (g <> [] -> mergeGroup g <> []).
Proof.
  unfold mergeGroup.
  pose proof (Permutation_length
                (sortBy_perm (fun a b => start (lines1 a) <=? start (lines1 b)) g))
    as Hl.
  destruct (sortBy _ g) as [|c r].
  - split; [simpl; lia|]. intros Hg. destruct g; [congruence | discriminate].
  - pose proof (length_coalesce r c) as H. simpl in Hl. split; [lia|].
    intros _ E. rewrite E in H. simpl in H. lia.
Qed.

End MergerCoverage.

Section Partition.

Context {K A : Type} (eqb : K -> K -> bool).

(** Adding to a bucket map keeps all the values, and adds one. *)
Lemma bucketAdd_perm (k : K) (v : A) (m : list (K * list A)) :
  Permutation (concat (map snd (bucketAdd eqb k v m))) (v :: concat (map snd m)).
Proof.
  induction m as [|[k' vs] m IH]; simpl; [reflexivity|].
  destruct (eqb k' k); simpl.
  - rewrite <- app_assoc. simpl. symmetry. apply Permutation_middle.
  - rewrite IH. symmetry.
    apply (Permutation_middle vs (concat (map snd m)) v).
Qed.

End Partition.

Section MergerSpec.

Lemma groupBy_perm {A : Type} (key : A -> str) (l : list A) :
  Permutation (concat (map snd (groupBy key l))) l.
Proof.
  unfold groupBy.
  assert (forall m, Permutation
            (concat (map snd (fold_left (bucketStep key) l m)))
            (concat (map snd m) ++ l)) as H.
  { induction l as [|x l IH]; intros m; simpl; [now rewrite app_nil_r|].
    rewrite IH. unfold bucketStep. rewrite bucketAdd_perm. simpl.
    apply Permutation_middle. }
  apply (H []).
Qed.

Lemma groupBy_key {A : Type} (key : A -> str) (l : list A) :
  Forall (fun g => Forall (fun x => key x = fst g) (snd g)) (groupBy key l).
Proof.
  unfold groupBy.
  assert (forall m,
            Forall (fun g => Forall (fun x => key x = fst g) (snd g)) m ->
            Forall (fun g => Forall (fun x => key x = fst g) (snd g))
                   (fold_left (bucketStep key) l m)) as H.
  { induction l as [|x l IH]; intros m Hm; simpl; [exact Hm|].
    apply IH. unfold bucketStep. clear IH.
    induction Hm as [|[k vs] m Hg Hm IHm]; simpl.
    - repeat constructor.
    - destruct (Str.eqb k (key x)) eqn:E.
      + constructor; [|exact Hm]. simpl in *. apply Forall_app. split; [exact Hg|].
        repeat constructor. apply Str_eqb_eq in E. now symmetry.
      + constructor; [exact Hg | exact IHm]. }
  apply H. constructor.
Qed.

(** X8: the overlap merger never adds a finding, and it accounts for every
    pair it is given: some merged finding for the same pair of files
    contains both line ranges of the pair, with a similarity at least as
    high.  Every merged finding takes its files and code from one of the
    pairs. *)
Theorem mergeOverlappingDuplicates_spec (l : list DuplicateBlock) :
  (length (mergeOverlappingDuplicates l) <= length l)%nat
  /\ (forall d, In d l ->
        exists o, In o (mergeOverlappingDuplicates l)
                  /\ absorbs o d /\ pairGroupKey o = pairGroupKey d)
  /\ (forall o, In o (mergeOverlappingDuplicates l) ->
        exists d, In d l /\ file1 o = file1 d /\ file2 o = file2 d
                  /\ code o = code d).
Proof.
  unfold mergeOverlappingDuplicates.
  pose proof (groupBy_key pairGroupKey l) as Hkey.
  split; [|split].
  - rewrite <- (Permutation_length (groupBy_perm pairGroupKey l)).
    induction (groupBy pairGroupKey l) as [|g gs IH]; simpl; [lia|].
    rewrite !length_app. pose proof (proj1 (length_mergeGroup (snd g))).
    inversion Hkey; subst. specialize (IH ltac:(assumption)). lia.
  - intros d Hd. destruct (groupBy_complete pairGroupKey l d Hd) as (g & Hg & Hdg).
    pose proof (proj1 (Forall_forall _ _) Hkey g Hg) as Hk.
    assert (exists o, In o (mergeGroup (snd g)) /\ absorbs o d
                      /\ pairGroupKey o = fst g) as (o & Ho & Ha & Ek).
    { unfold mergeGroup.
      pose proof (sortBy_In (fun a b => start (lines1 a) <=? start (lines1 b))
                            (snd g)) as Hin.
      destruct (sortBy _ (snd g)) as [|c r] eqn:Es; [now apply Hin in Hdg|].
      destruct (coalesce_absorbs r c d (proj2 (Hin d) Hdg)) as (o & Ho & Ha).
      exists o. split; [exact Ho|]. split; [exact Ha|].
      apply (coalesce_origin r c o
               (fun f1 f2 _ => join "|" (sortTwo f1 f2) = fst g)); [|exact Ho].
      apply Forall_forall. intros x Hx. apply Hin in Hx.
      apply (proj1 (Forall_forall _ _) Hk x Hx). }
    exists o. split; [apply in_flat_map; now exists g|]. split; [exact Ha|].
    rewrite Ek. symmetry. apply (proj1 (Forall_forall _ _) Hk d Hdg).
  - intros o Ho. apply in_flat_map in Ho as (g & Hg & Ho).
    unfold mergeGroup in Ho.
    pose proof (sortBy_In (fun a b => start (lines1 a) <=? start (lines1 b))
                          (snd g)) as Hin.
    destruct (sortBy _ (snd g)) as [|c r] eqn:Es; [destruct Ho|].
    apply (coalesce_origin r c o
             (fun f1 f2 cd => exists d, In d l /\ f1 = file1 d /\ f2 = file2 d
                                        /\ cd = code d)); [|exact Ho].
    apply Forall_forall. intros x Hx. apply Hin in Hx.
    exists x. split; [eapply groupBy_In; eauto | auto].
Qed.

End MergerSpec.

(** * What the clusters are: the connected parts of the similarity graph *)

Section Forest.

Lemma sameRoot_refl_of (p : list nat) (a r k : nat) :
  rootWithin p a r k -> sameRoot p a a.
Proof. intros H. exists r, k, k. now split. Qed.

Lemma sameRoot_sym (p : list nat) (a b : nat) : sameRoot p a b -> sameRoot p b a.
Proof. intros (r & ka & kb & Ha & Hb). exists r, kb, ka. now split. Qed.

Lemma sameRoot_trans (p : list nat) (a b c : nat) :
  sameRoot p a b -> sameRoot p b c -> sameRoot p a c.
Proof.
  intros (r & ka & kb & Ha & Hb) (r' & kb' & kc & Hb' & Hc).
  assert (r = r') as <- by (eapply rootWithin_unique; eauto).
  exists r, ka, kc. now split.
Qed.

Lemma sameRoot_mono (p p' : list nat) :
  (forall y r k, rootWithin p y r k -> rootWithin p' y r k) ->
  forall a b, sameRoot p a b -> sameRoot p' a b.
Proof.
  intros H a b (r & ka & kb & Ha & Hb). exists r, ka, kb. split; now apply H.
Qed.

Lemma inRange_setNth (p : list nat) (i v : nat) :
  inRange p -> (v < length p)%nat -> inRange (setNth i v p).
Proof.
  unfold inRange. rewrite length_setNth. generalize (length p) as n.
  intros n H. revert i. induction H as [|x p Hx Hp IH]; intros [|i] Hv; simpl;
    constructor; auto.
Qed.

Lemma inRange_nth (p : list nat) (x : nat) :
  inRange p -> (x < length p)%nat -> (nth x p x < length p)%nat.
Proof.
  intros H Hx. apply (proj1 (Forall_forall _ _) H). now apply nth_In.
Qed.

Lemma rootWithin_range (p : list nat) (x r k : nat) :
  inRange p -> rootWithin p x r k -> (x < length p)%nat -> (r < length p)%nat.
Proof.
  intros Hp H. induction H as [x k Hx|x r k Hx H IH]; intros Hl; [exact Hl|].
  apply IH. now apply inRange_nth.
Qed.

(** [find] keeps the entries of the forest inside the forest. *)
Lemma find_inRange (fuel : nat) (p : list nat) (x : nat) :
  inRange p ->
  inRange (fst (find fuel p x))
  /\ length (fst (find fuel p x)) = length p
  /\ ((x < length p)%nat -> (snd (find fuel p x) < length p)%nat).
Proof.
  revert p x. induction fuel as [|fuel IH]; intros p x Hp; cbn [find].
  - simpl. auto.
  - destruct (nth x p x =? x)%nat eqn:E.
    + simpl. apply Nat.eqb_eq in E. rewrite E. auto.
    + apply Nat.eqb_neq in E. pose proof (nonroot_in_range p x E) as Hx.
      destruct (IH p (nth x p x) Hp) as (H1 & H2 & H3).
      specialize (H3 (inRange_nth p x Hp Hx)).
      destruct (find fuel p (nth x p x)) as [p1 r]. simpl in *.
      split; [|split].
      * apply inRange_setNth; [exact H1 | lia].
      * now rewrite length_setNth.
      * intros _. exact H3.
Qed.

(** Hanging the root [rx] under the root [ry] sends the tree of [rx] to
    [ry] and leaves every other tree alone. *)
Lemma rootWithin_link_exact (p : list nat) (rx ry : nat) :
  nth rx p rx = rx -> nth ry p ry = ry -> rx <> ry -> (rx < length p)%nat ->
  forall y r k, rootWithin p y r k ->
  rootWithin (setNth rx ry p) y (if (r =? rx)%nat then ry else r) (S k).
Proof.
  intros Hrx Hry Hne Hl y r k H. induction H as [y k Hy|y r k Hy H IH].
  - destruct (y =? rx)%nat eqn:E.
    + apply Nat.eqb_eq in E as ->.
      assert (nth rx (setNth rx ry p) rx = ry) as En by now apply nth_setNth_same.
      constructor; [congruence|]. rewrite En. constructor.
      rewrite nth_setNth_other; auto.
    + apply Nat.eqb_neq in E. constructor. now rewrite nth_setNth_other.
  - assert (y <> rx) as Hyx by congruence.
    constructor; rewrite nth_setNth_other by exact Hyx; assumption.
Qed.

(** [union] puts its two arguments in one tree and separates nothing. *)
Lemma union_sameRoot (fuel d : nat) (p : list nat) (x y : nat) :
  depthBound p d -> (d < fuel)%nat -> inRange p ->
  (x < length p)%nat -> (y < length p)%nat ->
  sameRoot (union fuel p x y) x y
  /\ (forall a b, sameRoot p a b -> sameRoot (union fuel p x y) a b)
  /\ inRange (union fuel p x y)
  /\ length (union fuel p x y) = length p.
Proof.
  intros Hd Hf Hp Hx Hy. unfold union.
  destruct (Hd x) as (rx & Hrx).
  destruct (find_spec p x rx d Hrx fuel Hf) as (p1 & E1 & L1 & K1).
  pose proof (find_inRange fuel p x Hp) as (R1 & _ & _).
  rewrite E1 in R1 |- *. simpl in R1.
  assert (depthBound p1 d) as Hd1.
  { intros z. destruct (Hd z) as (rz & Hz). exists rz. now apply K1. }
  destruct (Hd1 y) as (ry & Hry).
  destruct (find_spec p1 y ry d Hry fuel Hf) as (p2 & E2 & L2 & K2).
  pose proof (find_inRange fuel p1 y R1) as (R2 & _ & _).
  rewrite E2 in R2 |- *. simpl in R2.
  assert (rootWithin p2 x rx d) as Hx2 by now apply K2, K1.
  assert (rootWithin p2 y ry d) as Hy2 by now apply K2.
  assert (rx < length p2)%nat as Lrx.
  { eapply rootWithin_range; [exact R2 | exact Hx2 | lia]. }
  assert (ry < length p2)%nat as Lry.
  { eapply rootWithin_range; [exact R2 | exact Hy2 | lia]. }
  destruct (rx =? ry)%nat eqn:Er.
  - apply Nat.eqb_eq in Er as <-. split; [|split; [|split]].
    + exists rx, d, d. now split.
    + apply sameRoot_mono. intros z r k Hz. now apply K2, K1.
    + exact R2.
    + lia.
  - apply Nat.eqb_neq in Er.
    pose proof (rootWithin_link_exact p2 rx ry
                  (rootWithin_is_root _ _ _ _ Hx2)
                  (rootWithin_is_root _ _ _ _ Hy2) Er Lrx) as Hlink.
    split; [|split; [|split]].
    + exists ry, (S d), (S d). split.
      * generalize (Hlink x rx d Hx2). now rewrite Nat.eqb_refl.
      * generalize (Hlink y ry d Hy2).
        destruct (ry =? rx)%nat eqn:E; [|auto].
        apply Nat.eqb_eq in E. congruence.
    + intros a b (r & ka & kb & Ha & Hb).
      exists (if (r =? rx)%nat then ry else r), (S ka), (S kb).
      split; apply Hlink; now apply K2, K1.
    + now apply inRange_setNth.
    + rewrite length_setNth. lia.
Qed.

Lemma inRange_initial (n : nat) : inRange (seq 0 n).
Proof.
  unfold inRange. rewrite length_seq. apply Forall_forall.
  intros v Hv. apply in_seq in Hv. lia.
Qed.

(** After all the unions, two indices whose pairs were found similar are in
    one tree. *)
Lemma unionSteps_sameRoot (fuel : nat)
  (ps : list ((nat * DuplicateBlock) * (nat * DuplicateBlock)))
  (p : list nat) (d : nat) :
  depthBound p d -> (d + length ps < fuel)%nat -> inRange p ->
  Forall (fun e => (fst (fst e) < length p)%nat /\ (fst (snd e) < length p)%nat)
         ps ->
  (forall a b, sameRoot p a b -> sameRoot (fold_left (unionStep fuel) ps p) a b)
  /\ (forall i di j dj,
        In ((i, di), (j, dj)) ps ->
        Qle_bool CLUSTER_SIMILARITY_THRESHOLD
                 (calculateSimilarity (code di) (code dj)) = true ->
        sameRoot (fold_left (unionStep fuel) ps p) i j).
Proof.
  revert p d. induction ps as [|[[i0 d0] [j0 e0]] ps IH];
    cbn [fold_left length]; intros p d Hd Hf Hp Hps.
  - split; [auto|]. intros i di j dj [].
  - inversion Hps as [|? ? [Hi0 Hj0] Hps']; subst. simpl in Hi0, Hj0.
    set (p1 := unionStep fuel p (i0, d0, (j0, e0))).
    assert (depthBound p1 (S d)) as Hd1.
    { pose proof (unionSteps_depthBound fuel [(i0, d0, (j0, e0))] p d Hd
                    ltac:(simpl; lia)) as [Hb _].
      simpl in Hb. now replace (d + 1)%nat with (S d) in Hb by lia. }
    assert ((forall a b, sameRoot p a b -> sameRoot p1 a b)
            /\ inRange p1 /\ length p1 = length p
            /\ (Qle_bool CLUSTER_SIMILARITY_THRESHOLD
                  (calculateSimilarity (code d0) (code e0)) = true ->
                sameRoot p1 i0 j0)) as (Hpres & Hr1 & Hl1 & Hjoin).
    { unfold p1, unionStep. destruct (Qle_bool _ _).
      - destruct (union_sameRoot fuel d p i0 j0 Hd ltac:(lia) Hp Hi0 Hj0)
          as (H1 & H2 & H3 & H4). auto.
      - repeat split; auto. discriminate. }
    destruct (IH p1 (S d) Hd1 ltac:(lia) Hr1) as [Hpres' Hjoin'].
    { rewrite Hl1. exact Hps'. }
    split.
    + intros a b Hab. now apply Hpres', Hpres.
    + intros i di j dj [[= -> -> -> ->]|Hin] Hs.
      * now apply Hpres', Hjoin.
      * eapply Hjoin'; eauto.
Qed.

End Forest.

Section ClusterMap.

Lemma bucketAdd_nat_keys {A : Type} (k : nat) (v : A) (m : list (nat * list A)) :
  map fst (bucketAdd Nat.eqb k v m)
  = if in_dec Nat.eq_dec k (map fst m) then map fst m else map fst m ++ [k].
Proof.
  induction m as [|[k' vs] m IH]; simpl; [reflexivity|].
  destruct (k' =? k)%nat eqn:E.
  - apply Nat.eqb_eq in E as ->. simpl.
    destruct (Nat.eq_dec k k); [|congruence].
    destruct (in_dec Nat.eq_dec k (map fst m)); reflexivity.
  - apply Nat.eqb_neq in E. simpl. rewrite IH.
    destruct (Nat.eq_dec k' k); [congruence|].
    destruct (in_dec Nat.eq_dec k (map fst m)); reflexivity.
Qed.

Lemma bucketAdd_nat_NoDup {A : Type} (k : nat) (v : A) (m : list (nat * list A)) :
  NoDup (map fst m) -> NoDup (map fst (bucketAdd Nat.eqb k v m)).
Proof.
  intros H. rewrite bucketAdd_nat_keys.
  destruct (in_dec Nat.eq_dec k (map fst m)) as [Hin|Hout]; [exact H|].
  apply NoDup_app; [exact H | repeat constructor; auto |].
  intros x Hx [<-|[]]. contradiction.
Qed.

Lemma bucketAdd_nat_has {A : Type} (k : nat) (v : A) (m : list (nat * list A)) :
  exists vs, In (k, vs) (bucketAdd Nat.eqb k v m) /\ In v vs.
Proof.
  induction m as [|[k' vs'] m IH]; simpl.
  - exists [v]. split; now left.
  - destruct IH as (vs & H1 & H2). destruct (k' =? k)%nat eqn:E.
    + apply Nat.eqb_eq in E as ->. exists (vs' ++ [v]).
      split; [now left | apply in_or_app; right; now left].
    + exists vs. split; [now right | exact H2].
Qed.

Lemma NoDup_keys_unique {K A : Type} (m : list (K * A)) (k : K) (a b : A) :
  NoDup (map fst m) -> In (k, a) m -> In (k, b) m -> a = b.
Proof.
  induction m as [|[k' c] m IH]; simpl; [tauto|].
  intros Hnd Ha Hb. inversion Hnd as [|? ? Hk Hnd']; subst.
  destruct Ha as [Ha|Ha], Hb as [Hb|Hb].
  - congruence.
  - injection Ha as -> ->. exfalso. apply Hk. now apply (in_map fst) in Hb.
  - injection Hb as -> ->. exfalso. apply Hk. now apply (in_map fst) in Ha.
  - now apply IH.
Qed.

(** The cluster map files every pair under the root of its index. *)
Lemma clusterSteps_root (fuel d : nat) (ps : list (nat * DuplicateBlock))
  (p : list nat) (m : list (nat * list DuplicateBlock)) :
  depthBound p d -> (d < fuel)%nat -> NoDup (map fst m) ->
  NoDup (map fst (snd (fold_left (clusterStep fuel) ps (p, m))))
  /\ forall i x r k, In (i, x) ps -> rootWithin p i r k ->
       exists vs, In (r, vs) (snd (fold_left (clusterStep fuel) ps (p, m)))
                  /\ In x vs.
Proof.
  revert p m. induction ps as [|[i0 x0] ps IH]; cbn [fold_left];
    intros p m Hd Hf Hnd.
  - split; [exact Hnd|]. intros i x r k [].
  - destruct (Hd i0) as (r0 & Hr0).
    destruct (find_spec p i0 r0 d Hr0 fuel Hf) as (p1 & E & _ & Hp).
    unfold clusterStep at 2 4. cbn [fst snd]. rewrite E.
    assert (depthBound p1 d) as Hd1.
    { intros z. destruct (Hd z) as (rz & Hz). exists rz. now apply Hp. }
    destruct (IH p1 (bucketAdd Nat.eqb r0 x0 m) Hd1 Hf
                (bucketAdd_nat_NoDup r0 x0 m Hnd)) as [Hnd' Hin'].
    split; [exact Hnd'|].
    intros i x r k [[= -> ->]|Hin] Hr.
    + assert (r = r0) as -> by (eapply rootWithin_unique; eauto).
      destruct (bucketAdd_nat_has r0 x m) as (vs & Hvs & Hx).
      destruct (clusterStep_grows fuel ps (p1, bucketAdd Nat.eqb r0 x m) r0 vs Hvs)
        as (ws & Hws).
      exists (vs ++ ws). split; [exact Hws | apply in_or_app; now left].
    + eapply Hin'; eauto.
Qed.

Lemma indexed_nth {A : Type} (l : list A) (i : nat) (x : A) :
  nth_error l i = Some x -> In (i, x) (indexed l).
Proof.
  unfold indexed. replace i with (0 + i)%nat at 2 by reflexivity.
  generalize 0%nat as s. revert i.
  induction l as [|y l IH]; intros [|i] s H; simpl in *; try discriminate.
  - injection H as ->. left. f_equal. lia.
  - right. replace (s + S i)%nat with (S s + i)%nat by lia. now apply IH.
Qed.

Lemma map_snd_indexed {A : Type} (l : list A) : map snd (indexed l) = l.
Proof.
  unfold indexed. generalize 0%nat as s.
  induction l as [|y l IH]; intros s; simpl; [reflexivity|]. now rewrite IH.
Qed.

Lemma indexed_range {A : Type} (l : list A) (i : nat) (x : A) :
  In (i, x) (indexed l) -> (i < length l)%nat.
Proof.
  unfold indexed. intros H. apply in_combine_l in H. apply in_seq in H. lia.
Qed.

Lemma pairsOf_later {A : Type} (l : list A) (i j : nat) (x y : A) :
  nth_error l i = Some x -> nth_error l j = Some y -> (i < j)%nat ->
  In (x, y) (pairsOf l).
Proof.
  revert i j. induction l as [|z l IH]; intros [|i] [|j] Hx Hy Hij;
    simpl in *; try discriminate; try lia; apply in_or_app.
  - injection Hx as ->. left. apply in_map. eapply nth_error_In; eauto.
  - right. apply (IH i j); auto. lia.
Qed.

Lemma nth_error_indexed {A : Type} (l : list A) (i : nat) (x : A) :
  nth_error l i = Some x -> nth_error (indexed l) i = Some (i, x).
Proof.
  unfold indexed. replace (i, x) with ((0 + i)%nat, x) by reflexivity.
  generalize 0%nat as s. revert i.
  induction l as [|y l IH]; intros [|i] s H; simpl in *; try discriminate.
  - injection H as ->. f_equal. f_equal. lia.
  - replace (s + S i)%nat with (S s + i)%nat by lia. now apply IH.
Qed.

End ClusterMap.

Section Components.

Variable l : list DuplicateBlock.

Local Abbreviation forest := (unionAllWith (findFuel (length l)) l).

Lemma forest_facts :
  depthBound forest (length (pairsOf (indexed l)))
  /\ (length (pairsOf (indexed l)) < findFuel (length l))%nat
  /\ (forall a b, sameRoot (seq 0 (length l)) a b -> sameRoot forest a b)
  /\ (forall i di j dj,
        In ((i, di), (j, dj)) (pairsOf (indexed l)) ->
        Qle_bool CLUSTER_SIMILARITY_THRESHOLD
                 (calculateSimilarity (code di) (code dj)) = true ->
        sameRoot forest i j).
Proof.
  unfold unionAllWith.
  set (ps := pairsOf (indexed l)).
  assert (length ps < findFuel (length l))%nat as Hps.
  { unfold ps, findFuel. pose proof (length_pairsOf (indexed l)) as H.
    rewrite length_indexed in H. lia. }
  destruct (unionSteps_depthBound (findFuel (length l)) ps (seq 0 (length l)) 0
              (depthBound_initial _) Hps) as [Hd _].
  split; [exact Hd|]. split; [exact Hps|].
  apply (unionSteps_sameRoot (findFuel (length l)) ps (seq 0 (length l)) 0);
    [apply depthBound_initial | exact Hps | apply inRange_initial |].
  apply Forall_forall. intros [[i di] [j dj]] Hin.
  apply pairsOf_In in Hin as [Hi Hj]. rewrite length_seq. simpl.
  split; eapply indexed_range; eauto.
Qed.

Lemma linked_sameRoot (i j : nat) :
  linked l i j ->
  sameRoot forest i j /\ (i < length l)%nat /\ (j < length l)%nat.
Proof.
  destruct forest_facts as (_ & _ & _ & Hjoin).
  induction 1 as [i j di dj Hi Hj Hij Hs|i j _ (IH & Li & Lj)
                 |i j k _ (IH1 & Li & Lj) _ (IH2 & _ & Lk)].
  - split; [|split].
    + apply (Hjoin i di j dj); [|exact Hs].
      apply (pairsOf_later (indexed l) i j); auto using nth_error_indexed.
    + apply nth_error_Some. congruence.
    + apply nth_error_Some. congruence.
  - split; [now apply sameRoot_sym | auto].
  - split; [eapply sameRoot_trans; eauto | auto].
Qed.

(** X9: the clusters are closed under similarity.  When two of the pairs
    given to the clusterer have code of Jaccard similarity at least
    [CLUSTER_SIMILARITY_THRESHOLD], or are joined by a chain of such pairs,
    one cluster holds them both. *)
Theorem linked_same_cluster (i j : nat) :
  linked l i j ->
  exists c di dj,
    In c (clustersOf l)
    /\ nth_error l i = Some di /\ nth_error l j = Some dj
    /\ In di c /\ In dj c.
Proof.
  intros H. destruct (linked_sameRoot i j H) as ((r & ki & kj & Hi & Hj) & Li & Lj).
  destruct forest_facts as (Hd & Hf & _ & _).
  destruct (nth_error l i) as [di|] eqn:Ei;
    [|apply nth_error_None in Ei; lia].
  destruct (nth_error l j) as [dj|] eqn:Ej;
    [|apply nth_error_None in Ej; lia].
  destruct (clusterSteps_root (findFuel (length l)) _ (indexed l) forest []
              Hd Hf ltac:(constructor)) as [Hnd Hin].
  destruct (Hin i di r ki (indexed_nth l i di Ei) Hi) as (vi & Hvi & Hdi).
  destruct (Hin j dj r kj (indexed_nth l j dj Ej) Hj) as (vj & Hvj & Hdj).
  assert (vi = vj) as <- by (eapply NoDup_keys_unique; eauto).
  exists vi, di, dj. repeat split; auto.
  unfold clustersOf, clustersWith.
  apply in_map_iff. exists (r, vi). split; [reflexivity | exact Hvi].
Qed.

(** The clusters hold every pair exactly once, and no cluster is empty. *)
Lemma clusterSteps_perm (fuel : nat) (ps : list (nat * DuplicateBlock))
  (st : list nat * list (nat * list DuplicateBlock)) :
  Permutation
    (concat (map snd (snd (fold_left (clusterStep fuel) ps st))))
    (concat (map snd (snd st)) ++ map snd ps).
Proof.
  revert st. induction ps as [|[i x] ps IH]; intros [p m]; cbn [fold_left].
  - simpl. now rewrite app_nil_r.
  - rewrite IH. unfold clusterStep. cbn [fst snd].
    destruct (find fuel p i) as [p1 r]. cbn [snd].
    rewrite bucketAdd_perm. simpl. apply Permutation_middle.
Qed.

Lemma clusterSteps_nonempty (fuel : nat) (ps : list (nat * DuplicateBlock))
  (st : list nat * list (nat * list DuplicateBlock)) :
  Forall (fun g => snd g <> []) (snd st) ->
  Forall (fun g => snd g <> []) (snd (fold_left (clusterStep fuel) ps st)).
Proof.
  revert st. induction ps as [|[i x] ps IH]; intros [p m] H; cbn [fold_left];
    [exact H|].
  apply IH. unfold clusterStep. cbn [fst snd].
  destruct (find fuel p i) as [p1 r]. cbn [snd]. now apply bucketAdd_nonempty.
Qed.

End Components.

(** X10: the clusters partition the pairs given to the clusterer: every
    pair is in exactly one cluster (the clusters, put end to end, are a
    permutation of the list), no cluster is empty, and the clusterer never
    returns more findings than it was given. *)
Theorem clusters_partition (l : list DuplicateBlock) :
  Permutation (concat (clustersOf l)) l
  /\ Forall (fun c => c <> []) (clustersOf l)
  /\ (length (clusterDuplicatesByPattern l) <= length l)%nat.
Proof.
  assert (Permutation (concat (clustersOf l)) l) as Hperm.
  { unfold clustersOf, clustersWith. rewrite clusterSteps_perm. simpl.
    now rewrite map_snd_indexed. }
  assert (Forall (fun c => c <> []) (clustersOf l)) as Hne.
  { unfold clustersOf, clustersWith. apply Forall_map.
    apply clusterSteps_nonempty. constructor. }
  split; [exact Hperm|]. split; [exact Hne|].
  rewrite <- (Permutation_length Hperm).
  unfold clusterDuplicatesByPattern. clear Hperm.
  induction Hne as [|c cs Hc _ IH]; simpl; [lia|].
  rewrite !length_app.
  assert (length (clusterFinding c) <= length c)%nat.
  { destruct c as [|a [|b r]]; simpl; lia. }
  lia.
Qed.

Lemma linked_same_cluster_witness :
  linked threePairs 0 2
  /\ exists c di dj,
       In c (clustersOf threePairs)
       /\ nth_error threePairs 0 = Some di /\ nth_error threePairs 2 = Some dj
       /\ In di c /\ In dj c.
Proof.
  assert (linked threePairs 0 2) as H.
  { eapply linked_similar; [reflexivity | reflexivity | lia | vm_compute; reflexivity]. }
  split; [exact H | exact (linked_same_cluster threePairs 0 2 H)].
Defined.

(** * What a clustered finding records *)

Section ClusterFields.

Lemma coalesceRanges_covers (rest : list LineRange) (current r : LineRange) :
  In r (current :: rest) ->
  exists o, In o (coalesceRanges current rest) /\ covers o r.
Proof.
  revert current r. induction rest as [|next rest IH]; simpl; intros current r Hr.
  - destruct Hr as [->|[]]. exists r. split; [now left | apply covers_refl].
  - destruct (overlaps current next).
    + assert (covers (hull current next) r \/ In r rest) as [Hc|Hin].
      { destruct Hr as [->|[->|Hin]]; [left|left|now right];
          [apply hull_covers_l | apply hull_covers_r]. }
      * destruct (IH (hull current next) _ (or_introl eq_refl)) as (o & Ho & Hs).
        exists o. split; [exact Ho|]. eapply covers_trans; eauto.
      * apply IH. now right.
    + destruct Hr as [->|Hr].
      * exists r. split; [now left | apply covers_refl].
      * destruct (IH next r Hr) as (o & Ho & Hs). exists o. split; [now right|].
        exact Hs.
Qed.

Lemma mergedRangesOf_covers (ranges : list LineRange) (r : LineRange) :
  In r ranges -> exists o, In o (mergedRangesOf ranges) /\ covers o r.
Proof.
  intros Hr. unfold mergedRangesOf.
  pose proof (sortBy_In (fun a b => start a <=? start b) ranges r) as Hin.
  destruct (sortBy _ ranges) as [|c rest]; [now apply Hin in Hr|].
  apply coalesceRanges_covers. now apply Hin.
Qed.

Lemma allFilesOf_located (fl : list (str * list LineRange)) (k : str)
  (vs : list LineRange) (r : LineRange) :
  In (k, vs) fl -> In r vs -> located k r (allFilesOf fl).
Proof.
  intros Hk Hr. destruct (mergedRangesOf_covers vs r Hr) as (o & Ho & Hc).
  exists (mkFileRange k o). split; [|split; [reflexivity | exact Hc]].
  unfold allFilesOf. apply in_flat_map. exists (k, vs). split; [exact Hk|].
  simpl. now apply in_map.
Qed.

Lemma fileLocations_grows (cluster : list DuplicateBlock)
  (m : list (str * list LineRange)) (k : str) (vs : list LineRange) :
  In (k, vs) m ->
  exists ws,
    In (k, vs ++ ws)
       (fold_left
          (fun m inst =>
             bucketAdd Str.eqb (file2 inst) (lines2 inst)
               (bucketAdd Str.eqb (file1 inst) (lines1 inst) m))
          cluster m).
Proof.
  revert m vs. induction cluster as [|inst cluster IH]; simpl; intros m vs H.
  - exists []. now rewrite app_nil_r.
  - destruct (bucketAdd_grows Str.eqb (file1 inst) (lines1 inst) m k vs H)
      as (w1 & H1).
    destruct (bucketAdd_grows Str.eqb (file2 inst) (lines2 inst) _ k _ H1)
      as (w2 & H2).
    destruct (IH _ _ H2) as (w3 & H3).
    exists (w1 ++ w2 ++ w3). now rewrite !app_assoc.
Qed.

Lemma fileLocationsOf_has (cluster : list DuplicateBlock) (inst : DuplicateBlock) :
  In inst cluster ->
  (exists vs, In (file1 inst, vs) (fileLocationsOf cluster) /\ In (lines1 inst) vs)
  /\ (exists vs, In (file2 inst, vs) (fileLocationsOf cluster)
                 /\ In (lines2 inst) vs).
Proof.
  unfold fileLocationsOf. generalize ([] : list (str * list LineRange)) as m.
  induction cluster as [|x cluster IH]; simpl; intros m Hin; [destruct Hin|].
  destruct Hin as [->|Hin]; [|now apply IH].
  split.
  - destruct (bucketAdd_has (file1 inst) (lines1 inst) m) as (vs & Hvs & Hr).
    destruct (bucketAdd_grows Str.eqb (file2 inst) (lines2 inst) _ _ _ Hvs)
      as (w1 & H1).
    destruct (fileLocations_grows cluster _ _ _ H1) as (w2 & H2).
    exists ((vs ++ w1) ++ w2). split; [exact H2|].
    apply in_or_app. left. apply in_or_app. now left.
  - destruct (bucketAdd_has (file2 inst) (lines2 inst)
                (bucketAdd Str.eqb (file1 inst) (lines1 inst) m))
      as (vs & Hvs & Hr).
    destruct (fileLocations_grows cluster _ _ _ Hvs) as (w2 & H2).
    exists (vs ++ w2). split; [exact H2 | apply in_or_app; now left].
Qed.

Lemma two_keys {A B : Type} (m : list (A * B)) (a b : A) (x y : B) :
  In (a, x) m -> In (b, y) m -> a <> b -> (2 <= length m)%nat.
Proof.
  intros Ha Hb Hne. destruct m as [|p [|q m]]; simpl in *; [tauto | | lia].
  destruct Ha as [Ha|[]], Hb as [Hb|[]]. congruence.
Qed.

Lemma clusterFinding_located (cluster : list DuplicateBlock) (d : DuplicateBlock) :
  In d cluster ->
  exists f, In f (clusterFinding cluster)
            /\ (similarity d <= similarity f)%Q
            /\ (f = d
                \/ exists af, allFiles f = Some af
                              /\ located (file1 d) (lines1 d) af
                              /\ located (file2 d) (lines2 d) af).
Proof.
  intros Hd. destruct cluster as [|first [|second rest]].
  - destruct Hd.
  - destruct Hd as [->|[]]. exists d. simpl. split; [now left|].
    split; [apply Qle_refl | now left].
  - eexists. split; [now left|]. cbn [similarity allFiles].
    split; [now apply (representativeOf_max (second :: rest) first d)|].
    right. eexists. split; [reflexivity|].
    destruct (fileLocationsOf_has _ d Hd) as ((v1 & H1 & R1) & (v2 & H2 & R2)).
    split; eapply allFilesOf_located; eauto.
Qed.

(** X11: the clusterer accounts for every pair it is given.  Some finding
    of its output has a similarity at least as high and either is that pair
    unchanged, or carries an [allFiles] list in which an entry of the first
    file contains the pair's first range and an entry of the second file
    contains its second range. *)
Theorem clusterDuplicatesByPattern_accounts (l : list DuplicateBlock)
  (d : DuplicateBlock) :
  In d l ->
  exists f, In f (clusterDuplicatesByPattern l)
            /\ (similarity d <= similarity f)%Q
            /\ (f = d
                \/ exists af, allFiles f = Some af
                              /\ located (file1 d) (lines1 d) af
                              /\ located (file2 d) (lines2 d) af).
Proof.
  intros Hd. destruct (clustersOf_complete l d Hd) as (c & Hc & Hdc).
  destruct (clusterFinding_located c d Hdc) as (f & Hf & H).
  exists f. split; [|exact H].
  unfold clusterDuplicatesByPattern. apply in_flat_map. now exists c.
Qed.

Lemma clusterDuplicatesByPattern_accounts_witness :
  In (hd (mkDup [] [] (mkRange 0 0) (mkRange 0 0) [] 0 None None None) threePairs)
     threePairs
  /\ exists f, In f (clusterDuplicatesByPattern threePairs)
               /\ (1 <= similarity f)%Q.
Proof.
  assert (In (hd (mkDup [] [] (mkRange 0 0) (mkRange 0 0) [] 0 None None None)
                 threePairs) threePairs) as H by (left; reflexivity).
  split; [exact H|].
  destruct (clusterDuplicatesByPattern_accounts threePairs _ H) as (f & Hf & Hs & _).
  exists f. split; [exact Hf | exact Hs].
Defined.

Lemma barePair_merged (blocks : list CodeBlock) :
  Forall barePair (mergeOverlappingDuplicates (detectPairs blocks)).
Proof.
  apply mergeOverlappingDuplicates_Forall.
  - intros current next H _. exact H.
  - apply detectPairs_Forall. intros b1 b2 sim _ _ Hne _.
    split; [exact Hne | now repeat split].
Qed.

Lemma clusterFinding_fields (cluster : list DuplicateBlock) :
  Forall barePair cluster -> Forall clusterFields (clusterFinding cluster).
Proof.
  intros H. destruct cluster as [|first [|second rest]].
  - constructor.
  - constructor; [|constructor]. inversion H as [|? ? (_ & Hc & Ha & Hp) _]; subst.
    unfold clusterFields. rewrite Hc. now split.
  - constructor; [|constructor]. unfold clusterFields.
    cbn [clusterSize patternHash allFiles code file1 file2 lines1 lines2].
    set (c := first :: second :: rest) in *.
    pose proof (representativeOf_In first (second :: rest)) as Hr.
    fold c in Hr. set (rep := representativeOf first (second :: rest)) in *.
    destruct (fileLocationsOf_has c rep Hr) as ((v1 & H1 & R1) & (v2 & H2 & R2)).
    destruct (proj1 (Forall_forall _ _) H rep Hr) as (Hne & _).
    split; [|split; [reflexivity|]].
    + pose proof (two_keys _ _ _ _ _ H1 H2 Hne). lia.
    + eexists. split; [reflexivity|].
      split; eapply allFilesOf_located; eauto.
Qed.

(** X12: in every report the cluster fields of a finding are absent
    together or present together; when they are present, the cluster spans
    at least two files, [patternHash] is the MD5 digest of the code shown,
    and [allFiles] has an entry of [file1] containing [lines1] and an entry
    of [file2] containing [lines2]. *)
Theorem report_cluster_fields (files : option (list (option PrFile))) :
  Forall clusterFields (duplicateBlocks (analyzeDuplication files)).
Proof.
  destruct (report_blocks files) as [->|(l & bs & _ & _ & ->)].
  - constructor.
  - unfold findDuplicates. apply sortBy_Forall.
    unfold clusterDuplicatesByPattern. apply Forall_flat_map.
    eapply Forall_impl; [|apply clustersOf_within].
    intros c Hc. apply clusterFinding_fields, Forall_forall.
    intros x Hx. eapply Forall_forall; [apply barePair_merged | now apply Hc].
Qed.

End ClusterFields.

(** * The aggregate metrics *)

Section Metrics.

Lemma totalSteps_ok (files : list (option PrFile)) (acc : Z) :
  Z.abs acc
  + fold_right Z.add 0 (map (fun e => Z.abs (countedAdditions e)) files)
  <= 2 ^ 53 ->
  fold_left totalStep files (Ok acc)
  = if existsb (fun e => match e with None => true | Some _ => false end) files
    then Thrown
    else Ok (acc + fold_right Z.add 0 (map countedAdditions files)).
Proof.
  assert (forall l : list (option PrFile),
            0 <= fold_right Z.add 0 (map (fun e => Z.abs (countedAdditions e)) l))
    as Hpos.
  { induction l as [|e l IHl]; simpl; lia. }
  revert acc. induction files as [|[f|] files' IH]; intros acc Hb;
    try pose proof (Hpos files') as Hp;
    cbn [fold_left map fold_right existsb orb] in *.
  - f_equal. lia.
  - unfold totalStep at 2. cbn [bind].
    assert (countedAdditions (Some f)
            = if shouldSkipFile (filename f) then 0 else additions f) as Hc
      by reflexivity.
    rewrite Hc in Hb |- *.
    destruct (shouldSkipFile (filename f)).
    + rewrite IH by lia. destruct (existsb _ files'); reflexivity.
    + rewrite toDouble_exact by lia. rewrite IH by lia.
      destruct (existsb _ files'); [reflexivity|]. f_equal. lia.
  - apply totalStep_thrown.
Qed.

Lemma sum_perm (l l' : list Z) :
  Permutation l l' -> fold_right Z.add 0 l = fold_right Z.add 0 l'.
Proof. induction 1; simpl; lia. Qed.

Lemma nullEntry_perm (files files' : list (option PrFile)) :
  Permutation files files' ->
  existsb (fun e => match e with None => true | Some _ => false end) files
  = existsb (fun e => match e with None => true | Some _ => false end) files'.
Proof.
  induction 1 as [|e l l' _ IH|e1 e2 l|l1 l2 l3 _ IH1 _ IH2]; simpl.
  - reflexivity.
  - now rewrite IH.
  - destruct e1, e2; reflexivity.
  - now rewrite IH1.
Qed.

(** X13: as long as the additions of the files add up to at most [2^53]
    in absolute value, [totalLines] does not depend on the order of the
    files: it is the sum of the [additions] of the files that are not
    skipped, and the computation throws exactly when the list has a [null]
    entry. *)
Theorem calculateTotalLines_order (files files' : list (option PrFile)) :
  Permutation files files' ->
  fold_right Z.add 0 (map (fun e => Z.abs (countedAdditions e)) files) <= 2 ^ 53 ->
  calculateTotalLines files = calculateTotalLines files'
  /\ calculateTotalLines files
     = if existsb (fun e => match e with None => true | Some _ => false end) files
       then Thrown
       else Ok (fold_right Z.add 0 (map countedAdditions files)).
Proof.
  intros H Hb. unfold calculateTotalLines.
  assert (fold_right Z.add 0 (map (fun e => Z.abs (countedAdditions e)) files')
          <= 2 ^ 53) as Hb'.
  { now rewrite <- (sum_perm _ _ (Permutation_map _ H)). }
  rewrite !totalSteps_ok by (simpl; lia).
  split; [|reflexivity].
  rewrite (nullEntry_perm _ _ H).
  now rewrite (sum_perm _ _ (Permutation_map countedAdditions H)).
Qed.

Lemma calculateTotalLines_order_witness :
  Permutation mixedFiles (rev mixedFiles)
  /\ fold_right Z.add 0 (map (fun e => Z.abs (countedAdditions e)) mixedFiles)
     <= 2 ^ 53
  /\ calculateTotalLines mixedFiles = calculateTotalLines (rev mixedFiles).
Proof.
  assert (Permutation mixedFiles (rev mixedFiles)) as H by apply Permutation_rev.
  assert (fold_right Z.add 0
            (map (fun e => Z.abs (countedAdditions e)) mixedFiles) <= 2 ^ 53)
    as Hb by (vm_compute; discriminate).
  split; [exact H|]. split; [exact Hb|].
  exact (proj1 (calculateTotalLines_order _ _ H Hb)).
Defined.

(** Beyond [2^53] the order matters: after [2^53] added lines two single
    lines are lost one by one, and counted when they come first. *)
Example totalLines_order_beyond_2_53 :
  calculateTotalLines hugeFirst = Ok (2 ^ 53)
  /\ calculateTotalLines (rev hugeFirst) = Ok (2 ^ 53 + 2).
Proof. split; vm_compute; reflexivity. Qed.

Lemma lit_inj (a b : String.string) : lit a = lit b -> a = b.
Proof.
  unfold lit. intros H.
  rewrite <- (String.string_of_list_ascii_of_string a),
          <- (String.string_of_list_ascii_of_string b).
  now rewrite H.
Qed.

Lemma to_int_proper (z : Z) :
  Z.to_int z <> Decimal.Pos Decimal.Nil /\ Z.to_int z <> Decimal.Neg Decimal.Nil.
Proof.
  destruct z as [|p|p]; simpl; split; try discriminate;
    intros [= E]; now apply (Unsigned.to_uint_nonnil p).
Qed.

Lemma ofZ_inj (a b : Z) : ofZ a = ofZ b -> a = b.
Proof.
  unfold ofZ. intros H. apply lit_inj in H. apply DecimalZ.to_int_inj.
  destruct (to_int_proper a) as [A1 A2], (to_int_proper b) as [B1 B2].
  pose proof (NilZero.isi _ A1 A2) as Ha. rewrite H in Ha.
  rewrite (NilZero.isi _ B1 B2) in Ha. congruence.
Qed.

Lemma digit_no_colon (s : str) :
  forallb isDigit s = true ->
  forallb (fun c => negb (Ascii.eqb c ":"%char)) s = true.
Proof.
  induction s as [|c s IH]; simpl; [reflexivity|].
  rewrite !andb_true_iff. intros [Hc Hs]. split; [|now apply IH].
  destruct (Ascii.eqb c ":"%char) eqn:E; [|reflexivity].
  apply Ascii.eqb_eq in E. subst c. discriminate.
Qed.

Lemma string_of_uint_no_colon (d : Decimal.uint) :
  forallb (fun c => negb (Ascii.eqb c ":"%char))
          (lit (NilZero.string_of_uint d)) = true.
Proof.
  destruct d; try reflexivity; apply digit_no_colon;
    apply (uchars_digits (_ d)).
Qed.

Lemma ofZ_no_colon (z : Z) :
  forallb (fun c => negb (Ascii.eqb c ":"%char)) (ofZ z) = true.
Proof.
  unfold ofZ. destruct (Z.to_int z) as [d|d]; cbn [NilZero.string_of_int].
  - apply string_of_uint_no_colon.
  - unfold lit. cbn [String.list_ascii_of_string forallb].
    apply string_of_uint_no_colon.
Qed.

Lemma colon_suffix_inj (n1 n2 d1 d2 : str) :
  forallb (fun c => negb (Ascii.eqb c ":"%char)) d1 = true ->
  forallb (fun c => negb (Ascii.eqb c ":"%char)) d2 = true ->
  n1 ++ ":" ++ d1 = n2 ++ ":" ++ d2 -> n1 = n2 /\ d1 = d2.
Proof.
  intros H1 H2. revert n2.
  assert (forall n d e,
            forallb (fun c => negb (Ascii.eqb c ":"%char)) d = true ->
            d <> n ++ ":" ++ e) as Hno.
  { intros n d e Hd E. subst d. rewrite forallb_app in Hd.
    apply andb_true_iff in Hd as [_ Hd]. discriminate. }
  induction n1 as [|c n1 IH]; intros [|c' n2] E; simpl in E.
  - injection E as ->. auto.
  - injection E as <- E. exfalso. now apply (Hno n2 d1 d2).
  - injection E as -> E. exfalso. symmetry in E. now apply (Hno n1 d2 d1).
  - injection E as -> E. destruct (IH n2 E) as [-> ->]. auto.
Qed.

Lemma lineKey_inj (p q : str * Z) : lineKey p = lineKey q -> p = q.
Proof.
  destruct p as [n1 z1], q as [n2 z2]. unfold lineKey. simpl. intros E.
  apply colon_suffix_inj in E as [-> E]; try apply ofZ_no_colon.
  now rewrite (ofZ_inj _ _ E).
Qed.

Lemma nodup_map_inj {A B : Type} (decA : forall a b : A, {a = b} + {a <> b})
  (decB : forall a b : B, {a = b} + {a <> b}) (f : A -> B) (l : list A) :
  (forall a b, f a = f b -> a = b) ->
  nodup decB (map f l) = map f (nodup decA l).
Proof.
  intros Hf. induction l as [|a l IH]; simpl; [reflexivity|].
  destruct (in_dec decA a l) as [Hin|Hout], (in_dec decB (f a) (map f l))
    as [Hin'|Hout']; simpl; try congruence.
  - exfalso. apply Hout'. now apply in_map.
  - exfalso. apply Hout. apply in_map_iff in Hin' as (b & E & Hb).
    now rewrite <- (Hf _ _ E).
Qed.

Lemma lineKeys_linesOf (name : str) (r : LineRange) :
  lineKeys name r = map lineKey (linesOf name r).
Proof. unfold lineKeys, linesOf. now rewrite map_map. Qed.

Lemma keys_coveredLines (l : list DuplicateBlock) :
  flat_map (fun dup => lineKeys (file1 dup) (lines1 dup)
                       ++ lineKeys (file2 dup) (lines2 dup)) l
  = map lineKey (coveredLines l).
Proof.
  unfold coveredLines. induction l as [|d l IH]; simpl; [reflexivity|].
  now rewrite IH, !map_app, !lineKeys_linesOf.
Qed.

Lemma length_linesOf (name : str) (r : LineRange) :
  Z.of_nat (length (linesOf name r)) = rangeSize r.
Proof. unfold linesOf, rangeSize. rewrite length_map, length_seq. lia. Qed.

Lemma length_nodup {A : Type} (dec : forall a b : A, {a = b} + {a <> b})
  (l : list A) : (length (nodup dec l) <= length l)%nat.
Proof.
  induction l as [|a l IH]; simpl; [lia|].
  destruct (in_dec dec a l); simpl; lia.
Qed.

(** X14: [duplicatedLines] counts lines, each once: it is the number of
    distinct pairs of a file and a line number that lie in a range of some
    finding (the string keys [file:line] never conflate two lines); so it
    is at most the sum of the sizes of the ranges. *)
Theorem calculateDuplicatedLines_counts (l : list DuplicateBlock) :
  calculateDuplicatedLines l
  = Z.of_nat (length (nodup fileLine_dec (coveredLines l)))
  /\ 0 <= calculateDuplicatedLines l
     <= fold_right Z.add 0
          (map (fun d => rangeSize (lines1 d) + rangeSize (lines2 d)) l).
Proof.
  assert (calculateDuplicatedLines l
          = Z.of_nat (length (nodup fileLine_dec (coveredLines l)))) as E.
  { unfold calculateDuplicatedLines. rewrite keys_coveredLines.
    rewrite (nodup_map_inj fileLine_dec str_eq_dec lineKey _ lineKey_inj).
    now rewrite length_map. }
  split; [exact E|]. rewrite E. split; [lia|].
  apply Z.le_trans with (Z.of_nat (length (coveredLines l))).
  - apply inj_le, length_nodup.
  - clear E. unfold coveredLines. induction l as [|d l IH]; simpl; [lia|].
    rewrite !length_app, !Nat2Z.inj_add, !length_linesOf. lia.
Qed.

End Metrics.

(** * A pull request that touches one file *)

Section OneFile.

Lemma blocksOfPatch_file (name patch : str) (b : CodeBlock) :
  In b (blocksOfPatch name patch) -> file b = name.
Proof.
  unfold blocksOfPatch. intros H. apply in_flat_map in H as (w & _ & H).
  unfold blockOfWindow in H. destruct (isTrivalBlock _); [destruct H|].
  destruct H as [<-|[]]. reflexivity.
Qed.

Lemma extractCodeBlocks_files (files : list (option PrFile))
  (blocks : list CodeBlock) (b : CodeBlock) :
  extractCodeBlocks files = Ok blocks -> In b blocks ->
  exists f, In (Some f) files /\ file b = filename f.
Proof.
  revert blocks. induction files as [|entry files IH]; simpl; intros blocks E Hb.
  - injection E as <-. destruct Hb.
  - destruct (blocksOfFile entry) as [bs|] eqn:E1; [|discriminate]. simpl in E.
    destruct (extractCodeBlocks files) as [bs'|]; [|discriminate]. simpl in E.
    injection E as <-. apply in_app_or in Hb as [Hb|Hb].
    + destruct entry as [f|]; [|discriminate]. exists f. split; [now left|].
      simpl in E1. destruct (shouldSkipFile (filename f)).
      * injection E1 as <-. destruct Hb.
      * destruct (patch f) as [|[|c p]|]; try discriminate;
          injection E1 as <-; try destruct Hb.
        now apply blocksOfPatch_file in Hb.
    + destruct (IH bs' eq_refl Hb) as (f & Hf & Hn). exists f.
      split; [now right | exact Hn].
Qed.

Lemma findDuplicates_one_name (blocks : list CodeBlock) (name : str) :
  (forall b, In b blocks -> file b = name) -> findDuplicates blocks = [].
Proof.
  intros H.
  assert (Forall (fun _ => False) (findDuplicates blocks)) as HF.
  { apply findDuplicates_Forall.
    - split; auto.
    - intros b1 b2 sim H1 H2 Hne _. apply Hne.
      now rewrite (H b1 H1), (H b2 H2). }
  destruct (findDuplicates blocks); [reflexivity|]. now inversion HF.
Qed.

Local Opaque Qred.

(** X15: duplicates are only looked for across files.  When every entry of
    the list has the same file name -- in particular for a pull request
    that touches one file -- the report has no finding, no duplicated line,
    percentage [0] and severity [low]. *)
Theorem one_file_no_findings (files : list (option PrFile)) (name : str) :
  (forall f, In (Some f) files -> filename f = name) ->
  let r := analyzeDuplication (Some files) in
  duplicateBlocks r = [] /\ duplicatedLines r = 0
  /\ (percentage r == 0)%Q /\ severity r = low.
Proof.
  intros H. cbv zeta.
  destruct (analyzeDuplication_cases (Some files)) as [->|(r & Hr & ->)].
  - repeat split; reflexivity.
  - unfold analyze in Hr.
    destruct (extractCodeBlocks files) as [bs|] eqn:Hb; [|discriminate].
    cbn [bind] in Hr.
    destruct (calculateTotalLines files) as [n|]; [|discriminate].
    cbn [bind] in Hr.
    assert (findDuplicates bs = []) as E.
    { apply (findDuplicates_one_name bs name). intros b Hin.
      destruct (extractCodeBlocks_files files bs b Hb Hin) as (f & Hf & ->).
      now apply H. }
    rewrite E in Hr. injection Hr as <-.
    cbn [duplicateBlocks duplicatedLines percentage severity].
    change (calculateDuplicatedLines []) with 0.
    assert ((if 0 <? n then (inject_Z 0 / inject_Z n * 100)%Q else 0%Q) == 0)%Q
      as Hz.
    { destruct (0 <? n); [|reflexivity]. unfold Qdiv. ring. }
    repeat split.
    + rewrite Qred_correct.
      assert ((if 0 <? n
               then mulDouble (divDouble (inject_Z 0) (inject_Z n)) 100
               else 0%Q) = 0%Q) as ->.
      { destruct (0 <? n); [|reflexivity]. unfold mulDouble, divDouble.
        rewrite (roundDouble_zero (inject_Z 0 / inject_Z n))
          by (unfold Qdiv; ring).
        now apply roundDouble_zero. }
      reflexivity.
    + unfold calculateSeverity.
      assert (Qle_bool 30 (if 0 <? n then (inject_Z 0 / inject_Z n * 100)%Q
                           else 0%Q) = false) as ->.
      { destruct (Qle_bool 30 _) eqn:Eb; [|reflexivity].
        apply Qle_bool_iff in Eb. rewrite Hz in Eb. exfalso. apply Eb. reflexivity. }
      assert (Qle_bool 15 (if 0 <? n then (inject_Z 0 / inject_Z n * 100)%Q
                           else 0%Q) = false) as ->.
      { destruct (Qle_bool 15 _) eqn:Eb; [|reflexivity].
        apply Qle_bool_iff in Eb. rewrite Hz in Eb. exfalso. apply Eb. reflexivity. }
      reflexivity.
Qed.

Local Transparent Qred.

Lemma one_file_no_findings_witness :
  (forall f, In (Some f) oneFileTwice -> filename f = lit "src/a.ts")
  /\ duplicateBlocks (analyzeDuplication (Some oneFileTwice)) = [].
Proof.
  assert (forall f, In (Some f) oneFileTwice -> filename f = lit "src/a.ts") as H.
  { intros f [E|[]]. injection E as <-. reflexivity. }
  split; [exact H|].
  exact (proj1 (one_file_no_findings oneFileTwice (lit "src/a.ts") H)).
Defined.

End OneFile.

(** * Which files are skipped *)

Section Skipping.

Lemma startsWith_app (p s t : str) :
  startsWith p s = true -> startsWith p (s ++ t) = true.
Proof.
  revert s. induction p as [|x p IH]; intros [|y s]; simpl; try congruence.
  rewrite !andb_true_iff. intros [H1 H2]. split; [exact H1 | now apply IH].
Qed.

Lemma startsWith_trans (a b s : str) :
  startsWith a b = true -> startsWith b s = true -> startsWith a s = true.
Proof.
  revert b s. induction a as [|x a IH]; intros [|y b] [|z s]; simpl;
    try congruence.
  rewrite !andb_true_iff. intros [H1 H2] [H3 H4]. split.
  - apply Ascii.eqb_eq in H1, H3. subst. apply Ascii.eqb_refl.
  - eapply IH; eauto.
Qed.

Lemma endsWith_prefix (p dir s : str) :
  endsWith p s = true -> endsWith p (dir ++ s) = true.
Proof. unfold endsWith. rewrite rev_app_distr. apply startsWith_app. Qed.

Lemma includes_prefix (p dir s : str) :
  includes p s = true -> includes p (dir ++ s) = true.
Proof.
  intros H. induction dir as [|c dir IH]; [exact H|].
  cbn [app includes]. rewrite IH. apply orb_true_r.
Qed.

(** X16: a skipped file stays skipped in whatever directory it lies: no
    pattern is anchored at the start of the name. *)
Theorem shouldSkipFile_in_directory (dir name : str) :
  shouldSkipFile name = true -> shouldSkipFile (dir ++ name) = true.
Proof.
  unfold shouldSkipFile. intros H.
  repeat match goal with
         | H : (_ || _) = true |- _ => apply orb_true_iff in H as [H|H]
         end;
    first [apply (endsWith_prefix _ dir) in H
          |apply (includes_prefix _ dir) in H];
    rewrite H; rewrite ?orb_true_r; reflexivity.
Qed.

Lemma shouldSkipFile_in_directory_witness :
  shouldSkipFile "config.json" = true
  /\ shouldSkipFile ("packages/api/" ++ "config.json") = true.
Proof.
  split; [reflexivity|].
  apply (shouldSkipFile_in_directory "packages/api/" "config.json"). reflexivity.
Defined.

(** X17: two of the fifteen patterns never decide: a name that ends with
    [package-lock.json] ends with [.json], and one that ends with
    [yarn.lock] ends with [.lock]. *)
Theorem shouldSkipFile_thirteen_patterns (name : str) :
  shouldSkipFile name
  = (endsWith ".json" name || endsWith ".md" name || endsWith ".txt" name
     || endsWith ".yaml" name || endsWith ".yml" name || endsWith ".lock" name
     || endsWith ".min.js" name
     || includes ".test." name || includes ".spec." name
     || includes "/__tests__/" name || includes "/node_modules/" name
     || includes "/dist/" name || includes "/build/" name).
Proof.
  unfold shouldSkipFile.
  assert (endsWith "package-lock.json" name = true -> endsWith ".json" name = true)
    as H1.
  { unfold endsWith. now apply startsWith_trans. }
  assert (endsWith "yarn.lock" name = true -> endsWith ".lock" name = true) as H2.
  { unfold endsWith. now apply startsWith_trans. }
  destruct (endsWith "package-lock.json" name);
    [rewrite (H1 eq_refl); reflexivity|].
  destruct (endsWith "yarn.lock" name).
  - rewrite (H2 eq_refl). rewrite !orb_true_r.
    destruct (endsWith ".json" name), (endsWith ".md" name),
      (endsWith ".txt" name), (endsWith ".yaml" name), (endsWith ".yml" name);
      reflexivity.
  - now rewrite !orb_false_r.
Qed.

End Skipping.

(** * The review service *)

Section Review.

Lemma analyzeDuplication_nil :
  analyzeDuplication (Some []) = mkReport 0 low [] 0 0.
Proof. vm_compute. reflexivity. Qed.

(** X18: in every review that the service returns, [duplicationAnalysis]
    is the analysis of the files fetched for the pull request; the literal
    returned for a pull request without files is what the analysis of an
    empty list gives. *)
Theorem reviewPullRequest_analysis (S : Services) (prUrl : str)
  (userToken : option str) (r : PrReviewResponse) :
  reviewPullRequest S prUrl userToken = Ok r ->
  exists ref files,
    parsePrUrl S prUrl = Ok ref
    /\ getPrFiles S userToken ref = Ok files
    /\ duplicationAnalysis r = analyzeDuplication (Some files)
    /\ (files = [] -> review r = noFileChanges).
Proof.
  unfold reviewPullRequest. intros H.
  destruct (parsePrUrl S prUrl) as [ref|] eqn:E1; [|discriminate].
  cbn [bind] in H.
  destruct (getPrMetadata S userToken ref) as [m|]; [|discriminate].
  cbn [bind] in H.
  destruct (getPrFiles S userToken ref) as [files|] eqn:E3; [|discriminate].
  cbn [bind] in H. exists ref, files. split; [reflexivity|]. split; [exact E3|].
  destruct files as [|f files].
  - injection H as <-. split; [|reflexivity].
    symmetry. apply analyzeDuplication_nil.
  - destruct (chunkDiff S (f :: files)) as [d|]; [|discriminate]. cbn [bind] in H.
    destruct (reviewDiff S d (title S m)) as [rv|]; [|discriminate].
    cbn [bind] in H. injection H as <-. split; [reflexivity | discriminate].
Qed.

Lemma reviewPullRequest_analysis_witness :
  exists r,
    reviewPullRequest (fixedServices twoCopies) "https://github.com/o/r/pull/1" None
    = Ok r
    /\ exists ref files,
         parsePrUrl (fixedServices twoCopies) "https://github.com/o/r/pull/1"
         = Ok ref
         /\ getPrFiles (fixedServices twoCopies) None ref = Ok files
         /\ duplicationAnalysis r = analyzeDuplication (Some files)
         /\ (files = [] -> review r = noFileChanges).
Proof.
  eexists. split; [reflexivity|].
  apply (reviewPullRequest_analysis (fixedServices twoCopies)). reflexivity.
Defined.

End Review.

(** * The session cookie *)

Section Cookie.

(** X19: the logout route clears the cookie with the attributes it was set
    with (all but [maxAge]), whatever [NODE_ENV] is, and [SameSite=None] is
    only used together with [Secure]. *)
Theorem cookie_options_agree (nodeEnv : str) :
  httpOnly (clearCookieOptions nodeEnv) = httpOnly (setCookieOptions nodeEnv)
  /\ secure (clearCookieOptions nodeEnv) = secure (setCookieOptions nodeEnv)
  /\ sameSite (clearCookieOptions nodeEnv) = sameSite (setCookieOptions nodeEnv)
  /\ cookiePath (clearCookieOptions nodeEnv) = cookiePath (setCookieOptions nodeEnv)
  /\ (sameSite (setCookieOptions nodeEnv) = SameSiteNone
      <-> secure (setCookieOptions nodeEnv) = true).
Proof.
  unfold clearCookieOptions, setCookieOptions.
  cbn [httpOnly secure sameSite cookiePath].
  destruct (Str.eqb nodeEnv "production"); repeat split; congruence.
Qed.

End Cookie.

(** * The result page *)

Section ResultPage.

Lemma split_cons (c : ascii) (s : str) :
  exists p ps, Str.split c s = p :: ps.
Proof.
  induction s as [|x s (p & ps & E)]; simpl; [now eexists; eexists|].
  destruct (Ascii.eqb x c); [now eexists; eexists|].
  rewrite E. now eexists; eexists.
Qed.

Lemma join_split (c : ascii) (s : str) : join [c] (Str.split c s) = s.
Proof.
  induction s as [|x s IH]; simpl; [reflexivity|].
  destruct (split_cons c s) as (p & ps & E). rewrite E in IH |- *.
  destruct (Ascii.eqb x c) eqn:Ex.
  - apply Ascii.eqb_eq in Ex as ->.
    change (join [c] ([] :: p :: ps)) with (c :: join [c] (p :: ps)).
    now rewrite IH.
  - destruct ps as [|q ps].
    + simpl in IH |- *. now rewrite IH.
    + change (join [c] ((x :: p) :: q :: ps))
        with (x :: (p ++ [c] ++ join [c] (q :: ps))).
      change (join [c] (p :: q :: ps)) with (p ++ [c] ++ join [c] (q :: ps)) in IH.
      now rewrite IH.
Qed.

Lemma split_parts (c : ascii) (s : str) :
  Forall (fun p => forallb (fun x => negb (Ascii.eqb x c)) p = true)
         (Str.split c s).
Proof.
  induction s as [|x s IH]; simpl; [repeat constructor|].
  destruct (Ascii.eqb x c) eqn:Ex; [now constructor|].
  destruct (Str.split c s) as [|p ps]; [repeat constructor; simpl; now rewrite Ex|].
  inversion IH; subst. constructor; [|assumption]. simpl. now rewrite Ex.
Qed.

Lemma join_last (sep : str) (parts : list str) :
  join sep parts = last parts []
  \/ exists dir, join sep parts = dir ++ sep ++ last parts [].
Proof.
  induction parts as [|p [|q parts] IH]; [now left | now left |].
  right. change (join sep (p :: q :: parts)) with (p ++ sep ++ join sep (q :: parts)).
  change (last (p :: q :: parts) []) with (last (q :: parts) []).
  destruct IH as [->|(dir & ->)].
  - now exists p.
  - exists (p ++ sep ++ dir). now rewrite <- !app_assoc.
Qed.

(** X20: the name shown for a file is the part of its path after the last
    [/]: it holds no [/], the path is that name or ends with [/] and that
    name, and formatting a name again changes nothing. *)
Theorem formatFileName_spec (path : str) :
  noSlash (formatFileName path) = true
  /\ (path = formatFileName path
      \/ exists dir, path = dir ++ "/" ++ formatFileName path)
  /\ formatFileName (formatFileName path) = formatFileName path.
Proof.
  unfold formatFileName.
  assert (noSlash (last (Str.split "/"%char path) []) = true) as Hn.
  { pose proof (split_parts "/"%char path) as H.
    destruct (split_cons "/"%char path) as (p & ps & E). rewrite E in H |- *.
    apply (proj1 (Forall_forall _ _) H). clear.
    revert p. induction ps as [|q ps IH]; intros p; [now left|].
    right. apply IH. }
  split; [exact Hn|]. split.
  - pose proof (join_last "/" (Str.split "/"%char path)) as H.
    change (lit "/") with ["/"%char] in H. rewrite join_split in H.
    destruct H as [H|(dir & H)]; [now left | right; now exists dir].
  - now rewrite (split_last "/"%char _ Hn).
Qed.

Lemma StronglySorted_app_inv {A : Type} (R : A -> A -> Prop) (a b : list A) :
  StronglySorted R (a ++ b) -> forall x y, In x a -> In y b -> R x y.
Proof.
  induction a as [|z a IH]; simpl; intros H x y Hx Hy; [destruct Hx|].
  apply StronglySorted_inv in H as [Hs Hz]. destruct Hx as [->|Hx].
  - eapply Forall_forall; [exact Hz|]. apply in_or_app. now right.
  - now apply IH.
Qed.

(** X21: the result page renders the first ten findings of the report, and
    these are the ten that rank highest: every finding that is rendered
    ranks before every finding that is left out (a larger cluster first,
    then a higher similarity). *)
Theorem shownBlocks_rank_first (files : option (list (option PrFile)))
  (s h : DuplicateBlock) :
  let blocks := duplicateBlocks (analyzeDuplication files) in
  In s (shownBlocks blocks) -> In h (skipn 10 blocks) -> ranksBefore s h.
Proof.
  cbv zeta. unfold shownBlocks.
  destruct (report_blocks files) as [->|(l & bs & _ & _ & ->)].
  - intros [].
  - intros Hs Hh.
    apply (StronglySorted_app_inv ranksBefore
             (firstn 10 (findDuplicates bs)) (skipn 10 (findDuplicates bs)));
      [|exact Hs | exact Hh].
    rewrite firstn_skipn. apply findDuplicates_sorted.
Qed.

Example elevenPairs_findings :
  length (duplicateBlocks (analyzeDuplication (Some elevenPairs))) = 11%nat.
Proof. vm_compute. reflexivity. Qed.

Lemma shownBlocks_rank_first_witness :
  let blocks := duplicateBlocks (analyzeDuplication (Some elevenPairs)) in
  let none := mkDup [] [] (mkRange 0 0) (mkRange 0 0) [] 0 None None None in
  In (nth 0 blocks none) (shownBlocks blocks)
  /\ In (nth 10 blocks none) (skipn 10 blocks)
  /\ ranksBefore (nth 0 blocks none) (nth 10 blocks none).
Proof.
  cbv zeta.
  set (blocks := duplicateBlocks (analyzeDuplication (Some elevenPairs))).
  set (none := mkDup [] [] (mkRange 0 0) (mkRange 0 0) [] 0 None None None).
  assert (In (nth 0 blocks none) (shownBlocks blocks)) as Hs
    by (vm_compute; left; reflexivity).
  assert (In (nth 10 blocks none) (skipn 10 blocks)) as Hh
    by (vm_compute; left; reflexivity).
  split; [exact Hs|]. split; [exact Hh|].
  exact (shownBlocks_rank_first (Some elevenPairs) _ _ Hs Hh).
Defined.

Lemma mathRound_mono (x y : Q) : (x <= y)%Q -> mathRound x <= mathRound y.
Proof.
  intros H. unfold mathRound. apply Qfloor_resp_le. now apply Qplus_le_l.
Qed.

Lemma mathRound_Z (n : Z) : mathRound (inject_Z n) = n.
Proof.
  unfold mathRound.
  assert (inject_Z n <= inject_Z n + (1 # 2))%Q as H1.
  { rewrite <- (Qplus_0_r (inject_Z n)) at 1. apply Qplus_le_r. discriminate. }
  assert (inject_Z n + (1 # 2) < inject_Z (n + 1))%Q as H2.
  { rewrite inject_Z_plus. apply Qplus_lt_r. reflexivity. }
  apply Z.le_antisymm.
  - apply Z.lt_succ_r. rewrite Zlt_Qlt. eapply Qle_lt_trans; [apply Qfloor_le|].
    exact H2.
  - rewrite <- (Qfloor_Z n) at 1. now apply Qfloor_resp_le.
Qed.

(** X22: what the page shows for the findings of a report.  The badge of a
    finding shows a percentage between 85 and 100, and it reads
    [100% Match] exactly when the similarity is at least 0.995; a finding
    shown as a pattern ([isCluster]) always carries its [allFiles] list,
    which names at least three files. *)
Theorem report_display (files : option (list (option PrFile))) :
  Forall (fun b =>
            85 <= mathRound (similarity b * 100) <= 100
            /\ (getSimilarityBadge (similarity b) = (destructive, "100% Match" : str)
                <-> (199 # 200 <= similarity b)%Q)
            /\ (isCluster b = true ->
                exists af, allFiles b = Some af
                           /\ (3 <= distinctFiles af)%nat))
         (duplicateBlocks (analyzeDuplication files)).
Proof.
  apply Forall_forall. intros b Hb.
  assert (similarityBound b /\ clusterConsistent b /\ clusterFields b)
    as (Hs & Hc & Hf).
  { destruct (report_blocks files) as [E|(l & bs & _ & _ & E)]; rewrite E in Hb.
    - destruct Hb.
    - split; [|split].
      + eapply Forall_forall; [apply findDuplicates_bound | exact Hb].
      + eapply Forall_forall; [|exact Hb]. unfold findDuplicates.
        apply sortBy_Forall, clusterDuplicatesByPattern_consistent,
          detectPairs_unclustered.
      + eapply Forall_forall; [|exact Hb]. unfold findDuplicates.
        apply sortBy_Forall. unfold clusterDuplicatesByPattern.
        apply Forall_flat_map.
        eapply Forall_impl; [|apply clustersOf_within].
        intros c Hcl. apply clusterFinding_fields, Forall_forall.
        intros x Hx. eapply Forall_forall; [apply barePair_merged | now apply Hcl]. }
  destruct Hs as [Hlo Hhi].
  assert (85 <= mathRound (similarity b * 100) <= 100) as Hr.
  { split.
    - rewrite <- (mathRound_Z 85). apply mathRound_mono.
      setoid_replace (inject_Z 85) with (SIMILARITY_THRESHOLD * 100)%Q
        by reflexivity.
      apply Qmult_le_compat_r; [exact Hlo | discriminate].
    - rewrite <- (mathRound_Z 100) at 2. apply mathRound_mono.
      setoid_replace (inject_Z 100) with (1 * 100)%Q by reflexivity.
      apply Qmult_le_compat_r; [exact Hhi | discriminate]. }
  split; [exact Hr|]. split.
  - unfold getSimilarityBadge.
    assert (mathRound (similarity b * 100) = 100 <-> (199 # 200 <= similarity b)%Q)
      as Hiff.
    { split.
      - intros E. destruct (mathRound_bounds (similarity b * 100)) as [_ H2].
        rewrite E in H2.
        apply (proj1 (Qmult_le_r _ _ 100%Q ltac:(reflexivity))).
        apply (proj1 (Qplus_le_l _ _ (1 # 2)%Q)).
        eapply Qle_trans; [|exact H2].
        apply Qle_bool_iff. reflexivity.
      - intros H. apply Z.le_antisymm; [apply Hr|].
        change 100 with (Qfloor (inject_Z 100)) at 1. unfold mathRound.
        apply Qfloor_resp_le.
        apply Qle_trans with ((199 # 200) * 100 + (1 # 2))%Q;
          [apply Qle_bool_iff; reflexivity|].
        apply Qplus_le_l. apply Qmult_le_compat_r; [exact H | discriminate]. }
    destruct (mathRound (similarity b * 100) =? 100) eqn:E100.
    + apply Z.eqb_eq in E100. split; [intros _; now apply Hiff | reflexivity].
    + apply Z.eqb_neq in E100. split.
      * intros E. exfalso.
        destruct (90 <=? _); [|discriminate E].
        injection E as E. apply (f_equal (@rev ascii)) in E.
        rewrite rev_app_distr in E. unfold lit in E.
        cbn [String.list_ascii_of_string rev app] in E. discriminate E.
      * intros H. exfalso. apply E100. now apply Hiff.
  - unfold isCluster. intros Hcl. unfold clusterFields in Hf.
    destruct (clusterSize b) as [n|] eqn:En; [|discriminate].
    apply Z.ltb_lt in Hcl. destruct Hf as (_ & _ & af & Haf & _).
    exists af. split; [exact Haf|].
    destruct (Hc n af En Haf) as [Hn _]. lia.
Qed.

End ResultPage.

(** * The detector is sound and complete *)

Section Detector.

Variable blocks : list CodeBlock.

Lemma pushUnseen_keeps (P : DuplicateBlock -> Prop) (st : detState)
  (b1 b2 : CodeBlock) (sim : Q) :
  Forall P (fst st) -> P (pairOf b1 b2 sim) ->
  Forall P (fst (pushUnseen st b1 b2 sim)).
Proof.
  destruct st as [ds seen]. unfold pushUnseen. simpl. intros H Hp.
  destruct (seenHas seen _); simpl; [exact H|].
  apply Forall_app. split; [exact H | now repeat constructor].
Qed.

Lemma exactSteps_from (ps : list (CodeBlock * CodeBlock)) (st : detState) :
  Forall (fun p => In (fst p) blocks /\ In (snd p) blocks
                   /\ hash (fst p) = hash (snd p)) ps ->
  Forall (detectedFrom blocks) (fst st) ->
  Forall (detectedFrom blocks) (fst (fold_left exactStep ps st)).
Proof.
  intros Hps. revert st.
  induction Hps as [|[b1 b2] ps (H1 & H2 & Hh) _ IH]; simpl; intros st Hst;
    [exact Hst|].
  apply IH. simpl in *. destruct (Str.eqb (file b1) (file b2)) eqn:E; [exact Hst|].
  apply pushUnseen_keeps; [exact Hst|].
  apply Str_eqb_neq in E. exists b1, b2. repeat split; auto.
Qed.

Lemma fuzzySteps_from (ps : list (CodeBlock * CodeBlock)) (st : detState) :
  Forall (fun p => In (fst p) blocks /\ In (snd p) blocks) ps ->
  Forall (detectedFrom blocks) (fst st) ->
  Forall (detectedFrom blocks) (fst (fold_left fuzzyStep ps st)).
Proof.
  intros Hps. revert st.
  induction Hps as [|[b1 b2] ps (H1 & H2) _ IH]; simpl; intros st Hst;
    [exact Hst|].
  apply IH. simpl in *. destruct (Str.eqb (file b1) (file b2)) eqn:E; [exact Hst|].
  destruct (Qle_bool SIMILARITY_THRESHOLD _ && negb (Qle_bool 1 _)) eqn:Es;
    [|exact Hst].
  apply pushUnseen_keeps; [exact Hst|].
  apply Str_eqb_neq in E. apply andb_true_iff in Es as [Elo Ehi].
  apply Qle_bool_iff in Elo. apply negb_true_iff in Ehi.
  exists b1, b2. repeat split; auto. right. simpl. repeat split; auto.
  apply Qnot_le_lt. intros H. apply Qle_bool_iff in H. congruence.
Qed.

(** X23: the detector is sound.  Every pair it emits is made of two blocks
    of the input that lie in different files: it takes its files, ranges
    and code from them, and either the two blocks have the same hash and
    the similarity is 1, or the similarity is the Jaccard similarity of
    their normalized code, which is in [[0.85, 1)]. *)
Theorem detectPairs_sound :
  Forall (detectedFrom blocks) (detectPairs blocks).
Proof.
  unfold detectPairs, fuzzyPass. apply fuzzySteps_from.
  - apply Forall_forall. intros [b1 b2] H. now apply pairsOf_In in H.
  - unfold exactPass.
    pose proof (groupBy_key hash blocks) as Hk.
    assert (Forall (fun g => incl (snd g) blocks) (groupBy hash blocks)) as Hin.
    { apply Forall_forall. intros g Hg x Hx. eapply groupBy_In; eauto. }
    assert (Forall (detectedFrom blocks) (fst (([], []) : detState))) as H0
      by constructor.
    revert H0. generalize (([], []) : detState) as st.
    induction (groupBy hash blocks) as [|g gs IH]; simpl; intros st Hst;
      [exact Hst|].
    inversion Hk as [|? ? Hg Hk']; subst. inversion Hin as [|? ? Hi Hin']; subst.
    apply IH; trivial. apply exactSteps_from; [|exact Hst].
    apply Forall_forall. intros [b1 b2] Hp. apply pairsOf_In in Hp as [Hb1 Hb2].
    simpl. repeat split; auto.
    rewrite (proj1 (Forall_forall _ _) Hg b1 Hb1).
    now rewrite (proj1 (Forall_forall _ _) Hg b2 Hb2).
Qed.

End Detector.

Section DetectorComplete.

Lemma pairsOf_split {A : Type} (l1 l2 l3 : list A) (x y : A) :
  In (x, y) (pairsOf (l1 ++ x :: l2 ++ y :: l3)).
Proof.
  induction l1 as [|z l1 IH]; simpl; apply in_or_app.
  - left. apply in_map, in_or_app. right. now left.
  - now right.
Qed.

Lemma pushUnseen_keyed (st : detState) (b1 b2 : CodeBlock) (sim : Q) :
  seenExact st ->
  In (createDuplicateKey b1 b2) (map findingKey (fst (pushUnseen st b1 b2 sim))).
Proof.
  destruct st as [ds seen]. unfold seenExact, pushUnseen. simpl. intros [E N].
  destruct (seenHas seen _) eqn:H; simpl.
  - rewrite E. apply in_rev. rewrite rev_involutive. now apply seenHas_In.
  - rewrite map_app. apply in_or_app. right. now left.
Qed.

Lemma fuzzyStep_seenExact (st : detState) (p : CodeBlock * CodeBlock) :
  seenExact st -> seenExact (fuzzyStep st p).
Proof.
  destruct p as [b1 b2]. unfold fuzzyStep. intros H.
  destruct (Str.eqb _ _); [exact H|].
  destruct (_ && _); [now apply pushUnseen_seenExact | exact H].
Qed.

Lemma exactPass_seenExact (blocks : list CodeBlock) :
  seenExact (exactPass blocks ([], [])).
Proof.
  unfold exactPass.
  assert (seenExact ([], [])) as H0 by (split; constructor).
  revert H0. generalize (([], []) : detState) as st.
  induction (groupBy hash blocks) as [|g gs IH]; simpl; intros st H; [exact H|].
  apply IH. apply steps_seenExact; [|exact H].
  intros st' [b1 b2] H'. unfold exactStep.
  destruct (Str.eqb _ _); [exact H'|]. now apply pushUnseen_seenExact.
Qed.

Lemma fuzzySteps_keyed (ps1 ps2 : list (CodeBlock * CodeBlock)) (st : detState)
  (b1 b2 : CodeBlock) :
  seenExact st -> file b1 <> file b2 ->
  (SIMILARITY_THRESHOLD
   <= calculateSimilarity (normalizedCode b1) (normalizedCode b2))%Q ->
  (calculateSimilarity (normalizedCode b1) (normalizedCode b2) < 1)%Q ->
  In (createDuplicateKey b1 b2)
     (map findingKey (fst (fold_left fuzzyStep (ps1 ++ (b1, b2) :: ps2) st))).
Proof.
  intros Hst Hf Hlo Hhi. rewrite fold_left_app. cbn [fold_left].
  set (st1 := fold_left fuzzyStep ps1 st).
  assert (seenExact st1) as H1.
  { unfold st1. apply steps_seenExact; [|exact Hst].
    intros s p. apply fuzzyStep_seenExact. }
  destruct (fuzzySteps_grow ps2 (fuzzyStep st1 (b1, b2))) as (m & ->).
  rewrite map_app. apply in_or_app. left.
  unfold fuzzyStep. apply Str_eqb_neq in Hf. rewrite Hf.
  apply Qle_bool_iff in Hlo. rewrite Hlo.
  assert (Qle_bool 1 (calculateSimilarity (normalizedCode b1) (normalizedCode b2))
          = false) as ->.
  { destruct (Qle_bool 1 _) eqn:E; [|reflexivity]. apply Qle_bool_iff in E.
    exfalso. now apply (Qlt_not_le _ _ Hhi). }
  cbn [andb negb]. now apply pushUnseen_keyed.
Qed.

(** X24: the detector is complete.  Two blocks of different files that
    have the same hash, or normalized code of a Jaccard similarity in
    [[0.85, 1)], are reported: the detector emits a pair under their dedup
    key. *)
Theorem detectPairs_complete (l1 l2 l3 : list CodeBlock) (b1 b2 : CodeBlock) :
  qualifies b1 b2 ->
  exists d, In d (detectPairs (l1 ++ b1 :: l2 ++ b2 :: l3))
            /\ findingKey d = createDuplicateKey b1 b2.
Proof.
  intros [Hf [Hh|[Hlo Hhi]]].
  - destruct (exact_match_recorded l1 l2 l3 b1 b2 Hh Hf) as (d & Hd & Hk & _).
    now exists d.
  - set (blocks := l1 ++ b1 :: l2 ++ b2 :: l3).
    destruct (in_split _ _ (pairsOf_split l1 l2 l3 b1 b2)) as (ps1 & ps2 & E).
    fold blocks in E.
    pose proof (fuzzySteps_keyed ps1 ps2 (exactPass blocks ([], [])) b1 b2
                  (exactPass_seenExact blocks) Hf Hlo Hhi) as H.
    rewrite <- E in H. apply in_map_iff in H as (d & Hk & Hd).
    exists d. split; [exact Hd | exact Hk].
Qed.

Lemma detectPairs_complete_witness :
  qualifies (sampleBlock "src/a.ts") (sampleBlock "src/b.ts")
  /\ exists d,
       In d (detectPairs ([] ++ sampleBlock "src/a.ts"
                             :: [] ++ sampleBlock "src/b.ts" :: []))
       /\ findingKey d
          = createDuplicateKey (sampleBlock "src/a.ts") (sampleBlock "src/b.ts").
Proof.
  assert (qualifies (sampleBlock "src/a.ts") (sampleBlock "src/b.ts")) as H.
  { split; [intros E; vm_compute in E; discriminate E|].
    left. vm_compute. reflexivity. }
  split; [exact H|].
  exact (detectPairs_complete [] [] [] _ _ H).
Defined.

End DetectorComplete.

(** * The format of the fingerprint *)

Section Fingerprint.

Lemma hexDigits_hex :
  forallb (fun k => isHexDigit (MD5.hexDigit (Z.of_nat k))) (seq 0 16) = true.
Proof. reflexivity. Qed.

Lemma hexDigit_hex (n : Z) : 0 <= n < 16 -> isHexDigit (MD5.hexDigit n) = true.
Proof.
  intros Hn. rewrite <- (Z2Nat.id n) by lia.
  apply (proj1 (forallb_forall _ _) hexDigits_hex). apply in_seq. lia.
Qed.

Lemma hexWord_format (w : Z) :
  length (MD5.hexWord w) = 8%nat /\ forallb isHexDigit (MD5.hexWord w) = true.
Proof.
  unfold MD5.hexWord. cbn [seq flat_map app length forallb].
  split; [reflexivity|].
  assert (forall x, isHexDigit (MD5.hexDigit (Z.shiftr (Z.land x 255) 4)) = true)
    as H1.
  { intros x. apply hexDigit_hex. change 255 with (Z.ones 8).
    rewrite Z.land_ones by lia. rewrite Z.shiftr_div_pow2 by lia.
    pose proof (Z.mod_pos_bound x (2 ^ 8) ltac:(lia)) as Hb.
    split; [apply Z.div_pos; lia|].
    apply Z.div_lt_upper_bound; [lia|]. change (2 ^ 4 * 16) with (2 ^ 8). lia. }
  assert (forall x, isHexDigit (MD5.hexDigit (Z.land x 15)) = true) as H2.
  { intros x. apply hexDigit_hex. change 15 with (Z.ones 4).
    rewrite Z.land_ones by lia. apply Z.mod_pos_bound. lia. }
  now rewrite !H1, !H2.
Qed.

(** X25: a fingerprint is always 32 lower-case hexadecimal digits. *)
Theorem hashCode_format (s : str) :
  length (hashCode s) = 32%nat /\ forallb isHexDigit (hashCode s) = true.
Proof.
  unfold hashCode, MD5.digestHex.
  destruct (MD5.chunks _ _ _) as [[[a b] c] d].
  destruct (hexWord_format a) as [La Ha], (hexWord_format b) as [Lb Hb],
    (hexWord_format c) as [Lc Hc], (hexWord_format d) as [Ld Hd].
  split.
  - rewrite !length_app. lia.
  - rewrite !forallb_app, Ha, Hb, Hc, Hd. reflexivity.
Qed.

End Fingerprint.
